(** * pathx: path expressions over a labelled tree

    A shallow embedding of [src/pathx.c] (parser, type checker, evaluator,
    axis traversal and public entry points) together with the properties
    of the specification that are settled against it.

    Conventions of the embedding.
    - A [struct tree *] is a [node] (an address) into a [heap]; [NULL] is
      [None].  Dereferencing an address that is not in the heap has no
      defined result and is the outcome [Abort], as is a failing
      [assert], and as is a read through a pointer into the value pool
      that was taken before [REALLOC_N] gave the pool a new block.
    - Loops over the tree and the mutually recursive parser and evaluator
      take a [fuel] bound; running out of it is the outcome [OutOfFuel],
      which is distinct from every result of the C code.
    - The C allocator is taken to succeed ([ALLOC], [REALLOC_N], [strdup]);
      [PATHX_ENOMEM] arises only from the explicit overflow guard of
      [make_value].
    - [int] and [uint] are 32 bits wide, [unsigned long] 64 bits (LP64). *)

From Stdlib Require Import ZArith Ascii String List Bool Lia.
From stdpp Require Import base option list gmap strings.

Local Open Scope string_scope.
Local Open Scope list_scope.
Local Open Scope Z_scope.

(** ** Outcomes of a run *)

Inductive outcome (A : Type) : Type :=
| Ok (a : A)
| Abort
| OutOfFuel.
Arguments Ok {A} a.
Arguments Abort {A}.
Arguments OutOfFuel {A}.

Definition obind {A B : Type} (m : outcome A) (k : A -> outcome B) : outcome B :=
  match m with
  | Ok a => k a
  | Abort => Abort
  | OutOfFuel => OutOfFuel
  end.

Declare Scope outcome_scope.
Delimit Scope outcome_scope with outcome.
Notation "'do' x <- m ; k" := (obind m (fun x => k))
  (at level 10, x name, m at level 100, k at level 200) : outcome_scope.
Notation "'do' ' p <- m ; k" := (obind m (fun x => match x with p => k end))
  (at level 10, p pattern, m at level 100, k at level 200) : outcome_scope.
Local Open Scope outcome_scope.

(** ** Machine integers *)

Definition uint_wrap (z : Z) : Z := z mod 2 ^ 32.

(** Conversion of a value to [int]: reduction modulo 2^32 into the signed
    range, as gcc defines the out-of-range case. *)
Definition int_wrap (z : Z) : Z := (z + 2 ^ 31) mod 2 ^ 32 - 2 ^ 31.

Definition ULONG_BITS : Z := 64.
Definition ULONG_MAX : Z := 2 ^ ULONG_BITS - 1.
Definition ulong_wrap (z : Z) : Z := z mod 2 ^ ULONG_BITS.

(** ** Characters of the C locale *)

Definition char_code (c : ascii) : Z := Z.of_N (N_of_ascii c).

Definition isspace (c : ascii) : bool :=
  let n := char_code c in (n =? 32) || ((9 <=? n) && (n <=? 13)).

Definition isalpha (c : ascii) : bool :=
  let n := char_code c in
  ((65 <=? n) && (n <=? 90)) || ((97 <=? n) && (n <=? 122)).

Definition isdigit (c : ascii) : bool :=
  let n := char_code c in (48 <=? n) && (n <=? 57).

Definition NUL : ascii := Ascii.zero.
Definition L_BRACK : ascii := "["%char.
Definition R_BRACK : ascii := "]"%char.
Definition SEP : ascii := "/"%char.

(** The double quote, and the string of the two quote characters. *)
Definition DQUOTE : ascii := ascii_of_nat 34.
Definition quotes : string := String "'"%char (String DQUOTE EmptyString).

Definition ascii_eqb (a b : ascii) : bool := Ascii.eqb a b.

(** ** Strings and [streqx] *)

(** [strlen(s) == 0] *)
Definition str_empty (s : string) : bool :=
  match s with EmptyString => true | String _ _ => false end.

(** We consider NULL and the empty string to be equal. *)
Definition streqx (s1 s2 : option string) : bool :=
  match s1, s2 with
  | None, None => true
  | None, Some b => str_empty b
  | Some a, None => str_empty a
  | Some a, Some b => String.eqb a b
  end.

(** ** The tree *)

Definition node : Type := nat.

(** Modelled from the spec: [struct tree] is declared in [internal.h], which
    is not among the sources.  The fields are the ones the specification
    lists for a tree node: label and value (possibly absent), the parent
    link (a self-reference at the root), the head of the child list and
    the next sibling.  The field [value] is [tvalue] here, [value] being
    the type of [struct value]. *)
Record tree : Type := mk_tree {
  label : option string;
  tvalue : option string;
  parent : node;
  children : option node;
  next : option node
}.

Abbreviation heap := (gmap node tree).

Definition deref (h : heap) (n : node) : outcome tree :=
  match h !! n with
  | Some t => Ok t
  | None => Abort
  end.

(** ** Expressions *)

Set Warnings "-register-all".

Inductive type : Type := T_NONE | T_NODESET | T_BOOLEAN | T_NUMBER | T_STRING.

(** [enum expr_tag]; the names [E_LOCPATH], [E_BINARY], [E_VALUE] and [E_APP]
    are the variants of [expr] below. *)
Inductive expr_tag : Type := Tag_LOCPATH | Tag_BINARY | Tag_VALUE | Tag_APP.

Inductive binary_op : Type := OP_EQ | OP_NEQ | OP_PLUS | OP_MINUS | OP_STAR.

Inductive axis : Type :=
| SELF | CHILD | DESCENDANT | DESCENDANT_OR_SELF | PARENT | ANCESTOR | ROOT.

Definition axis_names : list (axis * string) :=
  [ (SELF, "self"); (CHILD, "child"); (DESCENDANT, "descendant");
    (DESCENDANT_OR_SELF, "descendant-or-self"); (PARENT, "parent");
    (ANCESTOR, "ancestor"); (ROOT, "root") ].

Inductive func_impl : Type := impl_last | impl_position.

Record func : Type := mk_func {
  fname : string;
  arity : nat;
  ftype : type;
  arg_types : list type;
  impl : func_impl
}.

Definition builtin_funcs : list func :=
  [ mk_func "last" 0 T_NUMBER [] impl_last;
    mk_func "position" 0 T_NUMBER [] impl_position ].

(** [struct expr] with its [type] field as the first argument of every
    variant; [struct step] with [name = None] for the wildcard and
    [predicates = None] for a [NULL] predicate list.  A [struct pred] is
    the list of its [nexpr] expressions, a [struct locpath] the list of its
    steps. *)
Inductive expr : Type :=
| E_LOCPATH (ty : type) (lp : option (list step))
| E_BINARY (ty : type) (op : binary_op) (left right : expr)
| E_VALUE (ty : type) (value_ind : Z)
| E_APP (ty : type) (f : func) (args : list expr)
with step : Type :=
| mk_step (sa : axis) (sname : option string) (spreds : option (list expr)).

Definition step_axis (s : step) : axis := match s with mk_step a _ _ => a end.
Definition step_name (s : step) : option string :=
  match s with mk_step _ n _ => n end.
Definition step_predicates (s : step) : option (list expr) :=
  match s with mk_step _ _ p => p end.

Definition expr_type (e : expr) : type :=
  match e with
  | E_LOCPATH ty _ | E_BINARY ty _ _ _ | E_VALUE ty _ | E_APP ty _ _ => ty
  end.

Definition tag_of (e : expr) : expr_tag :=
  match e with
  | E_LOCPATH _ _ => Tag_LOCPATH
  | E_BINARY _ _ _ _ => Tag_BINARY
  | E_VALUE _ _ => Tag_VALUE
  | E_APP _ _ _ => Tag_APP
  end.

Definition set_type (ty : type) (e : expr) : expr :=
  match e with
  | E_LOCPATH _ lp => E_LOCPATH ty lp
  | E_BINARY _ op l r => E_BINARY ty op l r
  | E_VALUE _ i => E_VALUE ty i
  | E_APP _ f a => E_APP ty f a
  end.

(** ** Searching in the tree *)

Definition step_matches (s : step) (t : tree) : bool :=
  match step_name s with
  | None => true
  | Some n => streqx (Some n) (label t)
  end.

(** [while (ctx->parent != ctx) ctx = ctx->parent;] *)
Fixpoint climb_to_root (fuel : nat) (h : heap) (ctx : node) : outcome node :=
  match fuel with
  | O => OutOfFuel
  | S f =>
      do t <- deref h ctx;
      if Nat.eqb (parent t) ctx then Ok ctx else climb_to_root f h (parent t)
  end.

(** [while (node->next == NULL && node != ctx) node = node->parent;] *)
Fixpoint climb_to_next (fuel : nat) (h : heap) (ctx n : node) : outcome node :=
  match fuel with
  | O => OutOfFuel
  | S f =>
      do t <- deref h n;
      match next t with
      | None => if Nat.eqb n ctx then Ok n else climb_to_next f h ctx (parent t)
      | Some _ => Ok n
      end
  end.

(** One turn of the body of the loop of [step_next]: the axis-native
    successor of [n]. *)
Definition axis_next (fuel : nat) (h : heap) (a : axis) (ctx n : node)
  : outcome (option node) :=
  match a with
  | SELF => Ok None
  | CHILD => do t <- deref h n; Ok (next t)
  | DESCENDANT | DESCENDANT_OR_SELF =>
      do t <- deref h n;
      match children t with
      | Some c => Ok (Some c)
      | None =>
          do m <- climb_to_next fuel h ctx n;
          if Nat.eqb m ctx then Ok None
          else do tm <- deref h m; Ok (next tm)
      end
  | PARENT | ROOT => Ok None
  | ANCESTOR =>
      do t <- deref h n;
      if Nat.eqb (parent t) n then Ok None else Ok (Some (parent t))
  end.

Fixpoint step_next (fuel : nat) (h : heap) (s : step) (ctx : node)
    (cur : option node) : outcome (option node) :=
  match cur with
  | None => Ok None
  | Some n =>
      match fuel with
      | O => OutOfFuel
      | S f =>
          do nxt <- axis_next f h (step_axis s) ctx n;
          match nxt with
          | None => Ok None
          | Some m =>
              do tm <- deref h m;
              if step_matches s tm then Ok (Some m)
              else step_next f h s ctx (Some m)
          end
      end
  end.

Definition step_first (fuel : nat) (h : heap) (s : step) (ctx : node)
  : outcome (option node) :=
  do '(ctx', cand) <-
    match step_axis s with
    | SELF | DESCENDANT_OR_SELF => Ok (ctx, Some ctx)
    | CHILD | DESCENDANT => do t <- deref h ctx; Ok (ctx, children t)
    | PARENT | ANCESTOR => do t <- deref h ctx; Ok (ctx, Some (parent t))
    | ROOT => do r <- climb_to_root fuel h ctx; Ok (r, Some r)
    end;
  match cand with
  | None => Ok None
  | Some n =>
      do tn <- deref h n;
      if step_matches s tn then Ok (Some n)
      else step_next fuel h s ctx' (Some n)
  end.

(** ** Values and the state of the evaluator and parser *)

(** Modelled from the spec: [pathx_errcode_t] is declared in a header that
    is not among the sources; the codes are the ones of the specification's
    table of error codes, all of which [pathx.c] names. *)
Inductive pathx_errcode : Type :=
| PATHX_NOERROR | PATHX_ENAME | PATHX_ESTRING | PATHX_ENUMBER | PATHX_EDELIM
| PATHX_EPRED | PATHX_ENOMEM | PATHX_ESLASH | PATHX_EINTERNAL | PATHX_ETYPE.

Global Instance pathx_errcode_eq_dec : EqDecision pathx_errcode.
Proof. solve_decision. Defined.

Global Instance type_eq_dec : EqDecision type.
Proof. solve_decision. Defined.

Global Instance expr_tag_eq_dec : EqDecision expr_tag.
Proof. solve_decision. Defined.

(** [struct value]: the tag with the member of the union it selects.  A
    node set is the list of its [used] entries; a string is a [char *],
    [None] when it is [NULL]. *)
Inductive value : Type :=
| V_nodeset (ns : list node)
| V_number (n : Z)
| V_string (s : option string)
| V_boolean (b : bool).

Definition value_tag (v : value) : type :=
  match v with
  | V_nodeset _ => T_NODESET
  | V_number _ => T_NUMBER
  | V_string _ => T_STRING
  | V_boolean _ => T_BOOLEAN
  end.

(** The slot [make_value] hands out before its payload is stored. *)
Definition fresh_value (tag : type) : value :=
  match tag with
  | T_NODESET => V_nodeset []
  | T_STRING => V_string None
  | T_BOOLEAN => V_boolean false
  | T_NUMBER | T_NONE => V_number 0
  end.

(** [struct state].  [pos] is the text from the current position on;
    [value_pool] holds the [value_pool_used] slots in use; the stacks
    [values] and [exprs] have their top at the head, so that [exprs[0]],
    the bottom, is the last element. *)
Record state : Type := mk_state {
  errcode : pathx_errcode;
  txt : string;
  pos : string;
  ctx : option node;
  ctx_pos : Z;
  ctx_len : Z;
  value_pool : list value;
  value_pool_size : Z;
  values : list Z;
  exprs : list expr
}.

Definition set_errcode (e : pathx_errcode) (st : state) : state :=
  mk_state e (txt st) (pos st) (ctx st) (ctx_pos st) (ctx_len st)
           (value_pool st) (value_pool_size st) (values st) (exprs st).
Definition set_pos (p : string) (st : state) : state :=
  mk_state (errcode st) (txt st) p (ctx st) (ctx_pos st) (ctx_len st)
           (value_pool st) (value_pool_size st) (values st) (exprs st).
Definition set_ctx (c : option node) (st : state) : state :=
  mk_state (errcode st) (txt st) (pos st) c (ctx_pos st) (ctx_len st)
           (value_pool st) (value_pool_size st) (values st) (exprs st).
Definition set_ctx_pos (z : Z) (st : state) : state :=
  mk_state (errcode st) (txt st) (pos st) (ctx st) z (ctx_len st)
           (value_pool st) (value_pool_size st) (values st) (exprs st).
Definition set_ctx_len (z : Z) (st : state) : state :=
  mk_state (errcode st) (txt st) (pos st) (ctx st) (ctx_pos st) z
           (value_pool st) (value_pool_size st) (values st) (exprs st).
Definition set_value_pool (vp : list value) (sz : Z) (st : state) : state :=
  mk_state (errcode st) (txt st) (pos st) (ctx st) (ctx_pos st) (ctx_len st)
           vp sz (values st) (exprs st).
Definition set_values (vs : list Z) (st : state) : state :=
  mk_state (errcode st) (txt st) (pos st) (ctx st) (ctx_pos st) (ctx_len st)
           (value_pool st) (value_pool_size st) vs (exprs st).
Definition set_exprs (es : list expr) (st : state) : state :=
  mk_state (errcode st) (txt st) (pos st) (ctx st) (ctx_pos st) (ctx_len st)
           (value_pool st) (value_pool_size st) (values st) es.

(** [STATE_ERROR(state, err)] *)
Definition STATE_ERROR (err : pathx_errcode) (st : state) : state :=
  set_errcode err st.

(** [HAS_ERROR(state)] *)
Definition HAS_ERROR (st : state) : bool :=
  negb (bool_decide (errcode st = PATHX_NOERROR)).

Definition value_pool_used (st : state) : Z := Z.of_nat (length (value_pool st)).

(** *** Handling values *)

Definition make_value (tag : type) (st : state) : outcome (state * Z) :=
  match tag with
  | T_BOOLEAN => Abort
  | _ =>
      let used := value_pool_used st in
      let size := value_pool_size st in
      let add sz :=
        Ok (set_value_pool (value_pool st ++ [fresh_value tag]) sz st, used) in
      if used >=? size then
        let new_size := uint_wrap (2 * size) in
        if new_size <=? size then Ok (STATE_ERROR PATHX_ENOMEM st, 0)
        else add new_size
      else add size
  end.

(** [state->value_pool[vind] = v] for the payload of a slot. *)
Definition store_value (vind : Z) (v : value) (st : state) : state :=
  set_value_pool (<[Z.to_nat vind := v]> (value_pool st)) (value_pool_size st) st.

Definition pop_value_ind (st : state) : outcome (state * Z) :=
  match values st with
  | vind :: rest => Ok (set_values rest st, vind)
  | [] => Abort
  end.

(** The result is the slot the popped index points to, [None] for the
    [NULL] that is returned once the state carries an error. *)
Definition pop_value (st : state) : outcome (state * option value) :=
  do '(st1, vind) <- pop_value_ind st;
  if HAS_ERROR st1 then Ok (st1, None)
  else
    match value_pool st1 !! Z.to_nat vind with
    | Some v => Ok (st1, Some v)
    | None => Abort
    end.

Definition push_value (vind : Z) (st : state) : state :=
  set_values (vind :: values st) st.

Definition push_boolean_value (b : bool) (st : state) : state :=
  push_value (if b then 1 else 0) st.

Definition expr_value (value_ind : Z) (st : state) : option value :=
  value_pool st !! Z.to_nat value_ind.

(** ** Evaluation *)

Fixpoint calc_eq_nodeset_string (h : heap) (ns : list node) (s : option string)
    (neq : bool) : outcome bool :=
  match ns with
  | [] => Ok false
  | n :: rest =>
      do t <- deref h n;
      if (if neq then negb (streqx (tvalue t) s) else streqx (tvalue t) s)
      then Ok true
      else calc_eq_nodeset_string h rest s neq
  end.

(** The inner loop of [calc_eq_nodeset_nodeset] for one [t1]; the result
    [true] is the early [return 1]. *)
Fixpoint calc_eq_node_nodeset (h : heap) (n1 : node) (ns2 : list node)
    (neq : bool) : outcome bool :=
  match ns2 with
  | [] => Ok false
  | n2 :: rest =>
      do t1 <- deref h n1;
      do t2 <- deref h n2;
      if (if neq then negb (streqx (tvalue t1) (tvalue t2))
          else streqx (tvalue t1) (tvalue t2))
      then Ok true
      else calc_eq_node_nodeset h n1 rest neq
  end.

Fixpoint calc_eq_nodeset_nodeset (h : heap) (ns1 ns2 : list node) (neq : bool)
  : outcome bool :=
  match ns1 with
  | [] => Ok false
  | n1 :: rest =>
      do found <- calc_eq_node_nodeset h n1 ns2 neq;
      if found then Ok true else calc_eq_nodeset_nodeset h rest ns2 neq
  end.

(** [eval_eq].  Reading the member of the union that the tag does not
    select, and a failing [assert], are [Abort]. *)
Definition eval_eq (h : heap) (st : state) (neq : bool) : outcome state :=
  do '(st1, r) <- pop_value st;
  do '(st2, l) <- pop_value st1;
  match l, r with
  | Some lv, Some rv =>
      do res <-
        match lv, rv with
        | V_nodeset a, V_nodeset b => calc_eq_nodeset_nodeset h a b neq
        | V_nodeset a, V_string s => calc_eq_nodeset_string h a s neq
        | V_nodeset _, _ => Abort
        | V_string s, V_nodeset b => calc_eq_nodeset_string h b s neq
        | _, V_nodeset _ => Abort
        | V_number a, V_number b =>
            Ok (if neq then negb (a =? b) else (a =? b))
        | V_string a, V_string b => Ok (streqx a b)
        | _, _ => Abort
        end;
      if HAS_ERROR st2 then Ok st2 else Ok (push_boolean_value res st2)
  | _, _ => Abort
  end.

(** [eval_arith]; the arithmetic is on [int], wrapping.  The operands are
    read through the pointers [l] and [r] that [pop_value] took into the
    value pool, and they are read after [make_value]: when [make_value]
    has reallocated the pool (its size has changed), [l] and [r] point
    into the block that was given back and the read has no defined
    result. *)
Definition eval_arith (st : state) (op : binary_op) : outcome state :=
  do '(st1, r) <- pop_value st;
  do '(st2, l) <- pop_value st1;
  match l, r with
  | Some (V_number a), Some (V_number b) =>
      do '(st3, vind) <- make_value T_NUMBER st2;
      if HAS_ERROR st3 then Ok st3
      else if negb (value_pool_size st3 =? value_pool_size st2) then Abort
      else
        do res <-
          match op with
          | OP_PLUS => Ok (int_wrap (a + b))
          | OP_MINUS => Ok (int_wrap (a - b))
          | OP_STAR => Ok (int_wrap (a * b))
          | _ => Abort
          end;
        Ok (push_value vind (store_value vind (V_number res) st3))
  | _, _ => Abort
  end.

Definition func_last (st : state) : outcome state :=
  do '(st1, vind) <- make_value T_NUMBER st;
  if HAS_ERROR st1 then Ok st1
  else Ok (push_value vind
             (store_value vind (V_number (int_wrap (ctx_len st1))) st1)).

Definition func_position (st : state) : outcome state :=
  do '(st1, vind) <- make_value T_NUMBER st;
  if HAS_ERROR st1 then Ok st1
  else Ok (push_value vind
             (store_value vind (V_number (int_wrap (ctx_pos st1))) st1)).

(** [expr->func->impl(state)] *)
Definition run_impl (i : func_impl) (st : state) : outcome state :=
  match i with
  | impl_last => func_last st
  | impl_position => func_position st
  end.

Section Eval.
(** The bound on tree walks, the tree, and [eval_expr] for the
    expressions nested in the one under evaluation. *)
Variable fuel : nat.
Variable h : heap.
Variable eval_expr_rec : expr -> state -> outcome state.

Definition eval_binary (op : binary_op) (l r : expr) (st : state)
  : outcome state :=
  do st1 <- eval_expr_rec l st;
  do st2 <- eval_expr_rec r st1;
  if HAS_ERROR st2 then Ok st2
  else
    match op with
    | OP_EQ => eval_eq h st2 false
    | OP_NEQ => eval_eq h st2 true
    | OP_MINUS | OP_PLUS | OP_STAR => eval_arith st2 op
    end.

(** [eval_app]: [n] arguments are still to be evaluated. *)
Fixpoint eval_app_from (n : nat) (args : list expr) (f : func) (st : state)
  : outcome state :=
  match n with
  | O => run_impl (impl f) st
  | S n' =>
      match args with
      | [] => Abort
      | a :: rest =>
          do st1 <- eval_expr_rec a st;
          if HAS_ERROR st1 then Ok st1 else eval_app_from n' rest f st1
      end
  end.

Definition eval_app (f : func) (args : list expr) (st : state)
  : outcome state :=
  eval_app_from (arity f) args f st.

Definition eval_pred (e : expr) (st : state) : outcome (state * bool) :=
  do st1 <- eval_expr_rec e st;
  do '(st2, v) <- pop_value st1;
  match v with
  | Some (V_boolean b) => Ok (st2, b)
  | Some (V_number n) => Ok (st2, ctx_pos st2 =? uint_wrap n)
  | Some (V_nodeset ns) => Ok (st2, negb (Nat.eqb (length ns) 0))
  | _ => Abort
  end.

(** [for (node = step_first(step, w); node != NULL;
         node = step_next(step, w, node)) ns_add(next, node, state);]
    from the candidate [cur] on. *)
Fixpoint step_collect (n : nat) (s : step) (w : node) (cur : option node)
    (next : list node) : outcome (list node) :=
  match cur with
  | None => Ok next
  | Some c =>
      match n with
      | O => OutOfFuel
      | S n' =>
          do nxt <- step_next fuel h s w (Some c);
          step_collect n' s w nxt (next ++ [c])
      end
  end.

(** The loop over the entries of [work]. *)
Fixpoint expand_work (s : step) (work next : list node)
  : outcome (list node) :=
  match work with
  | [] => Ok next
  | w :: rest =>
      do first <- step_first fuel h s w;
      do next1 <- step_collect fuel s w first next;
      expand_work s rest next1
  end.

(** The loop [for (int i=0; i < next->used; state->ctx_pos++)] over one
    predicate [e]; it takes at most [n] turns.  Removing entry [i] is the
    [memmove] with the decrement of [used]. *)
Fixpoint pred_loop (n : nat) (e : expr) (st : state) (next : list node)
    (i : nat) : outcome (state * list node) :=
  match next !! i with
  | None => Ok (st, next)
  | Some c =>
      match n with
      | O => OutOfFuel
      | S n' =>
          do '(st1, keep) <- eval_pred e (set_ctx (Some c) st);
          let st2 := set_ctx_pos (uint_wrap (ctx_pos st1 + 1)) st1 in
          if keep then pred_loop n' e st2 next (S i)
          else pred_loop n' e st2 (delete i next) i
      end
  end.

(** The loop over the predicates of a step. *)
Fixpoint apply_predicates (preds : list expr) (st : state) (next : list node)
  : outcome (state * list node) :=
  match preds with
  | [] => Ok (st, next)
  | p :: rest =>
      let st1 :=
        set_ctx_pos 1 (set_ctx_len (uint_wrap (Z.of_nat (length next))) st) in
      do '(st2, next1) <- pred_loop (length next) p st1 next 0;
      apply_predicates rest st2 next1
  end.

(** The loop over the steps: [work] is [ns[cur_ns]], [nss] the node sets
    [ns[0..cur_ns]] filled so far. *)
Fixpoint ns_steps (steps : list step) (st : state) (work : list node)
    (nss : list (list node)) : outcome (state * list (list node)) :=
  match steps with
  | [] => Ok (st, nss)
  | s :: rest =>
      do next <- expand_work s work [];
      do '(st1, next1) <-
        match step_predicates s with
        | None => Ok (st, next)
        | Some preds => apply_predicates preds st next
        end;
      ns_steps rest st1 next1 (nss ++ [next1])
  end.

(** [ns_from_locpath]: the result is the array [*ns] of the [*maxns + 1]
    node sets, [None] when it is [NULL] because the state carried an
    error on entry.  Adding a [NULL] context to a node set is [Abort]. *)
Definition ns_from_locpath (lp : list step) (st : state)
  : outcome (state * option (list (list node))) :=
  if HAS_ERROR st then Ok (st, None)
  else
    match ctx st with
    | None => Abort
    | Some c =>
        do '(st1, nss) <- ns_steps lp st [c] [[c]];
        Ok (set_ctx_len (ctx_len st)
              (set_ctx_pos (ctx_pos st) (set_ctx (ctx st) st1)), Some nss)
    end.

Definition eval_locpath (lp : option (list step)) (st : state)
  : outcome state :=
  match lp with
  | None => Abort
  | Some steps =>
      do '(st1, ns) <- ns_from_locpath steps st;
      if HAS_ERROR st1 then Ok st1
      else
        match ns with
        | None => Abort
        | Some nss =>
            do '(st2, vind) <- make_value T_NODESET st1;
            if HAS_ERROR st2 then Ok st2
            else
              match last nss with
              | None => Abort
              | Some final =>
                  Ok (push_value vind
                        (store_value vind (V_nodeset final) st2))
              end
        end
  end.
End Eval.

Fixpoint eval_expr (fuel : nat) (h : heap) (e : expr) (st : state)
  : outcome state :=
  match fuel with
  | O => OutOfFuel
  | S f =>
      if HAS_ERROR st then Ok st
      else
        match e with
        | E_LOCPATH _ lp => eval_locpath f h (eval_expr f h) lp st
        | E_BINARY _ op l r => eval_binary h (eval_expr f h) op l r st
        | E_VALUE _ vind => Ok (push_value vind st)
        | E_APP _ fn args => eval_app (eval_expr f h) fn args st
        end
  end.

(** ** Utility functions for the parser *)

(** The character at a position [s] of the text: the terminating NUL at its
    end. *)
Definition cur (s : string) : ascii :=
  match s with
  | EmptyString => NUL
  | String c _ => c
  end.

(** [s + 1] *)
Definition advance (s : string) : string :=
  match s with
  | EmptyString => EmptyString
  | String _ r => r
  end.

(** The loop of [skipws] and [looking_at] over white space. *)
Fixpoint skip_spaces (s : string) : string :=
  match s with
  | EmptyString => EmptyString
  | String c r => if isspace c then skip_spaces r else s
  end.

Definition skipws (st : state) : state := set_pos (skip_spaces (pos st)) st.

Definition match_char (st : state) (m : ascii) : state * bool :=
  let st1 := skipws st in
  if ascii_eqb (cur (pos st1)) NUL then (st1, false)
  else if ascii_eqb (cur (pos st1)) m then (set_pos (advance (pos st1)) st1, true)
  else (st1, false).

(** [strchr(chars, c) != NULL]: the terminating NUL of [chars] is part of
    the string that [strchr] searches. *)
Fixpoint strchr_found (chars : string) (c : ascii) : bool :=
  match chars with
  | EmptyString => ascii_eqb c NUL
  | String d r => ascii_eqb d c || strchr_found r c
  end.

Definition peek (st : state) (chars : string) : bool :=
  strchr_found chars (cur (pos st)).

(** [STREQLEN(s, token, strlen(token))], with what follows [token] in [s]. *)
Fixpoint strip_prefix (token s : string) : option string :=
  match token with
  | EmptyString => Some s
  | String t token' =>
      match s with
      | EmptyString => None
      | String c s' => if ascii_eqb t c then strip_prefix token' s' else None
      end
  end.

Definition looking_at (st : state) (token follow : string) : state * bool :=
  match strip_prefix token (pos st) with
  | Some p =>
      match strip_prefix follow (skip_spaces p) with
      | Some p' => (set_pos p' st, true)
      | None => (st, false)
      end
  | None => (st, false)
  end.

(** ** The parser *)

Definition pop_expr (st : state) : outcome (state * expr) :=
  match exprs st with
  | e :: rest => Ok (set_exprs rest st, e)
  | [] => Abort
  end.

Definition push_expr (e : expr) (st : state) : state :=
  set_exprs (e :: exprs st) st.

Definition push_new_binary_op (op : binary_op) (st : state) : outcome state :=
  do '(st1, r) <- pop_expr st;
  do '(st2, l) <- pop_expr st1;
  Ok (push_expr (E_BINARY T_NONE op l r) st2).

(** [for (int i = n - 1; i >= 0; i--) a[i] = pop_expr(state);] *)
Fixpoint pop_exprs (n : nat) (st : state) (acc : list expr)
  : outcome (state * list expr) :=
  match n with
  | O => Ok (st, acc)
  | S n' => do '(st1, e) <- pop_expr st; pop_exprs n' st1 (e :: acc)
  end.

Definition name_stop (c : ascii) : bool :=
  ascii_eqb c NUL || ascii_eqb c L_BRACK || ascii_eqb c SEP
  || ascii_eqb c R_BRACK || ascii_eqb c "="%char || isspace c.

(** The scanning loop of [parse_name]: the position it stops at, and
    whether it stopped on a backslash that ends the text. *)
Fixpoint name_scan (s : string) : string * bool :=
  match s with
  | EmptyString => (s, false)
  | String c r =>
      if name_stop c then (s, false)
      else if ascii_eqb c "\"%char then
        match r with
        | EmptyString => (r, true)
        | String c2 r2 => if ascii_eqb c2 NUL then (r, true) else name_scan r2
        end
      else name_scan r
  end.

(** The copy loop of [parse_name] that drops the escaping backslashes. *)
Fixpoint unescape (s : string) : string :=
  match s with
  | EmptyString => EmptyString
  | String c r =>
      if ascii_eqb c "\"%char then
        match r with
        | EmptyString => EmptyString
        | String c2 r2 => String c2 (unescape r2)
        end
      else String c (unescape r)
  end.

(** [strndup(s, e - s)] for a later position [e] of the same text. *)
Definition text_between (s e : string) : string :=
  substring 0 (String.length s - String.length e) s.

Definition parse_name (st : state) : state * option string :=
  let s := pos st in
  let '(e, bad) := name_scan s in
  let st1 := set_pos e st in
  if bad then (STATE_ERROR PATHX_ENAME st1, None)
  else if Nat.eqb (String.length e) (String.length s)
  then (STATE_ERROR PATHX_ENAME st1, None)
  else (st1, Some (unescape (text_between s e))).

(** The C library's [strtoul] in base 10: the value, the end position and
    whether [errno] was set (to [ERANGE]). *)
Fixpoint digits_value (acc : Z) (s : string) : Z * string :=
  match s with
  | EmptyString => (acc, s)
  | String c r =>
      if isdigit c then digits_value (10 * acc + (char_code c - 48)) r
      else (acc, s)
  end.

Definition strtoul (s : string) : Z * string * bool :=
  let s1 := skip_spaces s in
  let '(neg, s2) :=
    if ascii_eqb (cur s1) "-"%char then (true, advance s1)
    else if ascii_eqb (cur s1) "+"%char then (false, advance s1)
    else (false, s1) in
  if isdigit (cur s2) then
    let '(v, e) := digits_value 0 s2 in
    if v >? ULONG_MAX then (ULONG_MAX, e, true)
    else (if neg then ulong_wrap (- v) else v, e, false)
  else (0, s, false).

Definition parse_number (st : state) : outcome state :=
  let '(val, e, err) := strtoul (pos st) in
  if err || Nat.eqb (String.length e) (String.length (pos st))
     || negb (ulong_wrap (int_wrap val) =? val)
  then Ok (STATE_ERROR PATHX_ENUMBER st)
  else
    let st1 := set_pos e st in
    do '(st2, vind) <- make_value T_NUMBER st1;
    if HAS_ERROR st2 then Ok st2
    else
      Ok (push_expr (E_VALUE T_NONE vind)
            (store_value vind (V_number (int_wrap val)) st2)).

(** The loop of [parse_literal] up to the closing delimiter or the end of
    the text. *)
Fixpoint literal_scan (delim : ascii) (s : string) : string :=
  match s with
  | EmptyString => s
  | String c r =>
      if ascii_eqb c NUL || ascii_eqb c delim then s else literal_scan delim r
  end.

Definition parse_literal (st : state) : outcome state :=
  let c := cur (pos st) in
  if ascii_eqb c DQUOTE || ascii_eqb c "'"%char then
    let s := advance (pos st) in
    let e := literal_scan c s in
    if negb (ascii_eqb (cur e) c) then
      Ok (STATE_ERROR PATHX_EDELIM (set_pos e st))
    else
      let st1 := set_pos (advance e) st in
      do '(st2, vind) <- make_value T_STRING st1;
      if HAS_ERROR st2 then Ok st2
      else
        Ok (push_expr (E_VALUE T_NONE vind)
              (store_value vind (V_string (Some (text_between s e))) st2))
  else Ok (STATE_ERROR PATHX_ESTRING st).

(** The loop of [looking_at_primary_expr] over letters. *)
Fixpoint skip_alpha (s : string) : string :=
  match s with
  | EmptyString => s
  | String c r => if negb (ascii_eqb c NUL) && isalpha c then skip_alpha r else s
  end.

Definition looking_at_primary_expr (st : state) : bool :=
  if peek st (quotes ++ "0123456789")%string then true
  else ascii_eqb (cur (skip_spaces (skip_alpha (pos st)))) "("%char.

Section Parse.
(** The bound on the turns of the loops, and [parse_expr] for the
    expressions nested in predicates and argument lists. *)
Variable bound : nat.
Variable parse_expr_rec : state -> outcome state.

(** The loop of [parse_predicates]; the result is [nexpr], or [None] for
    the early [return NULL]. *)
Fixpoint parse_predicates_loop (n : nat) (st : state) (nexpr : nat)
  : outcome (state * option nat) :=
  let '(st1, m) := match_char st L_BRACK in
  if m then
    match n with
    | O => OutOfFuel
    | S n' =>
        do st2 <- parse_expr_rec st1;
        if HAS_ERROR st2 then Ok (st2, None)
        else
          let '(st3, m2) := match_char st2 R_BRACK in
          if negb m2 then Ok (STATE_ERROR PATHX_EPRED st3, None)
          else parse_predicates_loop n' (skipws st3) (S nexpr)
    end
  else Ok (st1, Some nexpr).

Definition parse_predicates (st : state)
  : outcome (state * option (list expr)) :=
  do '(st1, r) <- parse_predicates_loop bound st O;
  match r with
  | None => Ok (st1, None)
  | Some O => Ok (st1, None)
  | Some nexpr =>
      do '(st2, es) <- pop_exprs nexpr st1 [];
      Ok (st2, Some es)
  end.

(** [for (i = 0; i < ARRAY_CARDINALITY(axis_names); i++)
       if (looking_at(state, axis_names[i], "::")) {...; break;}] *)
Fixpoint parse_axis (names : list (axis * string)) (st : state)
  : state * axis :=
  match names with
  | [] => (st, CHILD)
  | (a, nm) :: rest =>
      let '(st1, m) := looking_at st nm "::" in
      if m then (st1, a) else parse_axis rest st1
  end.

Definition parse_step (st : state) : outcome (state * option step) :=
  if ascii_eqb (cur (pos st)) "."%char
     && ascii_eqb (cur (advance (pos st))) "."%char
  then Ok (set_pos (advance (advance (pos st))) st,
           Some (mk_step PARENT None None))
  else
    let '(st1, m) := match_char st "."%char in
    if m then Ok (st1, Some (mk_step SELF None None))
    else
      let '(st2, a) := parse_axis axis_names st1 in
      let '(st3, star) := match_char st2 "*"%char in
      let '(st4, name) :=
        if star then (st3, None) else parse_name st3 in
      if negb star && HAS_ERROR st4 then Ok (st4, None)
      else
        do '(st5, preds) <- parse_predicates st4;
        if HAS_ERROR st5 then Ok (st5, None)
        else Ok (st5, Some (mk_step a name preds)).

Definition make_step (a : axis) : step := mk_step a None None.

(** The loop of [parse_relative_location_path]. *)
Fixpoint parse_relative_loop (n : nat) (st : state) (steps : list step)
  : outcome (state * option (list step)) :=
  let '(st1, m) := match_char st SEP in
  if m then
    match n with
    | O => OutOfFuel
    | S n' =>
        let '(st2, steps1) :=
          if ascii_eqb (cur (pos st1)) SEP
          then (set_pos (advance (pos st1)) st1,
                (steps ++ [make_step DESCENDANT_OR_SELF])%list)
          else (st1, steps) in
        do '(st3, s) <- parse_step st2;
        if HAS_ERROR st3 then Ok (st3, None)
        else
          match s with
          | None => Abort
          | Some s' => parse_relative_loop n' st3 (steps1 ++ [s'])%list
          end
    end
  else Ok (st1, Some steps).

Definition parse_relative_location_path (st : state)
  : outcome (state * option (list step)) :=
  do '(st1, s) <- parse_step st;
  if HAS_ERROR st1 then Ok (st1, None)
  else
    match s with
    | None => Abort
    | Some s' => parse_relative_loop bound st1 [s']
    end.

(** [list_cons(locpath->steps, step)] on a [locpath] that may be [NULL]. *)
Definition cons_step (s : step) (lp : option (list step))
  : outcome (list step) :=
  match lp with
  | None => Abort
  | Some steps => Ok (s :: steps)
  end.

Definition parse_location_path (st : state) : outcome state :=
  let '(st1, m) := match_char st SEP in
  if m then
    if ascii_eqb (cur (pos st1)) SEP then
      do '(st2, lp) <-
        parse_relative_location_path (set_pos (advance (pos st1)) st1);
      if HAS_ERROR st2 then Ok st2
      else
        do steps <- cons_step (make_step DESCENDANT_OR_SELF) lp;
        Ok (push_expr (E_LOCPATH T_NONE (Some steps)) st2)
    else
      do '(st2, lp) <-
        (if negb (ascii_eqb (cur (pos st1)) NUL)
         then parse_relative_location_path st1
         else Ok (st1, Some []));
      if HAS_ERROR st2 then Ok st2
      else
        do steps <- cons_step (make_step ROOT) lp;
        Ok (push_expr (E_LOCPATH T_NONE (Some steps)) st2)
  else
    do '(st2, lp) <- parse_relative_location_path st1;
    Ok (push_expr (E_LOCPATH T_NONE lp) st2).

(** [for (i = 0; i < ARRAY_CARDINALITY(builtin_funcs); i++)
       if (looking_at(state, builtin_funcs[i].name, "(")) func = ...;] *)
Fixpoint find_func (fs : list func) (st : state) (found : option func)
  : state * option func :=
  match fs with
  | [] => (st, found)
  | f :: rest =>
      let '(st1, m) := looking_at st (fname f) "(" in
      find_func rest st1 (if m then Some f else found)
  end.

(** The [do ... while (match(state, ','))] loop of
    [parse_function_call]; the result is [nargs], or [None] for the
    early return. *)
Fixpoint parse_args_loop (n : nat) (st : state) (nargs : nat)
  : outcome (state * option nat) :=
  match n with
  | O => OutOfFuel
  | S n' =>
      do st1 <- parse_expr_rec st;
      if HAS_ERROR st1 then Ok (st1, None)
      else
        let '(st2, m) := match_char st1 ","%char in
        if m then parse_args_loop n' st2 (S nargs)
        else Ok (st2, Some (S nargs))
  end.

Definition parse_function_call (st : state) : outcome state :=
  let '(st1, func) := find_func builtin_funcs st None in
  match func with
  | None => Ok (STATE_ERROR PATHX_ENAME st1)
  | Some f =>
      let '(st2, m) := match_char st1 ")"%char in
      do '(st3, r) <-
        (if m then Ok (st2, Some O)
         else
           do '(st3, r) <- parse_args_loop bound st2 O;
           match r with
           | None => Ok (st3, None)
           | Some nargs =>
               let '(st4, m2) := match_char st3 ")"%char in
               if m2 then Ok (st4, Some nargs)
               else Ok (STATE_ERROR PATHX_EDELIM st4, None)
           end);
      match r with
      | None => Ok st3
      | Some nargs =>
          if negb (Nat.eqb nargs (arity f))
          then Ok (STATE_ERROR PATHX_EDELIM st3)
          else
            do '(st4, args) <- pop_exprs nargs st3 [];
            Ok (push_expr (E_APP T_NONE f args) st4)
      end
  end.

Definition parse_primary_expr (st : state) : outcome state :=
  if peek st quotes then parse_literal st
  else if peek st "0123456789" then parse_number st
  else parse_function_call st.

Definition parse_path_expr (st : state) : outcome state :=
  if looking_at_primary_expr st then parse_primary_expr st
  else parse_location_path st.

(** The loop of [parse_multiplicative_expr]. *)
Fixpoint parse_multiplicative_loop (n : nat) (st : state) : outcome state :=
  let '(st1, m) := match_char st "*"%char in
  if m then
    match n with
    | O => OutOfFuel
    | S n' =>
        do st2 <- parse_path_expr st1;
        if HAS_ERROR st2 then Ok st2
        else
          do st3 <- push_new_binary_op OP_STAR st2;
          parse_multiplicative_loop n' st3
    end
  else Ok st1.

Definition parse_multiplicative_expr (st : state) : outcome state :=
  do st1 <- parse_path_expr st;
  if HAS_ERROR st1 then Ok st1
  else parse_multiplicative_loop bound st1.

(** The loop of [parse_additive_expr]. *)
Fixpoint parse_additive_loop (n : nat) (st : state) : outcome state :=
  let c := cur (pos st) in
  if ascii_eqb c "+"%char || ascii_eqb c "-"%char then
    match n with
    | O => OutOfFuel
    | S n' =>
        let op := if ascii_eqb c "+"%char then OP_PLUS else OP_MINUS in
        do st1 <-
          parse_multiplicative_expr (skipws (set_pos (advance (pos st)) st));
        if HAS_ERROR st1 then Ok st1
        else
          do st2 <- push_new_binary_op op st1;
          parse_additive_loop n' st2
    end
  else Ok st.

Definition parse_additive_expr (st : state) : outcome state :=
  do st1 <- parse_multiplicative_expr st;
  if HAS_ERROR st1 then Ok st1
  else parse_additive_loop bound st1.

Definition parse_equality_expr (st : state) : outcome state :=
  do st1 <- parse_additive_expr st;
  if HAS_ERROR st1 then Ok st1
  else
    let c := cur (pos st1) in
    if ascii_eqb c "="%char
       || (ascii_eqb c "!"%char
           && ascii_eqb (cur (advance (pos st1))) "="%char)
    then
      let op := if ascii_eqb c "="%char then OP_EQ else OP_NEQ in
      let p := match op with
               | OP_EQ => advance (pos st1)
               | _ => advance (advance (pos st1))
               end in
      do st2 <- parse_additive_expr (skipws (set_pos p st1));
      if HAS_ERROR st2 then Ok st2
      else push_new_binary_op op st2
    else Ok st1.
End Parse.

Fixpoint parse_expr (fuel : nat) (st : state) : outcome state :=
  match fuel with
  | O => OutOfFuel
  | S f => parse_equality_expr f (parse_expr f) (skipws st)
  end.

(** ** Typechecker *)

(** The type checker stores the type of an expression in its [type] field;
    here it returns the expression with the field set, in the state it is
    left in when an error stops the check. *)
Section Check.
Variable check_expr_rec : expr -> state -> outcome (state * expr).

Definition pred_type_ok (t : type) : bool :=
  match t with
  | T_NODESET | T_NUMBER | T_BOOLEAN => true
  | _ => false
  end.

Fixpoint check_preds (ps : list expr) (st : state)
  : outcome (state * list expr) :=
  match ps with
  | [] => Ok (st, [])
  | e :: rest =>
      do '(st1, e1) <- check_expr_rec e st;
      if HAS_ERROR st1 then Ok (st1, e1 :: rest)
      else if negb (pred_type_ok (expr_type e1))
      then Ok (STATE_ERROR PATHX_ETYPE st1, e1 :: rest)
      else
        do '(st2, rest1) <- check_preds rest st1;
        Ok (st2, e1 :: rest1)
  end.

(** The loop of [check_locpath] over the steps. *)
Fixpoint check_steps (ss : list step) (st : state)
  : outcome (state * list step) :=
  match ss with
  | [] => Ok (st, [])
  | s :: rest =>
      match step_predicates s with
      | None =>
          do '(st1, rest1) <- check_steps rest st;
          Ok (st1, s :: rest1)
      | Some ps =>
          do '(st1, ps1) <- check_preds ps st;
          let s1 := mk_step (step_axis s) (step_name s) (Some ps1) in
          if HAS_ERROR st1 then Ok (st1, s1 :: rest)
          else
            do '(st2, rest1) <- check_steps rest st1;
            Ok (st2, s1 :: rest1)
      end
  end.

Definition check_locpath (ty : type) (lp : option (list step)) (st : state)
  : outcome (state * expr) :=
  match lp with
  | None => Abort
  | Some steps =>
      do '(st1, steps1) <- check_steps steps st;
      if HAS_ERROR st1 then Ok (st1, E_LOCPATH ty (Some steps1))
      else Ok (st1, E_LOCPATH T_NODESET (Some steps1))
  end.

(** The loop of [check_app]: [n] arguments are still to be checked
    against the parameter types [tys]; the flag tells whether the loop
    ran to its end. *)
Fixpoint check_args (n : nat) (args : list expr) (tys : list type)
    (st : state) : outcome (state * list expr * bool) :=
  match n with
  | O => Ok (st, args, true)
  | S n' =>
      match args with
      | [] => Abort
      | a :: rest =>
          do '(st1, a1) <- check_expr_rec a st;
          if HAS_ERROR st1 then Ok (st1, a1 :: rest, false)
          else
            match tys with
            | [] => Abort
            | t :: tys' =>
                if negb (bool_decide (expr_type a1 = t))
                then Ok (STATE_ERROR PATHX_ETYPE st1, a1 :: rest, false)
                else
                  do '(st2, rest1, fin) <- check_args n' rest tys' st1;
                  Ok (st2, a1 :: rest1, fin)
            end
      end
  end.

Definition check_app (ty : type) (f : func) (args : list expr) (st : state)
  : outcome (state * expr) :=
  do '(st1, args1, fin) <- check_args (arity f) args (arg_types f) st;
  if fin then Ok (st1, E_APP (ftype f) f args1)
  else Ok (st1, E_APP ty f args1).

Definition check_binary (ty : type) (op : binary_op) (left right : expr)
    (st : state) : outcome (state * expr) :=
  do '(st1, l1) <- check_expr_rec left st;
  do '(st2, r1) <- check_expr_rec right st1;
  if HAS_ERROR st2 then Ok (st2, E_BINARY ty op l1 r1)
  else
    let l := expr_type l1 in
    let r := expr_type r1 in
    let lis t := bool_decide (l = t) in
    let ris t := bool_decide (r = t) in
    let '(ok, res) :=
      match op with
      | OP_EQ | OP_NEQ =>
          (((lis T_NODESET || lis T_STRING)
            && (ris T_NODESET || ris T_STRING))
           || (lis T_NUMBER && ris T_NUMBER), T_BOOLEAN)
      | OP_PLUS | OP_MINUS | OP_STAR =>
          (lis T_NUMBER && ris T_NUMBER, T_NUMBER)
      end in
    if negb ok then Ok (STATE_ERROR PATHX_ETYPE st2, E_BINARY ty op l1 r1)
    else Ok (st2, E_BINARY res op l1 r1).
End Check.

Fixpoint check_expr (fuel : nat) (e : expr) (st : state)
  : outcome (state * expr) :=
  match fuel with
  | O => OutOfFuel
  | S f =>
      if HAS_ERROR st then Ok (st, e)
      else
        match e with
        | E_LOCPATH ty lp => check_locpath (check_expr f) ty lp st
        | E_BINARY ty op l r => check_binary (check_expr f) ty op l r st
        | E_VALUE ty vind =>
            match expr_value vind st with
            | Some v => Ok (st, E_VALUE (value_tag v) vind)
            | None => Abort
            end
        | E_APP ty fn args => check_app (check_expr f) ty fn args st
        end
  end.

(** ** The public entry points *)

(** [struct pathx]; the fields [state] and [node] are [px_state] and
    [px_node]. *)
Record pathx : Type := mk_pathx {
  px_state : state;
  px_locpath : option (list step);
  px_nodeset : option (list node);
  px_node : Z;
  px_origin : option node
}.

Definition set_px_state (st : state) (p : pathx) : pathx :=
  mk_pathx st (px_locpath p) (px_nodeset p) (px_node p) (px_origin p).
Definition set_px_locpath (lp : option (list step)) (p : pathx) : pathx :=
  mk_pathx (px_state p) lp (px_nodeset p) (px_node p) (px_origin p).
Definition set_px_nodeset (ns : option (list node)) (p : pathx) : pathx :=
  mk_pathx (px_state p) (px_locpath p) ns (px_node p) (px_origin p).
Definition set_px_node (i : Z) (p : pathx) : pathx :=
  mk_pathx (px_state p) (px_locpath p) (px_nodeset p) i (px_origin p).

(** The state [pathx_parse] sets up before parsing. *)
Definition init_state (text : string) : state :=
  mk_state PATHX_NOERROR text text None 0 0
           [V_boolean false; V_boolean true] 8 [] [].

(** [expr->locpath] of an expression whose tag is [E_LOCPATH]. *)
Definition expr_locpath (e : expr) : option (list step) :=
  match e with
  | E_LOCPATH _ lp => lp
  | _ => None
  end.

Definition pathx_parse (fuel : nat) (tree : option node) (text : string)
  : outcome (pathx_errcode * pathx) :=
  let ret st lp := Ok (errcode st, mk_pathx st lp None 0 tree) in
  do st1 <- parse_expr fuel (init_state text);
  if HAS_ERROR st1 then ret st1 None
  else
    match exprs st1 with
    | [e] =>
        do '(st2, e1) <- check_expr fuel e st1;
        let st3 := set_exprs [e1] st2 in
        if HAS_ERROR st3 then ret st3 None
        else if negb (bool_decide (expr_type e1 = T_NODESET))
                || negb (bool_decide (tag_of e1 = Tag_LOCPATH))
        then ret (STATE_ERROR PATHX_ETYPE st3) None
        else ret st3 (expr_locpath e1)
    | _ => ret (STATE_ERROR PATHX_EINTERNAL st1) None
    end.

(** [size_t] is 64 bits wide. *)
Definition size_wrap (z : Z) : Z := z mod 2 ^ 64.

(** [pathx_next]; [node] is an [int], which the comparison with [used]
    converts to [size_t]. *)
Definition pathx_next (p : pathx) : outcome (option node * pathx) :=
  match px_nodeset p with
  | None => Abort
  | Some ns =>
      let i := int_wrap (px_node p + 1) in
      if size_wrap i <? Z.of_nat (length ns) then
        match ns !! Z.to_nat i with
        | Some n => Ok (Some n, set_px_node i p)
        | None => Abort
        end
      else Ok (None, p)
  end.

(** [state->exprs[0]], the bottom of the stack of expressions. *)
Definition exprs_bottom (st : state) : option expr := last (exprs st).

(** Find the first node in the tree matching the path. *)
Definition pathx_first (fuel : nat) (h : heap) (p : pathx)
  : outcome (option node * pathx) :=
  let finish (p1 : pathx) (ns : list node) :=
    Ok (ns !! O, set_px_node 0 p1) in
  match px_nodeset p with
  | None =>
      let st := set_ctx_len 1 (set_ctx_pos 1
                  (set_ctx (px_origin p) (px_state p))) in
      match exprs_bottom st with
      | None => Abort
      | Some e =>
          do st1 <- eval_expr fuel h e st;
          if HAS_ERROR st1 then Ok (None, set_px_state st1 p)
          else if negb (Nat.eqb (length (values st1)) 1)
          then Ok (None, set_px_state (STATE_ERROR PATHX_EINTERNAL st1) p)
          else
            do '(st2, v) <- pop_value st1;
            match v with
            | Some (V_nodeset ns) =>
                finish (set_px_nodeset (Some ns) (set_px_state st2 p)) ns
            | _ => Abort
            end
      end
  | Some ns => finish p ns
  end.

Definition pathx_find_one (fuel : nat) (h : heap) (p : pathx)
  : outcome (Z * option node * pathx) :=
  do '(t, p1) <- pathx_first fuel h p;
  match t with
  | None => Ok (0, None, p1)
  | Some n =>
      do '(t2, p2) <- pathx_next p1;
      match t2 with
      | Some _ => Ok (-1, None, p2)
      | None => Ok (1, Some n, p2)
      end
  end.

(** [for (last=maxns; last >= 0 && ns[last]->used == 0; last--);] with
    [None] for [last < 0]. *)
Fixpoint search_last (nss : list (list node)) (last : nat) : option nat :=
  match nss !! last with
  | Some [] =>
      match last with
      | O => None
      | S l => search_last nss l
      end
  | _ => Some last
  end.

(** [locpath_search]: the result, the state, [*tmatch] and [*smatch]; the
    latter is the list of steps from the step it points to on, empty when
    it is [NULL]. *)
Definition locpath_search (fuel : nat) (h : heap) (lp : option (list step))
    (st : state) (tmatch : option node)
  : outcome (Z * state * option node * list step) :=
  match lp with
  | None => Abort
  | Some steps =>
      do '(st1, ns) <-
        ns_from_locpath fuel h (eval_expr fuel h) steps (set_ctx tmatch st);
      match ns with
      | None => Abort
      | Some nss =>
          let maxns := length steps in
          match search_last nss maxns with
          | None => Ok (1, st1, None, steps)
          | Some last =>
              match nss !! last with
              | Some (n :: rest) =>
                  if 1 <? Z.of_nat (length (n :: rest))
                  then Ok (-1, st1, None, [])
                  else Ok (0, st1, Some n, drop last steps)
              | _ => Abort
              end
          end
      end
  end.

(** *** Changing the tree *)

(** Modelled from the spec: [make_tree] is defined outside [pathx.c]; it is
    the hook [make_child(label, parent)] of the specification that
    allocates a node with the given label and parent link, no value, no
    children and no sibling.  The new address is one not in use. *)
Definition make_tree (lbl val : option string) (par : node)
    (ch : option node) (h : heap) : heap * node :=
  let n : node := fresh (dom h) in
  (<[n := mk_tree lbl val par ch None]> h, n).

(** The last element of the sibling list that starts at [n]. *)
Fixpoint list_last (fuel : nat) (h : heap) (n : node) : outcome node :=
  match fuel with
  | O => OutOfFuel
  | S f =>
      do t <- deref h n;
      match next t with
      | None => Ok n
      | Some m => list_last f h m
      end
  end.

(** Modelled from the spec: the macro [list_append] of [internal.h],
    applied to [parent->children]: the node [t] becomes the last child. *)
Definition list_append_children (fuel : nat) (h : heap) (par t : node)
  : outcome heap :=
  do tp <- deref h par;
  match children tp with
  | None =>
      Ok (<[par := mk_tree (label tp) (tvalue tp) (parent tp) (Some t)
                            (next tp)]> h)
  | Some c =>
      do l <- list_last fuel h c;
      do tl <- deref h l;
      Ok (<[l := mk_tree (label tl) (tvalue tl) (parent tl) (children tl)
                          (Some t)]> h)
  end.

(** The element of the sibling list from [n] on whose successor is [e]. *)
Fixpoint list_pred (fuel : nat) (h : heap) (n e : node)
  : outcome (option node) :=
  match fuel with
  | O => OutOfFuel
  | S f =>
      do t <- deref h n;
      match next t with
      | None => Ok None
      | Some m => if Nat.eqb m e then Ok (Some n) else list_pred f h m e
      end
  end.

(** Modelled from the spec: the macro [list_remove] of [internal.h],
    applied to [first_child] and [first_child->parent->children]; it is the
    hook [remove_child(node, parent)] of the specification. *)
Definition list_remove_child (fuel : nat) (h : heap) (e : node)
  : outcome heap :=
  do te <- deref h e;
  do tp <- deref h (parent te);
  do h1 <-
    match children tp with
    | None => Ok h
    | Some c =>
        if Nat.eqb c e then
          Ok (<[parent te := mk_tree (label tp) (tvalue tp) (parent tp)
                                     (next te) (next tp)]> h)
        else
          do q <- list_pred fuel h c e;
          match q with
          | None => Ok h
          | Some q' =>
              do tq <- deref h q';
              Ok (<[q' := mk_tree (label tq) (tvalue tq) (parent tq)
                                  (children tq) (next te)]> h)
          end
    end;
  do te1 <- deref h1 e;
  Ok (<[e := mk_tree (label te1) (tvalue te1) (parent te1) (children te1)
                     None]> h1).

(** Modelled from the spec: [free_tree] is defined outside [pathx.c]; it is
    the hook [free_subtree(node)] of the specification, which releases the
    nodes of the list that starts at [t] with everything below them. *)
Fixpoint free_tree (fuel : nat) (h : heap) (t : option node) : outcome heap :=
  match t with
  | None => Ok h
  | Some n =>
      match fuel with
      | O => OutOfFuel
      | S f =>
          do tn <- deref h n;
          do h1 <- free_tree f h (children tn);
          free_tree f (delete n h1) (next tn)
      end
  end.

(** [while (first_child->children != NULL) first_child = first_child->children;] *)
Fixpoint descend_first (fuel : nat) (h : heap) (n : node) : outcome node :=
  match fuel with
  | O => OutOfFuel
  | S f =>
      do t <- deref h n;
      match children t with
      | None => Ok n
      | Some c => descend_first f h c
      end
  end.

(** The loop of [pathx_expand_tree] over the steps that are left: the
    tree, [first_child], and whether the loop ran to its end rather than
    leaving by [goto error]. *)
Fixpoint expand_steps (fuel : nat) (ss : list step) (h : heap) (par : node)
    (first_child : option node) : outcome (heap * option node * bool) :=
  match ss with
  | [] => Ok (h, first_child, true)
  | s :: rest =>
      match step_name s, step_axis s with
      | Some nm, CHILD =>
          let '(h1, t) := make_tree (Some nm) None par None h in
          let fc := match first_child with None => Some t | _ => first_child end in
          do h2 <- list_append_children fuel h1 par t;
          expand_steps fuel rest h2 t fc
      | _, _ => Ok (h, first_child, false)
      end
  end.

(** Expand the tree so that it contains all components of the path: the
    result, the tree, the path and [*tree]. *)
Definition pathx_expand_tree (fuel : nat) (h : heap) (path : pathx)
  : outcome (Z * heap * pathx * option node) :=
  do '(r, st1, tree, step) <-
    locpath_search fuel h (px_locpath path) (px_state path) (px_origin path);
  let path1 := set_px_state st1 path in
  if r =? -1 then Ok (-1, h, path1, tree)
  else
    match step with
    | [] => Ok (0, h, path1, tree)
    | _ :: _ =>
        match (match tree with None => px_origin path | _ => tree end) with
        | None => Abort
        | Some par =>
            do '(h1, first_child, fin) <- expand_steps fuel step h par None;
            if fin then
              match first_child with
              | None => Abort
              | Some fc =>
                  do leaf <- descend_first fuel h1 fc;
                  Ok (0, h1, path1, Some leaf)
              end
            else
              match first_child with
              | None => Ok (-1, h1, path1, None)
              | Some fc =>
                  do h2 <- list_remove_child fuel h1 fc;
                  do h3 <- free_tree fuel h2 (Some fc);
                  Ok (-1, h3, path1, None)
              end
        end
    end.

(** * Definitions for the properties

    Trees, states and compiled paths to evaluate the code on, and the
    notions of the specification that the properties compare the code
    with. *)

(** A tree that is only its root: the parent link of node 0 is a
    self-loop. *)
Definition root_tree : tree := mk_tree (Some "r") None 0%nat None None.
Definition root_only : heap := {[ 0%nat := root_tree ]}.

(** The step [..] as [parse_step] builds it. *)
Definition dotdot : step := mk_step PARENT None None.

(** The tree of the specification's concrete scenarios: the root [r]
    (node 0) with the children [a] (node 1, value 1), [b] (node 2,
    value 2) and [a] (node 3, value 1), the second [a] with the child [c]
    (node 4). *)
Definition scenario : heap :=
  list_to_map
    [ (0%nat, mk_tree (Some "r") None 0%nat (Some 1%nat) None);
      (1%nat, mk_tree (Some "a") (Some "1") 0%nat None (Some 2%nat));
      (2%nat, mk_tree (Some "b") (Some "2") 0%nat None (Some 3%nat));
      (3%nat, mk_tree (Some "a") (Some "1") 0%nat (Some 4%nat) None);
      (4%nat, mk_tree (Some "c") None 3%nat None None) ].

(** Parse [text], evaluate it against [h] from [origin] and call
    [pathx_first]: the error code of the parse and the first node. *)
Definition parse_and_first (fuel : nat) (h : heap) (origin : node)
    (text : string) : outcome (pathx_errcode * option node) :=
  do '(code, p) <- pathx_parse fuel (Some origin) text;
  do '(r, _) <- pathx_first fuel h p;
  Ok (code, r).

(** The state in which [eval_eq] finds the operands of ['x' != 'y']. *)
Definition state_x_y : state :=
  mk_state PATHX_NOERROR "" "" (Some 0%nat) 1 1
           [V_boolean false; V_boolean true;
            V_string (Some "x"); V_string (Some "y")] 8 [3; 2] [].

(** The compiled path of the text [/a[2]]. *)
Definition parsed_a_2 : pathx :=
  Eval vm_compute in
    match pathx_parse 10 (Some 0%nat) "/a[2]" with
    | Ok (_, p) => p
    | _ => mk_pathx (init_state "") None None 0 None
    end.


(** [pathx_next] called until it returns [NULL], at most [n] times: the
    nodes it returned. *)
Fixpoint next_until_absent (n : nat) (p : pathx) : outcome (list node) :=
  match n with
  | O => OutOfFuel
  | S n' =>
      do '(r, p1) <- pathx_next p;
      match r with
      | None => Ok []
      | Some x => do l <- next_until_absent n' p1; Ok (x :: l)
      end
  end.

(** [pathx_first] followed by [pathx_next] until it returns [NULL]. *)
Definition first_then_next (fuel : nat) (h : heap) (n : nat) (p : pathx)
  : outcome (list node) :=
  do '(r, p1) <- pathx_first fuel h p;
  match r with
  | None => Ok []
  | Some x => do l <- next_until_absent n p1; Ok (x :: l)
  end.

(** Parse [text] and iterate over its result on [h] from [origin]: the
    error code of the parse and the nodes in the order they are yielded. *)
Definition parse_and_iterate (fuel : nat) (h : heap) (origin : node)
    (text : string) : outcome (pathx_errcode * list node) :=
  do '(code, p) <- pathx_parse fuel (Some origin) text;
  do l <- first_then_next fuel h fuel p;
  Ok (code, l).

(** The compiled path of the text [a/..]. *)
Definition parsed_a_up : pathx :=
  Eval vm_compute in
    match pathx_parse 10 (Some 0%nat) "a/.." with
    | Ok (_, p) => p
    | _ => mk_pathx (init_state "") None None 0 None
    end.

(** The compiled path of [a/..] after [pathx_first] at the root of the
    scenario tree. *)
Definition first_a_up : pathx :=
  Eval vm_compute in
    match pathx_first 20 scenario parsed_a_up with
    | Ok (_, p) => p
    | _ => parsed_a_up
    end.

Ltac bind_inv H :=
  match type of H with
  | obind ?m _ = Ok _ =>
      let E := fresh "E" in
      destruct m as [?| |] eqn:E; cbn [obind] in H;
      [|discriminate H|discriminate H]
  end.

(** The compiled path of the text [/b]. *)
Definition parsed_b : pathx :=
  Eval vm_compute in
    match pathx_parse 10 (Some 0%nat) "/b" with
    | Ok (_, p) => p
    | _ => mk_pathx (init_state "") None None 0 None
    end.

(** Predicate filtering as the specification describes it: the entries of
    the working set before the removals are visited once each, in order;
    [ctx] is the entry, and [ctx_pos] advances after every entry, kept or
    removed; the entries for which the predicate holds are the result. *)
Fixpoint filter_positions (ev : expr -> state -> outcome state) (e : expr)
    (st : state) (rest : list node) : outcome (state * list node) :=
  match rest with
  | [] => Ok (st, [])
  | c :: rest' =>
      do '(st1, keep) <- eval_pred ev e (set_ctx (Some c) st);
      do '(st2, kept) <-
        filter_positions ev e
          (set_ctx_pos (uint_wrap (ctx_pos st1 + 1)) st1) rest';
      Ok (st2, if keep then c :: kept else kept)
  end.

(** The built-in [position] and the predicate [position() = n] for the
    number literal in slot [ind] of the value pool. *)
Definition position_func : func :=
  mk_func "position" 0 T_NUMBER [] impl_position.

Definition position_is (ty tyl tyr : type) (ind : Z) : expr :=
  E_BINARY ty OP_EQ (E_APP tyl position_func []) (E_VALUE tyr ind).

(** The entry of [rest] at position [n], when [rest] is numbered from
    [p] on. *)
Definition entry_at (p n : Z) (rest : list node) : list node :=
  if p <=? n then
    match rest !! Z.to_nat (n - p) with
    | Some x => [x]
    | None => []
    end
  else [].

(** What the evaluation of [position() = n] needs of the state: no error,
    a value pool as [pathx_parse] and [make_value] keep it, with room for
    [m] more values, and the literal in its slot. *)
Record pool_inv (ind n m : Z) (st : state) : Prop := mk_pool_inv {
  pi_noerr : HAS_ERROR st = false;
  pi_size : exists k : Z, 0 <= k <= 31 /\ value_pool_size st = 2 ^ k;
  pi_used : value_pool_used st <= value_pool_size st;
  pi_room : value_pool_used st + m <= 2 ^ 31;
  pi_false : value_pool st !! 0%nat = Some (V_boolean false);
  pi_true : value_pool st !! 1%nat = Some (V_boolean true);
  pi_lit : value_pool st !! Z.to_nat ind = Some (V_number n)
}.

(** The state of the compiled path of [/a[position()=2]], with the root of
    the scenario tree as context, and the step [a[position()=2]]. *)
Definition state_position_2 : state :=
  Eval vm_compute in
    match pathx_parse 10 (Some 0%nat) "/a[position()=2]" with
    | Ok (_, p) => set_ctx (Some 0%nat) (px_state p)
    | _ => init_state ""
    end.

Definition step_a_position_2 : step :=
  mk_step CHILD (Some "a")
          (Some [position_is T_BOOLEAN T_NUMBER T_NUMBER 2]).

(** The sibling list that starts at [first] is the list [l] of nodes, each
    linked to the following one by [next]. *)
Fixpoint sibling_chain (h : heap) (l : list node) (first : option node)
  : Prop :=
  match l with
  | [] => first = None
  | n :: l' =>
      first = Some n
      /\ exists t : tree, h !! n = Some t /\ sibling_chain h l' (next t)
  end.

(** The name test of a step on the node at an address. *)
Definition node_matches (h : heap) (s : step) (n : node) : bool :=
  match h !! n with
  | Some t => step_matches s t
  | None => false
  end.

(** The ancestors of [c], from its parent up to the root: each node of [l]
    is the parent of the one before it ([c] for the first), and the last
    one is its own parent. *)
Fixpoint parent_chain (h : heap) (l : list node) (c : node) : Prop :=
  match l with
  | [] => False
  | n :: l' =>
      exists t tn : tree,
        h !! c = Some t /\ parent t = n /\ h !! n = Some tn
        /\ match l' with
           | [] => parent tn = n
           | _ :: _ => parent tn <> n /\ parent_chain h l' n
           end
  end.

(** The compiled path of [/b] after [pathx_first] at the root of the
    scenario tree. *)
Definition first_b : pathx :=
  Eval vm_compute in
    match pathx_first 20 scenario parsed_b with
    | Ok (_, p) => p
    | _ => parsed_b
    end.

(** The compiled path of the text [/a/x]. *)
Definition parsed_a_x : pathx :=
  Eval vm_compute in
    match pathx_parse 10 (Some 0%nat) "/a/x" with
    | Ok (_, p) => p
    | _ => mk_pathx (init_state "") None None 0 None
    end.

(** The built-in [last]. *)
Definition last_func : func := mk_func "last" 0 T_NUMBER [] impl_last.

(** A state without error whose value pool is as [pathx_parse] and
    [make_value] keep it, with room for [m] more values. *)
Record pool_room (m : Z) (st : state) : Prop := mk_pool_room {
  pr_noerr : HAS_ERROR st = false;
  pr_size : exists k : Z, 0 <= k <= 31 /\ value_pool_size st = 2 ^ k;
  pr_used : value_pool_used st <= value_pool_size st;
  pr_room : value_pool_used st + m <= 2 ^ 31
}.

(** What the evaluator keeps of a state: the text, the position in it and
    the slots of the value pool that were in use. *)
Definition eval_keeps (st st' : state) : Prop :=
  txt st' = txt st
  /\ pos st' = pos st
  /\ value_pool st `prefix_of` value_pool st'.

(** The context node, position and length are the same in both states. *)
Definition same_ctx (st st' : state) : Prop :=
  ctx st' = ctx st /\ ctx_pos st' = ctx_pos st /\ ctx_len st' = ctx_len st.

(** The root expression of the compiled path of [/b], the state in which
    [pathx_first] evaluates it at the root of the scenario tree, and the
    state after its evaluation. *)
Definition expr_b : expr :=
  E_LOCPATH T_NODESET
    (Some [mk_step ROOT None None; mk_step CHILD (Some "b") None]).

Definition state_b : state :=
  Eval vm_compute in
    set_ctx_len 1 (set_ctx_pos 1 (set_ctx (Some 0%nat) (px_state parsed_b))).

Definition evaluated_b : state :=
  Eval vm_compute in
    match eval_expr 20 scenario expr_b state_b with
    | Ok st => st
    | _ => state_b
    end.

(** [s] is what is left of the text [t] from some position on. *)
Definition str_suffix (s t : string) : Prop :=
  exists pre : string, t = (pre ++ s)%string.

(** The number of characters from the current position to the end of the
    text. *)
Definition remaining (st : state) : nat := String.length (pos st).

(** The text of a name as one writes it in a path: a backslash goes before
    every character at which [parse_name] would stop, and before a
    backslash. *)
Fixpoint escape_name (s : string) : string :=
  match s with
  | EmptyString => EmptyString
  | String c r =>
      if name_stop c || ascii_eqb c "\"%char
      then String "\"%char (String c (escape_name r))
      else String c (escape_name r)
  end.

(** The character [c] is in the string [s]. *)
Fixpoint str_mem (c : ascii) (s : string) : bool :=
  match s with
  | EmptyString => false
  | String d r => ascii_eqb d c || str_mem c r
  end.

(** The number of expressions in an expression, those in the predicates
    of its steps included. *)
Fixpoint expr_size (e : expr) : nat :=
  match e with
  | E_LOCPATH _ lp =>
      S (match lp with
         | None => 0
         | Some ss => list_sum (List.map step_size ss)
         end)
  | E_BINARY _ _ l r => S (expr_size l + expr_size r)
  | E_VALUE _ _ => 1
  | E_APP _ _ args => S (list_sum (List.map expr_size args))
  end
with step_size (s : step) : nat :=
  match s with
  | mk_step _ _ ps =>
      match ps with
      | None => 0
      | Some es => list_sum (List.map expr_size es)
      end
  end.

Global Instance func_impl_eq_dec : EqDecision func_impl.
Proof. solve_decision. Defined.

Global Instance func_eq_dec : EqDecision func.
Proof. solve_decision. Defined.

(** What the type checker relies on in an expression it is given, for a
    value pool with [n] slots in use: a location path has its list of
    steps, a value is a slot in use, a call has as many arguments as its
    function takes, and the function is one of the table of functions. *)
Fixpoint expr_wf (n : nat) (e : expr) : bool :=
  match e with
  | E_LOCPATH _ lp =>
      match lp with
      | None => false
      | Some ss => forallb (step_wf n) ss
      end
  | E_BINARY _ _ l r => expr_wf n l && expr_wf n r
  | E_VALUE _ vind => (0 <=? vind) && (vind <? Z.of_nat n)
  | E_APP _ f args =>
      bool_decide (elem_of f builtin_funcs)
      && Nat.eqb (length args) (arity f)
      && forallb (expr_wf n) args
  end
with step_wf (n : nat) (s : step) : bool :=
  match s with
  | mk_step _ _ ps =>
      match ps with
      | None => true
      | Some es => forallb (expr_wf n) es
      end
  end.

(** The errors the parser itself raises. *)
Definition parse_error (c : pathx_errcode) : bool :=
  match c with
  | PATHX_ENAME | PATHX_ESTRING | PATHX_ENUMBER | PATHX_EDELIM
  | PATHX_EPRED | PATHX_ENOMEM => true
  | _ => false
  end.

(** What every function of the parser does to the state it is given: the
    text stays, the position moves forward in it, the error code is left
    or set to one of the parser's errors, and the value pool keeps its
    slots. *)
(** The values in use fit the allocated pool: the slot that [make_value]
    writes, [value_pool[value_pool_used]], lies inside the array. *)
Definition pool_fits (st : state) : Prop :=
  value_pool_used st <= value_pool_size st.

Record advances (st st' : state) : Prop := mk_advances {
  adv_txt : txt st' = txt st;
  adv_pos : str_suffix (pos st') (pos st);
  adv_err : errcode st' = errcode st \/ parse_error (errcode st') = true;
  adv_prefix : value_pool st `prefix_of` value_pool st';
  adv_ctx : ctx st' = ctx st /\ ctx_pos st' = ctx_pos st
            /\ ctx_len st' = ctx_len st /\ values st' = values st;
  adv_fits : pool_fits st -> pool_fits st'
}.

(** The expressions [es] are what is on the stack of [st'] above the
    stack of [st]; the type checker can take them, and the text read from
    [st] to [st'] has at least one character for each expression in
    them. *)
Record pushed (st st' : state) (es : list expr) : Prop := mk_pushed {
  pushed_exprs : exprs st' = (es ++ exprs st)%list;
  pushed_wf : forallb (expr_wf (length (value_pool st'))) es = true;
  pushed_size :
    (list_sum (List.map expr_size es) + remaining st' <= remaining st)%nat
}.

(** A function of the parser that pushes no expression and makes no
    value: it moves the position and may raise an error. *)
Record moved (st st' : state) : Prop := mk_moved {
  moved_adv : advances st st';
  moved_exprs : exprs st' = exprs st;
  moved_pool : value_pool st' = value_pool st
}.

(** A function of the parser that leaves, unless it raises an error, one
    expression on the stack. *)
Definition parses (st st' : state) : Prop :=
  advances st st'
  /\ (HAS_ERROR st' = false -> exists e : expr, pushed st st' [e]).

(** What the type checker does to the state: nothing, or it raises a type
    error. *)
Definition checked (st st' : state) : Prop :=
  st' = st \/ st' = STATE_ERROR PATHX_ETYPE st.

(** The type of a binary expression by the types of its operands, where
    the operator takes them: [=] and [!=] compare node sets and strings
    with each other, and numbers with numbers; the arithmetic operators
    take numbers. *)
Definition binary_type (op : binary_op) (l r : type) : option type :=
  let set_or_string t :=
    match t with T_NODESET | T_STRING => true | _ => false end in
  let number t := match t with T_NUMBER => true | _ => false end in
  match op with
  | OP_EQ | OP_NEQ =>
      if (set_or_string l && set_or_string r) || (number l && number r)
      then Some T_BOOLEAN else None
  | OP_PLUS | OP_MINUS | OP_STAR =>
      if number l && number r then Some T_NUMBER else None
  end.

(** An expression with the types in its [type] fields that the type system
    of path expressions gives it, over a value pool [pool]: a location
    path is a node set and its predicates are node sets, numbers or
    booleans; a value has the type of its slot; a call has the type its
    function returns. *)
Fixpoint expr_typed (pool : list value) (e : expr) : bool :=
  match e with
  | E_LOCPATH ty lp =>
      bool_decide (ty = T_NODESET)
      && match lp with
         | None => false
         | Some ss => forallb (step_typed pool) ss
         end
  | E_BINARY ty op l r =>
      expr_typed pool l && expr_typed pool r
      && bool_decide (binary_type op (expr_type l) (expr_type r) = Some ty)
  | E_VALUE ty vind =>
      match pool !! Z.to_nat vind with
      | Some v => bool_decide (ty = value_tag v)
      | None => false
      end
  | E_APP ty f args =>
      bool_decide (ty = ftype f)
      && bool_decide (elem_of f builtin_funcs)
      && Nat.eqb (length args) (arity f)
      && forallb (expr_typed pool) args
  end
with step_typed (pool : list value) (s : step) : bool :=
  match s with
  | mk_step _ _ ps =>
      match ps with
      | None => true
      | Some es =>
          forallb (fun e => expr_typed pool e && pred_type_ok (expr_type e)) es
      end
  end.

Definition pred_typed (pool : list value) (e : expr) : bool :=
  expr_typed pool e && pred_type_ok (expr_type e).

(** The evaluation from [st] to [st'] has pushed one value, of type
    [ty]. *)
Definition pushes_typed (st st' : state) (ty : type) : Prop :=
  exists (vind : Z) (v : value),
    values st' = vind :: values st
    /\ value_pool st' !! Z.to_nat vind = Some v
    /\ value_tag v = ty.

(** The expression of the text [/b] as the parser leaves it, before the
    type checker has set the types. *)
Definition unchecked_b : expr :=
  E_LOCPATH T_NONE
    (Some [mk_step ROOT None None; mk_step CHILD (Some "b") None]).

(** A tree as a value: a node with the trees of its children, in the order
    of the sibling list. *)
Unset Elimination Schemes.
Inductive rtree : Type :=
| RNode (n : node) (kids : list rtree).
Set Elimination Schemes.

Definition rroot (t : rtree) : node := match t with RNode n _ => n end.

(** The nodes of a tree in document order: a node before its children,
    the children from the first to the last. *)
Fixpoint preorder (t : rtree) : list node :=
  match t with
  | RNode n kids => n :: flat_map preorder kids
  end.

Definition first_node (ts : list rtree) : option node :=
  match ts with
  | [] => None
  | t :: _ => Some (rroot t)
  end.

(** The tree [t] is in the heap, with the links of [struct tree]: its root
    has the parent [par] and the next sibling [nxt], its [children] link
    is its first child, every child has the root as parent and the child
    after it as next sibling. *)
Fixpoint tree_at (h : heap) (par : node) (nxt : option node) (t : rtree)
  : Prop :=
  match t with
  | RNode n kids =>
      exists tn : tree,
        h !! n = Some tn
        /\ parent tn = par /\ next tn = nxt
        /\ children tn = first_node kids
        /\ (fix forest (ks : list rtree) : Prop :=
              match ks with
              | [] => True
              | k :: rest => tree_at h n (first_node rest) k /\ forest rest
              end) kids
  end.

Fixpoint forest_at (h : heap) (par : node) (ks : list rtree) : Prop :=
  match ks with
  | [] => True
  | k :: rest => tree_at h par (first_node rest) k /\ forest_at h par rest
  end.

(** The part of [step_next] that leaves a node without children on the
    axes [descendant] and [descendant-or-self]: climb to the first node
    that has a next sibling, or to the context, and take the sibling. *)
Definition climb_next (fuel : nat) (h : heap) (ctx n : node)
  : outcome (option node) :=
  do m <- climb_to_next fuel h ctx n;
  if Nat.eqb m ctx then Ok None
  else do tm <- deref h m; Ok (next tm).

(** With fuel [D] or more, the climb from [n] ends in [k]. *)
Definition continues (h : heap) (D : nat) (ctx n : node) (k : option node)
  : Prop :=
  forall d : nat, (D <= d)%nat -> climb_next d h ctx n = Ok k.

(** The nodes of [l] are the ones that the loop of [step_next] goes
    through on the axis [a], from [start] until it has [fin] as the next
    candidate, with fuel [D] or more for each turn. *)
Fixpoint axis_walk (h : heap) (D : nat) (a : axis) (ctx : node)
    (l : list node) (start fin : option node) : Prop :=
  match l with
  | [] => start = fin
  | n :: l' =>
      start = Some n
      /\ exists (t : tree) (nxt : option node),
           h !! n = Some t
           /\ (forall d : nat, (D <= d)%nat ->
                 axis_next d h a ctx n = Ok nxt)
           /\ axis_walk h D a ctx l' nxt fin
  end.

(** The tree below node 0 of the scenario tree. *)
Definition scenario_rtree : rtree :=
  RNode 0%nat
    [RNode 1%nat []; RNode 2%nat []; RNode 3%nat [RNode 4%nat []]].

(** A name that can be the name of a step as it stands: it is not empty,
    does not start with a dot or a star, and has no NUL and no colon in
    it. *)
Definition step_name_ok (nm : string) : bool :=
  match nm with
  | EmptyString => false
  | String c _ => negb (ascii_eqb c "."%char) && negb (ascii_eqb c "*"%char)
  end
  && negb (str_mem NUL nm) && negb (str_mem ":"%char nm).

(** The text of the path that goes from the root down the children with
    the names [names]: a slash and the escaped name for each of them. *)
Fixpoint path_text (names : list string) : string :=
  match names with
  | [] => EmptyString
  | nm :: rest => String SEP (escape_name nm ++ path_text rest)
  end.

(** The steps of that path after the step to the root. *)
Definition name_steps (names : list string) : list step :=
  List.map (fun nm => mk_step CHILD (Some nm) None) names.

(** Predicate filtering as the specification describes it, for the list of
    the predicates of a step: each predicate filters what the ones before
    it have left, with the positions counted anew from 1 and the context
    length set to the number of entries it is given. *)
Fixpoint filter_all (ev : expr -> state -> outcome state) (preds : list expr)
    (st : state) (next : list node) : outcome (state * list node) :=
  match preds with
  | [] => Ok (st, next)
  | p :: rest =>
      do '(st1, kept) <-
        filter_positions ev p
          (set_ctx_pos 1
             (set_ctx_len (uint_wrap (Z.of_nat (length next))) st)) next;
      filter_all ev rest st1 kept
  end.


Definition kids_of (t : rtree) : list rtree :=
  match t with RNode _ ks => ks end.

(** What a path of names denotes in a tree: from the trees [ts], the
    children with the first name, in the order of the trees and of their
    sibling lists; from these the children with the second name, and so
    on. *)
Fixpoint select (h : heap) (names : list string) (ts : list rtree)
  : list rtree :=
  match names with
  | [] => ts
  | nm :: rest =>
      select h rest
        (flat_map
           (fun t =>
              List.filter
                (fun k =>
                   node_matches h (mk_step CHILD (Some nm) None) (rroot k))
                (kids_of t))
           ts)
  end.

(** A tree that is in the heap and has at most [fuel] nodes. *)
Definition tree_within (fuel : nat) (h : heap) (t : rtree) : Prop :=
  (exists (par : node) (nxt : option node), tree_at h par nxt t)
  /\ (length (preorder t) <= fuel)%nat.

(** The error code of [st'] is the one of [st], or [PATHX_ENOMEM]. *)
Definition only_enomem (st st' : state) : Prop :=
  errcode st' = errcode st \/ errcode st' = PATHX_ENOMEM.
(** A link of a node, to its first child or to its next sibling, is kept
    from the tree [h] on: it is what it was, or it was [NULL] and is now a
    node that was not in [h]. *)
Definition link_kept (h : heap) (a b : option node) : Prop :=
  b = a \/ (a = None /\ exists c : node, b = Some c /\ h !! c = None).

(** Every node of [h] is in [h'] with the label, the value and the parent
    it has in [h], and with its links kept. *)
Definition heap_keeps (h h' : heap) : Prop :=
  forall (n : node) (t : tree),
    h !! n = Some t ->
    exists t' : tree,
      h' !! n = Some t'
      /\ label t' = label t /\ tvalue t' = tvalue t /\ parent t' = parent t
      /\ link_kept h (children t) (children t')
      /\ link_kept h (next t) (next t').

(** The compiled path of the text [/b/x/y]: [b] is in the scenario tree,
    [x] and [y] are not. *)
Definition parsed_b_x_y : pathx :=
  Eval vm_compute in
    match pathx_parse 10 (Some 0%nat) "/b/x/y" with
    | Ok (_, p) => p
    | _ => mk_pathx (init_state "") None None 0 None
    end.

(** The scenario tree after [pathx_expand_tree] on that path. *)
Definition scenario_b_x_y : heap :=
  Eval vm_compute in
    match pathx_expand_tree 20 scenario parsed_b_x_y with
    | Ok (_, h, _, _) => h
    | _ => scenario
    end.
(** [st'] keeps the values in use within the pool when [st] does. *)
Definition pool_kept (st st' : state) : Prop := pool_fits st -> pool_fits st'.

Ltac pool_same :=
  unfold pool_kept, pool_fits, value_pool_used; simpl;
  rewrite ?length_insert; auto.

(** The compiled path of a text with fourteen numbers: with the two
    booleans they fill the pool, which the parser has doubled once, so
    that the evaluation doubles it again for the node set it makes; and
    the first node that the path finds in the tree of the scenario. *)
Definition text_full : string := "/b[1=1][2=2][3=3][4=4][5=5][6=6][7=7]".

Definition parsed_full : pathx :=
  Eval vm_compute in
    match pathx_parse 50 (Some 0%nat) text_full with
    | Ok (_, p) => p
    | _ => mk_pathx (init_state text_full) None None 0 None
    end.

Definition first_full : option node * pathx :=
  Eval vm_compute in
    match pathx_first 50 scenario parsed_full with
    | Ok r => r
    | _ => (None, parsed_full)
    end.
(** The expression of the path [a/..], the state in which [pathx_first]
    evaluates it at the root of the scenario tree, and the state after the
    evaluation. *)
Definition expr_a_up : expr :=
  Eval vm_compute in
    match exprs_bottom (px_state parsed_a_up) with
    | Some e => e
    | None => E_VALUE T_NONE 0
    end.

Definition state_a_up : state :=
  Eval vm_compute in
    set_ctx_len 1 (set_ctx_pos 1
      (set_ctx (px_origin parsed_a_up) (px_state parsed_a_up))).

Definition evaluated_a_up : state :=
  Eval vm_compute in
    match eval_expr 20 scenario expr_a_up state_a_up with
    | Ok st => st
    | _ => state_a_up
    end.




(** * Properties *)

(** ** The scenarios of the specification *)

(** The six concrete scenarios of the specification, on its tree, give the
    results it lists. *)
Example scenario_results :
  parse_and_iterate 20 scenario 0%nat "/a" = Ok (PATHX_NOERROR, [1%nat; 3%nat])
  /\ parse_and_iterate 20 scenario 0%nat "/a[2]" = Ok (PATHX_NOERROR, [3%nat])
  /\ parse_and_iterate 20 scenario 0%nat "/a[. = '1']"
     = Ok (PATHX_NOERROR, [1%nat; 3%nat])
  /\ parse_and_iterate 20 scenario 0%nat "/a[b]" = Ok (PATHX_NOERROR, [])
  /\ parse_and_iterate 20 scenario 0%nat "//c" = Ok (PATHX_NOERROR, [4%nat])
  /\ parse_and_iterate 20 scenario 0%nat "/a[position() = last()]"
     = Ok (PATHX_NOERROR, [3%nat]).
Proof. repeat split; vm_compute; reflexivity. Qed.

(** ** Axis traversal: the [parent] axis *)

Lemma step_next_parent fuel h s c cur :
  step_axis s = PARENT -> step_next (S fuel) h s c cur = Ok None.
Proof.
  intros Ha. destruct cur as [n|]; simpl; [|reflexivity].
  unfold axis_next. rewrite Ha. reflexivity.
Qed.

(** C3, as the specification states it, fails: on the root, whose parent
    link is a self-loop, the step [..] does not come back without a
    candidate; [step_first] yields the root itself. *)
Lemma parent_of_root_counterexample :
  ~ (forall (fuel : nat) (h : heap) (s : step) (c : node) (t : tree),
        step_axis s = PARENT -> h !! c = Some t -> parent t = c ->
        step_first fuel h s c = Ok None).
Proof.
  intros H.
  specialize (H 1%nat root_only dotdot 0%nat root_tree
                eq_refl eq_refl eq_refl).
  vm_compute in H. discriminate H.
Qed.

(** C3 (amended): for every context node, a step on the axis [parent]
    has the context's parent as its only candidate, emitted if it passes
    the name test; [step_next] yields nothing after it.  This holds at the
    root as well, where the parent link is a self-loop and the candidate is
    the root itself. *)
Theorem step_parent_only_candidate (fuel : nat) (h : heap) (s : step)
    (c : node) (t pt : tree) :
  step_axis s = PARENT ->
  h !! c = Some t ->
  h !! parent t = Some pt ->
  step_first (S fuel) h s c
    = Ok (if step_matches s pt then Some (parent t) else None)
  /\ (forall n : node, step_next (S fuel) h s c (Some n) = Ok None)
  /\ (parent t = c -> step_matches s t = true ->
      step_first (S fuel) h s c = Ok (Some c)).
Proof.
  intros Ha Hc Hp.
  assert (Hfirst : step_first (S fuel) h s c
            = Ok (if step_matches s pt then Some (parent t) else None)).
  { unfold step_first. rewrite Ha. unfold deref. rewrite Hc. simpl.
    rewrite Hp. simpl. destruct (step_matches s pt); [reflexivity|].
    unfold axis_next. rewrite Ha. reflexivity. }
  split; [exact Hfirst|]. split.
  - intros n. apply step_next_parent. exact Ha.
  - intros Hroot Hm. rewrite Hfirst.
    rewrite Hroot in Hp. rewrite Hc in Hp. injection Hp as <-.
    rewrite Hm, Hroot. reflexivity.
Qed.

Lemma step_parent_only_candidate_witness :
  step_axis dotdot = PARENT
  /\ root_only !! 0%nat = Some root_tree
  /\ root_only !! parent root_tree = Some root_tree
  /\ step_first 1 root_only dotdot 0%nat
     = Ok (if step_matches dotdot root_tree then Some (parent root_tree)
           else None)
  /\ (forall n : node, step_next 1 root_only dotdot 0%nat (Some n) = Ok None)
  /\ (parent root_tree = 0%nat -> step_matches dotdot root_tree = true ->
      step_first 1 root_only dotdot 0%nat = Ok (Some 0%nat)).
Proof.
  split; [reflexivity|]. split; [reflexivity|]. split; [reflexivity|].
  apply (step_parent_only_candidate 0 root_only dotdot 0%nat
           root_tree root_tree); reflexivity.
Defined.

(** ** Equality of strings *)

(** On two strings [eval_eq] pushes the result of [streqx], for [=] and
    for [!=] alike: the branch does not look at [neq]. *)
Lemma eval_eq_string_string (h : heap) (st : state) (neq : bool)
    (ri li : Z) (rest : list Z) (a b : option string) :
  values st = ri :: li :: rest ->
  HAS_ERROR st = false ->
  value_pool st !! Z.to_nat li = Some (V_string a) ->
  value_pool st !! Z.to_nat ri = Some (V_string b) ->
  eval_eq h st neq
    = Ok (push_boolean_value (streqx a b) (set_values rest st)).
Proof.
  intros Hv He Hl Hr. unfold eval_eq, pop_value, pop_value_ind.
  rewrite Hv. simpl.
  replace (HAS_ERROR (set_values (li :: rest) st)) with false by exact (eq_sym He).
  simpl. rewrite Hr. simpl.
  replace (HAS_ERROR (set_values rest (set_values (li :: rest) st)))
    with false by exact (eq_sym He).
  simpl. rewrite Hl. simpl.
  replace (HAS_ERROR (set_values rest (set_values (li :: rest) st)))
    with false by exact (eq_sym He).
  reflexivity.
Qed.

(** C2 at a failing input: the strings [x] and [y] are not [streqx]-equal,
    yet [!=] on them pushes the index 0 of the canonical [false], and the
    predicate ['x' != 'y'] drops every node; on equal strings [!=] keeps
    them. *)
Theorem neq_strings_yields_streq :
  streqx (Some "x") (Some "y") = false
  /\ (do st <- eval_eq scenario state_x_y true; Ok (values st)) = Ok [0]
  /\ parse_and_first 20 scenario 0%nat "/a['x' != 'y']"
     = Ok (PATHX_NOERROR, None)
  /\ parse_and_first 20 scenario 0%nat "/a['x' != 'x']"
     = Ok (PATHX_NOERROR, Some 1%nat).
Proof. repeat split; vm_compute; reflexivity. Qed.

(** ** Numbers *)

Lemma int_check_spec (v : Z) :
  0 <= v <= ULONG_MAX ->
  (ulong_wrap (int_wrap v) =? v) = (v <? 2 ^ 31) || (2 ^ 64 - 2 ^ 31 <=? v).
Proof.
  unfold ULONG_MAX, ULONG_BITS, ulong_wrap, int_wrap, ULONG_BITS.
  intros Hv.
  change (2 ^ 64) with 18446744073709551616 in *.
  change (2 ^ 32) with 4294967296. change (2 ^ 31) with 2147483648.
  destruct (Z.ltb_spec v 2147483648) as [Hlt|Hge].
  - simpl. rewrite (Z.mod_small (v + 2147483648)) by lia.
    rewrite Z.mod_small by lia. apply Z.eqb_eq. lia.
  - simpl.
    destruct (Z.leb_spec (18446744073709551616 - 2147483648) v) as [Hhi|Hlo].
    + apply Z.eqb_eq.
      assert (Hm : (v + 2147483648) mod 4294967296
                   = v + 2147483648 - 18446744073709551616).
      { symmetry. apply (Z.mod_unique _ _ 4294967296); lia. }
      rewrite Hm.
      symmetry. apply (Z.mod_unique _ _ (-1)); lia.
    + apply Z.eqb_neq. intros Heq.
      pose proof (Z.mod_pos_bound (v + 2147483648) 4294967296 ltac:(lia)) as Hb.
      set (w := (v + 2147483648) mod 4294967296 - 2147483648) in *.
      destruct (Z_lt_le_dec w 0) as [Hneg|Hpos].
      * assert (Hm : w mod 18446744073709551616 = w + 18446744073709551616).
        { symmetry. apply (Z.mod_unique _ _ (-1)); lia. }
        lia.
      * rewrite Z.mod_small in Heq by lia. lia.
Qed.

(** What [parse_number] does with the value [strtoul] converts: it takes
    the values below 2^31 as they are, rejects the values from 2^31 up to
    2^64 - 2^31 - 1, and takes the values from 2^64 - 2^31 on as the
    negative numbers they wrap to. *)
Lemma parse_number_converted (st : state) (v : Z) (e : string) :
  strtoul (pos st) = (v, e, false) ->
  String.length e <> String.length (pos st) ->
  0 <= v <= ULONG_MAX ->
  HAS_ERROR st = false ->
  value_pool_used st < value_pool_size st ->
  parse_number st
  = if (v <? 2 ^ 31) || (2 ^ 64 - 2 ^ 31 <=? v)
    then Ok (push_expr (E_VALUE T_NONE (value_pool_used st))
               (set_value_pool
                  (value_pool st ++ [V_number (int_wrap v)])%list
                  (value_pool_size st) (set_pos e st)))
    else Ok (STATE_ERROR PATHX_ENUMBER st).
Proof.
  intros Hs Hlen Hv He Hroom. unfold parse_number. rewrite Hs.
  rewrite int_check_spec by exact Hv.
  apply Nat.eqb_neq in Hlen. rewrite Hlen. simpl.
  destruct ((v <? 2 ^ 31) || (2 ^ 64 - 2 ^ 31 <=? v)); simpl; [|reflexivity].
  unfold make_value.
  change (value_pool_used (set_pos e st)) with (value_pool_used st).
  change (value_pool_size (set_pos e st)) with (value_pool_size st).
  destruct (Z.geb_spec (value_pool_used st) (value_pool_size st)) as [Hge|_];
    [lia|].
  simpl.
  replace (HAS_ERROR _) with false by exact (eq_sym He).
  unfold store_value, push_expr, set_value_pool, set_exprs, set_pos,
    value_pool_used. simpl.
  rewrite Nat2Z.id.
  replace (<[length (value_pool st) := V_number (int_wrap v)]>
             (value_pool st ++ [V_number 0])%list)
    with (value_pool st ++ [V_number (int_wrap v)])%list; [reflexivity|].
  replace (length (value_pool st)) with (length (value_pool st) + 0)%nat
    by lia.
  rewrite insert_app_r. reflexivity.
Qed.

(** C8 at a failing input: 18446744073709551615 does not fit a signed
    32-bit integer, yet [parse_number] does not fail with
    [PATHX_ENUMBER]: it consumes the digits and stores the number -1,
    and a path with this literal as a predicate parses without error.
    The value 2147483648 is rejected, and 2147483647 is stored as it
    is. *)
Theorem parse_number_accepts_ulong_max :
  (do st <- parse_number (init_state "18446744073709551615");
   Ok (errcode st, pos st, exprs st, value_pool st !! 2%nat))
  = Ok (PATHX_NOERROR, "", [E_VALUE T_NONE 2], Some (V_number (-1)))
  /\ (do '(code, _) <- pathx_parse 20 None "/a[18446744073709551615]"; Ok code)
     = Ok PATHX_NOERROR
  /\ (do st <- parse_number (init_state "2147483648"); Ok (errcode st))
     = Ok PATHX_ENUMBER
  /\ (do st <- parse_number (init_state "2147483647");
      Ok (errcode st, value_pool st !! 2%nat))
     = Ok (PATHX_NOERROR, Some (V_number 2147483647)).
Proof. repeat split; vm_compute; reflexivity. Qed.

(** ** The lookahead for a primary expression *)

Lemma strchr_quotes_digits (c : ascii) :
  strchr_found (quotes ++ "0123456789")%string c
  = ascii_eqb c NUL || ascii_eqb c "'"%char || ascii_eqb c DQUOTE || isdigit c.
Proof.
  destruct c as [[] [] [] [] [] [] [] []]; vm_compute; reflexivity.
Qed.

(** What [looking_at_primary_expr] decides: the text begins with a quote or
    a digit or is at its end, or it has, after any number of letters
    (none included) and any white space, an opening parenthesis. *)
Lemma looking_at_primary_expr_spec (st : state) :
  looking_at_primary_expr st
  = ascii_eqb (cur (pos st)) NUL
    || ascii_eqb (cur (pos st)) "'"%char
    || ascii_eqb (cur (pos st)) DQUOTE
    || isdigit (cur (pos st))
    || ascii_eqb (cur (skip_spaces (skip_alpha (pos st)))) "("%char.
Proof.
  unfold looking_at_primary_expr, peek. rewrite strchr_quotes_digits.
  destruct (ascii_eqb (cur (pos st)) NUL || ascii_eqb (cur (pos st)) "'"%char
            || ascii_eqb (cur (pos st)) DQUOTE || isdigit (cur (pos st)));
    reflexivity.
Qed.

(** C7 at a failing input: the text [(a] begins with a parenthesis that no
    letter precedes, yet the lookahead answers that a primary expression
    follows, and [parse_path_expr] fails with [PATHX_ENAME] in
    [parse_function_call] where [parse_location_path] reads the step named
    [(a].  At the end of the text the lookahead answers the same, and the
    empty text fails with [PATHX_ESTRING] in [parse_literal]. *)
Theorem lookahead_takes_bare_paren_as_primary :
  looking_at_primary_expr (init_state "(a") = true
  /\ (do st <- parse_path_expr 5 (parse_expr 5) (init_state "(a");
      Ok (errcode st, exprs st))
     = Ok (PATHX_ENAME, [])
  /\ (do st <- parse_location_path 5 (parse_expr 5) (init_state "(a");
      Ok (errcode st, exprs st))
     = Ok (PATHX_NOERROR,
           [E_LOCPATH T_NONE (Some [mk_step CHILD (Some "(a") None])])
  /\ looking_at_primary_expr (init_state "") = true
  /\ (do st <- parse_path_expr 5 (parse_expr 5) (init_state "");
      Ok (errcode st))
     = Ok PATHX_ESTRING.
Proof. repeat split; vm_compute; reflexivity. Qed.

(** ** The result of a successful parse *)

(** C5: when [pathx_parse] returns [PATHX_NOERROR], exactly one expression
    is on the stack of expressions, its tag is [E_LOCPATH] and its type
    [T_NODESET], and it is the location path of the compiled path; the
    code returned is always the one the state carries, so that a parse
    that leaves another depth, tag or type returns an error code. *)
Theorem pathx_parse_success_root (fuel : nat) (tree : option node)
    (text : string) (code : pathx_errcode) (p : pathx) :
  pathx_parse fuel tree text = Ok (code, p) ->
  code = errcode (px_state p)
  /\ (code = PATHX_NOERROR ->
      exists e : expr,
        exprs (px_state p) = [e]
        /\ tag_of e = Tag_LOCPATH
        /\ expr_type e = T_NODESET
        /\ px_locpath p = expr_locpath e).
Proof.
  unfold pathx_parse. intros H.
  destruct (parse_expr fuel (init_state text)) as [st1| |]; simpl in H;
    try discriminate.
  destruct (HAS_ERROR st1) eqn:He1.
  { injection H as <- <-. simpl. split; [reflexivity|].
    intros Hc. unfold HAS_ERROR in He1. rewrite Hc in He1. discriminate. }
  destruct (exprs st1) as [|e [|e' es]] eqn:Hex.
  - injection H as <- <-. simpl. split; [reflexivity|]. discriminate.
  - destruct (check_expr fuel e st1) as [[st2 e1]| |]; simpl in H;
      try discriminate.
    destruct (HAS_ERROR (set_exprs [e1] st2)) eqn:He2.
    { injection H as <- <-. simpl. split; [reflexivity|].
      intros Hc. unfold HAS_ERROR in He2. simpl in He2.
      rewrite Hc in He2. discriminate. }
    destruct (bool_decide (expr_type e1 = T_NODESET)) eqn:Hty; simpl in H.
    + destruct (bool_decide (tag_of e1 = Tag_LOCPATH)) eqn:Htag; simpl in H.
      * injection H as <- <-. simpl. split; [reflexivity|].
        intros _. exists e1.
        apply bool_decide_eq_true in Hty. apply bool_decide_eq_true in Htag.
        repeat split; assumption.
      * injection H as <- <-. simpl. split; [reflexivity|]. discriminate.
    + injection H as <- <-. simpl. split; [reflexivity|]. discriminate.
  - injection H as <- <-. simpl. split; [reflexivity|]. discriminate.
Qed.

Lemma pathx_parse_success_root_witness :
  pathx_parse 10 (Some 0%nat) "/a[2]" = Ok (PATHX_NOERROR, parsed_a_2)
  /\ PATHX_NOERROR = errcode (px_state parsed_a_2)
  /\ (PATHX_NOERROR = PATHX_NOERROR ->
      exists e : expr,
        exprs (px_state parsed_a_2) = [e]
        /\ tag_of e = Tag_LOCPATH
        /\ expr_type e = T_NODESET
        /\ px_locpath parsed_a_2 = expr_locpath e).
Proof.
  split; [vm_compute; reflexivity|].
  apply (pathx_parse_success_root 10 (Some 0%nat) "/a[2]").
  vm_compute; reflexivity.
Defined.

(** ** Brackets *)


(** ** Iterating over the result *)

Lemma int_wrap_small (z : Z) : - 2 ^ 31 <= z < 2 ^ 31 -> int_wrap z = z.
Proof.
  intros Hz. unfold int_wrap. rewrite Z.mod_small; lia.
Qed.

Lemma size_wrap_small (z : Z) : 0 <= z < 2 ^ 64 -> size_wrap z = z.
Proof. intros Hz. unfold size_wrap. apply Z.mod_small. lia. Qed.

Lemma next_until_absent_drop (ns : list node) (n : nat) :
  forall (p : pathx) (i : nat),
    px_nodeset p = Some ns ->
    px_node p = Z.of_nat i ->
    (i < length ns)%nat ->
    Z.of_nat (length ns) < 2 ^ 31 ->
    (length ns - i <= n)%nat ->
    next_until_absent n p = Ok (drop (S i) ns).
Proof.
  induction n as [|n IH]; intros p i Hns Hi Hlt Hsz Hn; [lia|].
  simpl. unfold pathx_next. rewrite Hns, Hi.
  change (2 ^ 31) with 2147483648 in Hsz.
  rewrite int_wrap_small by (change (2 ^ 31) with 2147483648; lia).
  rewrite size_wrap_small
    by (change (2 ^ 64) with 18446744073709551616; lia).
  replace (Z.of_nat i + 1) with (Z.of_nat (S i)) by lia.
  rewrite Nat2Z.id.
  destruct (Z.ltb_spec (Z.of_nat (S i)) (Z.of_nat (length ns))) as [Hin|Hout].
  - destruct (ns !! S i) as [x|] eqn:Hx.
    + simpl.
      rewrite (IH (set_px_node (Z.of_nat (S i)) p) (S i));
        [|exact Hns|reflexivity|lia|exact Hsz|lia].
      simpl. rewrite (drop_S ns x (S i) Hx). reflexivity.
    + apply lookup_ge_None in Hx. lia.
  - simpl. rewrite drop_ge by lia. reflexivity.
Qed.

Lemma pathx_first_result (fuel : nat) (h : heap) (p p1 : pathx)
    (r : option node) (ns : list node) :
  pathx_first fuel h p = Ok (r, p1) ->
  px_nodeset p1 = Some ns ->
  r = ns !! O /\ px_node p1 = 0.
Proof.
  unfold pathx_first. intros H Hns.
  destruct (px_nodeset p) as [ns0|] eqn:Hp.
  - injection H as <- <-. simpl in Hns. rewrite Hp in Hns.
    injection Hns as <-. split; reflexivity.
  - destruct (exprs_bottom _) as [e|]; [|discriminate].
    destruct (eval_expr fuel h e _) as [st1| |]; simpl in H; try discriminate.
    destruct (HAS_ERROR st1).
    { injection H as <- <-. simpl in Hns. rewrite Hp in Hns. discriminate. }
    destruct (negb _).
    { injection H as <- <-. simpl in Hns. rewrite Hp in Hns. discriminate. }
    destruct (pop_value st1) as [[st2 v]| |]; simpl in H; try discriminate.
    destruct v as [[ns1| | |]|]; try discriminate.
    injection H as <- <-. simpl in Hns. injection Hns as <-.
    split; reflexivity.
Qed.

(** C6, as the specification states it, fails: the nodes that [first] and
    [next] yield need not be distinct.  The path [a/..], evaluated at the
    root of the scenario tree, yields the root twice, once for each child
    [a]: node sets are not made unique. *)
Lemma iteration_distinct_counterexample :
  ~ (forall (fuel : nat) (h : heap) (n : nat) (p : pathx) (l : list node),
        first_then_next fuel h n p = Ok l -> NoDup l).
Proof.
  intros H.
  assert (Hd : NoDup [0%nat; 0%nat]).
  { apply (H 20%nat scenario 5%nat parsed_a_up). vm_compute. reflexivity. }
  apply NoDup_cons_1_1 in Hd. apply Hd. left.
Qed.

(** C6 (amended): when the evaluation of a compiled path produces a final
    node set of n entries, [first] followed by [next] until it returns
    absent yields exactly these n entries, in the order of the node set;
    an entry comes once for each time it is in the node set. *)
Theorem first_then_next_yields_nodeset (fuel : nat) (h : heap) (n : nat)
    (p p1 : pathx) (r : option node) (ns : list node) :
  pathx_first fuel h p = Ok (r, p1) ->
  px_nodeset p1 = Some ns ->
  Z.of_nat (length ns) < 2 ^ 31 ->
  (length ns <= n)%nat ->
  first_then_next fuel h n p = Ok ns
  /\ (forall l : list node,
        first_then_next fuel h n p = Ok l -> length l = length ns).
Proof.
  intros Hf Hns Hsz Hn.
  assert (Hall : first_then_next fuel h n p = Ok ns).
  { unfold first_then_next. rewrite Hf. simpl.
    destruct (pathx_first_result fuel h p p1 r ns Hf Hns) as [-> Hnode].
    destruct ns as [|x ns']; [reflexivity|]. simpl.
    rewrite (next_until_absent_drop (x :: ns') n p1 O Hns Hnode);
      [reflexivity|simpl; lia|exact Hsz|simpl in *; lia]. }
  split; [exact Hall|].
  intros l Hl. rewrite Hall in Hl. injection Hl as <-. reflexivity.
Qed.

Lemma first_then_next_yields_nodeset_witness :
  pathx_first 20 scenario parsed_a_up = Ok (Some 0%nat, first_a_up)
  /\ px_nodeset first_a_up = Some [0%nat; 0%nat]
  /\ Z.of_nat (length [0%nat; 0%nat]) < 2 ^ 31
  /\ (length [0%nat; 0%nat] <= 2)%nat
  /\ first_then_next 20 scenario 2 parsed_a_up = Ok [0%nat; 0%nat]
  /\ (forall l : list node,
        first_then_next 20 scenario 2 parsed_a_up = Ok l ->
        length l = length [0%nat; 0%nat]).
Proof.
  split; [vm_compute; reflexivity|]. split; [reflexivity|].
  split; [reflexivity|]. split; [simpl; lia|].
  apply (first_then_next_yields_nodeset 20 scenario 2 parsed_a_up first_a_up
           (Some 0%nat) [0%nat; 0%nat]).
  - vm_compute; reflexivity.
  - reflexivity.
  - reflexivity.
  - simpl; lia.
Defined.

(** ** Calling [first] again *)

(** The evaluator leaves the stack of expressions alone. *)

Lemma make_value_exprs (tag : type) (st st' : state) (v : Z) :
  make_value tag st = Ok (st', v) -> exprs st' = exprs st.
Proof.
  unfold make_value. intros H.
  destruct tag; try discriminate H;
    repeat (destruct (_ >=? _) || destruct (_ <=? _));
    injection H as <- _; reflexivity.
Qed.

Lemma pop_value_exprs (st st' : state) (v : option value) :
  pop_value st = Ok (st', v) -> exprs st' = exprs st.
Proof.
  unfold pop_value, pop_value_ind. intros H.
  destruct (values st) as [|vind rest]; [discriminate H|].
  cbn [obind] in H.
  destruct (HAS_ERROR _).
  - injection H as <- _. reflexivity.
  - destruct (_ !! _); [|discriminate H]. injection H as <- _. reflexivity.
Qed.

Lemma eval_eq_exprs (h : heap) (st st' : state) (neq : bool) :
  eval_eq h st neq = Ok st' -> exprs st' = exprs st.
Proof.
  unfold eval_eq. intros H.
  bind_inv H. destruct a as [st1 r]. apply pop_value_exprs in E.
  bind_inv H. destruct a as [st2 l]. apply pop_value_exprs in E0.
  destruct l as [lv|]; [|discriminate H].
  destruct r as [rv|]; [|discriminate H].
  bind_inv H.
  destruct (HAS_ERROR st2); injection H as <-; simpl; congruence.
Qed.

Lemma eval_arith_exprs (st st' : state) (op : binary_op) :
  eval_arith st op = Ok st' -> exprs st' = exprs st.
Proof.
  unfold eval_arith. intros H.
  bind_inv H. destruct a as [st1 r]. apply pop_value_exprs in E.
  bind_inv H. destruct a as [st2 l]. apply pop_value_exprs in E0.
  destruct l as [[| a | |]|]; try discriminate H.
  destruct r as [[| b | |]|]; try discriminate H.
  bind_inv H. destruct a0 as [st3 vind]. apply make_value_exprs in E1.
  destruct (HAS_ERROR st3).
  - injection H as <-. congruence.
  - destruct (negb _); [discriminate H|].
    bind_inv H. injection H as <-. simpl. congruence.
Qed.

Lemma run_impl_exprs (i : func_impl) (st st' : state) :
  run_impl i st = Ok st' -> exprs st' = exprs st.
Proof.
  destruct i; unfold run_impl, func_last, func_position; intros H;
    bind_inv H; destruct a as [st1 vind]; apply make_value_exprs in E;
    destruct (HAS_ERROR st1); injection H as <-; simpl; congruence.
Qed.

Section EvalFrame.
Variable h : heap.
Variable ev : expr -> state -> outcome state.
Hypothesis ev_exprs :
  forall (e : expr) (st st' : state), ev e st = Ok st' -> exprs st' = exprs st.

Lemma eval_binary_exprs (op : binary_op) (l r : expr) (st st' : state) :
  eval_binary h ev op l r st = Ok st' -> exprs st' = exprs st.
Proof.
  unfold eval_binary. intros H.
  bind_inv H. apply ev_exprs in E.
  bind_inv H. apply ev_exprs in E0.
  destruct (HAS_ERROR a0).
  - injection H as <-. congruence.
  - destruct op;
      (apply eval_eq_exprs in H || apply eval_arith_exprs in H); congruence.
Qed.

Lemma eval_app_from_exprs (f : func) (n : nat) :
  forall (args : list expr) (st st' : state),
    eval_app_from ev n args f st = Ok st' -> exprs st' = exprs st.
Proof.
  induction n as [|n IH]; intros args st st' H; simpl in H.
  - apply run_impl_exprs in H. exact H.
  - destruct args as [|a rest]; [discriminate H|].
    bind_inv H. apply ev_exprs in E.
    destruct (HAS_ERROR a0).
    + injection H as <-. exact E.
    + apply IH in H. congruence.
Qed.

Lemma eval_pred_exprs (e : expr) (st st' : state) (b : bool) :
  eval_pred ev e st = Ok (st', b) -> exprs st' = exprs st.
Proof.
  unfold eval_pred. intros H.
  bind_inv H. apply ev_exprs in E.
  bind_inv H. destruct a0 as [st2 v]. apply pop_value_exprs in E0.
  destruct v as [[| | |]|]; try discriminate H;
    injection H as <- _; congruence.
Qed.

Lemma pred_loop_exprs (e : expr) (n : nat) :
  forall (st : state) (next : list node) (i : nat) (st' : state)
         (next' : list node),
    pred_loop ev n e st next i = Ok (st', next') -> exprs st' = exprs st.
Proof.
  induction n as [|n IH]; intros st next i st' next' H; simpl in H.
  - destruct (next !! i); [discriminate H|]. injection H as <- _. reflexivity.
  - destruct (next !! i) as [c|]; [|injection H as <- _; reflexivity].
    bind_inv H. destruct a as [st1 keep]. apply eval_pred_exprs in E.
    destruct keep; apply IH in H; simpl in *; congruence.
Qed.

Lemma apply_predicates_exprs (preds : list expr) :
  forall (st : state) (next : list node) (st' : state) (next' : list node),
    apply_predicates ev preds st next = Ok (st', next') ->
    exprs st' = exprs st.
Proof.
  induction preds as [|p rest IH]; intros st next st' next' H; simpl in H.
  - injection H as <- _. reflexivity.
  - bind_inv H. destruct a as [st2 next1]. apply pred_loop_exprs in E.
    apply IH in H. simpl in *. congruence.
Qed.

Lemma ns_steps_exprs (fuel : nat) (steps : list step) :
  forall (st : state) (work : list node) (nss : list (list node))
         (st' : state) (nss' : list (list node)),
    ns_steps fuel h ev steps st work nss = Ok (st', nss') ->
    exprs st' = exprs st.
Proof.
  induction steps as [|s rest IH]; intros st work nss st' nss' H; simpl in H.
  - injection H as <- _. reflexivity.
  - bind_inv H. bind_inv H. destruct a0 as [st1 next1].
    apply IH in H.
    destruct (step_predicates s) as [preds|].
    + apply apply_predicates_exprs in E0. congruence.
    + injection E0 as <- _. exact H.
Qed.

Lemma ns_from_locpath_exprs (fuel : nat) (lp : list step) (st st' : state)
    (ns : option (list (list node))) :
  ns_from_locpath fuel h ev lp st = Ok (st', ns) -> exprs st' = exprs st.
Proof.
  unfold ns_from_locpath. intros H.
  destruct (HAS_ERROR st); [injection H as <- _; reflexivity|].
  destruct (ctx st) as [c|]; [|discriminate H].
  bind_inv H. destruct a as [st1 nss]. apply ns_steps_exprs in E.
  injection H as <- _. simpl. exact E.
Qed.

Lemma eval_locpath_exprs (fuel : nat) (lp : option (list step))
    (st st' : state) :
  eval_locpath fuel h ev lp st = Ok st' -> exprs st' = exprs st.
Proof.
  unfold eval_locpath. intros H.
  destruct lp as [steps|]; [|discriminate H].
  bind_inv H. destruct a as [st1 ns]. apply ns_from_locpath_exprs in E.
  destruct (HAS_ERROR st1); [injection H as <-; exact E|].
  destruct ns as [nss|]; [|discriminate H].
  bind_inv H. destruct a as [st2 vind]. apply make_value_exprs in E0.
  destruct (HAS_ERROR st2); [injection H as <-; congruence|].
  destruct (last nss); [|discriminate H].
  injection H as <-. simpl. congruence.
Qed.
End EvalFrame.

Lemma eval_expr_exprs (fuel : nat) (h : heap) :
  forall (e : expr) (st st' : state),
    eval_expr fuel h e st = Ok st' -> exprs st' = exprs st.
Proof.
  induction fuel as [|f IH]; intros e st st' H; simpl in H;
    [discriminate H|].
  destruct (HAS_ERROR st); [injection H as <-; reflexivity|].
  destruct e as [ty lp|ty op l r|ty vind|ty fn args].
  - apply (eval_locpath_exprs h _ IH) in H. exact H.
  - apply (eval_binary_exprs h _ IH) in H. exact H.
  - injection H as <-. reflexivity.
  - apply (eval_app_from_exprs _ IH) in H. exact H.
Qed.

(** Calling [pathx_first] on the path that a call of [pathx_first] has
    returned gives the same node again.  When the path holds a node set,
    the later call leaves the path as it is, whatever the cursor, the tree
    and the fuel; when it holds none, because the evaluation ended in an
    error, the later call returns absent as the first did and stores none
    either. *)
Lemma pathx_first_repeats (fuel : nat) (h : heap) (p p1 : pathx)
    (r : option node) :
  pathx_first fuel h p = Ok (r, p1) ->
  (forall k : Z,
      exists p2 : pathx,
        pathx_first fuel h (set_px_node k p1) = Ok (r, p2)
        /\ px_nodeset p2 = px_nodeset p1)
  /\ (forall ns : list node,
        px_nodeset p1 = Some ns ->
        r = ns !! O
        /\ px_node p1 = 0
        /\ (forall (fuel' : nat) (h' : heap) (k : Z),
              pathx_first fuel' h' (set_px_node k p1) = Ok (r, p1))).
Proof.
  intros Hf.
  assert (Hcached : forall ns : list node,
             px_nodeset p1 = Some ns ->
             r = ns !! O
             /\ px_node p1 = 0
             /\ (forall (fuel' : nat) (h' : heap) (k : Z),
                   pathx_first fuel' h' (set_px_node k p1) = Ok (r, p1))).
  { intros ns Hns.
    destruct (pathx_first_result fuel h p p1 r ns Hf Hns) as [Hr Hnode].
    split; [exact Hr|]. split; [exact Hnode|].
    intros fuel' h' k. unfold pathx_first. simpl. rewrite Hns, Hr.
    destruct p1 as [st lp nso nd og]. simpl in *. subst nd. reflexivity. }
  split; [|exact Hcached].
  intros k.
  destruct (px_nodeset p1) as [ns|] eqn:Hns.
  { exists p1. destruct (Hcached ns eq_refl) as [_ [_ Hagain]].
    split; [apply Hagain|exact Hns]. }
  (* the first call has stored no node set: the state carries an error *)
  unfold pathx_first in Hf.
  destruct (px_nodeset p) as [ns0|] eqn:Hp.
  { injection Hf as _ <-. simpl in Hns. congruence. }
  destruct (exprs_bottom _) as [e|] eqn:He; [|discriminate Hf].
  bind_inv Hf. rename a into st1.
  destruct fuel as [|f]; [discriminate E|].
  pose proof (eval_expr_exprs _ _ _ _ _ E) as Hex.
  assert (Herr : forall st : state,
             HAS_ERROR st = true -> exprs st = exprs st1 ->
             exists p2 : pathx,
               pathx_first (S f) h (set_px_node k (set_px_state st p))
               = Ok (None, p2)
               /\ px_nodeset p2 = None).
  { intros st Herr Hst. unfold pathx_first. simpl px_nodeset. rewrite Hp.
    unfold exprs_bottom in *. simpl exprs in *. rewrite Hst, Hex, He.
    simpl eval_expr.
    replace (HAS_ERROR (set_ctx_len 1 (set_ctx_pos 1
               (set_ctx (px_origin p) st)))) with true
      by exact (eq_sym Herr).
    cbn [obind].
    replace (HAS_ERROR (set_ctx_len 1 (set_ctx_pos 1
               (set_ctx (px_origin p) st)))) with true
      by exact (eq_sym Herr).
    eexists. split; [reflexivity|]. simpl. exact Hp. }
  destruct (HAS_ERROR st1) eqn:He1.
  { injection Hf as <- <-. apply Herr; [exact He1|reflexivity]. }
  destruct (negb _).
  { injection Hf as <- <-. apply Herr; reflexivity. }
  bind_inv Hf. destruct a as [st2 v].
  destruct v as [[ns1| | |]|]; try discriminate Hf.
  injection Hf as _ <-. simpl in Hns. discriminate Hns.
Qed.

(** ** Expanding a path that is all there *)

Lemma ns_steps_length (fuel : nat) (h : heap)
    (ev : expr -> state -> outcome state) (steps : list step) :
  forall (st : state) (work : list node) (nss : list (list node))
         (st' : state) (nss' : list (list node)),
    ns_steps fuel h ev steps st work nss = Ok (st', nss') ->
    length nss' = (length nss + length steps)%nat.
Proof.
  induction steps as [|s rest IH]; intros st work nss st' nss' H; simpl in H.
  - injection H as _ <-. simpl. lia.
  - destruct (expand_work fuel h s work []) as [nx| |]; simpl in H;
      try discriminate.
    destruct (match step_predicates s with
              | Some preds => apply_predicates ev preds st nx
              | None => Ok (st, nx)
              end) as [[st1 nx1]| |]; simpl in H; try discriminate.
    apply IH in H. rewrite H, length_app. simpl. lia.
Qed.

Lemma ns_from_locpath_length (fuel : nat) (h : heap)
    (ev : expr -> state -> outcome state) (steps : list step)
    (st st' : state) (nss : list (list node)) :
  ns_from_locpath fuel h ev steps st = Ok (st', Some nss) ->
  length nss = S (length steps).
Proof.
  unfold ns_from_locpath. intros H.
  destruct (HAS_ERROR st); [discriminate|].
  destruct (ctx st) as [c|]; [|discriminate].
  destruct (ns_steps fuel h ev steps st [c] [[c]]) as [[st1 nss1]| |] eqn:Hs;
    simpl in H; try discriminate.
  injection H as _ <-.
  apply ns_steps_length in Hs. simpl in Hs. lia.
Qed.

Lemma search_last_nonempty (nss : list (list node)) (i : nat) (n : node)
    (ns : list node) :
  nss !! i = Some (n :: ns) -> search_last nss i = Some i.
Proof. intros H. destruct i; simpl; rewrite H; reflexivity. Qed.

(** C10, as the specification states it, fails: a location path can match
    exactly one node through more than one entry of its node set.  The
    path [a/..], at the root of the scenario tree with its two children
    [a], matches the root and no other node, but its node set holds the
    root twice, and [pathx_expand_tree] returns -1 and hands back no
    node. *)
Lemma expand_tree_one_node_counterexample :
  ~ (forall (fuel : nat) (h : heap) (path : pathx) (steps : list step)
            (st1 : state) (nss : list (list node)) (ns : list node)
            (n : node),
        px_locpath path = Some steps ->
        ns_from_locpath fuel h (eval_expr fuel h) steps
          (set_ctx (px_origin path) (px_state path)) = Ok (st1, Some nss) ->
        last nss = Some ns ->
        In n ns ->
        (forall m : node, In m ns -> m = n) ->
        exists p' : pathx,
          pathx_expand_tree fuel h path = Ok (0, h, p', Some n)).
Proof.
  intros H.
  destruct (H 20%nat scenario parsed_a_up
              [mk_step CHILD (Some "a") None; mk_step PARENT None None]
              (set_ctx (Some 0%nat) (px_state parsed_a_up))
              [[0%nat]; [1%nat; 3%nat]; [0%nat; 0%nat]]
              [0%nat; 0%nat] 0%nat) as [p' Hp'].
  - reflexivity.
  - vm_compute; reflexivity.
  - reflexivity.
  - left. reflexivity.
  - intros m [<-|[<-|[]]]; reflexivity.
  - vm_compute in Hp'. discriminate Hp'.
Qed.

(** C10 (amended): when the last node set of the location path, evaluated
    from the origin, has exactly one entry [n], [pathx_expand_tree]
    returns 0, leaves the tree as it is, and sets the node it hands back
    to [n].  When that node set has more entries, be they all the same
    node, it returns -1, hands back no node, and leaves the tree as it is
    as well. *)
Theorem expand_tree_existing_node (fuel : nat) (h : heap) (path : pathx)
    (steps : list step) (st1 : state) (nss : list (list node)) (n : node)
    (more : list node) :
  px_locpath path = Some steps ->
  ns_from_locpath fuel h (eval_expr fuel h) steps
    (set_ctx (px_origin path) (px_state path)) = Ok (st1, Some nss) ->
  last nss = Some (n :: more) ->
  pathx_expand_tree fuel h path
  = match more with
    | [] => Ok (0, h, set_px_state st1 path, Some n)
    | _ :: _ => Ok (-1, h, set_px_state st1 path, None)
    end.
Proof.
  intros Hlp Hns Hlast.
  pose proof (ns_from_locpath_length _ _ _ _ _ _ _ Hns) as Hlen.
  rewrite last_lookup, Hlen in Hlast. simpl in Hlast.
  unfold pathx_expand_tree, locpath_search. rewrite Hlp, Hns. cbn [obind].
  rewrite (search_last_nonempty nss (length steps) n more Hlast).
  rewrite Hlast.
  destruct more as [|m more].
  - simpl. rewrite drop_all. reflexivity.
  - assert (Hlt : (1 <? Z.of_nat (length (n :: m :: more))) = true)
      by (apply Z.ltb_lt; simpl length; lia).
    rewrite Hlt. reflexivity.
Qed.

Lemma expand_tree_existing_node_witness :
  px_locpath parsed_b
  = Some [mk_step ROOT None None; mk_step CHILD (Some "b") None]
  /\ ns_from_locpath 20 scenario (eval_expr 20 scenario)
       [mk_step ROOT None None; mk_step CHILD (Some "b") None]
       (set_ctx (px_origin parsed_b) (px_state parsed_b))
     = Ok (set_ctx (Some 0%nat) (px_state parsed_b),
           Some [[0%nat]; [0%nat]; [2%nat]])
  /\ last [[0%nat]; [0%nat]; [2%nat]] = Some [2%nat]
  /\ pathx_expand_tree 20 scenario parsed_b
     = Ok (0, scenario,
           set_px_state (set_ctx (Some 0%nat) (px_state parsed_b)) parsed_b,
           Some 2%nat).
Proof.
  split; [reflexivity|]. split; [vm_compute; reflexivity|].
  split; [reflexivity|].
  apply (expand_tree_existing_node 20 scenario parsed_b
           [mk_step ROOT None None; mk_step CHILD (Some "b") None]
           (set_ctx (Some 0%nat) (px_state parsed_b))
           [[0%nat]; [0%nat]; [2%nat]] 2%nat []).
  - reflexivity.
  - vm_compute; reflexivity.
  - reflexivity.
Defined.

(** ** Predicates and positions *)

(** The loop of [ns_from_locpath] that removes entries in place computes
    [filter_positions]: at index [length pre], with the entries [pre] kept
    so far, it keeps of the entries [rest] still to visit the ones the
    predicate holds for. *)
Lemma pred_loop_filter (ev : expr -> state -> outcome state) (e : expr)
    (rest : list node) :
  forall (pre : list node) (n : nat) (st : state),
    (length rest <= n)%nat ->
    pred_loop ev n e st (pre ++ rest) (length pre)
    = (do '(st', kept) <- filter_positions ev e st rest;
       Ok (st', pre ++ kept)).
Proof.
  induction rest as [|c rest IH]; intros pre n st Hn.
  - assert (Hl : (pre ++ []) !! length pre = None)
      by (apply lookup_ge_None; rewrite length_app; simpl; lia).
    destruct n; simpl; rewrite Hl; reflexivity.
  - destruct n as [|n]; [simpl in Hn; lia|].
    assert (Hl : (pre ++ c :: rest) !! length pre = Some c)
      by (rewrite lookup_app_r by lia; rewrite Nat.sub_diag; reflexivity).
    simpl. rewrite Hl.
    destruct (eval_pred ev e (set_ctx (Some c) st)) as [[st1 keep]| |];
      simpl; try reflexivity.
    destruct keep.
    + replace (pre ++ c :: rest) with ((pre ++ [c]) ++ rest)
        by (rewrite <- app_assoc; reflexivity).
      replace (S (length pre)) with (length (pre ++ [c]))
        by (rewrite length_app; simpl; lia).
      rewrite IH by (simpl in Hn; lia).
      destruct (filter_positions ev e _ rest) as [[st2 kept]| |]; simpl;
        try reflexivity.
      rewrite <- app_assoc. reflexivity.
    + replace (delete (length pre) (pre ++ c :: rest)) with (pre ++ rest).
      * rewrite IH by (simpl in Hn; lia).
        destruct (filter_positions ev e _ rest) as [[st2 kept]| |]; reflexivity.
      * clear. induction pre as [|x pre IHp]; simpl; [reflexivity|].
        f_equal. exact IHp.
Qed.

Lemma insert_last_slot (l : list value) (v w : value) :
  <[length l := v]> (l ++ [w]) = l ++ [v].
Proof.
  replace (length l) with (length l + 0)%nat at 1 by lia.
  rewrite insert_app_r. reflexivity.
Qed.

Lemma make_value_number (ind n m : Z) (st : state) :
  pool_inv ind n m st ->
  1 <= m ->
  exists sz : Z,
    make_value T_NUMBER st
    = Ok (set_value_pool (value_pool st ++ [V_number 0]) sz st,
          value_pool_used st)
    /\ (exists k : Z, 0 <= k <= 31 /\ sz = 2 ^ k)
    /\ value_pool_used st + 1 <= sz.
Proof.
  intros [He [k [Hk Hsz]] Hused Hroom _ _ _] Hm.
  unfold make_value.
  destruct (Z.geb_spec (value_pool_used st) (value_pool_size st)) as [Hge|Hlt].
  - assert (Heq : value_pool_used st = 2 ^ k) by lia.
    assert (Hk30 : k < 31).
    { apply (Z.pow_lt_mono_r_iff 2); lia. }
    assert (Hnew : uint_wrap (2 * value_pool_size st) = 2 ^ (k + 1)).
    { unfold uint_wrap. rewrite Hsz, <- Z.pow_succ_r by lia.
      apply Z.mod_small. split; [apply Z.pow_nonneg; lia|].
      apply Z.pow_lt_mono_r; lia. }
    assert (Hpos : 0 < 2 ^ k) by (apply Z.pow_pos_nonneg; lia).
    assert (Hdbl : 2 ^ (k + 1) = 2 * 2 ^ k) by (apply Z.pow_succ_r; lia).
    rewrite Hnew.
    destruct (Z.leb_spec (2 ^ (k + 1)) (value_pool_size st)) as [Hle|Hgt];
      [lia|].
    exists (2 ^ (k + 1)). split; [reflexivity|]. split; [|lia].
    exists (k + 1). split; [lia|reflexivity].
  - exists (value_pool_size st). split; [reflexivity|]. split; [|lia].
    exists k. split; assumption.
Qed.

(** On two numbers [eval_eq] pushes the result of the comparison that
    [neq] selects. *)
Lemma eval_eq_number_number (h : heap) (st : state) (neq : bool)
    (ri li : Z) (rest : list Z) (a b : Z) :
  values st = ri :: li :: rest ->
  HAS_ERROR st = false ->
  value_pool st !! Z.to_nat li = Some (V_number a) ->
  value_pool st !! Z.to_nat ri = Some (V_number b) ->
  eval_eq h st neq
  = Ok (push_boolean_value (if neq then negb (a =? b) else (a =? b))
          (set_values rest st)).
Proof.
  intros Hv He Hl Hr. unfold eval_eq, pop_value, pop_value_ind.
  rewrite Hv. simpl.
  replace (HAS_ERROR (set_values (li :: rest) st)) with false by exact (eq_sym He).
  simpl. rewrite Hr. simpl.
  replace (HAS_ERROR (set_values rest (set_values (li :: rest) st)))
    with false by exact (eq_sym He).
  simpl. rewrite Hl. simpl.
  replace (HAS_ERROR (set_values rest (set_values (li :: rest) st)))
    with false by exact (eq_sym He).
  reflexivity.
Qed.

Lemma pop_value_boolean (st : state) (b : bool) :
  HAS_ERROR st = false ->
  value_pool st !! 0%nat = Some (V_boolean false) ->
  value_pool st !! 1%nat = Some (V_boolean true) ->
  pop_value (push_boolean_value b st)
  = Ok (set_values (values st) (push_boolean_value b st), Some (V_boolean b)).
Proof.
  intros He H0 H1. unfold pop_value, pop_value_ind, push_boolean_value,
    push_value. simpl.
  replace (HAS_ERROR _) with false by exact (eq_sym He).
  destruct b.
  - change (Z.to_nat 1) with 1%nat. rewrite H1. reflexivity.
  - change (Z.to_nat 0) with 0%nat. rewrite H0. reflexivity.
Qed.

(** One evaluation of the predicate [position() = n] at context position
    [p]: the predicate holds exactly when [p] is [n]; the value pool has
    grown by the number [position()] returned, and nothing else in the
    state has changed. *)
Lemma eval_pred_position_is (f : nat) (h : heap) (ty tyl tyr : type)
    (ind n m p : Z) (st : state) :
  pool_inv ind n m st ->
  1 <= m ->
  ctx_pos st = p ->
  0 <= p < 2 ^ 31 ->
  exists sz : Z,
    eval_pred (eval_expr (S (S f)) h) (position_is ty tyl tyr ind) st
    = Ok (set_value_pool (value_pool st ++ [V_number p]) sz st, p =? n)
    /\ pool_inv ind n (m - 1)
         (set_value_pool (value_pool st ++ [V_number p]) sz st).
Proof.
  intros Hinv Hm Hp Hrange.
  destruct (make_value_number ind n m st Hinv Hm) as [sz [Hmk [Hk Hsz]]].
  destruct Hinv as [He Hsize Hused Hroom Hfalse Htrue Hlit].
  exists sz. split.
  - unfold eval_pred, position_is.
    change (eval_expr (S (S f)) h
              (E_BINARY ty OP_EQ (E_APP tyl position_func []) (E_VALUE tyr ind))
              st)
      with (if HAS_ERROR st then Ok st
            else eval_binary h (eval_expr (S f) h) OP_EQ
                   (E_APP tyl position_func []) (E_VALUE tyr ind) st).
    rewrite He. unfold eval_binary.
    change (eval_expr (S f) h (E_APP tyl position_func []) st)
      with (if HAS_ERROR st then Ok st else func_position st).
    rewrite He. unfold func_position. rewrite Hmk.
    cbn [obind].
    replace (HAS_ERROR (set_value_pool (value_pool st ++ [V_number 0]) sz st))
      with false by exact (eq_sym He).
    cbn [obind].
    set (st2 := push_value (value_pool_used st)
                  (store_value (value_pool_used st) _ _)).
    assert (He2 : HAS_ERROR st2 = false) by exact He.
    change (eval_expr (S f) h (E_VALUE tyr ind) st2)
      with (if HAS_ERROR st2 then Ok st2 else Ok (push_value ind st2)).
    rewrite He2. cbn [obind].
    replace (HAS_ERROR (push_value ind st2)) with false by exact (eq_sym He).
    assert (Hpool2 : value_pool st2 = value_pool st ++ [V_number p]).
    { unfold st2, store_value, value_pool_used. simpl.
      rewrite Nat2Z.id, insert_last_slot. rewrite Hp.
      rewrite int_wrap_small by lia. reflexivity. }
    assert (Hlen : Z.to_nat (value_pool_used st) = length (value_pool st))
      by (unfold value_pool_used; apply Nat2Z.id).
    rewrite (eval_eq_number_number h (push_value ind st2) false ind
               (value_pool_used st) (values st) p n).
    + cbn [obind].
      rewrite pop_value_boolean.
      * cbn [obind]. f_equal. f_equal.
        unfold st2, store_value, value_pool_used. simpl.
        rewrite Nat2Z.id, insert_last_slot, Hp.
        rewrite int_wrap_small by lia.
        destruct st; reflexivity.
      * exact He.
      * change (value_pool st2 !! 0%nat = Some (V_boolean false)).
        rewrite Hpool2.
        rewrite lookup_app_l; [exact Hfalse|].
        apply lookup_lt_Some in Hfalse. exact Hfalse.
      * change (value_pool st2 !! 1%nat = Some (V_boolean true)).
        rewrite Hpool2.
        rewrite lookup_app_l; [exact Htrue|].
        apply lookup_lt_Some in Htrue. exact Htrue.
    + reflexivity.
    + exact He.
    + change (value_pool st2 !! Z.to_nat (value_pool_used st)
              = Some (V_number p)).
      rewrite Hpool2, Hlen.
      rewrite lookup_app_r by lia. rewrite Nat.sub_diag. reflexivity.
    + change (value_pool st2 !! Z.to_nat ind = Some (V_number n)).
      rewrite Hpool2.
      rewrite lookup_app_l; [exact Hlit|].
      apply lookup_lt_Some in Hlit. exact Hlit.
  - constructor; simpl.
    + exact He.
    + exact Hk.
    + unfold value_pool_used in *. simpl. rewrite length_app. simpl. lia.
    + unfold value_pool_used in *. simpl. rewrite length_app. simpl. lia.
    + rewrite lookup_app_l; [exact Hfalse|].
      apply lookup_lt_Some in Hfalse. exact Hfalse.
    + rewrite lookup_app_l; [exact Htrue|].
      apply lookup_lt_Some in Htrue. exact Htrue.
    + rewrite lookup_app_l; [exact Hlit|].
      apply lookup_lt_Some in Hlit. exact Hlit.
Qed.

Lemma pool_inv_set_ctx (ind n m : Z) (st : state) (c : option node) :
  pool_inv ind n m st -> pool_inv ind n m (set_ctx c st).
Proof. intros []. constructor; assumption. Qed.

Lemma pool_inv_set_ctx_pos (ind n m : Z) (st : state) (z : Z) :
  pool_inv ind n m st -> pool_inv ind n m (set_ctx_pos z st).
Proof. intros []. constructor; assumption. Qed.

Lemma pool_inv_set_ctx_len (ind n m : Z) (st : state) (z : Z) :
  pool_inv ind n m st -> pool_inv ind n m (set_ctx_len z st).
Proof. intros []. constructor; assumption. Qed.

Lemma entry_at_cons (p n : Z) (c : node) (rest : list node) :
  entry_at p n (c :: rest)
  = if p =? n then c :: entry_at (p + 1) n rest else entry_at (p + 1) n rest.
Proof.
  unfold entry_at.
  destruct (Z.eqb_spec p n) as [->|Hne].
  - rewrite Z.leb_refl, Z.sub_diag. simpl.
    destruct (Z.leb_spec (n + 1) n); [lia|reflexivity].
  - destruct (Z.leb_spec p n) as [Hle|Hgt].
    + destruct (Z.leb_spec (p + 1) n); [|lia].
      replace (Z.to_nat (n - p)) with (S (Z.to_nat (n - (p + 1)))) by lia.
      reflexivity.
    + destruct (Z.leb_spec (p + 1) n); [lia|reflexivity].
Qed.

(** Filtering by [position() = n] from context position [p] on keeps the
    entry that has position [n], if there is one. *)
Lemma filter_positions_position_is (f : nat) (h : heap) (ty tyl tyr : type)
    (ind n : Z) (rest : list node) :
  forall (st : state) (p : Z),
    pool_inv ind n (Z.of_nat (length rest)) st ->
    ctx_pos st = p ->
    0 <= p ->
    p + Z.of_nat (length rest) <= 2 ^ 31 ->
    exists st' : state,
      filter_positions (eval_expr (S (S f)) h) (position_is ty tyl tyr ind)
        st rest = Ok (st', entry_at p n rest).
Proof.
  induction rest as [|c rest IH]; intros st p Hinv Hp Hp0 Hbound.
  - exists st. simpl. unfold entry_at.
    destruct (p <=? n); [|reflexivity].
    rewrite lookup_nil. reflexivity.
  - simpl length in *.
    destruct (eval_pred_position_is f h ty tyl tyr ind n
                (Z.of_nat (S (length rest))) p (set_ctx (Some c) st))
      as [sz [Hev Hinv1]];
      [apply pool_inv_set_ctx; exact Hinv|lia|exact Hp|lia|].
    cbn [filter_positions]. rewrite Hev. cbn [obind].
    set (st1 := set_value_pool _ sz (set_ctx (Some c) st)) in *.
    assert (Hwrap : uint_wrap (ctx_pos st1 + 1) = p + 1).
    { change (ctx_pos st1) with (ctx_pos st). rewrite Hp.
      unfold uint_wrap. apply Z.mod_small.
      change (2 ^ 31) with 2147483648 in Hbound.
      change (2 ^ 32) with 4294967296. lia. }
    rewrite Hwrap.
    destruct (IH (set_ctx_pos (p + 1) st1) (p + 1)) as [st' Hst'];
      [|reflexivity|lia|lia|].
    { apply pool_inv_set_ctx_pos.
      replace (Z.of_nat (length rest)) with (Z.of_nat (S (length rest)) - 1)
        by lia.
      exact Hinv1. }
    rewrite Hst'. cbn [obind]. exists st'.
    rewrite entry_at_cons. reflexivity.
Qed.

(** C1: the loop that filters a working set by a predicate removes entries
    in place and still numbers the entries as they stood before the
    removals: it computes [filter_positions], in which [ctx_pos] advances
    after every entry, removed or kept.  So for a location step whose
    predicate is [position() = n], with [n] a number literal, the node set
    of the step is the entry of position [n] (counted from 1) of the set
    [next] the expansion produced, or empty when [next] has no such
    entry. *)
Theorem position_predicate_keeps_nth (fuel f : nat) (h : heap)
    (ty tyl tyr : type) (ind n : Z) (s : step) (st : state)
    (work next : list node) (nss : list (list node)) :
  pool_inv ind n (Z.of_nat (length next)) st ->
  step_predicates s = Some [position_is ty tyl tyr ind] ->
  expand_work fuel h s work [] = Ok next ->
  (forall (ev : expr -> state -> outcome state) (e : expr) (st0 : state)
          (nodes : list node),
      pred_loop ev (length nodes) e st0 nodes 0
      = filter_positions ev e st0 nodes)
  /\ (exists st' : state,
        ns_steps fuel h (eval_expr (S (S f)) h) [s] st work nss
        = Ok (st', nss ++ [entry_at 1 n next]))
  /\ (forall x : node,
        1 <= n -> next !! Z.to_nat (n - 1) = Some x ->
        entry_at 1 n next = [x]).
Proof.
  intros Hinv Hpreds Hexp.
  assert (Hloop : forall (ev : expr -> state -> outcome state) (e : expr)
                         (st0 : state) (nodes : list node),
             pred_loop ev (length nodes) e st0 nodes 0
             = filter_positions ev e st0 nodes).
  { intros ev e st0 nodes.
    pose proof (pred_loop_filter ev e nodes [] (length nodes) st0 (le_n _))
      as Hpl.
    simpl in Hpl. rewrite Hpl.
    destruct (filter_positions ev e st0 nodes) as [[st' kept]| |];
      reflexivity. }
  split; [exact Hloop|]. split.
  - cbn [ns_steps]. rewrite Hexp, Hpreds. cbn [obind].
    cbn [apply_predicates]. rewrite Hloop.
    destruct (filter_positions_position_is f h ty tyl tyr ind n next
                (set_ctx_pos 1
                   (set_ctx_len (uint_wrap (Z.of_nat (length next))) st)) 1)
      as [st' Hst'].
    + apply pool_inv_set_ctx_pos, pool_inv_set_ctx_len. exact Hinv.
    + reflexivity.
    + lia.
    + destruct Hinv as [_ _ _ Hroom Hfalse _ _].
      apply lookup_lt_Some in Hfalse. unfold value_pool_used in Hroom. lia.
    + rewrite Hst'. cbn [obind]. exists st'. reflexivity.
  - intros x Hn Hx. unfold entry_at.
    destruct (Z.leb_spec 1 n); [|lia]. rewrite Hx. reflexivity.
Qed.

Lemma state_position_2_pool :
  pool_inv 2 2 (Z.of_nat (length [1%nat; 3%nat])) state_position_2.
Proof.
  constructor.
  - reflexivity.
  - exists 3. split; [lia|reflexivity].
  - vm_compute. discriminate.
  - vm_compute. discriminate.
  - reflexivity.
  - reflexivity.
  - reflexivity.
Defined.

Lemma position_predicate_keeps_nth_witness :
  pool_inv 2 2 (Z.of_nat (length [1%nat; 3%nat])) state_position_2
  /\ step_predicates step_a_position_2
     = Some [position_is T_BOOLEAN T_NUMBER T_NUMBER 2]
  /\ expand_work 20 scenario step_a_position_2 [0%nat] []
     = Ok [1%nat; 3%nat]
  /\ (forall (ev : expr -> state -> outcome state) (e : expr) (st0 : state)
             (nodes : list node),
         pred_loop ev (length nodes) e st0 nodes 0
         = filter_positions ev e st0 nodes)
  /\ (exists st' : state,
        ns_steps 20 scenario (eval_expr 2 scenario) [step_a_position_2]
          state_position_2 [0%nat] [[0%nat]]
        = Ok (st', [[0%nat]] ++ [entry_at 1 2 [1%nat; 3%nat]]))
  /\ (forall x : node,
        1 <= 2 -> [1%nat; 3%nat] !! Z.to_nat (2 - 1) = Some x ->
        entry_at 1 2 [1%nat; 3%nat] = [x]).
Proof.
  split; [exact state_position_2_pool|].
  split; [reflexivity|]. split; [vm_compute; reflexivity|].
  apply (position_predicate_keeps_nth 20 0 scenario T_BOOLEAN T_NUMBER
           T_NUMBER 2 2 step_a_position_2 state_position_2 [0%nat]
           [1%nat; 3%nat] [[0%nat]]).
  - exact state_position_2_pool.
  - reflexivity.
  - vm_compute; reflexivity.
Defined.

(** * Further properties of the code *)

(** ** [streqx] *)

(** X1: [streqx] is an equivalence on strings that may be absent, in which
    the absent string is equal to the empty string and to nothing else. *)
Theorem streqx_equivalence :
  (forall a : option string, streqx a a = true)
  /\ (forall a b : option string, streqx a b = streqx b a)
  /\ (forall a b c : option string,
        streqx a b = true -> streqx b c = true -> streqx a c = true)
  /\ (forall a : option string,
        streqx None a = true <-> a = None \/ a = Some "").
Proof.
  split; [|split; [|split]].
  - intros [a|]; simpl; [apply String.eqb_refl|reflexivity].
  - intros [a|] [b|]; simpl; try reflexivity. apply String.eqb_sym.
  - intros [a|] [b|] [c|]; simpl; intros H1 H2; try reflexivity;
      try assumption.
    + apply String.eqb_eq in H1. subst b. exact H2.
    + apply String.eqb_eq in H1. subst b. exact H2.
    + destruct a; [|discriminate H1]. destruct c; [|discriminate H2].
      reflexivity.
    + apply String.eqb_eq in H2. subst c. exact H1.
  - intros [a|]; simpl; split.
    + destruct a; [right; reflexivity|discriminate].
    + intros [H|H]; [discriminate|]. injection H as ->. reflexivity.
    + left; reflexivity.
    + reflexivity.
Qed.

(** ** The name test and the axes *)

Lemma step_next_matches (h : heap) (s : step) (fuel : nat) :
  forall (c : node) (cur : option node) (n : node),
    step_next fuel h s c cur = Ok (Some n) -> node_matches h s n = true.
Proof.
  induction fuel as [|f IH]; intros c cur n H.
  - destruct cur; discriminate H.
  - destruct cur as [k|]; [|discriminate H]. simpl in H.
    bind_inv H. destruct a as [m|]; [|discriminate H].
    unfold deref in H. destruct (h !! m) as [tm|] eqn:Hm; [|discriminate H].
    cbn [obind] in H. destruct (step_matches s tm) eqn:Hs.
    + injection H as <-. unfold node_matches. rewrite Hm. exact Hs.
    + apply IH in H. exact H.
Qed.

Lemma step_first_matches (h : heap) (s : step) (fuel : nat) (c n : node) :
  step_first fuel h s c = Ok (Some n) -> node_matches h s n = true.
Proof.
  unfold step_first. intros H. bind_inv H. destruct a as [c' [k|]];
    cbn beta iota in H; [|discriminate H].
  unfold deref in H. destruct (h !! k) as [tk|] eqn:Hk; [|discriminate H].
  cbn [obind] in H. destruct (step_matches s tk) eqn:Hs.
  - injection H as <-. unfold node_matches. rewrite Hk. exact Hs.
  - apply step_next_matches in H. exact H.
Qed.

(** X2: on every axis, a node that [step_first] or [step_next] returns is
    in the tree and passes the name test of the step: its label is
    [streqx]-equal to the name of the step, or the step has no name. *)
Theorem step_candidates_pass_name_test (fuel : nat) (h : heap) (s : step) :
  (forall c n : node,
      step_first fuel h s c = Ok (Some n) ->
      exists t : tree,
        h !! n = Some t
        /\ (step_name s = None \/ streqx (step_name s) (label t) = true))
  /\ (forall (c : node) (cur : option node) (n : node),
        step_next fuel h s c cur = Ok (Some n) ->
        exists t : tree,
          h !! n = Some t
          /\ (step_name s = None \/ streqx (step_name s) (label t) = true)).
Proof.
  assert (Hm : forall n : node,
             node_matches h s n = true ->
             exists t : tree,
               h !! n = Some t
               /\ (step_name s = None
                   \/ streqx (step_name s) (label t) = true)).
  { intros n H. unfold node_matches in H.
    destruct (h !! n) as [t|]; [|discriminate H].
    exists t. split; [reflexivity|]. unfold step_matches in H.
    destruct (step_name s) as [nm|]; [right; exact H|left; reflexivity]. }
  split.
  - intros c n H. apply Hm. exact (step_first_matches h s fuel c n H).
  - intros c cur n H. apply Hm. exact (step_next_matches h s fuel c cur n H).
Qed.

Lemma climb_to_root_self (h : heap) (fuel : nat) :
  forall c r : node,
    climb_to_root fuel h c = Ok r ->
    exists t : tree, h !! r = Some t /\ parent t = r.
Proof.
  induction fuel as [|f IH]; intros c r H; [discriminate H|].
  simpl in H. unfold deref in H.
  destruct (h !! c) as [t|] eqn:Hc; [|discriminate H]. cbn [obind] in H.
  destruct (Nat.eqb_spec (parent t) c) as [Heq|Hne].
  - injection H as <-. exists t. split; assumption.
  - apply IH in H. exact H.
Qed.

Lemma step_next_root (h : heap) (s : step) (fuel : nat) (c : node)
    (cur : option node) (m : node) :
  step_axis s = ROOT -> step_next fuel h s c cur <> Ok (Some m).
Proof.
  intros Ha H. destruct fuel as [|f]; destruct cur as [k|];
    try discriminate H.
  simpl in H. unfold axis_next in H. rewrite Ha in H. discriminate H.
Qed.

(** X3: a step on the axis [root] yields at most one node, and that node
    is its own parent: [step_first] climbs the parent links from the
    context up to the self-loop, and [step_next] never yields a node. *)
Theorem root_axis_yields_self_loop (fuel : nat) (h : heap) (s : step)
    (c n : node) :
  step_axis s = ROOT ->
  step_first fuel h s c = Ok (Some n) ->
  (exists t : tree,
      h !! n = Some t /\ parent t = n /\ step_matches s t = true)
  /\ (forall (c' : node) (cur : option node) (m : node),
        step_next fuel h s c' cur <> Ok (Some m)).
Proof.
  intros Ha H. split.
  - unfold step_first in H. rewrite Ha in H.
    destruct (climb_to_root fuel h c) as [r| |] eqn:Hr; try discriminate H.
    cbn [obind] in H.
    destruct (climb_to_root_self h fuel c r Hr) as [t [Ht Hp]].
    unfold deref in H. rewrite Ht in H. cbn [obind] in H.
    destruct (step_matches s t) eqn:Hs.
    + injection H as <-. exists t. repeat split; assumption.
    + exfalso. exact (step_next_root h s fuel r (Some r) n Ha H).
  - intros c' cur m. apply step_next_root. exact Ha.
Qed.

Lemma root_axis_yields_self_loop_witness :
  step_axis (mk_step ROOT None None) = ROOT
  /\ step_first 5 scenario (mk_step ROOT None None) 4%nat = Ok (Some 0%nat)
  /\ (exists t : tree,
        scenario !! 0%nat = Some t /\ parent t = 0%nat
        /\ step_matches (mk_step ROOT None None) t = true)
  /\ (forall (c' : node) (cur : option node) (m : node),
        step_next 5 scenario (mk_step ROOT None None) c' cur <> Ok (Some m)).
Proof.
  split; [reflexivity|]. split; [vm_compute; reflexivity|].
  apply (root_axis_yields_self_loop 5 scenario (mk_step ROOT None None)
           4%nat 0%nat).
  - reflexivity.
  - vm_compute; reflexivity.
Defined.

Lemma step_next_child (h : heap) (s : step) (c : node) (fuel : nat) :
  step_axis s = CHILD ->
  forall (l : list node) (n : node),
    sibling_chain h (n :: l) (Some n) ->
    (length l < fuel)%nat ->
    step_next fuel h s c (Some n)
    = Ok (head (List.filter (node_matches h s) l)).
Proof.
  intros Ha. induction fuel as [|f IH]; intros l n Hch Hlen; [lia|].
  destruct Hch as [_ [t [Ht Hrest]]].
  simpl step_next. unfold axis_next. rewrite Ha. unfold deref. rewrite Ht.
  cbn [obind].
  destruct l as [|m l'].
  - simpl in Hrest. rewrite Hrest. reflexivity.
  - pose proof Hrest as Hrest'. destruct Hrest as [Hnext [tm [Hm Hrest2]]].
    rewrite Hnext. rewrite Hm. cbn [obind]. simpl List.filter.
    unfold node_matches at 1. rewrite Hm.
    destruct (step_matches s tm); [reflexivity|].
    apply IH; [|simpl in Hlen; lia].
    split; [reflexivity|]. exists tm. split; assumption.
Qed.

Lemma step_collect_chain (h : heap) (s : step) (c : node) (fuel : nat) :
  step_axis s = CHILD ->
  forall (l : list node) (start : option node) (k : nat) (acc : list node),
    sibling_chain h l start ->
    (length l <= k)%nat ->
    (length l <= fuel)%nat ->
    step_collect fuel h k s c (head (List.filter (node_matches h s) l)) acc
    = Ok (acc ++ List.filter (node_matches h s) l).
Proof.
  intros Ha. induction l as [|x l IH]; intros start k acc Hch Hk Hf.
  - simpl. destruct k; simpl; rewrite app_nil_r; reflexivity.
  - destruct Hch as [Hstart [t [Ht Hrest]]].
    simpl List.filter. destruct (node_matches h s x) eqn:Hx.
    + simpl head. destruct k as [|k]; [simpl in Hk; lia|].
      simpl step_collect.
      rewrite (step_next_child h s c fuel Ha l x);
        [|split; [reflexivity|exists t; split; assumption]|simpl in Hf; lia].
      cbn [obind].
      rewrite (IH (next t) k (acc ++ [x]) Hrest);
        [|simpl in Hk; lia|simpl in Hf; lia].
      rewrite <- app_assoc. reflexivity.
    + apply (IH (next t) k acc Hrest); simpl in *; lia.
Qed.

(** X4: a step on the axis [child] yields the children of the context
    node that pass the name test, in the order of the sibling list: the
    working set of the one node [c] expands to the children of [c],
    filtered by the name of the step. *)
Theorem child_axis_yields_children (fuel : nat) (h : heap) (s : step)
    (c : node) (tc : tree) (l : list node) :
  step_axis s = CHILD ->
  h !! c = Some tc ->
  sibling_chain h l (children tc) ->
  (length l <= fuel)%nat ->
  expand_work fuel h s [c] [] = Ok (List.filter (node_matches h s) l).
Proof.
  intros Ha Hc Hch Hf.
  assert (Hfirst : step_first fuel h s c
                   = Ok (head (List.filter (node_matches h s) l))).
  { unfold step_first. rewrite Ha. unfold deref. rewrite Hc. cbn [obind].
    destruct l as [|x l'].
    - simpl in Hch. rewrite Hch. reflexivity.
    - pose proof Hch as Hch'. destruct Hch as [Hx [tx [Htx Hrest]]].
      rewrite Hx, Htx. cbn [obind]. simpl List.filter.
      unfold node_matches at 1. rewrite Htx.
      destruct (step_matches s tx); [reflexivity|].
      apply (step_next_child h s c fuel Ha l' x);
        [|simpl in Hf; lia].
      split; [reflexivity|]. exists tx. split; assumption. }
  simpl expand_work. rewrite Hfirst. cbn [obind].
  rewrite (step_collect_chain h s c fuel Ha l (children tc) fuel [] Hch
             Hf Hf).
  reflexivity.
Qed.

Lemma child_axis_yields_children_witness :
  step_axis (mk_step CHILD (Some "a") None) = CHILD
  /\ scenario !! 0%nat
     = Some (mk_tree (Some "r") None 0%nat (Some 1%nat) None)
  /\ sibling_chain scenario [1%nat; 2%nat; 3%nat]
       (children (mk_tree (Some "r") None 0%nat (Some 1%nat) None))
  /\ (length [1%nat; 2%nat; 3%nat] <= 3)%nat
  /\ expand_work 3 scenario (mk_step CHILD (Some "a") None) [0%nat] []
     = Ok (List.filter (node_matches scenario (mk_step CHILD (Some "a") None))
             [1%nat; 2%nat; 3%nat]).
Proof.
  assert (Hch : sibling_chain scenario [1%nat; 2%nat; 3%nat]
                  (children (mk_tree (Some "r") None 0%nat (Some 1%nat) None))).
  { simpl. split; [reflexivity|]. eexists. split; [reflexivity|]. simpl.
    split; [reflexivity|]. eexists. split; [reflexivity|]. simpl.
    split; [reflexivity|]. eexists. split; [reflexivity|]. reflexivity. }
  split; [reflexivity|]. split; [reflexivity|]. split; [exact Hch|].
  split; [simpl; lia|].
  apply (child_axis_yields_children 3 scenario (mk_step CHILD (Some "a") None)
           0%nat (mk_tree (Some "r") None 0%nat (Some 1%nat) None)
           [1%nat; 2%nat; 3%nat]).
  - reflexivity.
  - reflexivity.
  - exact Hch.
  - simpl; lia.
Defined.

Lemma step_next_ancestor (h : heap) (s : step) (c : node) (fuel : nat) :
  step_axis s = ANCESTOR ->
  forall (l : list node) (n : node) (tn : tree),
    h !! n = Some tn ->
    match l with
    | [] => parent tn = n
    | _ :: _ => parent tn <> n /\ parent_chain h l n
    end ->
    (length l < fuel)%nat ->
    step_next fuel h s c (Some n)
    = Ok (head (List.filter (node_matches h s) l)).
Proof.
  intros Ha. induction fuel as [|f IH]; intros l n tn Hn Hl Hlen; [lia|].
  simpl step_next. unfold axis_next. rewrite Ha. unfold deref. rewrite Hn.
  cbn [obind].
  destruct l as [|m l'].
  - rewrite Hl, Nat.eqb_refl. reflexivity.
  - destruct Hl as [Hne [t [tm [Ht [Hp [Hm Hrest]]]]]].
    rewrite Hn in Ht. injection Ht as <-.
    destruct (Nat.eqb_spec (parent tn) n) as [Heq|_]; [contradiction|].
    rewrite Hp. cbn [obind]. rewrite Hm. cbn [obind]. simpl List.filter.
    unfold node_matches at 1. rewrite Hm.
    destruct (step_matches s tm); [reflexivity|].
    apply (IH l' m tm Hm Hrest). simpl in Hlen. lia.
Qed.

Lemma step_collect_ancestors (h : heap) (s : step) (c : node) (fuel : nat) :
  step_axis s = ANCESTOR ->
  forall (l : list node) (n : node) (k : nat) (acc : list node),
    parent_chain h l n ->
    (length l <= k)%nat ->
    (length l <= fuel)%nat ->
    step_collect fuel h k s c (head (List.filter (node_matches h s) l)) acc
    = Ok (acc ++ List.filter (node_matches h s) l).
Proof.
  intros Ha. induction l as [|x l IH]; intros n k acc Hch Hk Hf.
  - destruct Hch.
  - destruct Hch as [t [tx [Ht [Hp [Hx Hrest]]]]].
    assert (Htail : forall (k' : nat) (acc' : list node),
               (length l <= k')%nat ->
               step_collect fuel h k' s c
                 (head (List.filter (node_matches h s) l)) acc'
               = Ok (acc' ++ List.filter (node_matches h s) l)).
    { intros k' acc' Hk'. destruct l as [|y l'].
      - simpl. destruct k'; simpl; rewrite app_nil_r; reflexivity.
      - destruct Hrest as [_ Hrest].
        apply (IH x k' acc' Hrest); [exact Hk'|simpl in *; lia]. }
    simpl List.filter. destruct (node_matches h s x) eqn:Hmx.
    + simpl head. destruct k as [|k]; [simpl in Hk; lia|].
      simpl step_collect.
      rewrite (step_next_ancestor h s c fuel Ha l x tx Hx Hrest);
        [|simpl in Hf; lia].
      cbn [obind]. rewrite Htail by (simpl in Hk; lia).
      rewrite <- app_assoc. reflexivity.
    + apply Htail. simpl in Hk. lia.
Qed.

(** X5: a step on the axis [ancestor] yields the ancestors of the context
    node that pass the name test, from its parent up to the root, the root
    included; for the root itself, whose parent link is a self-loop, the
    one ancestor is the root. *)
Theorem ancestor_axis_yields_parent_chain (fuel : nat) (h : heap) (s : step)
    (c : node) (l : list node) :
  step_axis s = ANCESTOR ->
  parent_chain h l c ->
  (length l <= fuel)%nat ->
  expand_work fuel h s [c] [] = Ok (List.filter (node_matches h s) l).
Proof.
  intros Ha Hch Hf.
  assert (Hfirst : step_first fuel h s c
                   = Ok (head (List.filter (node_matches h s) l))).
  { destruct l as [|x l']; [destruct Hch|].
    destruct Hch as [t [tx [Ht [Hp [Hx Hrest]]]]].
    unfold step_first. rewrite Ha. unfold deref. rewrite Ht. cbn [obind].
    rewrite Hp, Hx. cbn [obind]. simpl List.filter.
    unfold node_matches at 1. rewrite Hx.
    destruct (step_matches s tx); [reflexivity|].
    apply (step_next_ancestor h s c fuel Ha l' x tx Hx Hrest).
    simpl in Hf. lia. }
  simpl expand_work. rewrite Hfirst. cbn [obind].
  rewrite (step_collect_ancestors h s c fuel Ha l c fuel [] Hch Hf Hf).
  reflexivity.
Qed.

Lemma scenario_parent_chain_4 : parent_chain scenario [3%nat; 0%nat] 4%nat.
Proof.
  simpl. do 2 eexists. split; [reflexivity|]. split; [reflexivity|].
  split; [reflexivity|]. split; [simpl; lia|].
  do 2 eexists. split; [reflexivity|]. split; [reflexivity|].
  split; reflexivity.
Defined.

Lemma ancestor_axis_yields_parent_chain_witness :
  step_axis (mk_step ANCESTOR None None) = ANCESTOR
  /\ parent_chain scenario [3%nat; 0%nat] 4%nat
  /\ (length [3%nat; 0%nat] <= 2)%nat
  /\ expand_work 2 scenario (mk_step ANCESTOR None None) [4%nat] []
     = Ok (List.filter (node_matches scenario (mk_step ANCESTOR None None))
             [3%nat; 0%nat]).
Proof.
  split; [reflexivity|]. split; [exact scenario_parent_chain_4|].
  split; [simpl; lia|].
  apply (ancestor_axis_yields_parent_chain 2 scenario
           (mk_step ANCESTOR None None) 4%nat [3%nat; 0%nat]).
  - reflexivity.
  - exact scenario_parent_chain_4.
  - simpl; lia.
Defined.

(** ** Finding one node *)

(** X6: [pathx_find_one] tells by its result how many entries the node set
    of the path has: 0 with no node for the empty set, 1 with the node for
    a set of one entry, and -1 with no node for a larger set, where it
    leaves the cursor on the second entry.  When [pathx_first] returns no
    node because the evaluation ended in an error, the result is 0 as
    for the empty set. *)
Theorem find_one_by_size (fuel : nat) (h : heap) (p p1 : pathx)
    (r : option node) :
  pathx_first fuel h p = Ok (r, p1) ->
  (r = None -> pathx_find_one fuel h p = Ok (0, None, p1))
  /\ (forall ns : list node,
        px_nodeset p1 = Some ns ->
        pathx_find_one fuel h p
        = Ok (match ns with
              | [] => (0, None, p1)
              | [n] => (1, Some n, p1)
              | _ :: _ :: _ => (-1, None, set_px_node 1 p1)
              end)).
Proof.
  intros Hf. split.
  - intros ->. unfold pathx_find_one. rewrite Hf. reflexivity.
  - intros ns Hns.
    destruct (pathx_first_result fuel h p p1 r ns Hf Hns) as [-> Hnode].
    unfold pathx_find_one. rewrite Hf. cbn [obind].
    destruct ns as [|n [|m rest]]; [reflexivity| |];
      simpl lookup; cbn iota; unfold pathx_next; rewrite Hns, Hnode;
      change (int_wrap (0 + 1)) with 1; change (size_wrap 1) with 1.
    + reflexivity.
    + assert (Hlt : (1 <? Z.of_nat (length (n :: m :: rest))) = true)
        by (apply Z.ltb_lt; simpl length; lia).
      rewrite Hlt. reflexivity.
Qed.

Lemma find_one_by_size_witness :
  pathx_first 20 scenario parsed_b = Ok (Some 2%nat, first_b)
  /\ (Some 2%nat = None ->
      pathx_find_one 20 scenario parsed_b = Ok (0, None, first_b))
  /\ (forall ns : list node,
        px_nodeset first_b = Some ns ->
        pathx_find_one 20 scenario parsed_b
        = Ok (match ns with
              | [] => (0, None, first_b)
              | [n] => (1, Some n, first_b)
              | _ :: _ :: _ => (-1, None, set_px_node 1 first_b)
              end)).
Proof.
  split; [vm_compute; reflexivity|].
  apply (find_one_by_size 20 scenario parsed_b first_b (Some 2%nat)).
  vm_compute; reflexivity.
Defined.

(** ** The longest prefix of a path that matches *)

Lemma search_last_spec (nss : list (list node)) (i : nat) (n : node)
    (ns : list node) :
  nss !! i = Some (n :: ns) ->
  forall top : nat,
    (i <= top)%nat ->
    (forall j : nat, (i < j)%nat -> (j <= top)%nat -> nss !! j = Some []) ->
    search_last nss top = Some i.
Proof.
  intros Hi. induction top as [|l IH]; intros Hle Hempty.
  - assert (i = 0)%nat as -> by lia. simpl. rewrite Hi. reflexivity.
  - destruct (Nat.eq_dec i (S l)) as [->|Hne].
    + simpl. rewrite Hi. reflexivity.
    + simpl. rewrite (Hempty (S l)) by lia.
      apply IH; [lia|]. intros j Hj1 Hj2. apply Hempty; lia.
Qed.

(** X7: [locpath_search] finds the longest prefix of the path that
    matches: with [i] the number of the last node set that is not empty,
    it returns 0, the one node of that set and the steps after the first
    [i] when the set has one node, and -1 with no node and no step when
    the set has more than one. *)
Theorem locpath_search_longest_prefix (fuel : nat) (h : heap)
    (steps : list step) (st st1 : state) (tmatch : option node)
    (nss : list (list node)) (i : nat) (n : node) (ns : list node) :
  ns_from_locpath fuel h (eval_expr fuel h) steps (set_ctx tmatch st)
  = Ok (st1, Some nss) ->
  (i <= length steps)%nat ->
  nss !! i = Some (n :: ns) ->
  (forall j : nat,
      (i < j)%nat -> (j <= length steps)%nat -> nss !! j = Some []) ->
  locpath_search fuel h (Some steps) st tmatch
  = Ok (match ns with
        | [] => (0, st1, Some n, drop i steps)
        | _ :: _ => (-1, st1, None, [])
        end).
Proof.
  intros Hns Hi Hl Hempty. unfold locpath_search. rewrite Hns. cbn [obind].
  rewrite (search_last_spec nss i n ns Hl (length steps) Hi Hempty).
  rewrite Hl. destruct ns as [|m rest]; [reflexivity|].
  assert (Hlt : (1 <? Z.of_nat (length (n :: m :: rest))) = true)
    by (apply Z.ltb_lt; simpl length; lia).
  rewrite Hlt. reflexivity.
Qed.

Lemma scenario_search_a_x :
  ns_from_locpath 20 scenario (eval_expr 20 scenario)
    [mk_step ROOT None None; mk_step CHILD (Some "a") None;
     mk_step CHILD (Some "x") None]
    (set_ctx (Some 0%nat) (px_state parsed_a_x))
  = Ok (set_ctx (Some 0%nat) (px_state parsed_a_x),
        Some [[0%nat]; [0%nat]; [1%nat; 3%nat]; []]).
Proof. vm_compute; reflexivity. Defined.

Lemma scenario_search_a_x_empty (j : nat) :
  (2 < j)%nat -> (j <= 3)%nat ->
  [[0%nat]; [0%nat]; [1%nat; 3%nat]; []] !! j = Some ([] : list node).
Proof.
  intros H1 H2. assert (j = 3)%nat as -> by lia. reflexivity.
Defined.

Lemma locpath_search_longest_prefix_witness :
  ns_from_locpath 20 scenario (eval_expr 20 scenario)
    [mk_step ROOT None None; mk_step CHILD (Some "a") None;
     mk_step CHILD (Some "x") None]
    (set_ctx (Some 0%nat) (px_state parsed_a_x))
  = Ok (set_ctx (Some 0%nat) (px_state parsed_a_x),
        Some [[0%nat]; [0%nat]; [1%nat; 3%nat]; []])
  /\ locpath_search 20 scenario
       (Some [mk_step ROOT None None; mk_step CHILD (Some "a") None;
              mk_step CHILD (Some "x") None])
       (px_state parsed_a_x) (Some 0%nat)
     = Ok (-1, set_ctx (Some 0%nat) (px_state parsed_a_x), None, []).
Proof.
  split; [exact scenario_search_a_x|].
  apply (locpath_search_longest_prefix 20 scenario
           [mk_step ROOT None None; mk_step CHILD (Some "a") None;
            mk_step CHILD (Some "x") None]
           (px_state parsed_a_x)
           (set_ctx (Some 0%nat) (px_state parsed_a_x)) (Some 0%nat)
           [[0%nat]; [0%nat]; [1%nat; 3%nat]; []] 2 1%nat [3%nat]).
  - exact scenario_search_a_x.
  - simpl; lia.
  - reflexivity.
  - exact scenario_search_a_x_empty.
Defined.

(** X8: [pathx_expand_tree] returns -1, hands back no node and leaves the
    tree as it is when the longest matching prefix of the path matches
    more than one node, and when it matches one node but the first step
    after it is not a step on the axis [child] with a name. *)
Theorem expand_tree_refuses (fuel : nat) (h : heap) (path : pathx)
    (steps : list step) (st1 : state) (nss : list (list node)) (i : nat)
    (n : node) (ns : list node) :
  px_locpath path = Some steps ->
  ns_from_locpath fuel h (eval_expr fuel h) steps
    (set_ctx (px_origin path) (px_state path)) = Ok (st1, Some nss) ->
  (i <= length steps)%nat ->
  nss !! i = Some (n :: ns) ->
  (forall j : nat,
      (i < j)%nat -> (j <= length steps)%nat -> nss !! j = Some []) ->
  ns <> []
  \/ (exists (s : step) (rest : list step),
         drop i steps = s :: rest
         /\ (step_name s = None \/ step_axis s <> CHILD)) ->
  pathx_expand_tree fuel h path = Ok (-1, h, set_px_state st1 path, None).
Proof.
  intros Hlp Hns Hi Hl Hempty Hcase.
  unfold pathx_expand_tree, locpath_search. rewrite Hlp, Hns. cbn [obind].
  rewrite (search_last_spec nss i n ns Hl (length steps) Hi Hempty).
  rewrite Hl.
  destruct ns as [|m rest].
  2:{ assert (Hlt : (1 <? Z.of_nat (length (n :: m :: rest))) = true)
        by (apply Z.ltb_lt; simpl length; lia).
      rewrite Hlt. reflexivity. }
  change (1 <? Z.of_nat (length [n])) with false. cbn [obind].
  destruct Hcase as [Hne|[s [rest [Hdrop Hbad]]]]; [congruence|].
  rewrite Hdrop. cbn beta iota.
  change (0 =? -1) with false. cbn iota.
  simpl expand_steps.
  destruct (step_name s) as [nm|] eqn:Hnm.
  - destruct Hbad as [Hbad|Hbad]; [discriminate Hbad|].
    destruct (step_axis s); try contradiction; reflexivity.
  - reflexivity.
Qed.

Lemma expand_tree_refuses_witness :
  px_locpath parsed_a_x
  = Some [mk_step ROOT None None; mk_step CHILD (Some "a") None;
          mk_step CHILD (Some "x") None]
  /\ pathx_expand_tree 20 scenario parsed_a_x
     = Ok (-1, scenario,
           set_px_state (set_ctx (Some 0%nat) (px_state parsed_a_x))
             parsed_a_x, None).
Proof.
  split; [reflexivity|].
  apply (expand_tree_refuses 20 scenario parsed_a_x
           [mk_step ROOT None None; mk_step CHILD (Some "a") None;
            mk_step CHILD (Some "x") None]
           (set_ctx (Some 0%nat) (px_state parsed_a_x))
           [[0%nat]; [0%nat]; [1%nat; 3%nat]; []] 2 1%nat [3%nat]).
  - reflexivity.
  - exact scenario_search_a_x.
  - simpl; lia.
  - reflexivity.
  - exact scenario_search_a_x_empty.
  - left. discriminate.
Defined.

(** ** Number predicates *)

Lemma pred_loop_whole (ev : expr -> state -> outcome state) (e : expr)
    (st : state) (nodes : list node) :
  pred_loop ev (length nodes) e st nodes 0 = filter_positions ev e st nodes.
Proof.
  pose proof (pred_loop_filter ev e nodes [] (length nodes) st (le_n _))
    as Hpl.
  simpl in Hpl. rewrite Hpl.
  destruct (filter_positions ev e st nodes) as [[st' kept]| |]; reflexivity.
Qed.

Lemma uint_of_int_eqb (p n : Z) :
  0 <= p < 2 ^ 31 ->
  - 2 ^ 31 <= n < 2 ^ 31 ->
  (p =? uint_wrap n) = (p =? n).
Proof.
  intros Hp Hn. unfold uint_wrap.
  change (2 ^ 31) with 2147483648 in *. change (2 ^ 32) with 4294967296.
  destruct (Z_lt_le_dec n 0) as [Hneg|Hpos].
  - assert (Hm : n mod 4294967296 = n + 4294967296).
    { symmetry. apply (Z.mod_unique _ _ (-1)); lia. }
    rewrite Hm.
    destruct (Z.eqb_spec p (n + 4294967296)); destruct (Z.eqb_spec p n);
      try reflexivity; lia.
  - rewrite Z.mod_small by lia. reflexivity.
Qed.

(** One evaluation of a predicate that is the number literal in slot
    [ind]: it holds exactly when the context position is the number, and
    the state is as before. *)
Lemma eval_pred_number (f : nat) (h : heap) (ty : type) (ind n : Z)
    (st : state) :
  HAS_ERROR st = false ->
  value_pool st !! Z.to_nat ind = Some (V_number n) ->
  eval_pred (eval_expr (S f) h) (E_VALUE ty ind) st
  = Ok (st, ctx_pos st =? uint_wrap n).
Proof.
  intros He Hlit. unfold eval_pred. simpl eval_expr. rewrite He.
  cbn [obind]. unfold pop_value, pop_value_ind, push_value. simpl values.
  cbn [obind].
  simpl value_pool. rewrite Hlit.
  match goal with
  | |- context [HAS_ERROR ?s] =>
      replace (HAS_ERROR s) with false by exact (eq_sym He)
  end.
  destruct st; reflexivity.
Qed.

Lemma filter_positions_number (f : nat) (h : heap) (ty : type) (ind n : Z)
    (rest : list node) :
  - 2 ^ 31 <= n < 2 ^ 31 ->
  forall (st : state) (p : Z),
    HAS_ERROR st = false ->
    value_pool st !! Z.to_nat ind = Some (V_number n) ->
    ctx_pos st = p ->
    0 <= p ->
    p + Z.of_nat (length rest) <= 2 ^ 31 ->
    exists st' : state,
      filter_positions (eval_expr (S f) h) (E_VALUE ty ind) st rest
      = Ok (st', entry_at p n rest).
Proof.
  intros Hn. induction rest as [|c rest IH]; intros st p He Hlit Hp Hp0 Hb.
  - exists st. simpl. unfold entry_at.
    destruct (p <=? n); [|reflexivity]. rewrite lookup_nil. reflexivity.
  - simpl length in Hb. cbn [filter_positions].
    rewrite (eval_pred_number f h ty ind n (set_ctx (Some c) st) He Hlit).
    cbn [obind]. change (ctx_pos (set_ctx (Some c) st)) with (ctx_pos st).
    rewrite Hp.
    assert (Hwrap : uint_wrap (p + 1) = p + 1).
    { unfold uint_wrap. apply Z.mod_small.
      change (2 ^ 31) with 2147483648 in Hb.
      change (2 ^ 32) with 4294967296. lia. }
    rewrite Hwrap.
    destruct (IH (set_ctx_pos (p + 1) (set_ctx (Some c) st)) (p + 1))
      as [st' Hst']; [exact He|exact Hlit|reflexivity|lia|lia|].
    rewrite Hst'. cbn [obind]. exists st'.
    rewrite uint_of_int_eqb by lia.
    rewrite entry_at_cons. reflexivity.
Qed.

(** X9: for a location step whose predicate is a number literal [n], the
    node set of the step is the entry of position [n] (counted from 1) of
    the set [next] the expansion produced, or empty when [next] has no
    such entry. *)
Theorem number_predicate_keeps_nth (fuel f : nat) (h : heap) (ty : type)
    (ind n : Z) (s : step) (st : state) (work next : list node)
    (nss : list (list node)) :
  HAS_ERROR st = false ->
  value_pool st !! Z.to_nat ind = Some (V_number n) ->
  - 2 ^ 31 <= n < 2 ^ 31 ->
  Z.of_nat (length next) < 2 ^ 31 ->
  step_predicates s = Some [E_VALUE ty ind] ->
  expand_work fuel h s work [] = Ok next ->
  exists st' : state,
    ns_steps fuel h (eval_expr (S f) h) [s] st work nss
    = Ok (st', nss ++ [entry_at 1 n next]).
Proof.
  intros He Hlit Hn Hlen Hpreds Hexp.
  cbn [ns_steps]. rewrite Hexp, Hpreds. cbn [obind].
  cbn [apply_predicates].
  rewrite pred_loop_whole.
  destruct (filter_positions_number f h ty ind n next Hn
              (set_ctx_pos 1
                 (set_ctx_len (uint_wrap (Z.of_nat (length next))) st)) 1)
    as [st' Hst']; [exact He|exact Hlit|reflexivity|lia|lia|].
  rewrite Hst'. cbn [obind]. exists st'. reflexivity.
Qed.

Lemma number_predicate_keeps_nth_witness :
  HAS_ERROR (set_ctx (Some 0%nat) (px_state parsed_a_2)) = false
  /\ value_pool (set_ctx (Some 0%nat) (px_state parsed_a_2)) !! Z.to_nat 2
     = Some (V_number 2)
  /\ expand_work 20 scenario
       (mk_step CHILD (Some "a") (Some [E_VALUE T_NUMBER 2])) [0%nat] []
     = Ok [1%nat; 3%nat]
  /\ (exists st' : state,
        ns_steps 20 scenario (eval_expr 1 scenario)
          [mk_step CHILD (Some "a") (Some [E_VALUE T_NUMBER 2])]
          (set_ctx (Some 0%nat) (px_state parsed_a_2)) [0%nat] [[0%nat]]
        = Ok (st', [[0%nat]] ++ [entry_at 1 2 [1%nat; 3%nat]])).
Proof.
  split; [reflexivity|]. split; [reflexivity|].
  split; [vm_compute; reflexivity|].
  apply (number_predicate_keeps_nth 20 0 scenario T_NUMBER 2 2
           (mk_step CHILD (Some "a") (Some [E_VALUE T_NUMBER 2]))
           (set_ctx (Some 0%nat) (px_state parsed_a_2)) [0%nat]
           [1%nat; 3%nat] [[0%nat]]).
  - reflexivity.
  - reflexivity.
  - split; [vm_compute; discriminate|reflexivity].
  - reflexivity.
  - reflexivity.
  - vm_compute; reflexivity.
Defined.

Lemma make_value_room (m : Z) (st : state) :
  pool_room m st ->
  1 <= m ->
  exists sz : Z,
    make_value T_NUMBER st
    = Ok (set_value_pool (value_pool st ++ [V_number 0]) sz st,
          value_pool_used st)
    /\ (exists k : Z, 0 <= k <= 31 /\ sz = 2 ^ k)
    /\ value_pool_used st + 1 <= sz.
Proof.
  intros [He [k [Hk Hsz]] Hused Hroom] Hm.
  unfold make_value.
  destruct (Z.geb_spec (value_pool_used st) (value_pool_size st)) as [Hge|Hlt].
  - assert (Heq : value_pool_used st = 2 ^ k) by lia.
    assert (Hk30 : k < 31).
    { apply (Z.pow_lt_mono_r_iff 2); lia. }
    assert (Hnew : uint_wrap (2 * value_pool_size st) = 2 ^ (k + 1)).
    { unfold uint_wrap. rewrite Hsz, <- Z.pow_succ_r by lia.
      apply Z.mod_small. split; [apply Z.pow_nonneg; lia|].
      apply Z.pow_lt_mono_r; lia. }
    assert (Hpos : 0 < 2 ^ k) by (apply Z.pow_pos_nonneg; lia).
    assert (Hdbl : 2 ^ (k + 1) = 2 * 2 ^ k) by (apply Z.pow_succ_r; lia).
    rewrite Hnew.
    destruct (Z.leb_spec (2 ^ (k + 1)) (value_pool_size st)) as [Hle|Hgt];
      [lia|].
    exists (2 ^ (k + 1)). split; [reflexivity|]. split; [|lia].
    exists (k + 1). split; [lia|reflexivity].
  - exists (value_pool_size st). split; [reflexivity|]. split; [|lia].
    exists k. split; assumption.
Qed.

(** One evaluation of the predicate [last()] at context position [p] in a
    set of [len] entries: it holds exactly when [p] is [len], and the
    value pool has grown by the number [last()] returned. *)
Lemma eval_pred_last (f : nat) (h : heap) (ty : type) (m p len : Z)
    (st : state) :
  pool_room m st ->
  1 <= m ->
  ctx_pos st = p ->
  ctx_len st = len ->
  0 <= p < 2 ^ 31 ->
  0 <= len < 2 ^ 31 ->
  exists sz : Z,
    eval_pred (eval_expr (S f) h) (E_APP ty last_func []) st
    = Ok (set_value_pool (value_pool st ++ [V_number len]) sz st, p =? len)
    /\ pool_room (m - 1)
         (set_value_pool (value_pool st ++ [V_number len]) sz st).
Proof.
  intros Hroom Hm Hp Hlen Hpr Hlr.
  destruct (make_value_room m st Hroom Hm) as [sz [Hmk [Hk Hsz]]].
  destruct Hroom as [He Hsize Hused Hr].
  exists sz. split.
  - unfold eval_pred.
    change (eval_expr (S f) h (E_APP ty last_func []) st)
      with (if HAS_ERROR st then Ok st else func_last st).
    rewrite He. unfold func_last. rewrite Hmk. cbn [obind].
    replace (HAS_ERROR (set_value_pool (value_pool st ++ [V_number 0]) sz st))
      with false by exact (eq_sym He).
    cbn [obind]. unfold pop_value, pop_value_ind, push_value. simpl values.
    cbn [obind].
    match goal with
    | |- context [HAS_ERROR ?s] =>
        replace (HAS_ERROR s) with false by exact (eq_sym He)
    end.
    unfold store_value, value_pool_used. simpl value_pool. simpl ctx_len.
    rewrite Hlen, Nat2Z.id, !insert_last_slot.
    rewrite int_wrap_small by lia.
    rewrite lookup_app_r by lia. rewrite Nat.sub_diag. simpl lookup.
    cbn [obind]. simpl ctx_pos. rewrite Hp. rewrite uint_of_int_eqb by lia.
    destruct st; reflexivity.
  - constructor; simpl.
    + exact He.
    + exact Hk.
    + unfold value_pool_used in *. simpl. rewrite length_app. simpl. lia.
    + unfold value_pool_used in *. simpl. rewrite length_app. simpl. lia.
Qed.

Lemma filter_positions_last (f : nat) (h : heap) (ty : type) (len : Z)
    (rest : list node) :
  0 <= len < 2 ^ 31 ->
  forall (st : state) (p : Z),
    pool_room (Z.of_nat (length rest)) st ->
    ctx_pos st = p ->
    ctx_len st = len ->
    0 <= p ->
    p + Z.of_nat (length rest) <= 2 ^ 31 ->
    exists st' : state,
      filter_positions (eval_expr (S f) h) (E_APP ty last_func []) st rest
      = Ok (st', entry_at p len rest).
Proof.
  intros Hl. induction rest as [|c rest IH]; intros st p Hroom Hp Hlen Hp0 Hb.
  - exists st. simpl. unfold entry_at.
    destruct (p <=? len); [|reflexivity]. rewrite lookup_nil. reflexivity.
  - simpl length in *.
    destruct (eval_pred_last f h ty (Z.of_nat (S (length rest))) p len
                (set_ctx (Some c) st)) as [sz [Hev Hroom1]];
      [destruct Hroom; constructor; assumption|lia|exact Hp|exact Hlen|lia
      |exact Hl|].
    cbn [filter_positions]. rewrite Hev. cbn [obind].
    set (st1 := set_value_pool _ sz (set_ctx (Some c) st)) in *.
    assert (Hwrap : uint_wrap (ctx_pos st1 + 1) = p + 1).
    { change (ctx_pos st1) with (ctx_pos st). rewrite Hp.
      unfold uint_wrap. apply Z.mod_small.
      change (2 ^ 31) with 2147483648 in Hb.
      change (2 ^ 32) with 4294967296. lia. }
    rewrite Hwrap.
    destruct (IH (set_ctx_pos (p + 1) st1) (p + 1)) as [st' Hst'];
      [|reflexivity|exact Hlen|lia|lia|].
    { replace (Z.of_nat (length rest)) with (Z.of_nat (S (length rest)) - 1)
        by lia.
      destruct Hroom1. constructor; assumption. }
    rewrite Hst'. cbn [obind]. exists st'.
    rewrite entry_at_cons. reflexivity.
Qed.

Lemma entry_at_last (l : list node) :
  entry_at 1 (Z.of_nat (length l)) l
  = match last l with
    | Some x => [x]
    | None => []
    end.
Proof.
  unfold entry_at. rewrite last_lookup.
  destruct l as [|x l]; [reflexivity|].
  destruct (Z.leb_spec 1 (Z.of_nat (length (x :: l)))) as [_|Hlt];
    [|simpl length in Hlt; lia].
  replace (Z.to_nat (Z.of_nat (length (x :: l)) - 1))
    with (Init.Nat.pred (length (x :: l))) by (simpl length; lia).
  reflexivity.
Qed.

(** X10: for a location step whose predicate is [last()], the node set of
    the step is the last entry of the set [next] the expansion produced,
    and empty when [next] is empty; each entry of [next] costs one slot of
    the value pool. *)
Theorem last_predicate_keeps_last (fuel f : nat) (h : heap) (ty : type)
    (s : step) (st : state) (work next : list node)
    (nss : list (list node)) :
  pool_room (Z.of_nat (length next)) st ->
  Z.of_nat (length next) < 2 ^ 31 ->
  step_predicates s = Some [E_APP ty last_func []] ->
  expand_work fuel h s work [] = Ok next ->
  exists st' : state,
    ns_steps fuel h (eval_expr (S f) h) [s] st work nss
    = Ok (st', nss ++ [match last next with
                       | Some x => [x]
                       | None => []
                       end]).
Proof.
  intros Hroom Hlen Hpreds Hexp.
  cbn [ns_steps]. rewrite Hexp, Hpreds. cbn [obind].
  cbn [apply_predicates].
  rewrite pred_loop_whole.
  assert (Hwrap : uint_wrap (Z.of_nat (length next)) = Z.of_nat (length next)).
  { unfold uint_wrap. apply Z.mod_small.
    change (2 ^ 31) with 2147483648 in Hlen.
    change (2 ^ 32) with 4294967296. lia. }
  destruct (filter_positions_last f h ty (Z.of_nat (length next)) next
              ltac:(lia)
              (set_ctx_pos 1
                 (set_ctx_len (uint_wrap (Z.of_nat (length next))) st)) 1)
    as [st' Hst'].
  - destruct Hroom. constructor; assumption.
  - reflexivity.
  - simpl. exact Hwrap.
  - lia.
  - lia.
  - rewrite Hst'. cbn [obind]. exists st'. rewrite entry_at_last.
    reflexivity.
Qed.

Lemma state_position_2_room :
  pool_room (Z.of_nat (length [1%nat; 3%nat])) state_position_2.
Proof.
  constructor.
  - reflexivity.
  - exists 3. split; [lia|reflexivity].
  - vm_compute. discriminate.
  - vm_compute. discriminate.
Defined.

Lemma last_predicate_keeps_last_witness :
  pool_room (Z.of_nat (length [1%nat; 3%nat])) state_position_2
  /\ Z.of_nat (length [1%nat; 3%nat]) < 2 ^ 31
  /\ expand_work 20 scenario
       (mk_step CHILD (Some "a") (Some [E_APP T_NUMBER last_func []]))
       [0%nat] []
     = Ok [1%nat; 3%nat]
  /\ (exists st' : state,
        ns_steps 20 scenario (eval_expr 1 scenario)
          [mk_step CHILD (Some "a") (Some [E_APP T_NUMBER last_func []])]
          state_position_2 [0%nat] [[0%nat]]
        = Ok (st', [[0%nat]] ++ [match last [1%nat; 3%nat] with
                                 | Some x => [x]
                                 | None => []
                                 end])).
Proof.
  split; [exact state_position_2_room|]. split; [reflexivity|].
  split; [vm_compute; reflexivity|].
  apply (last_predicate_keeps_last 20 0 scenario T_NUMBER
           (mk_step CHILD (Some "a") (Some [E_APP T_NUMBER last_func []]))
           state_position_2 [0%nat] [1%nat; 3%nat] [[0%nat]]).
  - exact state_position_2_room.
  - reflexivity.
  - reflexivity.
  - vm_compute; reflexivity.
Defined.

(** ** The value pool *)

Lemma make_value_cases (tag : type) (st st1 : state) (vind : Z) :
  make_value tag st = Ok (st1, vind) ->
  (st1 = STATE_ERROR PATHX_ENOMEM st /\ vind = 0
   /\ value_pool_size st <= value_pool_used st
   /\ uint_wrap (2 * value_pool_size st) <= value_pool_size st)
  \/ (exists sz : Z,
         st1 = set_value_pool (value_pool st ++ [fresh_value tag]) sz st
         /\ vind = value_pool_used st
         /\ (sz = value_pool_size st
             \/ value_pool_size st < sz /\ sz = uint_wrap (2 * value_pool_size st))).
Proof.
  unfold make_value. intros H.
  assert (Hcases :
            (if value_pool_used st >=? value_pool_size st
             then
               if uint_wrap (2 * value_pool_size st) <=? value_pool_size st
               then Ok (STATE_ERROR PATHX_ENOMEM st, 0)
               else
                 Ok (set_value_pool (value_pool st ++ [fresh_value tag])
                       (uint_wrap (2 * value_pool_size st)) st,
                     value_pool_used st)
             else
               Ok (set_value_pool (value_pool st ++ [fresh_value tag])
                     (value_pool_size st) st, value_pool_used st))
            = Ok (st1, vind)).
  { destruct tag; try discriminate H; exact H. }
  clear H.
  destruct (Z.geb_spec (value_pool_used st) (value_pool_size st)) as [Hge|Hlt].
  - destruct (Z.leb_spec (uint_wrap (2 * value_pool_size st))
                (value_pool_size st)) as [Hle|Hgt].
    + injection Hcases as <- <-. left. repeat split; assumption.
    + injection Hcases as <- <-. right. eexists.
      split; [reflexivity|]. split; [reflexivity|]. right.
      split; [lia|reflexivity].
  - injection Hcases as <- <-. right. eexists.
    split; [reflexivity|]. split; [reflexivity|]. left. reflexivity.
Qed.

Lemma eval_keeps_refl (st : state) : eval_keeps st st.
Proof. repeat split; reflexivity. Qed.

Lemma eval_keeps_trans (st1 st2 st3 : state) :
  eval_keeps st1 st2 -> eval_keeps st2 st3 -> eval_keeps st1 st3.
Proof.
  intros [H1 [H2 H3]] [K1 [K2 K3]]. repeat split; try congruence.
  etransitivity; eassumption.
Qed.

Lemma make_value_keeps (tag : type) (st st1 : state) (vind : Z) :
  make_value tag st = Ok (st1, vind) -> eval_keeps st st1.
Proof.
  intros H. destruct (make_value_cases tag st st1 vind H)
    as [[-> _]|[sz [-> _]]].
  - repeat split; reflexivity.
  - repeat split; try reflexivity. simpl. apply prefix_app_r. reflexivity.
Qed.

(** The slot [make_value] handed out takes its payload: the pool is the
    former pool with the value appended. *)
Lemma make_value_store (tag : type) (st st1 : state) (vind : Z) (v : value) :
  make_value tag st = Ok (st1, vind) ->
  HAS_ERROR st = false ->
  HAS_ERROR st1 = false ->
  value_pool (store_value vind v st1) = value_pool st ++ [v]
  /\ vind = value_pool_used st.
Proof.
  intros H He He1. destruct (make_value_cases tag st st1 vind H)
    as [[-> _]|[sz [-> [-> _]]]].
  - discriminate He1.
  - split; [|reflexivity]. unfold store_value, value_pool_used. simpl.
    rewrite Nat2Z.id. apply insert_last_slot.
Qed.

Lemma make_store_keeps (tag : type) (st st1 : state) (vind : Z) (v : value) :
  make_value tag st = Ok (st1, vind) ->
  HAS_ERROR st = false ->
  HAS_ERROR st1 = false ->
  eval_keeps st (push_value vind (store_value vind v st1)).
Proof.
  intros H He He1.
  destruct (make_value_store tag st st1 vind v H He He1) as [Hp _].
  destruct (make_value_keeps tag st st1 vind H) as [H1 [H2 _]].
  repeat split; [exact H1|exact H2|].
  change (value_pool (push_value vind (store_value vind v st1)))
    with (value_pool (store_value vind v st1)).
  rewrite Hp. apply prefix_app_r. reflexivity.
Qed.

Lemma pop_value_keeps (st st' : state) (v : option value) :
  pop_value st = Ok (st', v) -> eval_keeps st st' /\ HAS_ERROR st' = HAS_ERROR st.
Proof.
  unfold pop_value, pop_value_ind. intros H.
  destruct (values st) as [|vind rest]; [discriminate H|].
  cbn [obind] in H.
  destruct (HAS_ERROR (set_values rest st)).
  - injection H as <- _. split; [(repeat split; reflexivity)|reflexivity].
  - destruct (_ !! _); [|discriminate H]. injection H as <- _.
    split; [(repeat split; reflexivity)|reflexivity].
Qed.

Lemma eval_eq_keeps (h : heap) (st st' : state) (neq : bool) :
  eval_eq h st neq = Ok st' -> eval_keeps st st'.
Proof.
  unfold eval_eq. intros H.
  bind_inv H. destruct a as [st1 r]. apply pop_value_keeps in E.
  bind_inv H. destruct a as [st2 l]. apply pop_value_keeps in E0.
  destruct l as [lv|]; [|discriminate H].
  destruct r as [rv|]; [|discriminate H].
  bind_inv H.
  apply (eval_keeps_trans _ st1); [apply E|].
  apply (eval_keeps_trans _ st2); [apply E0|].
  destruct (HAS_ERROR st2); injection H as <-; (repeat split; reflexivity).
Qed.

Lemma eval_arith_keeps (st st' : state) (op : binary_op) :
  HAS_ERROR st = false ->
  eval_arith st op = Ok st' -> eval_keeps st st'.
Proof.
  unfold eval_arith. intros He H.
  bind_inv H. destruct a as [st1 r]. apply pop_value_keeps in E.
  bind_inv H. destruct a as [st2 l]. apply pop_value_keeps in E0.
  destruct l as [[| a | |]|]; try discriminate H.
  destruct r as [[| b | |]|]; try discriminate H.
  bind_inv H. destruct a0 as [st3 vind].
  apply (eval_keeps_trans _ st1); [apply E|].
  apply (eval_keeps_trans _ st2); [apply E0|].
  destruct (HAS_ERROR st3) eqn:He3.
  - injection H as <-. exact (make_value_keeps _ _ _ _ E1).
  - destruct (negb _); [discriminate H|].
    bind_inv H. injection H as <-.
    apply (make_store_keeps T_NUMBER st2 st3 vind _ E1); [|exact He3].
    destruct E as [_ E], E0 as [_ E0]. congruence.
Qed.

Lemma run_impl_keeps (i : func_impl) (st st' : state) :
  HAS_ERROR st = false ->
  run_impl i st = Ok st' -> eval_keeps st st'.
Proof.
  intros He. destruct i; unfold run_impl, func_last, func_position; intros H;
    bind_inv H; destruct a as [st1 vind];
    (destruct (HAS_ERROR st1) eqn:He1;
     [injection H as <-; exact (make_value_keeps _ _ _ _ E)
     |injection H as <-;
      exact (make_store_keeps T_NUMBER st st1 vind _ E He He1)]).
Qed.

Section EvalKeeps.
Variable h : heap.
Variable ev : expr -> state -> outcome state.
Hypothesis ev_keeps :
  forall (e : expr) (st st' : state), ev e st = Ok st' -> eval_keeps st st'.

Lemma eval_binary_keeps (op : binary_op) (l r : expr) (st st' : state) :
  eval_binary h ev op l r st = Ok st' -> eval_keeps st st'.
Proof.
  unfold eval_binary. intros H.
  bind_inv H. apply ev_keeps in E.
  bind_inv H. apply ev_keeps in E0.
  apply (eval_keeps_trans _ a); [exact E|].
  apply (eval_keeps_trans _ a0); [exact E0|].
  destruct (HAS_ERROR a0) eqn:He.
  - injection H as <-. (repeat split; reflexivity).
  - destruct op;
      first [exact (eval_eq_keeps _ _ _ _ H)
            |exact (eval_arith_keeps _ _ _ He H)].
Qed.

Lemma eval_app_from_keeps (f : func) (n : nat) :
  forall (args : list expr) (st st' : state),
    HAS_ERROR st = false ->
    eval_app_from ev n args f st = Ok st' -> eval_keeps st st'.
Proof.
  induction n as [|n IH]; intros args st st' He H; simpl in H.
  - exact (run_impl_keeps _ _ _ He H).
  - destruct args as [|a rest]; [discriminate H|].
    bind_inv H. apply ev_keeps in E.
    destruct (HAS_ERROR a0) eqn:He0.
    + injection H as <-. exact E.
    + apply (eval_keeps_trans _ a0); [exact E|]. exact (IH _ _ _ He0 H).
Qed.

Lemma eval_pred_keeps (e : expr) (st st' : state) (b : bool) :
  eval_pred ev e st = Ok (st', b) -> eval_keeps st st'.
Proof.
  unfold eval_pred. intros H.
  bind_inv H. apply ev_keeps in E.
  bind_inv H. destruct a0 as [st2 v]. apply pop_value_keeps in E0.
  apply (eval_keeps_trans _ a); [exact E|].
  apply (eval_keeps_trans _ st2); [apply E0|].
  destruct v as [[| | |]|]; try discriminate H;
    injection H as <- _; (repeat split; reflexivity).
Qed.

Lemma pred_loop_keeps (e : expr) (n : nat) :
  forall (st : state) (next : list node) (i : nat) (st' : state)
         (next' : list node),
    pred_loop ev n e st next i = Ok (st', next') -> eval_keeps st st'.
Proof.
  induction n as [|n IH]; intros st next i st' next' H; simpl in H.
  - destruct (next !! i); [discriminate H|]. injection H as <- _.
    (repeat split; reflexivity).
  - destruct (next !! i) as [c|];
      [|injection H as <- _; (repeat split; reflexivity)].
    bind_inv H. destruct a as [st1 keep]. apply eval_pred_keeps in E.
    apply (eval_keeps_trans _ st1); [exact E|].
    destruct keep; apply IH in H; exact H.
Qed.

Lemma apply_predicates_keeps (preds : list expr) :
  forall (st : state) (next : list node) (st' : state) (next' : list node),
    apply_predicates ev preds st next = Ok (st', next') ->
    eval_keeps st st'.
Proof.
  induction preds as [|p rest IH]; intros st next st' next' H; simpl in H.
  - injection H as <- _. (repeat split; reflexivity).
  - bind_inv H. destruct a as [st2 next1]. apply pred_loop_keeps in E.
    apply IH in H. apply (eval_keeps_trans _ st2); [exact E|exact H].
Qed.

Lemma ns_steps_keeps (fuel : nat) (steps : list step) :
  forall (st : state) (work : list node) (nss : list (list node))
         (st' : state) (nss' : list (list node)),
    ns_steps fuel h ev steps st work nss = Ok (st', nss') ->
    eval_keeps st st'.
Proof.
  induction steps as [|s rest IH]; intros st work nss st' nss' H; simpl in H.
  - injection H as <- _. (repeat split; reflexivity).
  - bind_inv H. bind_inv H. destruct a0 as [st1 next1].
    apply IH in H.
    destruct (step_predicates s) as [preds|].
    + apply apply_predicates_keeps in E0.
      apply (eval_keeps_trans _ st1); assumption.
    + injection E0 as <- _. exact H.
Qed.

(** [ns_from_locpath] restores the context node, position and length it
    found. *)
Lemma ns_from_locpath_keeps (fuel : nat) (lp : list step) (st st' : state)
    (ns : option (list (list node))) :
  ns_from_locpath fuel h ev lp st = Ok (st', ns) ->
  eval_keeps st st'
  /\ ctx st' = ctx st /\ ctx_pos st' = ctx_pos st /\ ctx_len st' = ctx_len st.
Proof.
  unfold ns_from_locpath. intros H.
  destruct (HAS_ERROR st).
  { injection H as <- _. split; [(repeat split; reflexivity)|]. repeat split. }
  destruct (ctx st) as [c|] eqn:Hc; [|discriminate H].
  bind_inv H. destruct a as [st1 nss]. apply ns_steps_keeps in E.
  injection H as <- _. split; [exact E|]. simpl. repeat split.
Qed.

Lemma eval_locpath_keeps (fuel : nat) (lp : option (list step))
    (st st' : state) :
  eval_locpath fuel h ev lp st = Ok st' ->
  eval_keeps st st'
  /\ ctx st' = ctx st /\ ctx_pos st' = ctx_pos st /\ ctx_len st' = ctx_len st.
Proof.
  unfold eval_locpath. intros H.
  destruct lp as [steps|]; [|discriminate H].
  bind_inv H. destruct a as [st1 ns].
  destruct (ns_from_locpath_keeps _ _ _ _ _ E) as [K [C1 [C2 C3]]].
  destruct (HAS_ERROR st1) eqn:He1.
  { injection H as <-. repeat split; assumption || apply K. }
  destruct ns as [nss|]; [|discriminate H].
  bind_inv H. destruct a as [st2 vind].
  pose proof (make_value_keeps _ _ _ _ E0) as K2.
  assert (C : ctx st2 = ctx st1 /\ ctx_pos st2 = ctx_pos st1
              /\ ctx_len st2 = ctx_len st1).
  { destruct (make_value_cases _ _ _ _ E0) as [[-> _]|[sz [-> _]]];
      repeat split. }
  destruct C as [D1 [D2 D3]].
  destruct (HAS_ERROR st2) eqn:He2.
  { injection H as <-. split; [exact (eval_keeps_trans _ _ _ K K2)|].
    repeat split; congruence. }
  destruct (last nss); [|discriminate H].
  injection H as <-.
  split.
  - apply (eval_keeps_trans _ st1); [exact K|].
    exact (make_store_keeps T_NODESET st1 st2 vind _ E0 He1 He2).
  - simpl. repeat split; congruence.
Qed.
End EvalKeeps.

Lemma same_ctx_trans (st1 st2 st3 : state) :
  same_ctx st1 st2 -> same_ctx st2 st3 -> same_ctx st1 st3.
Proof.
  intros [H1 [H2 H3]] [K1 [K2 K3]]. repeat split; congruence.
Qed.

Lemma make_value_ctx (tag : type) (st st1 : state) (vind : Z) :
  make_value tag st = Ok (st1, vind) -> same_ctx st st1.
Proof.
  intros H. destruct (make_value_cases tag st st1 vind H)
    as [[-> _]|[sz [-> _]]]; repeat split.
Qed.

Lemma pop_value_ctx (st st' : state) (v : option value) :
  pop_value st = Ok (st', v) -> same_ctx st st'.
Proof.
  unfold pop_value, pop_value_ind. intros H.
  destruct (values st) as [|vind rest]; [discriminate H|].
  cbn [obind] in H.
  destruct (HAS_ERROR (set_values rest st)).
  - injection H as <- _. repeat split.
  - destruct (_ !! _); [|discriminate H]. injection H as <- _. repeat split.
Qed.

Lemma eval_eq_ctx (h : heap) (st st' : state) (neq : bool) :
  eval_eq h st neq = Ok st' -> same_ctx st st'.
Proof.
  unfold eval_eq. intros H.
  bind_inv H. destruct a as [st1 r]. apply pop_value_ctx in E.
  bind_inv H. destruct a as [st2 l]. apply pop_value_ctx in E0.
  destruct l as [lv|]; [|discriminate H].
  destruct r as [rv|]; [|discriminate H].
  bind_inv H.
  apply (same_ctx_trans _ st1); [exact E|].
  apply (same_ctx_trans _ st2); [exact E0|].
  destruct (HAS_ERROR st2); injection H as <-; repeat split.
Qed.

Lemma eval_arith_ctx (st st' : state) (op : binary_op) :
  eval_arith st op = Ok st' -> same_ctx st st'.
Proof.
  unfold eval_arith. intros H.
  bind_inv H. destruct a as [st1 r]. apply pop_value_ctx in E.
  bind_inv H. destruct a as [st2 l]. apply pop_value_ctx in E0.
  destruct l as [[| a | |]|]; try discriminate H.
  destruct r as [[| b | |]|]; try discriminate H.
  bind_inv H. destruct a0 as [st3 vind]. apply make_value_ctx in E1.
  apply (same_ctx_trans _ st1); [exact E|].
  apply (same_ctx_trans _ st2); [exact E0|].
  apply (same_ctx_trans _ st3); [exact E1|].
  destruct (HAS_ERROR st3).
  - injection H as <-. repeat split.
  - destruct (negb _); [discriminate H|].
    bind_inv H. injection H as <-. repeat split.
Qed.

Lemma run_impl_ctx (i : func_impl) (st st' : state) :
  run_impl i st = Ok st' -> same_ctx st st'.
Proof.
  destruct i; unfold run_impl, func_last, func_position; intros H;
    bind_inv H; destruct a as [st1 vind]; apply make_value_ctx in E;
    (apply (same_ctx_trans _ st1); [exact E|]);
    destruct (HAS_ERROR st1); injection H as <-; repeat split.
Qed.

(** X11: the evaluation of an expression leaves the context node, the
    context position and the context length as it found them, does not
    touch the text, the position in it or the stack of expressions, and
    leaves every slot of the value pool that was in use as it was: the
    handles of values stay valid. *)
Theorem eval_expr_frame (fuel : nat) (h : heap) (e : expr) (st st' : state) :
  eval_expr fuel h e st = Ok st' ->
  ctx st' = ctx st /\ ctx_pos st' = ctx_pos st /\ ctx_len st' = ctx_len st
  /\ txt st' = txt st /\ pos st' = pos st /\ exprs st' = exprs st
  /\ (forall (i : nat) (v : value),
        value_pool st !! i = Some v -> value_pool st' !! i = Some v).
Proof.
  intros H.
  assert (Hframe : forall (f : nat) (e0 : expr) (s s' : state),
             eval_expr f h e0 s = Ok s' -> eval_keeps s s' /\ same_ctx s s').
  { clear. induction f as [|f IH]; intros e0 s s' H; [discriminate H|].
    simpl in H.
    destruct (HAS_ERROR s) eqn:He.
    { injection H as <-. split; repeat split; reflexivity. }
    assert (IHk : forall (e1 : expr) (s1 s2 : state),
               eval_expr f h e1 s1 = Ok s2 -> eval_keeps s1 s2).
    { intros e1 s1 s2 H1. exact (proj1 (IH e1 s1 s2 H1)). }
    destruct e0 as [ty lp|ty op l r|ty vind|ty fn args].
    - destruct (eval_locpath_keeps h _ IHk _ _ _ _ H) as [K C].
      split; [exact K|exact C].
    - split; [exact (eval_binary_keeps h _ IHk _ _ _ _ _ H)|].
      unfold eval_binary in H.
      bind_inv H. apply IH in E. bind_inv H. apply IH in E0.
      apply (same_ctx_trans _ a); [apply E|].
      apply (same_ctx_trans _ a0); [apply E0|].
      destruct (HAS_ERROR a0).
      + injection H as <-. repeat split.
      + destruct op;
          first [exact (eval_eq_ctx _ _ _ _ H)|exact (eval_arith_ctx _ _ _ H)].
    - injection H as <-. split; repeat split; reflexivity.
    - split; [exact (eval_app_from_keeps _ IHk _ _ _ _ _ He H)|].
      unfold eval_app in H. revert s He H.
      generalize (arity fn) as n. intros n. revert args.
      induction n as [|n IHn]; intros args s He H; simpl in H.
      + exact (run_impl_ctx _ _ _ H).
      + destruct args as [|a rest]; [discriminate H|].
        bind_inv H. apply IH in E.
        destruct (HAS_ERROR a0) eqn:He0.
        * injection H as <-. apply E.
        * apply (same_ctx_trans _ a0); [apply E|].
          exact (IHn rest a0 He0 H). }
  destruct (Hframe fuel e st st' H) as [[K1 [K2 K3]] [C1 [C2 C3]]].
  pose proof (eval_expr_exprs fuel h e st st' H) as Hex.
  repeat split; try assumption.
  intros i v Hv. destruct K3 as [k ->]. apply lookup_app_l_Some. exact Hv.
Qed.

Lemma eval_expr_frame_witness :
  eval_expr 20 scenario expr_b state_b = Ok evaluated_b
  /\ ctx evaluated_b = ctx state_b
  /\ ctx_pos evaluated_b = ctx_pos state_b
  /\ ctx_len evaluated_b = ctx_len state_b
  /\ txt evaluated_b = txt state_b
  /\ pos evaluated_b = pos state_b
  /\ exprs evaluated_b = exprs state_b
  /\ (forall (i : nat) (v : value),
        value_pool state_b !! i = Some v ->
        value_pool evaluated_b !! i = Some v).
Proof.
  split; [vm_compute; reflexivity|].
  apply (eval_expr_frame 20 scenario expr_b state_b evaluated_b).
  vm_compute; reflexivity.
Defined.

(** ** Positions in the text *)

Lemma str_app_nil (b : string) : ("" ++ b)%string = b.
Proof. reflexivity. Qed.

Lemma str_app_cons (c : ascii) (a b : string) :
  (String c a ++ b)%string = String c (a ++ b).
Proof. reflexivity. Qed.

Lemma str_length_append (a b : string) :
  String.length (a ++ b)%string = (String.length a + String.length b)%nat.
Proof.
  induction a as [|c a IH]; [reflexivity|].
  rewrite str_app_cons. simpl. rewrite IH. reflexivity.
Qed.

Lemma str_append_assoc (a b c : string) :
  ((a ++ b) ++ c)%string = (a ++ (b ++ c))%string.
Proof.
  induction a as [|x a IH]; [reflexivity|].
  rewrite !str_app_cons, IH. reflexivity.
Qed.

Lemma str_append_nil_r (a : string) : (a ++ "")%string = a.
Proof.
  induction a as [|x a IH]; [reflexivity|].
  rewrite str_app_cons, IH. reflexivity.
Qed.

Lemma str_suffix_refl (s : string) : str_suffix s s.
Proof. exists EmptyString. reflexivity. Qed.

Lemma str_suffix_trans (a b c : string) :
  str_suffix a b -> str_suffix b c -> str_suffix a c.
Proof.
  intros [p ->] [q ->]. exists (q ++ p)%string. symmetry. apply str_append_assoc.
Qed.

Lemma str_suffix_length (s t : string) :
  str_suffix s t -> (String.length s <= String.length t)%nat.
Proof. intros [p ->]. rewrite str_length_append. lia. Qed.

Lemma str_suffix_cons (c : ascii) (s : string) : str_suffix s (String c s).
Proof. exists (String c EmptyString). reflexivity. Qed.

Lemma str_suffix_advance (s : string) : str_suffix (advance s) s.
Proof. destruct s; [apply str_suffix_refl|apply str_suffix_cons]. Qed.

Lemma str_suffix_skip_spaces (s : string) : str_suffix (skip_spaces s) s.
Proof.
  induction s as [|c s IH]; simpl; [apply str_suffix_refl|].
  destruct (isspace c); [|apply str_suffix_refl].
  apply (str_suffix_trans _ s); [exact IH|apply str_suffix_cons].
Qed.

Lemma str_suffix_strip_prefix (t s r : string) :
  strip_prefix t s = Some r -> s = (t ++ r)%string.
Proof.
  revert s. induction t as [|c t IH]; intros s H; simpl in H.
  - injection H as <-. reflexivity.
  - destruct s as [|d s]; [discriminate H|].
    destruct (ascii_eqb c d) eqn:Hc; [|discriminate H].
    apply Ascii.eqb_eq in Hc. subst d. rewrite str_app_cons. f_equal.
    apply IH. exact H.
Qed.

Lemma advance_length (s : string) :
  cur s <> NUL -> String.length s = S (String.length (advance s)).
Proof.
  destruct s as [|c s]; simpl; [intros H; exfalso; apply H; reflexivity|].
  reflexivity.
Qed.

(** [match_char] reads white space and, when it answers yes, one more
    character, which is the one asked for. *)
Lemma match_char_spec (st : state) (m : ascii) :
  m <> NUL ->
  match match_char st m with
  | (st', true) =>
      pos (skipws st) = String m (pos st')
      /\ st' = set_pos (pos st') st
  | (st', false) =>
      st' = skipws st /\ cur (skip_spaces (pos st)) <> m
  end.
Proof.
  intros Hm. unfold match_char.
  destruct (ascii_eqb (cur (pos (skipws st))) NUL) eqn:Hn.
  - split; [reflexivity|]. apply Ascii.eqb_eq in Hn. simpl in Hn. congruence.
  - destruct (ascii_eqb (cur (pos (skipws st))) m) eqn:He.
    + apply Ascii.eqb_eq in He. simpl in *.
      destruct (skip_spaces (pos st)) as [|c r] eqn:Hs.
      * simpl in Hn. discriminate Hn.
      * simpl in He. subst c. simpl. split; [reflexivity|].
        destruct st; reflexivity.
    + split; [reflexivity|]. apply Ascii.eqb_neq in He. exact He.
Qed.

Lemma match_char_moves (st st' : state) (m : ascii) (b : bool) :
  match_char st m = (st', b) ->
  st' = set_pos (pos st') st
  /\ str_suffix (pos st') (pos st)
  /\ (b = true -> (remaining st' < remaining st)%nat).
Proof.
  unfold match_char. intros H.
  pose proof (str_suffix_skip_spaces (pos st)) as Hsk.
  destruct (ascii_eqb (cur (pos (skipws st))) NUL) eqn:Hn.
  - injection H as <- <-. split; [destruct st; reflexivity|].
    split; [exact Hsk|discriminate].
  - destruct (ascii_eqb (cur (pos (skipws st))) m).
    + injection H as <- <-. split; [destruct st; reflexivity|]. simpl.
      split.
      * apply (str_suffix_trans _ (skip_spaces (pos st))); [|exact Hsk].
        apply str_suffix_advance.
      * intros _. unfold remaining. simpl.
        apply str_suffix_length in Hsk.
        apply Ascii.eqb_neq in Hn. simpl in Hn.
        rewrite (advance_length _ Hn) in Hsk. lia.
    + injection H as <- <-. split; [destruct st; reflexivity|].
      split; [exact Hsk|discriminate].
Qed.

(** ** What the parser does to its state *)

Lemma advances_refl (st : state) : advances st st.
Proof.
  split; [reflexivity|apply str_suffix_refl|left; reflexivity|reflexivity|auto|auto].
Qed.

Lemma advances_trans (a b c : state) :
  advances a b -> advances b c -> advances a c.
Proof.
  intros [T1 P1 E1 L1 (C1 & C2 & C3 & C4) F1]
         [T2 P2 E2 L2 (D1 & D2 & D3 & D4) F2].
  split.
  - congruence.
  - apply (str_suffix_trans _ (pos b)); assumption.
  - destruct E2 as [E2|E2]; [|right; exact E2].
    destruct E1 as [E1|E1]; [left; congruence|right; congruence].
  - etrans; eassumption.
  - repeat split; congruence.
  - auto.
Qed.

Lemma adv_pool (st st' : state) :
  advances st st' ->
  (length (value_pool st) <= length (value_pool st'))%nat.
Proof. intros H. apply prefix_length, (adv_prefix _ _ H). Qed.

Lemma advances_remaining (st st' : state) :
  advances st st' -> (remaining st' <= remaining st)%nat.
Proof. intros H. apply str_suffix_length, (adv_pos _ _ H). Qed.

Lemma advances_set_pos (p : string) (st : state) :
  str_suffix p (pos st) -> advances st (set_pos p st).
Proof.
  intros H. split; simpl; [reflexivity|exact H|left; reflexivity|reflexivity|auto|auto].
Qed.

Lemma advances_error (c : pathx_errcode) (st : state) :
  parse_error c = true -> advances st (STATE_ERROR c st).
Proof.
  intros H. split; simpl;
    [reflexivity|apply str_suffix_refl|right; exact H|reflexivity|auto|auto].
Qed.

Lemma advances_set_exprs (es : list expr) (st : state) :
  advances st (set_exprs es st).
Proof.
  split; simpl; [reflexivity|apply str_suffix_refl|left; reflexivity|reflexivity|auto|auto].
Qed.

Lemma moved_refl (st : state) : moved st st.
Proof. split; [apply advances_refl|reflexivity|reflexivity]. Qed.

Lemma moved_trans (a b c : state) : moved a b -> moved b c -> moved a c.
Proof.
  intros [A1 X1 V1] [A2 X2 V2]. split;
    [apply (advances_trans _ b); assumption|congruence|congruence].
Qed.

Lemma moved_set_pos (p : string) (st : state) :
  str_suffix p (pos st) -> moved st (set_pos p st).
Proof.
  intros H. split; [apply advances_set_pos, H|reflexivity|reflexivity].
Qed.

Lemma moved_error (c : pathx_errcode) (st : state) :
  parse_error c = true -> moved st (STATE_ERROR c st).
Proof.
  intros H. split; [apply advances_error, H|reflexivity|reflexivity].
Qed.

Lemma moved_remaining (st st' : state) :
  moved st st' -> (remaining st' <= remaining st)%nat.
Proof. intros H. apply advances_remaining, (moved_adv _ _ H). Qed.

Lemma moved_skipws (st : state) : moved st (skipws st).
Proof. apply moved_set_pos, str_suffix_skip_spaces. Qed.

Lemma match_char_moved (st st' : state) (m : ascii) (b : bool) :
  match_char st m = (st', b) ->
  moved st st' /\ (b = true -> (remaining st' < remaining st)%nat).
Proof.
  intros H. apply match_char_moves in H. destruct H as (E & S & R).
  split; [|exact R]. rewrite E. apply moved_set_pos. exact S.
Qed.

Lemma looking_at_moved (st st' : state) (token follow : string) (b : bool) :
  looking_at st token follow = (st', b) ->
  moved st st'
  /\ (b = true -> token <> EmptyString -> (remaining st' < remaining st)%nat).
Proof.
  unfold looking_at. intros H.
  destruct (strip_prefix token (pos st)) as [p|] eqn:Hp.
  - destruct (strip_prefix follow (skip_spaces p)) as [p'|] eqn:Hf.
    + injection H as <- <-.
      apply str_suffix_strip_prefix in Hp, Hf.
      pose proof (str_suffix_skip_spaces p) as [q Hq].
      assert (Hs : pos st = ((token ++ q ++ follow) ++ p')%string).
      { rewrite Hp, Hq, Hf, !str_append_assoc. reflexivity. }
      split.
      * apply moved_set_pos. eexists. exact Hs.
      * intros _ Ht. unfold remaining. simpl. rewrite Hs.
        rewrite !str_length_append.
        destruct token; [congruence|]. simpl. lia.
    + injection H as <- <-. split; [apply moved_refl|discriminate].
  - injection H as <- <-. split; [apply moved_refl|discriminate].
Qed.

(** ** Sizes and well-formedness *)

Lemma list_sum_In {A : Type} (f : A -> nat) (x : A) (l : list A) :
  In x l -> (f x <= list_sum (List.map f l))%nat.
Proof.
  induction l as [|y l IH]; simpl; [intros []|].
  intros [->|H]; [lia|]. apply IH in H. lia.
Qed.

Lemma list_sum_rev {A : Type} (f : A -> nat) (l : list A) :
  list_sum (List.map f (rev l)) = list_sum (List.map f l).
Proof.
  induction l as [|y l IH]; simpl; [reflexivity|].
  rewrite List.map_app, list_sum_app, IH. simpl. lia.
Qed.

Lemma forallb_rev {A : Type} (f : A -> bool) (l : list A) :
  forallb f (rev l) = forallb f l.
Proof.
  induction l as [|y l IH]; simpl; [reflexivity|].
  rewrite forallb_app, IH. simpl. rewrite andb_true_r. apply andb_comm.
Qed.

Lemma forallb_impl {A : Type} (f g : A -> bool) (l : list A) :
  (forall x, In x l -> f x = true -> g x = true) ->
  forallb f l = true -> forallb g l = true.
Proof.
  intros H. rewrite !forallb_forall. intros Hf x Hx. apply H; auto.
Qed.

Lemma expr_wf_app (n : nat) (ty : type) (f : func) (args : list expr) :
  expr_wf n (E_APP ty f args)
  = bool_decide (elem_of f builtin_funcs)
    && Nat.eqb (length args) (arity f)
    && forallb (expr_wf n) args.
Proof. reflexivity. Qed.

Lemma expr_size_app (ty : type) (f : func) (args : list expr) :
  expr_size (E_APP ty f args) = S (list_sum (List.map expr_size args)).
Proof. reflexivity. Qed.

Lemma expr_size_pos (e : expr) : (0 < expr_size e)%nat.
Proof. destruct e; simpl; lia. Qed.

Lemma expr_wf_mono_size (n m : nat) :
  (n <= m)%nat ->
  forall (k : nat) (e : expr),
    (expr_size e <= k)%nat -> expr_wf n e = true -> expr_wf m e = true.
Proof.
  intros Hnm. induction k as [|k IH]; intros e Hk.
  - destruct e; simpl in Hk; lia.
  - destruct e as [ty lp|ty op l r|ty vind|ty f args]; simpl in *.
    + destruct lp as [ss|]; [|congruence].
      apply forallb_impl. intros [a nm ps] Hin. simpl.
      destruct ps as [es|]; [|reflexivity].
      apply forallb_impl. intros e He. apply IH.
      pose proof (list_sum_In step_size _ _ Hin) as H1. simpl in H1.
      pose proof (list_sum_In expr_size _ _ He) as H2. lia.
    + rewrite !andb_true_iff. intros [Hl Hr].
      split; (eapply IH; [|eassumption]); lia.
    + rewrite !andb_true_iff, !Z.leb_le, !Z.ltb_lt. lia.
    + rewrite !andb_true_iff. intros [Hf Ha]. split; [exact Hf|].
      revert Ha. apply forallb_impl. intros e He. apply IH.
      pose proof (list_sum_In expr_size _ _ He) as H2. lia.
Qed.

Lemma expr_wf_mono (n m : nat) (e : expr) :
  (n <= m)%nat -> expr_wf n e = true -> expr_wf m e = true.
Proof. intros H. apply (expr_wf_mono_size n m H (expr_size e)). lia. Qed.

Lemma exprs_wf_mono (n m : nat) (es : list expr) :
  (n <= m)%nat ->
  forallb (expr_wf n) es = true -> forallb (expr_wf m) es = true.
Proof. intros H. apply forallb_impl. intros e _. apply expr_wf_mono, H. Qed.

Lemma step_wf_mono (n m : nat) (s : step) :
  (n <= m)%nat -> step_wf n s = true -> step_wf m s = true.
Proof.
  intros H. destruct s as [a nm [es|]]; simpl; [|reflexivity].
  apply exprs_wf_mono, H.
Qed.

Lemma steps_wf_mono (n m : nat) (ss : list step) :
  (n <= m)%nat ->
  forallb (step_wf n) ss = true -> forallb (step_wf m) ss = true.
Proof. intros H. apply forallb_impl. intros e _. apply step_wf_mono, H. Qed.

Lemma pushed_moved (st st' : state) : moved st st' -> pushed st st' [].
Proof.
  intros H. split; simpl.
  - apply (moved_exprs _ _ H).
  - reflexivity.
  - apply (moved_remaining _ _ H).
Qed.

Lemma pushed_trans (a b c : state) (es1 es2 : list expr) :
  pushed a b es1 -> advances b c -> pushed b c es2 ->
  pushed a c (es2 ++ es1).
Proof.
  intros [X1 W1 S1] A [X2 W2 S2]. split.
  - rewrite X2, X1. apply app_assoc.
  - rewrite forallb_app, W2. simpl.
    revert W1. apply exprs_wf_mono, (adv_pool _ _ A).
  - rewrite List.map_app, list_sum_app. lia.
Qed.

Lemma pop_exprs_app (es : list expr) :
  forall (st : state) (base acc : list expr),
    exprs st = (es ++ base)%list ->
    pop_exprs (length es) st acc = Ok (set_exprs base st, (rev es ++ acc)%list).
Proof.
  induction es as [|e es IH]; intros st base acc H; simpl.
  - simpl in H. rewrite <- H. destruct st; reflexivity.
  - unfold pop_expr. rewrite H. simpl.
    rewrite (IH _ base (e :: acc)); [|reflexivity].
    simpl. rewrite <- app_assoc. reflexivity.
Qed.

(** ** The functions that read one token *)

Lemma name_scan_suffix (n : nat) :
  forall s : string,
    (String.length s <= n)%nat -> str_suffix (fst (name_scan s)) s.
Proof.
  induction n as [|n IH]; intros s Hn.
  - destruct s; [apply str_suffix_refl|simpl in Hn; lia].
  - destruct s as [|c r]; [apply str_suffix_refl|]. simpl in Hn. simpl.
    destruct (name_stop c); [apply str_suffix_refl|].
    destruct (ascii_eqb c "\"%char).
    + destruct r as [|c2 r2]; [apply str_suffix_cons|].
      destruct (ascii_eqb c2 NUL); [apply str_suffix_cons|].
      simpl in Hn.
      apply (str_suffix_trans _ r2); [apply IH; lia|].
      apply (str_suffix_trans _ (String c2 r2)); apply str_suffix_cons.
    + apply (str_suffix_trans _ r); [apply IH; lia|apply str_suffix_cons].
Qed.

Lemma parse_name_moved (st st' : state) (r : option string) :
  parse_name st = (st', r) ->
  moved st st'
  /\ (HAS_ERROR st' = false -> (remaining st' < remaining st)%nat).
Proof.
  unfold parse_name. intros H.
  pose proof (name_scan_suffix _ (pos st) (le_n _)) as Hs.
  destruct (name_scan (pos st)) as [e bad]. simpl in Hs.
  assert (Hm : moved st (set_pos e st)) by (apply moved_set_pos, Hs).
  assert (He : moved st (STATE_ERROR PATHX_ENAME (set_pos e st))).
  { apply (moved_trans _ (set_pos e st)); [exact Hm|].
    apply moved_error. reflexivity. }
  destruct bad.
  - injection H as <- <-. split; [exact He|]. intros Hc. discriminate Hc.
  - destruct (Nat.eqb (String.length e) (String.length (pos st))) eqn:Hl.
    + injection H as <- <-. split; [exact He|]. intros Hc. discriminate Hc.
    + injection H as <- <-. split; [exact Hm|]. intros _.
      apply Nat.eqb_neq in Hl. apply str_suffix_length in Hs.
      unfold remaining. simpl. lia.
Qed.

Lemma digits_value_suffix (s : string) :
  forall acc : Z, str_suffix (snd (digits_value acc s)) s.
Proof.
  induction s as [|c r IH]; intros acc; simpl; [apply str_suffix_refl|].
  destruct (isdigit c); [|apply str_suffix_refl].
  apply (str_suffix_trans _ r); [apply IH|apply str_suffix_cons].
Qed.

Lemma strtoul_suffix (s e : string) (v : Z) (err : bool) :
  strtoul s = (v, e, err) -> str_suffix e s.
Proof.
  unfold strtoul. intros H.
  set (s1 := skip_spaces s) in *.
  assert (H1 : str_suffix s1 s) by apply str_suffix_skip_spaces.
  assert (H2 : str_suffix (advance s1) s).
  { apply (str_suffix_trans _ s1); [apply str_suffix_advance|exact H1]. }
  destruct (if ascii_eqb (cur s1) "-"%char then (true, advance s1)
            else if ascii_eqb (cur s1) "+"%char then (false, advance s1)
            else (false, s1)) as [neg s2] eqn:Hsign.
  assert (H3 : str_suffix s2 s).
  { destruct (ascii_eqb (cur s1) "-"%char); [injection Hsign as <- <-; exact H2|].
    destruct (ascii_eqb (cur s1) "+"%char); injection Hsign as <- <-;
      assumption. }
  destruct (isdigit (cur s2)).
  - pose proof (digits_value_suffix s2 0) as Hd.
    destruct (digits_value 0 s2) as [v0 e0]. simpl in Hd.
    assert (He : str_suffix e0 s) by (apply (str_suffix_trans _ s2); assumption).
    destruct (v0 >? ULONG_MAX); injection H as <- <- <-; exact He.
  - injection H as <- <- <-. apply str_suffix_refl.
Qed.

Lemma make_value_total (tag : type) (st : state) :
  tag <> T_BOOLEAN ->
  exists (st1 : state) (vind : Z), make_value tag st = Ok (st1, vind).
Proof.
  intros Ht. unfold make_value.
  destruct tag; try congruence;
    (destruct (value_pool_used st >=? value_pool_size st);
     [destruct (uint_wrap (2 * value_pool_size st) <=? value_pool_size st)|];
     eexists; eexists; reflexivity).
Qed.

(** [make_value] keeps the values in use within the allocated pool: it
    takes the next slot when there is one, and doubles the pool first when
    there is none; a doubling that wraps around is refused. *)
Lemma make_value_fits (tag : type) (st st1 : state) (vind : Z) :
  make_value tag st = Ok (st1, vind) -> pool_fits st -> pool_fits st1.
Proof.
  unfold make_value, pool_fits, value_pool_used. intros H F.
  destruct tag; try discriminate H;
    (destruct (Z.of_nat (length (value_pool st)) >=? value_pool_size st)
       eqn:Hu;
     [destruct (uint_wrap (2 * value_pool_size st) <=? value_pool_size st)
        eqn:Hw|];
     injection H as <- _; simpl; rewrite ?length_app; simpl; lia).
Qed.

(** A value made by the parser and the expression that refers to it. *)
Lemma push_made_value (tag : type) (v : value) (p : string) (st : state) :
  tag <> T_BOOLEAN ->
  str_suffix p (pos st) ->
  (String.length p < String.length (pos st))%nat ->
  exists st' : state,
    (do '(st2, vind) <- make_value tag (set_pos p st);
     if HAS_ERROR st2 then Ok st2
     else Ok (push_expr (E_VALUE T_NONE vind) (store_value vind v st2)))
    = Ok st'
    /\ parses st st'.
Proof.
  intros Ht Hs Hl.
  destruct (make_value_total tag (set_pos p st) Ht) as (st2 & vind & Hm).
  rewrite Hm. cbn [obind].
  assert (Hadv : advances st (set_pos p st)) by (apply advances_set_pos, Hs).
  pose proof (make_value_fits _ _ _ _ Hm) as Hfit.
  apply make_value_cases in Hm.
  destruct Hm as [(-> & _)|(sz & -> & -> & _)].
  - eexists. split; [reflexivity|]. split.
    + apply (advances_trans _ (set_pos p st)); [exact Hadv|].
      apply advances_error. reflexivity.
    + intros Hc. discriminate Hc.
  - match goal with |- context [HAS_ERROR ?s] => destruct (HAS_ERROR s) eqn:He end.
    + eexists. split; [reflexivity|]. split.
      * split; simpl; [reflexivity|exact Hs|left; reflexivity| |auto|exact Hfit].
        apply prefix_app_r. reflexivity.
      * intros Hc. congruence.
    + eexists. split; [reflexivity|]. split.
      * split; simpl; [reflexivity|exact Hs|left; reflexivity| |auto|].
        -- unfold value_pool_used. rewrite Nat2Z.id, insert_last_slot.
           apply prefix_app_r. reflexivity.
        -- intros F. apply Hfit in F. revert F.
           unfold pool_fits, store_value, value_pool_used. simpl.
           rewrite length_insert. auto.
      * intros _. eexists. split; simpl.
        -- reflexivity.
        -- rewrite length_insert, length_app. simpl.
           unfold value_pool_used. simpl.
           rewrite andb_true_r, andb_true_iff, Z.leb_le, Z.ltb_lt. lia.
        -- unfold remaining. simpl. lia.
Qed.

Lemma parse_number_parses (st : state) :
  exists st' : state, parse_number st = Ok st' /\ parses st st'.
Proof.
  unfold parse_number.
  destruct (strtoul (pos st)) as [[val e] err] eqn:Hst.
  apply strtoul_suffix in Hst.
  destruct (err || Nat.eqb (String.length e) (String.length (pos st))
            || negb (ulong_wrap (int_wrap val) =? val)) eqn:Hc.
  - eexists. split; [reflexivity|]. split.
    + apply advances_error. reflexivity.
    + intros H. discriminate H.
  - apply orb_false_iff in Hc. destruct Hc as [Hc _].
    apply orb_false_iff in Hc. destruct Hc as [_ Hc].
    apply Nat.eqb_neq in Hc.
    apply push_made_value; [discriminate|exact Hst|].
    apply str_suffix_length in Hst. lia.
Qed.

Lemma literal_scan_suffix (d : ascii) (s : string) :
  str_suffix (literal_scan d s) s.
Proof.
  induction s as [|c r IH]; simpl; [apply str_suffix_refl|].
  destruct (ascii_eqb c NUL || ascii_eqb c d); [apply str_suffix_refl|].
  apply (str_suffix_trans _ r); [exact IH|apply str_suffix_cons].
Qed.

Lemma parse_literal_parses (st : state) :
  exists st' : state, parse_literal st = Ok st' /\ parses st st'.
Proof.
  unfold parse_literal.
  destruct (ascii_eqb (cur (pos st)) DQUOTE || ascii_eqb (cur (pos st)) "'"%char)
    eqn:Hq.
  - set (c := cur (pos st)) in *.
    set (e := literal_scan c (advance (pos st))).
    assert (He : str_suffix e (pos st)).
    { apply (str_suffix_trans _ (advance (pos st)));
        [apply literal_scan_suffix|apply str_suffix_advance]. }
    destruct (negb (ascii_eqb (cur e) c)) eqn:Hd.
    + eexists. split; [reflexivity|]. split.
      * apply (advances_trans _ (set_pos e st));
          [apply advances_set_pos, He|apply advances_error; reflexivity].
      * intros H. discriminate H.
    + apply push_made_value; [discriminate| |].
      * apply (str_suffix_trans _ e); [apply str_suffix_advance|exact He].
      * pose proof (str_suffix_length _ _ (str_suffix_advance e)) as H1.
        pose proof (str_suffix_length _ _ (literal_scan_suffix c (advance (pos st))))
          as H2.
        fold e in H2.
        assert (Hn : cur (pos st) <> NUL).
        { intros Hn. fold c in Hn. rewrite Hn in Hq. discriminate Hq. }
        rewrite (advance_length _ Hn). lia.
  - eexists. split; [reflexivity|]. split.
    + apply advances_error. reflexivity.
    + intros H. discriminate H.
Qed.

Lemma parse_axis_moved (names : list (axis * string)) :
  forall (st st' : state) (a : axis),
    parse_axis names st = (st', a) -> moved st st'.
Proof.
  induction names as [|[a0 nm] rest IH]; intros st st' a H; simpl in H.
  - injection H as <- <-. apply moved_refl.
  - destruct (looking_at st nm "::") as [st1 m] eqn:Hl.
    apply looking_at_moved in Hl. destruct Hl as [Hl _].
    destruct m.
    + injection H as <- <-. exact Hl.
    + apply (moved_trans _ st1); [exact Hl|]. eapply IH, H.
Qed.

Lemma find_func_moved (fs : list func) :
  Forall (fun f => fname f <> EmptyString) fs ->
  forall (st st' : state) (found r : option func),
    find_func fs st found = (st', r) ->
    moved st st'
    /\ (r = found
        \/ exists f : func,
             r = Some f /\ In f fs /\ (remaining st' < remaining st)%nat).
Proof.
  induction 1 as [|f fs Hf _ IH]; intros st st' found r H; simpl in H.
  - injection H as <- <-. split; [apply moved_refl|]. left. reflexivity.
  - destruct (looking_at st (fname f) "(") as [st1 m] eqn:Hl.
    apply looking_at_moved in Hl. destruct Hl as [Hl Hlt].
    apply IH in H. destruct H as (Hm & Hr).
    pose proof (moved_remaining _ _ Hm) as Hle.
    pose proof (moved_remaining _ _ Hl) as Hle1.
    split; [apply (moved_trans _ st1); assumption|].
    destruct Hr as [->|(g & -> & Hg & Hlt2)].
    + destruct m; [|left; reflexivity].
      right. exists f. split; [reflexivity|]. split; [left; reflexivity|].
      specialize (Hlt eq_refl Hf). lia.
    + right. exists g. split; [reflexivity|]. split; [right; exact Hg|lia].
Qed.

Lemma builtin_funcs_named :
  Forall (fun f => fname f <> EmptyString) builtin_funcs.
Proof. repeat constructor; discriminate. Qed.

Lemma builtin_funcs_typed (f : func) :
  In f builtin_funcs -> (arity f <= length (arg_types f))%nat.
Proof. simpl. intros [<-|[<-|[]]]; simpl; lia. Qed.

Lemma pushed_moved_l (a b c : state) (es : list expr) :
  moved a b -> pushed b c es -> pushed a c es.
Proof.
  intros M [X W S]. pose proof (moved_remaining _ _ M).
  split; [rewrite X, (moved_exprs _ _ M); reflexivity|exact W|lia].
Qed.

Lemma pushed_moved_r (a b c : state) (es : list expr) :
  pushed a b es -> moved b c -> pushed a c es.
Proof.
  intros [X W S] M. pose proof (moved_remaining _ _ M).
  split; [rewrite (moved_exprs _ _ M); exact X| |lia].
  rewrite (moved_pool _ _ M). exact W.
Qed.

Lemma has_error_set (c : pathx_errcode) (st : state) :
  c <> PATHX_NOERROR -> HAS_ERROR (STATE_ERROR c st) = true.
Proof.
  intros H. unfold HAS_ERROR, STATE_ERROR. simpl.
  rewrite bool_decide_eq_false_2; [reflexivity|exact H].
Qed.

Lemma cur_advance_length (s : string) (c : ascii) :
  ascii_eqb (cur s) c = true -> c <> NUL ->
  String.length s = S (String.length (advance s)).
Proof.
  intros H Hc. apply advance_length. apply Ascii.eqb_eq in H. congruence.
Qed.

Lemma advances_push_expr (e : expr) (st : state) :
  advances st (push_expr e st).
Proof. apply advances_set_exprs. Qed.

Lemma push_locpath_pushed (st st2 : state) (ss : list step) :
  exprs st2 = exprs st ->
  forallb (step_wf (length (value_pool st2))) ss = true ->
  (list_sum (List.map step_size ss) + remaining st2 < remaining st)%nat ->
  pushed st (push_expr (E_LOCPATH T_NONE (Some ss)) st2)
         [E_LOCPATH T_NONE (Some ss)].
Proof.
  intros X W S. split; simpl.
  - rewrite X. reflexivity.
  - rewrite W. reflexivity.
  - unfold remaining in *. simpl. lia.
Qed.

Lemma parses_moved_l (a b c : state) :
  moved a b -> parses b c -> parses a c.
Proof.
  intros M [A P]. split.
  - apply (advances_trans _ b); [apply (moved_adv _ _ M)|exact A].
  - intros Hc. destruct (P Hc) as (e & Pe). exists e.
    apply (pushed_moved_l _ b); assumption.
Qed.

Lemma parses_error (c : pathx_errcode) (st st1 : state) :
  parse_error c = true -> advances st st1 ->
  parses st (STATE_ERROR c st1).
Proof.
  intros Hc A. split.
  - apply (advances_trans _ st1); [exact A|apply advances_error, Hc].
  - intros H. rewrite has_error_set in H; [discriminate H|].
    destruct c; discriminate.
Qed.

(** The operands [l] and [r] of a binary operator are on the stack when
    the operator is made: [l] was there at [st], the operator was read
    from [st] to [st1], and [r] from [st1] to [st2]. *)
Lemma push_binary_pushed (op : binary_op) (st0 st st1 st2 : state)
    (l r : expr) :
  pushed st0 st [l] -> moved st st1 ->
  (remaining st1 < remaining st)%nat ->
  advances st1 st2 -> pushed st1 st2 [r] ->
  exists st3 : state,
    push_new_binary_op op st2 = Ok st3
    /\ advances st2 st3
    /\ remaining st3 = remaining st2
    /\ pushed st0 st3 [E_BINARY T_NONE op l r].
Proof.
  intros [X W S] M R A [X2 W2 S2].
  unfold push_new_binary_op, pop_expr. rewrite X2. simpl.
  rewrite (moved_exprs _ _ M), X. simpl.
  eexists. split; [reflexivity|].
  split; [split; simpl;
          [reflexivity|apply str_suffix_refl|left; reflexivity|reflexivity|auto|auto]|].
  split; [reflexivity|].
  split; simpl.
  - reflexivity.
  - simpl in W, W2. rewrite andb_true_r in *. rewrite W2, andb_true_r.
    revert W. apply expr_wf_mono.
    rewrite <- (moved_pool _ _ M). apply (adv_pool _ _ A).
  - simpl in S, S2. unfold remaining in *. simpl. lia.
Qed.

(** ** The parser reads every text to an end *)

Section ParseTotal.
Variable bound : nat.
Variable rec : state -> outcome state.
Hypothesis rec_parses :
  forall st : state,
    (remaining st < bound)%nat ->
    exists st' : state, rec st = Ok st' /\ parses st st'.

Lemma parse_predicates_loop_spec (n : nat) :
  forall (st : state) (nexpr : nat),
    (remaining st <= n)%nat -> (n <= bound)%nat ->
    exists (st' : state) (r : option nat),
      parse_predicates_loop rec n st nexpr = Ok (st', r)
      /\ advances st st'
      /\ match r with
         | None => HAS_ERROR st' = true
         | Some k =>
             exists es : list expr,
               k = (nexpr + length es)%nat /\ pushed st st' es
         end.
Proof.
  induction n as [|n IH]; intros st nexpr Hr Hb;
    cbn [parse_predicates_loop];
    destruct (match_char st L_BRACK) as [st1 m] eqn:Hm;
    apply match_char_moved in Hm; destruct Hm as [Hm Hlt];
    (destruct m;
     [specialize (Hlt eq_refl)|
      exists st1, (Some nexpr); split; [reflexivity|];
      split; [apply (moved_adv _ _ Hm)|];
      exists []; simpl; rewrite Nat.add_0_r;
      split; [reflexivity|apply pushed_moved, Hm]]).
  - lia.
  - destruct (rec_parses st1) as (st2 & -> & A2 & P2); [lia|].
    cbn [obind].
    assert (A02 : advances st st2).
    { apply (advances_trans _ st1); [apply (moved_adv _ _ Hm)|exact A2]. }
    destruct (HAS_ERROR st2) eqn:He2.
    { exists st2, None. split; [reflexivity|]. split; [exact A02|exact He2]. }
    destruct (P2 eq_refl) as (e & Pe).
    destruct (match_char st2 R_BRACK) as [st3 m2] eqn:Hm3.
    apply match_char_moved in Hm3. destruct Hm3 as [Hm3 _].
    assert (A03 : advances st st3).
    { apply (advances_trans _ st2); [exact A02|apply (moved_adv _ _ Hm3)]. }
    destruct m2; cbn [negb].
    + pose proof (moved_skipws st3) as Hsk.
      assert (P04 : pushed st (skipws st3) [e]).
      { apply (pushed_moved_r _ st3); [|exact Hsk].
        apply (pushed_moved_r _ st2); [|exact Hm3].
        apply (pushed_moved_l _ st1); assumption. }
      pose proof (pushed_size _ _ _ P04) as Hsz.
      pose proof (expr_size_pos e) as Hpos. simpl in Hsz.
      destruct (IH (skipws st3) (S nexpr)) as (st' & r & -> & A' & P');
        [lia|lia|].
      exists st', r. split; [reflexivity|].
      assert (A04 : advances st (skipws st3)).
      { apply (advances_trans _ st3); [exact A03|apply (moved_adv _ _ Hsk)]. }
      split; [apply (advances_trans _ (skipws st3)); assumption|].
      destruct r as [k|]; [|exact P'].
      destruct P' as (es & -> & Pes).
      exists (es ++ [e])%list. split.
      * rewrite length_app. simpl. lia.
      * apply (pushed_trans _ (skipws st3)); assumption.
    + exists (STATE_ERROR PATHX_EPRED st3), None. split; [reflexivity|].
      split; [|reflexivity].
      apply (advances_trans _ st3); [exact A03|].
      apply advances_error. reflexivity.
Qed.

Lemma parse_predicates_spec (st : state) :
  (remaining st <= bound)%nat ->
  exists (st' : state) (r : option (list expr)),
    parse_predicates bound rec st = Ok (st', r)
    /\ advances st st'
    /\ (HAS_ERROR st' = false ->
        exprs st' = exprs st
        /\ step_wf (length (value_pool st')) (mk_step CHILD None r) = true
        /\ (step_size (mk_step CHILD None r) + remaining st'
            <= remaining st)%nat).
Proof.
  intros Hr. unfold parse_predicates.
  destruct (parse_predicates_loop_spec bound st 0 Hr (le_n _))
    as (st1 & r & -> & A1 & P1).
  cbn [obind].
  pose proof (advances_remaining _ _ A1) as Hle.
  destruct r as [k|].
  - destruct P1 as (es & -> & Pes). simpl.
    destruct es as [|e es].
    + exists st1, None. split; [reflexivity|]. split; [exact A1|].
      intros _. simpl. split; [apply (pushed_exprs _ _ _ Pes)|].
      split; [reflexivity|lia].
    + destruct Pes as [X W S].
      change (Datatypes.S (length es)) with (length (e :: es)).
      rewrite (pop_exprs_app (e :: es) st1 (exprs st) []); [|exact X].
      cbn [obind]. eexists. eexists. split; [reflexivity|].
      split.
      * apply (advances_trans _ st1); [exact A1|apply advances_set_exprs].
      * intros _. split; [reflexivity|].
        rewrite app_nil_r. cbn [step_wf step_size].
        change (value_pool (set_exprs (exprs st) st1)) with (value_pool st1).
        rewrite forallb_rev, list_sum_rev.
        split; [exact W|exact S].
  - exists st1, None. split; [reflexivity|]. split; [exact A1|].
    intros Hc. congruence.
Qed.
Lemma parse_step_spec (st : state) :
  (remaining st <= bound)%nat ->
  exists (st' : state) (r : option step),
    parse_step bound rec st = Ok (st', r)
    /\ advances st st'
    /\ match r with
       | None => HAS_ERROR st' = true
       | Some s =>
           exprs st' = exprs st
           /\ step_wf (length (value_pool st')) s = true
           /\ (step_size s + remaining st' < remaining st)%nat
       end.
Proof.
  intros Hr. unfold parse_step.
  destruct (ascii_eqb (cur (pos st)) "."%char) eqn:Hd1;
    [destruct (ascii_eqb (cur (advance (pos st))) "."%char) eqn:Hd2|];
    cbn [andb].
  - eexists. eexists. split; [reflexivity|].
    assert (Hs : str_suffix (advance (advance (pos st))) (pos st)).
    { apply (str_suffix_trans _ (advance (pos st))); apply str_suffix_advance. }
    split; [apply advances_set_pos, Hs|].
    split; [reflexivity|]. split; [reflexivity|].
    unfold remaining. simpl.
    rewrite (cur_advance_length _ _ Hd1), (cur_advance_length _ _ Hd2);
      [lia|discriminate|discriminate].
  - destruct (match_char st "."%char) as [st1 m] eqn:Hm.
    pose proof (match_char_spec st "."%char) as Hsp. rewrite Hm in Hsp.
    apply match_char_moved in Hm. destruct Hm as [Hm Hlt].
    destruct m.
    + exists st1, (Some (mk_step SELF None None)). split; [reflexivity|].
      split; [apply (moved_adv _ _ Hm)|].
      split; [apply (moved_exprs _ _ Hm)|]. split; [reflexivity|].
      specialize (Hlt eq_refl). simpl. lia.
    + exfalso. destruct Hsp as [_ Hsp]; [discriminate|].
      apply Ascii.eqb_eq in Hd1.
      destruct (pos st) as [|c r]; simpl in Hd1; [discriminate Hd1|].
      subst c. apply Hsp. reflexivity.
  - destruct (match_char st "."%char) as [st1 m] eqn:Hm.
    pose proof (match_char_spec st "."%char) as Hsp. rewrite Hm in Hsp.
    apply match_char_moved in Hm. destruct Hm as [Hm Hlt].
    destruct m.
    + exists st1, (Some (mk_step SELF None None)). split; [reflexivity|].
      split; [apply (moved_adv _ _ Hm)|].
      split; [apply (moved_exprs _ _ Hm)|]. split; [reflexivity|].
      specialize (Hlt eq_refl). simpl. lia.
    + clear Hsp Hlt.
      destruct (parse_axis axis_names st1) as [st2 a] eqn:Ha.
      apply parse_axis_moved in Ha.
      assert (M2 : moved st st2) by (apply (moved_trans _ st1); assumption).
      destruct (match_char st2 "*"%char) as [st3 star] eqn:Hs.
      apply match_char_moved in Hs. destruct Hs as [Hs Hlt].
      assert (M3 : moved st st3) by (apply (moved_trans _ st2); assumption).
      pose proof (moved_remaining _ _ M2) as R2.
      pose proof (moved_remaining _ _ Hs) as R3.
      assert (Hrest :
        forall (st4 : state) (name : option string),
          moved st st4 -> (remaining st4 < remaining st)%nat ->
          exists (st' : state) (r : option step),
            (do '(st5, preds) <- parse_predicates bound rec st4;
             if HAS_ERROR st5 then Ok (st5, None)
             else Ok (st5, Some (mk_step a name preds))) = Ok (st', r)
            /\ advances st st'
            /\ match r with
               | None => HAS_ERROR st' = true
               | Some s =>
                   exprs st' = exprs st
                   /\ step_wf (length (value_pool st')) s = true
                   /\ (step_size s + remaining st' < remaining st)%nat
               end).
      { intros st4 name M4 R4.
        destruct (parse_predicates_spec st4) as (st5 & preds & -> & A5 & P5);
          [lia|].
        cbn [obind].
        assert (A05 : advances st st5).
        { apply (advances_trans _ st4); [apply (moved_adv _ _ M4)|exact A5]. }
        destruct (HAS_ERROR st5) eqn:He.
        - exists st5, None. split; [reflexivity|]. split; [exact A05|exact He].
        - destruct (P5 eq_refl) as (X & W & S).
          eexists. eexists. split; [reflexivity|]. split; [exact A05|].
          split; [rewrite X; apply (moved_exprs _ _ M4)|].
          split; [exact W|]. simpl in *. lia. }
      destruct star.
      * cbn [negb andb]. apply Hrest; [exact M3|].
        specialize (Hlt eq_refl). lia.
      * destruct (parse_name st3) as [st4 name] eqn:Hn.
        apply parse_name_moved in Hn. destruct Hn as [Hn Hlt4].
        cbn [negb andb].
        destruct (HAS_ERROR st4) eqn:He4.
        -- exists st4, None. split; [reflexivity|].
           split; [|exact He4].
           apply moved_adv. apply (moved_trans _ st3); assumption.
        -- apply Hrest; [apply (moved_trans _ st3); assumption|].
           specialize (Hlt4 eq_refl). lia.
Qed.

Lemma parse_relative_loop_spec (n : nat) :
  forall (st : state) (steps : list step),
    (remaining st <= n)%nat -> (n <= bound)%nat ->
    exists (st' : state) (r : option (list step)),
      parse_relative_loop bound rec n st steps = Ok (st', r)
      /\ advances st st'
      /\ match r with
         | None => HAS_ERROR st' = true
         | Some ss =>
             exprs st' = exprs st
             /\ (forallb (step_wf (length (value_pool st))) steps = true ->
                 forallb (step_wf (length (value_pool st'))) ss = true)
             /\ (list_sum (List.map step_size ss) + remaining st'
                 <= list_sum (List.map step_size steps) + remaining st)%nat
         end.
Proof.
  induction n as [|n IH]; intros st steps Hr Hb;
    cbn [parse_relative_loop];
    destruct (match_char st SEP) as [st1 m] eqn:Hm;
    apply match_char_moved in Hm; destruct Hm as [Hm Hlt];
    (destruct m;
     [specialize (Hlt eq_refl)|
      exists st1, (Some steps); split; [reflexivity|];
      split; [apply (moved_adv _ _ Hm)|];
      split; [apply (moved_exprs _ _ Hm)|];
      split; [rewrite (moved_pool _ _ Hm); tauto|];
      pose proof (moved_remaining _ _ Hm); lia]).
  - lia.
  - set (p := if ascii_eqb (cur (pos st1)) SEP
              then (set_pos (advance (pos st1)) st1,
                    (steps ++ [make_step DESCENDANT_OR_SELF])%list)
              else (st1, steps)).
    assert (Hp : moved st1 (fst p)
                 /\ list_sum (List.map step_size (snd p))
                    = list_sum (List.map step_size steps)
                 /\ (forallb (step_wf (length (value_pool st))) steps = true ->
                     forallb (step_wf (length (value_pool st))) (snd p) = true)).
    { unfold p. destruct (ascii_eqb (cur (pos st1)) SEP); simpl.
      - split; [apply moved_set_pos, str_suffix_advance|].
        split.
        + rewrite List.map_app, list_sum_app. simpl. lia.
        + intros W. rewrite forallb_app, W. reflexivity.
      - split; [apply moved_refl|]. split; [reflexivity|tauto]. }
    destruct p as [st2 steps1]. simpl in Hp. destruct Hp as (M2 & Sz & Wf).
    assert (M02 : moved st st2) by (apply (moved_trans _ st1); assumption).
    pose proof (moved_remaining _ _ M2) as R2.
    destruct (parse_step_spec st2) as (st3 & s & -> & A3 & P3); [lia|].
    cbn [obind].
    assert (A03 : advances st st3).
    { apply (advances_trans _ st2); [apply (moved_adv _ _ M02)|exact A3]. }
    destruct (HAS_ERROR st3) eqn:He.
    { exists st3, None. split; [reflexivity|]. split; [exact A03|exact He]. }
    destruct s as [s'|]; [|congruence].
    destruct P3 as (X3 & W3 & S3).
    destruct (IH st3 (steps1 ++ [s'])%list) as (st' & r & -> & A' & P');
      [lia|lia|].
    exists st', r. split; [reflexivity|].
    split; [apply (advances_trans _ st3); assumption|].
    destruct r as [ss|]; [|exact P'].
    destruct P' as (X & W & S).
    split; [rewrite X, X3; apply (moved_exprs _ _ M02)|].
    split.
    + intros Hw. apply W. rewrite forallb_app. simpl. rewrite W3.
      rewrite andb_true_r. apply Wf in Hw. revert Hw.
      apply steps_wf_mono. apply (adv_pool _ _ A03).
    + rewrite List.map_app, list_sum_app in S. simpl in S. lia.
Qed.

Lemma parse_relative_location_path_spec (st : state) :
  (remaining st <= bound)%nat ->
  exists (st' : state) (r : option (list step)),
    parse_relative_location_path bound rec st = Ok (st', r)
    /\ advances st st'
    /\ match r with
       | None => HAS_ERROR st' = true
       | Some ss =>
           exprs st' = exprs st
           /\ forallb (step_wf (length (value_pool st'))) ss = true
           /\ (list_sum (List.map step_size ss) + remaining st'
               < remaining st)%nat
       end.
Proof.
  intros Hr. unfold parse_relative_location_path.
  destruct (parse_step_spec st Hr) as (st1 & s & -> & A1 & P1).
  cbn [obind].
  destruct (HAS_ERROR st1) eqn:He.
  { exists st1, None. split; [reflexivity|]. split; [exact A1|exact He]. }
  destruct s as [s'|]; [|congruence].
  destruct P1 as (X1 & W1 & S1).
  destruct (parse_relative_loop_spec bound st1 [s']) as (st' & r & -> & A' & P');
    [lia|lia|].
  exists st', r. split; [reflexivity|].
  split; [apply (advances_trans _ st1); assumption|].
  destruct r as [ss|]; [|exact P'].
  destruct P' as (X & W & S).
  split; [congruence|].
  split; [apply W; simpl; rewrite W1; reflexivity|].
  simpl in S. lia.
Qed.

Lemma parse_location_path_spec (st : state) :
  (remaining st <= bound)%nat ->
  exists st' : state,
    parse_location_path bound rec st = Ok st' /\ parses st st'.
Proof.
  intros Hr. unfold parse_location_path.
  destruct (match_char st SEP) as [st1 m] eqn:Hm.
  apply match_char_moved in Hm. destruct Hm as [Hm Hlt].
  pose proof (moved_remaining _ _ Hm) as R1.
  assert (Habs :
    forall (a : axis) (st1' st2 : state) (lp : option (list step)),
      moved st st1' -> (remaining st1' < remaining st)%nat ->
      advances st1' st2 ->
      match lp with
      | None => HAS_ERROR st2 = true
      | Some ss =>
          exprs st2 = exprs st1'
          /\ forallb (step_wf (length (value_pool st2))) ss = true
          /\ (list_sum (List.map step_size ss) + remaining st2
              <= remaining st1')%nat
      end ->
      exists st' : state,
        (if HAS_ERROR st2 then Ok st2
         else
           do steps <- cons_step (make_step a) lp;
           Ok (push_expr (E_LOCPATH T_NONE (Some steps)) st2)) = Ok st'
        /\ parses st st').
  { intros a st1' st2 lp M1 R A2 P2.
    assert (A02 : advances st st2).
    { apply (advances_trans _ st1'); [apply (moved_adv _ _ M1)|exact A2]. }
    destruct (HAS_ERROR st2) eqn:He.
    - exists st2. split; [reflexivity|]. split; [exact A02|].
      intros Hc. congruence.
    - destruct lp as [ss|]; [|congruence].
      destruct P2 as (X & W & S). cbn [cons_step obind].
      eexists. split; [reflexivity|]. split.
      + apply (advances_trans _ st2); [exact A02|apply advances_push_expr].
      + intros _. eexists. apply push_locpath_pushed.
        * rewrite X. apply (moved_exprs _ _ M1).
        * simpl. exact W.
        * simpl. lia. }
  destruct m.
  - specialize (Hlt eq_refl).
    destruct (ascii_eqb (cur (pos st1)) SEP).
    + assert (M1 : moved st (set_pos (advance (pos st1)) st1)).
      { apply (moved_trans _ st1); [exact Hm|].
        apply moved_set_pos, str_suffix_advance. }
      pose proof (moved_remaining _ _ M1) as R1'.
      destruct (parse_relative_location_path_spec
                  (set_pos (advance (pos st1)) st1))
        as (st2 & lp & -> & A2 & P2); [lia|].
      cbn [obind].
      apply (Habs _ (set_pos (advance (pos st1)) st1)); try assumption.
      * pose proof (str_suffix_length _ _ (str_suffix_advance (pos st1))).
        unfold remaining in *. simpl. lia.
      * destruct lp as [ss|]; [|exact P2].
        destruct P2 as (X & W & S). split; [exact X|]. split; [exact W|lia].
    + destruct (negb (ascii_eqb (cur (pos st1)) NUL)).
      * destruct (parse_relative_location_path_spec st1)
          as (st2 & lp & -> & A2 & P2); [lia|].
        cbn [obind].
        apply (Habs _ st1); try assumption.
        destruct lp as [ss|]; [|exact P2].
        destruct P2 as (X & W & S). split; [exact X|]. split; [exact W|lia].
      * cbn [obind].
        apply (Habs _ st1); try assumption; [apply advances_refl|].
        split; [reflexivity|]. split; [reflexivity|simpl; lia].
  - destruct (parse_relative_location_path_spec st1)
      as (st2 & lp & -> & A2 & P2); [lia|].
    cbn [obind]. eexists. split; [reflexivity|].
    assert (A02 : advances st st2).
    { apply (advances_trans _ st1); [apply (moved_adv _ _ Hm)|exact A2]. }
    split.
    + apply (advances_trans _ st2); [exact A02|apply advances_push_expr].
    + intros Hc. change (HAS_ERROR st2 = false) in Hc.
      destruct lp as [ss|]; [|congruence].
      destruct P2 as (X & W & S).
      eexists. apply push_locpath_pushed.
      * rewrite X. apply (moved_exprs _ _ Hm).
      * exact W.
      * lia.
Qed.
Lemma parse_args_loop_spec (n : nat) :
  forall (st : state) (nargs : nat),
    (remaining st < n)%nat -> (n <= bound)%nat ->
    exists (st' : state) (r : option nat),
      parse_args_loop rec n st nargs = Ok (st', r)
      /\ advances st st'
      /\ match r with
         | None => HAS_ERROR st' = true
         | Some k =>
             exists es : list expr,
               k = (nargs + length es)%nat /\ pushed st st' es
         end.
Proof.
  induction n as [|n IH]; intros st nargs Hr Hb; [lia|].
  cbn [parse_args_loop].
  destruct (rec_parses st) as (st1 & -> & A1 & P1); [lia|].
  cbn [obind].
  destruct (HAS_ERROR st1) eqn:He.
  { exists st1, None. split; [reflexivity|]. split; [exact A1|exact He]. }
  destruct (P1 eq_refl) as (e & Pe).
  pose proof (pushed_size _ _ _ Pe) as Hsz. simpl in Hsz.
  pose proof (expr_size_pos e) as Hpos.
  destruct (match_char st1 ","%char) as [st2 m] eqn:Hm.
  apply match_char_moved in Hm. destruct Hm as [Hm Hlt].
  assert (A2 : advances st st2).
  { apply (advances_trans _ st1); [exact A1|apply (moved_adv _ _ Hm)]. }
  assert (P2 : pushed st st2 [e]) by (apply (pushed_moved_r _ st1); assumption).
  destruct m.
  - specialize (Hlt eq_refl).
    destruct (IH st2 (S nargs)) as (st' & r & -> & A' & P'); [lia|lia|].
    exists st', r. split; [reflexivity|].
    split; [apply (advances_trans _ st2); assumption|].
    destruct r as [k|]; [|exact P'].
    destruct P' as (es & -> & Pes).
    exists (es ++ [e])%list. split.
    + rewrite length_app. simpl. lia.
    + apply (pushed_trans _ st2); assumption.
  - exists st2, (Some (S nargs)). split; [reflexivity|].
    split; [exact A2|]. exists [e]. split; [simpl; lia|exact P2].
Qed.

Lemma parse_function_call_spec (st : state) :
  (remaining st <= bound)%nat ->
  exists st' : state,
    parse_function_call bound rec st = Ok st' /\ parses st st'.
Proof.
  intros Hr. unfold parse_function_call.
  destruct (find_func builtin_funcs st None) as [st1 func] eqn:Hf.
  apply (find_func_moved _ builtin_funcs_named) in Hf.
  destruct Hf as [M1 Hf].
  destruct Hf as [->|(f & -> & Hin & R1)].
  { eexists. split; [reflexivity|].
    apply parses_error; [reflexivity|apply (moved_adv _ _ M1)]. }
  destruct (match_char st1 ")"%char) as [st2 m] eqn:Hm.
  apply match_char_moved in Hm. destruct Hm as [Hm _].
  pose proof (moved_remaining _ _ Hm) as R2.
  assert (M2 : moved st st2) by (apply (moved_trans _ st1); assumption).
  assert (Hargs :
    exists (st3 : state) (r : option nat),
      (if m then Ok (st2, Some O)
       else
         do '(st3, r) <- parse_args_loop rec bound st2 O;
         match r with
         | None => Ok (st3, None)
         | Some nargs =>
             let '(st4, m2) := match_char st3 ")"%char in
             if m2 then Ok (st4, Some nargs)
             else Ok (STATE_ERROR PATHX_EDELIM st4, None)
         end) = Ok (st3, r)
      /\ advances st st3
      /\ match r with
         | None => HAS_ERROR st3 = true
         | Some k =>
             exists es : list expr, k = length es /\ pushed st2 st3 es
         end).
  { destruct m.
    - exists st2, (Some O). split; [reflexivity|].
      split; [apply (moved_adv _ _ M2)|].
      exists []. split; [reflexivity|apply pushed_moved, moved_refl].
    - destruct (parse_args_loop_spec bound st2 O) as (st3 & r & -> & A3 & P3);
        [lia|lia|].
      cbn [obind].
      assert (A03 : advances st st3).
      { apply (advances_trans _ st2); [apply (moved_adv _ _ M2)|exact A3]. }
      destruct r as [k|].
      + destruct P3 as (es & -> & Pes).
        destruct (match_char st3 ")"%char) as [st4 m2] eqn:Hm4.
        apply match_char_moved in Hm4. destruct Hm4 as [Hm4 _].
        assert (A04 : advances st st4).
        { apply (advances_trans _ st3); [exact A03|apply (moved_adv _ _ Hm4)]. }
        destruct m2.
        * exists st4, (Some (0 + length es)%nat). split; [reflexivity|].
          split; [exact A04|]. exists es. split; [reflexivity|].
          apply (pushed_moved_r _ st3); assumption.
        * eexists. exists None. split; [reflexivity|].
          split; [|reflexivity].
          apply (advances_trans _ st4); [exact A04|].
          apply advances_error. reflexivity.
      + exists st3, None. split; [reflexivity|]. split; [exact A03|exact P3]. }
  destruct Hargs as (st3 & r & -> & A3 & P3). cbn [obind].
  destruct r as [k|].
  - destruct P3 as (es & -> & [X W S]).
    destruct (negb (Nat.eqb (length es) (arity f))) eqn:Har.
    + eexists. split; [reflexivity|]. apply parses_error; [reflexivity|exact A3].
    + apply negb_false_iff in Har.
      rewrite (pop_exprs_app es st3 (exprs st2) []); [|exact X].
      cbn [obind]. eexists. split; [reflexivity|]. split.
      * apply (advances_trans _ st3); [exact A3|].
        apply (advances_trans _ (set_exprs (exprs st2) st3));
          [apply advances_set_exprs|apply advances_push_expr].
      * intros _. eexists. split; simpl.
        -- rewrite (moved_exprs _ _ M2). reflexivity.
        -- rewrite app_nil_r, expr_wf_app, length_rev, Har, forallb_rev, W.
           rewrite !andb_true_r. apply bool_decide_eq_true_2.
           apply list_elem_of_In, Hin.
        -- rewrite app_nil_r, expr_size_app, list_sum_rev.
           change (remaining (push_expr (E_APP T_NONE f (rev es))
                                (set_exprs (exprs st2) st3)))
             with (remaining st3).
           pose proof (moved_remaining _ _ Hm). lia.
  - exists st3. split; [reflexivity|]. split; [exact A3|].
    intros Hc. congruence.
Qed.

Lemma parse_primary_expr_spec (st : state) :
  (remaining st <= bound)%nat ->
  exists st' : state,
    parse_primary_expr bound rec st = Ok st' /\ parses st st'.
Proof.
  intros Hr. unfold parse_primary_expr.
  destruct (peek st quotes); [apply parse_literal_parses|].
  destruct (peek st "0123456789"); [apply parse_number_parses|].
  apply parse_function_call_spec, Hr.
Qed.

Lemma parse_path_expr_spec (st : state) :
  (remaining st <= bound)%nat ->
  exists st' : state,
    parse_path_expr bound rec st = Ok st' /\ parses st st'.
Proof.
  intros Hr. unfold parse_path_expr.
  destruct (looking_at_primary_expr st);
    [apply parse_primary_expr_spec, Hr|apply parse_location_path_spec, Hr].
Qed.

Lemma parse_multiplicative_loop_spec (n : nat) :
  forall (st0 st : state) (l : expr),
    (remaining st <= n)%nat -> (n <= bound)%nat ->
    pushed st0 st [l] ->
    exists st' : state,
      parse_multiplicative_loop bound rec n st = Ok st'
      /\ advances st st'
      /\ (HAS_ERROR st' = false -> exists e : expr, pushed st0 st' [e]).
Proof.
  induction n as [|n IH]; intros st0 st l Hr Hb Pl;
    cbn [parse_multiplicative_loop];
    destruct (match_char st "*"%char) as [st1 m] eqn:Hm;
    apply match_char_moved in Hm; destruct Hm as [Hm Hlt];
    (destruct m;
     [specialize (Hlt eq_refl)|
      exists st1; split; [reflexivity|];
      split; [apply (moved_adv _ _ Hm)|];
      intros _; exists l; apply (pushed_moved_r _ st); assumption]).
  - lia.
  - destruct (parse_path_expr_spec st1) as (st2 & -> & A2 & P2); [lia|].
    cbn [obind].
    assert (A02 : advances st st2).
    { apply (advances_trans _ st1); [apply (moved_adv _ _ Hm)|exact A2]. }
    destruct (HAS_ERROR st2) eqn:He.
    { exists st2. split; [reflexivity|]. split; [exact A02|].
      intros Hc. congruence. }
    destruct (P2 eq_refl) as (r & Pr).
    destruct (push_binary_pushed OP_STAR st0 st st1 st2 l r Pl Hm Hlt A2 Pr)
      as (st3 & -> & A3 & R3 & P3).
    cbn [obind].
    pose proof (advances_remaining _ _ A2) as R2.
    destruct (IH st0 st3 _ ltac:(lia) ltac:(lia) P3) as (st' & -> & A' & P').
    exists st'. split; [reflexivity|]. split; [|exact P'].
    apply (advances_trans _ st3); [|exact A'].
    apply (advances_trans _ st2); assumption.
Qed.

Lemma parse_multiplicative_expr_spec (st : state) :
  (remaining st <= bound)%nat ->
  exists st' : state,
    parse_multiplicative_expr bound rec st = Ok st' /\ parses st st'.
Proof.
  intros Hr. unfold parse_multiplicative_expr.
  destruct (parse_path_expr_spec st Hr) as (st1 & -> & A1 & P1).
  cbn [obind].
  destruct (HAS_ERROR st1) eqn:He.
  { exists st1. split; [reflexivity|]. split; [exact A1|].
    intros Hc. congruence. }
  destruct (P1 eq_refl) as (l & Pl).
  pose proof (advances_remaining _ _ A1) as R1.
  destruct (parse_multiplicative_loop_spec bound st st1 l) as (st' & -> & A' & P');
    [lia|lia|exact Pl|].
  exists st'. split; [reflexivity|]. split; [|exact P'].
  apply (advances_trans _ st1); assumption.
Qed.

Lemma parse_additive_loop_spec (n : nat) :
  forall (st0 st : state) (l : expr),
    (remaining st <= n)%nat -> (n <= bound)%nat ->
    pushed st0 st [l] ->
    exists st' : state,
      parse_additive_loop bound rec n st = Ok st'
      /\ advances st st'
      /\ (HAS_ERROR st' = false -> exists e : expr, pushed st0 st' [e]).
Proof.
  induction n as [|n IH]; intros st0 st l Hr Hb Pl;
    cbn [parse_additive_loop];
    (destruct (ascii_eqb (cur (pos st)) "+"%char
               || ascii_eqb (cur (pos st)) "-"%char) eqn:Hop;
     [|exists st; split; [reflexivity|];
       split; [apply advances_refl|];
       intros _; exists l; exact Pl]).
  - exfalso.
    assert (Hn : cur (pos st) <> NUL).
    { intros Hn. rewrite Hn in Hop. discriminate Hop. }
    pose proof (advance_length _ Hn) as Hl. unfold remaining in Hr. lia.
  - assert (Hn : cur (pos st) <> NUL).
    { intros Hn. rewrite Hn in Hop. discriminate Hop. }
    pose proof (advance_length _ Hn) as Hl.
    set (st1 := skipws (set_pos (advance (pos st)) st)).
    assert (M1 : moved st st1).
    { apply (moved_trans _ (set_pos (advance (pos st)) st));
        [apply moved_set_pos, str_suffix_advance|apply moved_skipws]. }
    assert (Hlt : (remaining st1 < remaining st)%nat).
    { pose proof (moved_remaining _ _ (moved_skipws (set_pos (advance (pos st)) st)))
        as H1.
      change (remaining st1 <= String.length (advance (pos st)))%nat in H1.
      change (remaining st) with (String.length (pos st)). lia. }
    destruct (parse_multiplicative_expr_spec st1) as (st2 & -> & A2 & P2); [lia|].
    cbn [obind].
    assert (A02 : advances st st2).
    { apply (advances_trans _ st1); [apply (moved_adv _ _ M1)|exact A2]. }
    destruct (HAS_ERROR st2) eqn:He.
    { exists st2. split; [reflexivity|]. split; [exact A02|].
      intros Hc. congruence. }
    destruct (P2 eq_refl) as (r & Pr).
    destruct (push_binary_pushed
                (if ascii_eqb (cur (pos st)) "+"%char then OP_PLUS else OP_MINUS)
                st0 st st1 st2 l r Pl M1 Hlt A2 Pr)
      as (st3 & -> & A3 & R3 & P3).
    cbn [obind].
    pose proof (advances_remaining _ _ A2) as R2.
    destruct (IH st0 st3 _ ltac:(lia) ltac:(lia) P3) as (st' & -> & A' & P').
    exists st'. split; [reflexivity|]. split; [|exact P'].
    apply (advances_trans _ st3); [|exact A'].
    apply (advances_trans _ st2); assumption.
Qed.

Lemma parse_additive_expr_spec (st : state) :
  (remaining st <= bound)%nat ->
  exists st' : state,
    parse_additive_expr bound rec st = Ok st' /\ parses st st'.
Proof.
  intros Hr. unfold parse_additive_expr.
  destruct (parse_multiplicative_expr_spec st Hr) as (st1 & -> & A1 & P1).
  cbn [obind].
  destruct (HAS_ERROR st1) eqn:He.
  { exists st1. split; [reflexivity|]. split; [exact A1|].
    intros Hc. congruence. }
  destruct (P1 eq_refl) as (l & Pl).
  pose proof (advances_remaining _ _ A1) as R1.
  destruct (parse_additive_loop_spec bound st st1 l) as (st' & -> & A' & P');
    [lia|lia|exact Pl|].
  exists st'. split; [reflexivity|]. split; [|exact P'].
  apply (advances_trans _ st1); assumption.
Qed.

Lemma parse_equality_expr_spec (st : state) :
  (remaining st <= bound)%nat ->
  exists st' : state,
    parse_equality_expr bound rec st = Ok st' /\ parses st st'.
Proof.
  intros Hr. unfold parse_equality_expr.
  destruct (parse_additive_expr_spec st Hr) as (st1 & -> & A1 & P1).
  cbn [obind].
  destruct (HAS_ERROR st1) eqn:He.
  { exists st1. split; [reflexivity|]. split; [exact A1|].
    intros Hc. congruence. }
  destruct (P1 eq_refl) as (l & Pl).
  pose proof (advances_remaining _ _ A1) as R1.
  destruct (ascii_eqb (cur (pos st1)) "="%char
            || ascii_eqb (cur (pos st1)) "!"%char
               && ascii_eqb (cur (advance (pos st1))) "="%char) eqn:Hop.
  - assert (Hn : cur (pos st1) <> NUL).
    { intros Hn. rewrite Hn in Hop. discriminate Hop. }
    pose proof (advance_length _ Hn) as Hl.
    set (op := if ascii_eqb (cur (pos st1)) "="%char then OP_EQ else OP_NEQ).
    set (p := match op with
              | OP_EQ => advance (pos st1)
              | _ => advance (advance (pos st1))
              end).
    assert (Hp : str_suffix p (advance (pos st1))).
    { unfold p. destruct op;
        first [apply str_suffix_refl|apply str_suffix_advance]. }
    set (st2 := skipws (set_pos p st1)).
    assert (M2 : moved st1 st2).
    { apply (moved_trans _ (set_pos p st1)); [|apply moved_skipws].
      apply moved_set_pos.
      apply (str_suffix_trans _ (advance (pos st1)));
        [exact Hp|apply str_suffix_advance]. }
    assert (Hlt : (remaining st2 < remaining st1)%nat).
    { pose proof (moved_remaining _ _ (moved_skipws (set_pos p st1))) as H1.
      change (remaining st2 <= String.length p)%nat in H1.
      apply str_suffix_length in Hp.
      change (remaining st1) with (String.length (pos st1)). lia. }
    destruct (parse_additive_expr_spec st2) as (st3 & -> & A3 & P3); [lia|].
    cbn [obind].
    assert (A03 : advances st st3).
    { apply (advances_trans _ st1); [exact A1|].
      apply (advances_trans _ st2); [apply (moved_adv _ _ M2)|exact A3]. }
    destruct (HAS_ERROR st3) eqn:He3.
    { exists st3. split; [reflexivity|]. split; [exact A03|].
      intros Hc. congruence. }
    destruct (P3 eq_refl) as (r & Pr).
    destruct (push_binary_pushed op st st1 st2 st3 l r Pl M2 Hlt A3 Pr)
      as (st4 & -> & A4 & R4 & P4).
    exists st4. split; [reflexivity|]. split.
    + apply (advances_trans _ st3); assumption.
    + intros _. eexists. exact P4.
  - exists st1. split; [reflexivity|]. split; [exact A1|].
    intros _. exists l. exact Pl.
Qed.
End ParseTotal.

Lemma parse_expr_parses (fuel : nat) :
  forall st : state,
    (remaining st < fuel)%nat ->
    exists st' : state, parse_expr fuel st = Ok st' /\ parses st st'.
Proof.
  induction fuel as [|f IH]; intros st Hr; [lia|].
  cbn [parse_expr].
  pose proof (moved_skipws st) as M.
  pose proof (moved_remaining _ _ M) as R.
  destruct (parse_equality_expr_spec f (parse_expr f) IH (skipws st))
    as (st' & -> & P); [lia|].
  exists st'. split; [reflexivity|].
  apply (parses_moved_l _ (skipws st)); assumption.
Qed.

(** ** The type checker takes what the parser makes *)

Lemma checked_refl (st : state) : checked st st.
Proof. left. reflexivity. Qed.

Lemma checked_trans (a b c : state) : checked a b -> checked b c -> checked a c.
Proof.
  intros [->| ->] [->| ->]; [left|right|right|right]; reflexivity.
Qed.

Lemma checked_error (st : state) : checked st (STATE_ERROR PATHX_ETYPE st).
Proof. right. reflexivity. Qed.

Lemma checked_pool (st st' : state) :
  checked st st' -> value_pool st' = value_pool st.
Proof. intros [->| ->]; reflexivity. Qed.

Lemma checked_noerr (st st' : state) :
  checked st st' -> HAS_ERROR st' = false -> st' = st.
Proof. intros [->| ->] H; [reflexivity|discriminate H]. Qed.

Lemma binary_type_checked (op : binary_op) (l r : type) :
  match op with
  | OP_EQ | OP_NEQ =>
      (((bool_decide (l = T_NODESET) || bool_decide (l = T_STRING))
        && (bool_decide (r = T_NODESET) || bool_decide (r = T_STRING)))
       || (bool_decide (l = T_NUMBER) && bool_decide (r = T_NUMBER)),
       T_BOOLEAN)
  | OP_PLUS | OP_MINUS | OP_STAR =>
      (bool_decide (l = T_NUMBER) && bool_decide (r = T_NUMBER), T_NUMBER)
  end
  = match binary_type op l r with
    | Some t => (true, t)
    | None =>
        (false, match op with OP_EQ | OP_NEQ => T_BOOLEAN | _ => T_NUMBER end)
    end.
Proof. destruct op, l, r; reflexivity. Qed.

Section CheckTotal.
Variable k : nat.
Variable rec : expr -> state -> outcome (state * expr).
Hypothesis rec_total :
  forall (e : expr) (st : state),
    (expr_size e <= k)%nat ->
    expr_wf (length (value_pool st)) e = true ->
    exists (st' : state) (e' : expr),
      rec e st = Ok (st', e') /\ checked st st'
      /\ (HAS_ERROR st' = false -> expr_typed (value_pool st) e' = true).

Lemma check_preds_total (ps : list expr) :
  forall st : state,
    (list_sum (List.map expr_size ps) <= k)%nat ->
    forallb (expr_wf (length (value_pool st))) ps = true ->
    exists (st' : state) (ps' : list expr),
      check_preds rec ps st = Ok (st', ps') /\ checked st st'
      /\ (HAS_ERROR st' = false ->
          forallb (pred_typed (value_pool st)) ps' = true).
Proof.
  induction ps as [|e rest IH]; intros st Hk Hw; cbn [check_preds].
  - exists st, []. split; [reflexivity|]. split; [apply checked_refl|].
    reflexivity.
  - simpl in Hk, Hw. apply andb_true_iff in Hw. destruct Hw as [We Wr].
    destruct (rec_total e st) as (st1 & e1 & -> & C1 & T1); [lia|exact We|].
    cbn [obind].
    destruct (HAS_ERROR st1) eqn:He1.
    { eexists. eexists. split; [reflexivity|]. split; [exact C1|].
      intros Hc. congruence. }
    destruct (negb (pred_type_ok (expr_type e1))) eqn:Hp.
    { eexists. eexists. split; [reflexivity|]. split.
      - apply (checked_trans _ st1); [exact C1|apply checked_error].
      - intros Hc. discriminate Hc. }
    apply negb_false_iff in Hp.
    destruct (IH st1) as (st2 & rest1 & -> & C2 & T2);
      [lia|rewrite (checked_pool _ _ C1); exact Wr|].
    cbn [obind]. eexists. eexists. split; [reflexivity|].
    split; [apply (checked_trans _ st1); assumption|].
    intros Hc. specialize (T2 Hc). rewrite (checked_pool _ _ C1) in T2.
    simpl. unfold pred_typed at 1.
    rewrite (T1 eq_refl), Hp. simpl. exact T2.
Qed.

Lemma check_steps_total (ss : list step) :
  forall st : state,
    (list_sum (List.map step_size ss) <= k)%nat ->
    forallb (step_wf (length (value_pool st))) ss = true ->
    exists (st' : state) (ss' : list step),
      check_steps rec ss st = Ok (st', ss') /\ checked st st'
      /\ (HAS_ERROR st' = false ->
          forallb (step_typed (value_pool st)) ss' = true).
Proof.
  induction ss as [|s rest IH]; intros st Hk Hw; cbn [check_steps].
  - exists st, []. split; [reflexivity|]. split; [apply checked_refl|].
    reflexivity.
  - simpl in Hk, Hw. apply andb_true_iff in Hw. destruct Hw as [Ws Wr].
    destruct s as [a nm [ps|]]; cbn [step_predicates step_axis step_name].
    + simpl in Hk, Ws.
      destruct (check_preds_total ps st) as (st1 & ps1 & -> & C1 & T1);
        [lia|exact Ws|].
      cbn [obind].
      destruct (HAS_ERROR st1) eqn:He1.
      { eexists. eexists. split; [reflexivity|]. split; [exact C1|].
        intros Hc. congruence. }
      destruct (IH st1) as (st2 & rest1 & -> & C2 & T2);
        [lia|rewrite (checked_pool _ _ C1); exact Wr|].
      cbn [obind]. eexists. eexists. split; [reflexivity|].
      split; [apply (checked_trans _ st1); assumption|].
      intros Hc. specialize (T2 Hc). rewrite (checked_pool _ _ C1) in T2.
      simpl. rewrite T2, andb_true_r. apply (T1 eq_refl).
    + destruct (IH st) as (st1 & rest1 & -> & C1 & T1);
        [simpl in Hk; lia|exact Wr|].
      cbn [obind]. eexists. eexists. split; [reflexivity|].
      split; [exact C1|]. intros Hc. simpl. apply T1, Hc.
Qed.

Lemma check_args_total (n : nat) :
  forall (args : list expr) (tys : list type) (st : state),
    (n <= length args)%nat -> (n <= length tys)%nat ->
    (list_sum (List.map expr_size args) <= k)%nat ->
    forallb (expr_wf (length (value_pool st))) args = true ->
    exists (st' : state) (args' : list expr) (fin : bool),
      check_args rec n args tys st = Ok (st', args', fin) /\ checked st st'
      /\ (HAS_ERROR st' = false -> n = length args ->
          fin = true /\ length args' = n
          /\ forallb (expr_typed (value_pool st)) args' = true).
Proof.
  induction n as [|n IH]; intros args tys st Ha Ht Hk Hw; cbn [check_args].
  - exists st, args, true. split; [reflexivity|]. split; [apply checked_refl|].
    intros _ Hn. symmetry in Hn. apply length_zero_iff_nil in Hn. subst args.
    repeat split.
  - destruct args as [|a rest]; [simpl in Ha; lia|].
    destruct tys as [|t tys']; [simpl in Ht; lia|].
    simpl in Ha, Ht, Hk, Hw. apply andb_true_iff in Hw. destruct Hw as [Wa Wr].
    destruct (rec_total a st) as (st1 & a1 & -> & C1 & T1); [lia|exact Wa|].
    cbn [obind].
    destruct (HAS_ERROR st1) eqn:He1.
    { eexists. eexists. eexists. split; [reflexivity|]. split; [exact C1|].
      intros Hc. congruence. }
    destruct (negb (bool_decide (expr_type a1 = t))).
    { eexists. eexists. eexists. split; [reflexivity|]. split.
      - apply (checked_trans _ st1); [exact C1|apply checked_error].
      - intros Hc. discriminate Hc. }
    destruct (IH rest tys' st1) as (st2 & rest1 & fin & -> & C2 & T2);
      [lia|lia|lia|rewrite (checked_pool _ _ C1); exact Wr|].
    cbn [obind]. eexists. eexists. eexists. split; [reflexivity|].
    split; [apply (checked_trans _ st1); assumption|].
    intros Hc Hn. simpl in Hn.
    destruct (T2 Hc) as (F & L & T); [lia|].
    rewrite (checked_pool _ _ C1) in T.
    split; [exact F|]. split; [simpl; lia|].
    simpl. rewrite (T1 eq_refl). simpl. exact T.
Qed.
End CheckTotal.

(** The type checker comes to an end on an expression the parser made,
    and what it leaves without an error is typed. *)
Lemma check_expr_total (fuel : nat) :
  forall (e : expr) (st : state),
    (expr_size e <= fuel)%nat ->
    expr_wf (length (value_pool st)) e = true ->
    exists (st' : state) (e' : expr),
      check_expr fuel e st = Ok (st', e') /\ checked st st'
      /\ (HAS_ERROR st' = false -> expr_typed (value_pool st) e' = true).
Proof.
  induction fuel as [|f IH]; intros e st Hk Hw.
  - pose proof (expr_size_pos e). lia.
  - cbn [check_expr].
    destruct (HAS_ERROR st) eqn:He.
    { exists st, e. split; [reflexivity|]. split; [apply checked_refl|].
      intros Hc. congruence. }
    destruct e as [ty lp|ty op l r|ty vind|ty fn args].
    + destruct lp as [ss|]; [|simpl in Hw; discriminate Hw].
      simpl in Hk, Hw. unfold check_locpath.
      destruct (check_steps_total f (check_expr f) IH ss st)
        as (st1 & ss1 & -> & C1 & T1); [lia|exact Hw|].
      cbn [obind].
      destruct (HAS_ERROR st1) eqn:He1; eexists; eexists;
        (split; [reflexivity|]); (split; [exact C1|]); intros Hc;
        [congruence|].
      simpl. apply T1. reflexivity.
    + simpl in Hk, Hw. apply andb_true_iff in Hw. destruct Hw as [Wl Wr].
      unfold check_binary.
      destruct (IH l st) as (st1 & l1 & -> & C1 & T1); [lia|exact Wl|].
      cbn [obind].
      destruct (IH r st1) as (st2 & r1 & -> & C2 & T2);
        [lia|rewrite (checked_pool _ _ C1); exact Wr|].
      cbn [obind].
      assert (C02 : checked st st2) by (apply (checked_trans _ st1); assumption).
      destruct (HAS_ERROR st2) eqn:He2.
      { eexists. eexists. split; [reflexivity|]. split; [exact C02|].
        intros Hc. congruence. }
      cbv zeta. rewrite binary_type_checked.
      destruct (binary_type op (expr_type l1) (expr_type r1)) as [res|] eqn:Hb;
        cbn [negb]; eexists; eexists; (split; [reflexivity|]).
      * split; [exact C02|]. intros _.
        pose proof (checked_noerr _ _ C2 He2) as E2. subst st2.
        specialize (T1 He2). specialize (T2 eq_refl).
        rewrite (checked_pool _ _ C1) in T2.
        simpl. rewrite T1, T2, Hb. simpl.
        apply bool_decide_eq_true_2. reflexivity.
      * split; [apply (checked_trans _ st2); [exact C02|apply checked_error]|].
        intros Hc. discriminate Hc.
    + simpl in Hw. apply andb_true_iff in Hw. destruct Hw as [H0 H1].
      apply Z.leb_le in H0. apply Z.ltb_lt in H1.
      unfold expr_value.
      destruct (lookup_lt_is_Some_2 (value_pool st) (Z.to_nat vind)) as [v Hv];
        [lia|].
      rewrite Hv.
      eexists. eexists. split; [reflexivity|]. split; [apply checked_refl|].
      intros _. simpl. rewrite Hv. apply bool_decide_eq_true_2. reflexivity.
    + rewrite expr_wf_app in Hw. rewrite expr_size_app in Hk.
      apply andb_true_iff in Hw. destruct Hw as [Hw Wa].
      apply andb_true_iff in Hw. destruct Hw as [Hm Ha].
      pose proof Hm as Ht.
      apply bool_decide_eq_true_1, list_elem_of_In, builtin_funcs_typed in Ht.
      apply Nat.eqb_eq in Ha.
      unfold check_app.
      destruct (check_args_total f (check_expr f) IH (arity fn) args
                  (arg_types fn) st)
        as (st1 & args1 & fin & -> & C1 & T1); [lia|exact Ht|lia|exact Wa|].
      cbn [obind].
      assert (Hfin : HAS_ERROR st1 = false ->
                     fin = true
                     /\ expr_typed (value_pool st) (E_APP (ftype fn) fn args1)
                        = true).
      { intros Hc. destruct (T1 Hc) as (F & L & T); [lia|].
        split; [exact F|]. simpl. rewrite Hm, T, L, Nat.eqb_refl.
        rewrite bool_decide_eq_true_2; reflexivity. }
      destruct fin; eexists; eexists; (split; [reflexivity|]);
        (split; [exact C1|]); intros Hc; destruct (Hfin Hc) as [F T];
        [exact T|discriminate F].
Qed.

(** X12: the parser comes to an end on every text.  With more fuel than
    there are characters left, [parse_expr] returns a state: no loop runs
    out of fuel, no expression is popped from an empty stack and no step
    is taken from a [NULL] path.  The text is the same, the position has
    moved forward in it, and the error code is the one on entry or one of
    the parser's.  When no error is left, exactly one expression was
    pushed; it is one the type checker can walk, and the text read has at
    least as many characters as it has nodes. *)
Theorem parse_expr_total (fuel : nat) (st : state) :
  (remaining st < fuel)%nat ->
  exists st' : state,
    parse_expr fuel st = Ok st'
    /\ txt st' = txt st
    /\ str_suffix (pos st') (pos st)
    /\ (errcode st' = errcode st \/ parse_error (errcode st') = true)
    /\ (HAS_ERROR st' = false ->
        exists e : expr,
          exprs st' = e :: exprs st
          /\ expr_wf (length (value_pool st')) e = true
          /\ (expr_size e + remaining st' <= remaining st)%nat).
Proof.
  intros Hr.
  destruct (parse_expr_parses fuel st Hr) as (st' & E & A & P).
  exists st'. split; [exact E|].
  split; [apply (adv_txt _ _ A)|].
  split; [apply (adv_pos _ _ A)|].
  split; [apply (adv_err _ _ A)|].
  intros Hc. destruct (P Hc) as (e & [X W S]). exists e.
  split; [exact X|]. simpl in W, S. rewrite andb_true_r in W.
  split; [exact W|lia].
Qed.

Lemma parse_expr_total_witness :
  (remaining (init_state "a[b = 'x']/c") < 14)%nat
  /\ exists st' : state,
       parse_expr 14 (init_state "a[b = 'x']/c") = Ok st'
       /\ txt st' = txt (init_state "a[b = 'x']/c")
       /\ str_suffix (pos st') (pos (init_state "a[b = 'x']/c"))
       /\ (errcode st' = errcode (init_state "a[b = 'x']/c")
           \/ parse_error (errcode st') = true)
       /\ (HAS_ERROR st' = false ->
           exists e : expr,
             exprs st' = e :: exprs (init_state "a[b = 'x']/c")
             /\ expr_wf (length (value_pool st')) e = true
             /\ (expr_size e + remaining st'
                 <= remaining (init_state "a[b = 'x']/c"))%nat).
Proof.
  assert (H : (remaining (init_state "a[b = 'x']/c") < 14)%nat)
    by (vm_compute; lia).
  split; [exact H|].
  exact (parse_expr_total 14 (init_state "a[b = 'x']/c") H).
Defined.

(** X13: [pathx_parse] returns for every text when the fuel is more than
    the length of the text, and the code it returns is never
    [PATHX_EINTERNAL]: the parser leaves exactly one expression when it
    raises no error.  Nor is it [PATHX_ESLASH].  The type checker is given
    an expression whose values are in the pool and whose calls have their
    arguments, so that it comes to an end as well.  The state of the
    result has the text, and its position is within the text. *)
Theorem pathx_parse_total (fuel : nat) (tree : option node) (text : string) :
  (String.length text < fuel)%nat ->
  exists (code : pathx_errcode) (p : pathx),
    pathx_parse fuel tree text = Ok (code, p)
    /\ (code = PATHX_NOERROR \/ parse_error code = true
        \/ code = PATHX_ETYPE)
    /\ txt (px_state p) = text
    /\ str_suffix (pos (px_state p)) text
    /\ px_origin p = tree.
Proof.
  intros Hr. unfold pathx_parse.
  destruct (parse_expr_parses fuel (init_state text) Hr) as (st1 & -> & A & P).
  cbn [obind].
  pose proof (adv_err _ _ A) as Herr.
  change (errcode (init_state text)) with PATHX_NOERROR in Herr.
  destruct (HAS_ERROR st1) eqn:He.
  { eexists. eexists. split; [reflexivity|]. simpl.
    split; [tauto|]. split; [apply (adv_txt _ _ A)|].
    split; [apply (adv_pos _ _ A)|reflexivity]. }
  destruct (P eq_refl) as (e & [X W S]).
  simpl in X, W, S. rewrite X. rewrite andb_true_r in W.
  destruct (check_expr_total fuel e st1) as (st2 & e1 & -> & C & _).
  { change (remaining (init_state text)) with (String.length text) in S. lia. }
  { exact W. }
  cbn [obind].
  assert (Hst : forall (st3 : state) (lp : option (list step)),
             (errcode st3 = PATHX_NOERROR \/ parse_error (errcode st3) = true
              \/ errcode st3 = PATHX_ETYPE) ->
             txt st3 = txt st2 -> pos st3 = pos st2 ->
             exists (code : pathx_errcode) (p : pathx),
               Ok (errcode st3, mk_pathx st3 lp None 0 tree) = Ok (code, p)
               /\ (code = PATHX_NOERROR \/ parse_error code = true
                   \/ code = PATHX_ETYPE)
               /\ txt (px_state p) = text
               /\ str_suffix (pos (px_state p)) text
               /\ px_origin p = tree).
  { intros st3 lp Hc Ht Hp. eexists. eexists. split; [reflexivity|]. simpl.
    split; [exact Hc|]. rewrite Ht, Hp.
    destruct C as [->| ->]; simpl;
      (split; [apply (adv_txt _ _ A)|]; split; [apply (adv_pos _ _ A)|reflexivity]). }
  assert (Hc2 : errcode st2 = PATHX_NOERROR \/ parse_error (errcode st2) = true
                \/ errcode st2 = PATHX_ETYPE).
  { destruct C as [->| ->]; simpl; tauto. }
  destruct (HAS_ERROR (set_exprs [e1] st2)).
  { apply Hst; [exact Hc2|reflexivity|reflexivity]. }
  destruct (negb (bool_decide (expr_type e1 = T_NODESET))
            || negb (bool_decide (tag_of e1 = Tag_LOCPATH))).
  - apply Hst; [right; right; reflexivity|reflexivity|reflexivity].
  - apply Hst; [exact Hc2|reflexivity|reflexivity].
Qed.

Lemma pathx_parse_total_witness :
  (String.length "/a/b[" < 6)%nat
  /\ exists (code : pathx_errcode) (p : pathx),
       pathx_parse 6 (Some 1%nat) "/a/b[" = Ok (code, p)
       /\ (code = PATHX_NOERROR \/ parse_error code = true
           \/ code = PATHX_ETYPE)
       /\ txt (px_state p) = "/a/b["
       /\ str_suffix (pos (px_state p)) "/a/b["
       /\ px_origin p = Some 1%nat.
Proof.
  assert (H : (String.length "/a/b[" < 6)%nat) by (vm_compute; lia).
  split; [exact H|].
  exact (pathx_parse_total 6 (Some 1%nat) "/a/b[" H).
Defined.

(** ** Comparing node sets *)

Lemma calc_eq_node_nodeset_spec (h : heap) (n1 : node) (t1 : tree)
    (neq : bool) (ns2 : list node) :
  h !! n1 = Some t1 ->
  Forall (fun n => is_Some (h !! n)) ns2 ->
  exists b : bool,
    calc_eq_node_nodeset h n1 ns2 neq = Ok b
    /\ (b = true <->
        exists (n2 : node) (t2 : tree),
          In n2 ns2 /\ h !! n2 = Some t2
          /\ streqx (tvalue t1) (tvalue t2) = negb neq).
Proof.
  intros H1. induction 1 as [|n2 rest [t2 H2] _ IH]; cbn [calc_eq_node_nodeset].
  - exists false. split; [reflexivity|]. split; [discriminate|].
    intros (n2 & t2 & [] & _).
  - unfold deref. rewrite H1, H2. cbn [obind].
    destruct (streqx (tvalue t1) (tvalue t2)) eqn:E; destruct neq; cbn [negb];
      try (exists true; split; [reflexivity|]; split; [|reflexivity];
           intros _; exists n2, t2;
           split; [left; reflexivity|]; split; [exact H2|exact E]);
      (destruct IH as (b & -> & Hb); exists b; split; [reflexivity|];
       rewrite Hb; split;
       [intros (m & t & Hin & Hm & Hs); exists m, t;
        split; [right; exact Hin|]; split; assumption
       |intros (m & t & [<-|Hin] & Hm & Hs);
        [rewrite H2 in Hm; injection Hm as <-; simpl in Hs; congruence
        |exists m, t; split; [exact Hin|]; split; assumption]]).
Qed.

(** X14: the comparison of two node sets, and of a node set with a string,
    is existential.  On node sets whose nodes are in the tree,
    [calc_eq_nodeset_nodeset] answers true exactly when some node of the
    first and some node of the second have values that are [streqx]-equal
    (for [=]) or not [streqx]-equal (for [!=]), and
    [calc_eq_nodeset_string] exactly when some node of the set has a value
    that is, or is not, [streqx]-equal to the string; so [a = b] and
    [a != b] can both hold, and both fail on an empty set. *)
Theorem nodeset_comparison_existential (h : heap) (ns1 ns2 : list node)
    (s : option string) (neq : bool) :
  Forall (fun n => is_Some (h !! n)) ns1 ->
  Forall (fun n => is_Some (h !! n)) ns2 ->
  (exists b : bool,
      calc_eq_nodeset_nodeset h ns1 ns2 neq = Ok b
      /\ (b = true <->
          exists (n1 n2 : node) (t1 t2 : tree),
            In n1 ns1 /\ In n2 ns2
            /\ h !! n1 = Some t1 /\ h !! n2 = Some t2
            /\ streqx (tvalue t1) (tvalue t2) = negb neq))
  /\ (exists b : bool,
         calc_eq_nodeset_string h ns1 s neq = Ok b
         /\ (b = true <->
             exists (n1 : node) (t1 : tree),
               In n1 ns1 /\ h !! n1 = Some t1
               /\ streqx (tvalue t1) s = negb neq)).
Proof.
  intros F1 F2. split.
  - induction F1 as [|n1 rest [t1 H1] _ IH]; cbn [calc_eq_nodeset_nodeset].
    + exists false. split; [reflexivity|]. split; [discriminate|].
      intros (n1 & n2 & t1 & t2 & [] & _).
    + destruct (calc_eq_node_nodeset_spec h n1 t1 neq ns2 H1 F2)
        as (found & -> & Hf).
      cbn [obind]. destruct found.
      * exists true. split; [reflexivity|]. split; [|reflexivity].
        intros _. destruct Hf as [Hf _].
        destruct (Hf eq_refl) as (n2 & t2 & Hin & H2 & Hs).
        exists n1, n2, t1, t2. split; [left; reflexivity|].
        repeat split; assumption.
      * destruct IH as (b & -> & Hb). exists b. split; [reflexivity|].
        rewrite Hb. split.
        -- intros (m1 & m2 & u1 & u2 & Hin1 & Hrest).
           exists m1, m2, u1, u2. split; [right; exact Hin1|exact Hrest].
        -- intros (m1 & m2 & u1 & u2 & [<-|Hin1] & Hin2 & Hm1 & Hm2 & Hs).
           ++ rewrite H1 in Hm1. injection Hm1 as <-.
              assert (false = true); [|discriminate].
              apply Hf. exists m2, u2. repeat split; assumption.
           ++ exists m1, m2, u1, u2. repeat split; assumption.
  - clear F2. induction F1 as [|n1 rest [t1 H1] _ IH];
      cbn [calc_eq_nodeset_string].
    + exists false. split; [reflexivity|]. split; [discriminate|].
      intros (n1 & t1 & [] & _).
    + unfold deref. rewrite H1. cbn [obind].
      destruct (streqx (tvalue t1) s) eqn:E; destruct neq; cbn [negb];
        try (exists true; split; [reflexivity|]; split; [|reflexivity];
             intros _; exists n1, t1;
             split; [left; reflexivity|]; split; [exact H1|exact E]);
        (destruct IH as (b & -> & Hb); exists b; split; [reflexivity|];
         rewrite Hb; split;
         [intros (m & t & Hin & Hm & Hs); exists m, t;
          split; [right; exact Hin|]; split; assumption
         |intros (m & t & [<-|Hin] & Hm & Hs);
          [rewrite H1 in Hm; injection Hm as <-; simpl in Hs; congruence
          |exists m, t; split; [exact Hin|]; split; assumption]]).
Qed.

Lemma nodeset_comparison_existential_witness :
  Forall (fun n => is_Some (scenario !! n)) [1%nat; 2%nat]
  /\ Forall (fun n => is_Some (scenario !! n)) [3%nat]
  /\ (exists b : bool,
         calc_eq_nodeset_nodeset scenario [1%nat; 2%nat] [3%nat] true = Ok b
         /\ (b = true <->
             exists (n1 n2 : node) (t1 t2 : tree),
               In n1 [1%nat; 2%nat] /\ In n2 [3%nat]
               /\ scenario !! n1 = Some t1 /\ scenario !! n2 = Some t2
               /\ streqx (tvalue t1) (tvalue t2) = negb true))
  /\ (exists b : bool,
         calc_eq_nodeset_string scenario [1%nat; 2%nat] (Some "x") true = Ok b
         /\ (b = true <->
             exists (n1 : node) (t1 : tree),
               In n1 [1%nat; 2%nat] /\ scenario !! n1 = Some t1
               /\ streqx (tvalue t1) (Some "x") = negb true)).
Proof.
  assert (F1 : Forall (fun n => is_Some (scenario !! n)) [1%nat; 2%nat]).
  { repeat constructor; vm_compute; eauto. }
  assert (F2 : Forall (fun n => is_Some (scenario !! n)) [3%nat]).
  { repeat constructor; vm_compute; eauto. }
  split; [exact F1|]. split; [exact F2|].
  exact (nodeset_comparison_existential scenario [1%nat; 2%nat] [3%nat]
           (Some "x") true F1 F2).
Defined.

(** ** The type checker is sound for the evaluator *)

Lemma pop_value_inv (st st' : state) (r : option value) :
  pop_value st = Ok (st', r) ->
  exists (vind : Z) (rest : list Z),
    values st = vind :: rest
    /\ st' = set_values rest st
    /\ match r with
       | None => HAS_ERROR st = true
       | Some v =>
           HAS_ERROR st = false
           /\ value_pool st !! Z.to_nat vind = Some v
       end.
Proof.
  unfold pop_value, pop_value_ind. intros H.
  destruct (values st) as [|vind rest] eqn:Hv; [discriminate H|].
  cbn [obind] in H. exists vind, rest. split; [reflexivity|].
  change (HAS_ERROR (set_values rest st)) with (HAS_ERROR st) in H.
  change (value_pool (set_values rest st)) with (value_pool st) in H.
  destruct (HAS_ERROR st).
  - injection H as <- <-. split; reflexivity.
  - destruct (value_pool st !! Z.to_nat vind) as [v|] eqn:Hl; [|discriminate H].
    injection H as <- <-. repeat split. 
Qed.

Lemma pop_value_top (st : state) (vind : Z) (rest : list Z) (v : value) :
  values st = vind :: rest ->
  HAS_ERROR st = false ->
  value_pool st !! Z.to_nat vind = Some v ->
  pop_value st = Ok (set_values rest st, Some v).
Proof.
  intros Hv He Hl. unfold pop_value, pop_value_ind. rewrite Hv. cbn [obind].
  change (HAS_ERROR (set_values rest st)) with (HAS_ERROR st).
  change (value_pool (set_values rest st)) with (value_pool st).
  rewrite He, Hl. reflexivity.
Qed.

(** The value that is made, stored and pushed is on top of the stack. *)
Lemma make_push_typed (tag : type) (v : value) (st st2 : state) (vind : Z) :
  make_value tag st = Ok (st2, vind) ->
  HAS_ERROR st = false ->
  HAS_ERROR st2 = false ->
  values (push_value vind (store_value vind v st2)) = vind :: values st
  /\ value_pool (push_value vind (store_value vind v st2)) !! Z.to_nat vind
     = Some v.
Proof.
  intros H He He2.
  destruct (make_value_store tag st st2 vind v H He He2) as [Hp Hi].
  split.
  - apply make_value_cases in H. destruct H as [(-> & _)|(sz & -> & _)];
      reflexivity.
  - change (value_pool (push_value vind (store_value vind v st2)))
      with (value_pool (store_value vind v st2)).
    rewrite Hp, Hi. unfold value_pool_used. rewrite Nat2Z.id.
    apply list_lookup_middle. reflexivity.
Qed.

Lemma builtin_funcs_number (f : func) :
  elem_of f builtin_funcs -> arity f = 0%nat /\ ftype f = T_NUMBER.
Proof.
  intros H. apply list_elem_of_In in H. simpl in H.
  destruct H as [<-|[<-|[]]]; split; reflexivity.
Qed.

Lemma run_impl_sound (i : func_impl) (st st' : state) :
  run_impl i st = Ok st' ->
  HAS_ERROR st = false ->
  HAS_ERROR st' = false ->
  pushes_typed st st' T_NUMBER.
Proof.
  intros H He He'.
  destruct i; unfold run_impl, func_last, func_position in H;
    bind_inv H; destruct a as [st1 vind];
    (destruct (HAS_ERROR st1) eqn:He1; [injection H as <-; congruence|]);
    injection H as <-;
    match goal with
    | |- pushes_typed _ (push_value _ (store_value _ ?v _)) _ =>
        destruct (make_push_typed _ v _ _ _ E He He1) as [Hv Hl];
        exists vind, v; split; [exact Hv|]; split; [exact Hl|reflexivity]
    end.
Qed.

Lemma eval_arith_sound (st st' : state) (op : binary_op) (rest : list Z) :
  values st = rest ->
  HAS_ERROR st = false ->
  eval_arith st op = Ok st' ->
  HAS_ERROR st' = false ->
  exists (vind : Z) (v : value),
    values st' = vind :: drop 2 rest
    /\ value_pool st' !! Z.to_nat vind = Some v
    /\ value_tag v = T_NUMBER.
Proof.
  intros Hv He H He'. unfold eval_arith in H.
  bind_inv H. destruct a as [st1 r].
  apply pop_value_inv in E. destruct E as (vr & rest1 & Hv1 & -> & Hr).
  bind_inv H. destruct a as [st2 l].
  apply pop_value_inv in E. destruct E as (vl & rest2 & Hv2 & -> & Hl).
  simpl in Hv2. subst rest1.
  destruct l as [[| a | |]|]; try discriminate H.
  destruct r as [[| b | |]|]; try discriminate H.
  bind_inv H. destruct a0 as [st3 vind].
  destruct (HAS_ERROR st3) eqn:He3; [injection H as <-; congruence|].
  destruct (negb _); [discriminate H|].
  bind_inv H. injection H as <-.
  destruct (make_push_typed T_NUMBER (V_number a0) _ _ _ E He He3)
    as [Hvs Hls].
  exists vind, (V_number a0). split.
  - rewrite Hvs. simpl. rewrite <- Hv, Hv1. reflexivity.
  - split; [exact Hls|reflexivity].
Qed.

Lemma eval_eq_sound (h : heap) (st st' : state) (neq : bool) (rest : list Z) :
  values st = rest ->
  HAS_ERROR st = false ->
  value_pool st !! 0%nat = Some (V_boolean false) ->
  value_pool st !! 1%nat = Some (V_boolean true) ->
  eval_eq h st neq = Ok st' ->
  exists (vind : Z) (v : value),
    values st' = vind :: drop 2 rest
    /\ value_pool st' !! Z.to_nat vind = Some v
    /\ value_tag v = T_BOOLEAN.
Proof.
  intros Hv He Hf Ht H. unfold eval_eq in H.
  bind_inv H. destruct a as [st1 r].
  apply pop_value_inv in E. destruct E as (vr & rest1 & Hv1 & -> & Hr).
  bind_inv H. destruct a as [st2 l].
  apply pop_value_inv in E. destruct E as (vl & rest2 & Hv2 & -> & Hl).
  simpl in Hv2. subst rest1.
  destruct l as [lv|]; [|discriminate H].
  destruct r as [rv|]; [|destruct lv; discriminate H].
  bind_inv H.
  change (HAS_ERROR (set_values rest2 (set_values (vl :: rest2) st)))
    with (HAS_ERROR st) in H.
  rewrite He in H. injection H as <-.
  exists (if a then 1 else 0), (V_boolean a). split.
  - simpl. rewrite <- Hv, Hv1. destruct a; reflexivity.
  - split; [|reflexivity]. destruct a; simpl; assumption.
Qed.

Section EvalSound.
Variable h : heap.
Variable pool0 : list value.
Variable ev : expr -> state -> outcome state.
Hypothesis pool0_false : pool0 !! 0%nat = Some (V_boolean false).
Hypothesis pool0_true : pool0 !! 1%nat = Some (V_boolean true).
Hypothesis ev_keeps :
  forall (e : expr) (st st' : state), ev e st = Ok st' -> eval_keeps st st'.
Hypothesis ev_sticky :
  forall (e : expr) (st st' : state),
    ev e st = Ok st' -> HAS_ERROR st = true -> HAS_ERROR st' = true.
Hypothesis ev_sound :
  forall (e : expr) (st st' : state),
    expr_typed pool0 e = true ->
    pool0 `prefix_of` value_pool st ->
    ev e st = Ok st' ->
    HAS_ERROR st' = false ->
    pushes_typed st st' (expr_type e).

Lemma keeps_prefix (st st' : state) :
  pool0 `prefix_of` value_pool st -> eval_keeps st st' ->
  pool0 `prefix_of` value_pool st'.
Proof. intros P (_ & _ & K). etrans; eassumption. Qed.

Lemma eval_pred_values (e : expr) (st st' : state) (b : bool) :
  pred_typed pool0 e = true ->
  pool0 `prefix_of` value_pool st ->
  eval_pred ev e st = Ok (st', b) ->
  values st' = values st.
Proof.
  intros T P H. apply andb_true_iff in T. destruct T as [T _].
  unfold eval_pred in H. bind_inv H. rename a into st1.
  bind_inv H. destruct a as [st2 v].
  apply pop_value_inv in E0. destruct E0 as (vind & rest & Hv & -> & Hr).
  destruct v as [v|]; [|discriminate H]. destruct Hr as [He1 _].
  destruct (ev_sound e st st1 T P E He1) as (vind' & v' & Hv' & _).
  rewrite Hv' in Hv. injection Hv as _ <-.
  destruct v; try discriminate H; injection H as <- _; reflexivity.
Qed.

Lemma pred_loop_values (e : expr) (n : nat) :
  forall (st : state) (next : list node) (i : nat) (st' : state)
         (next' : list node),
    pred_typed pool0 e = true ->
    pool0 `prefix_of` value_pool st ->
    pred_loop ev n e st next i = Ok (st', next') ->
    values st' = values st.
Proof.
  induction n as [|n IH]; intros st next i st' next' T P H;
    cbn [pred_loop] in H; destruct (next !! i) as [c|];
    try (injection H as <- _; reflexivity); [discriminate H|].
  bind_inv H. destruct a as [st1 keep].
  pose proof E as Hv. apply eval_pred_values in Hv; [|exact T|exact P].
  pose proof (eval_pred_keeps ev ev_keeps _ _ _ _ E) as K.
  assert (P1 : pool0 `prefix_of`
                 value_pool (set_ctx_pos (uint_wrap (ctx_pos st1 + 1)) st1)).
  { apply (keeps_prefix (set_ctx (Some c) st)); [exact P|exact K]. }
  destruct keep; apply IH in H; try assumption; rewrite H; exact Hv.
Qed.

Lemma apply_predicates_values (preds : list expr) :
  forall (st : state) (next : list node) (st' : state) (next' : list node),
    forallb (pred_typed pool0) preds = true ->
    pool0 `prefix_of` value_pool st ->
    apply_predicates ev preds st next = Ok (st', next') ->
    values st' = values st.
Proof.
  induction preds as [|p rest IH]; intros st next st' next' T P H;
    cbn [apply_predicates] in H.
  - injection H as <- _. reflexivity.
  - simpl in T. apply andb_true_iff in T. destruct T as [Tp Tr].
    bind_inv H. destruct a as [st2 next1].
    pose proof E as Hv. apply pred_loop_values in Hv; [|exact Tp|exact P].
    pose proof (pred_loop_keeps ev ev_keeps _ _ _ _ _ _ _ E) as K.
    apply IH in H; [|exact Tr|].
    + rewrite H. exact Hv.
    + eapply keeps_prefix; [|exact K]. exact P.
Qed.

Lemma ns_steps_values (fuel : nat) (steps : list step) :
  forall (st : state) (work : list node) (nss : list (list node))
         (st' : state) (nss' : list (list node)),
    forallb (step_typed pool0) steps = true ->
    pool0 `prefix_of` value_pool st ->
    ns_steps fuel h ev steps st work nss = Ok (st', nss') ->
    values st' = values st.
Proof.
  induction steps as [|s rest IH]; intros st work nss st' nss' T P H;
    cbn [ns_steps] in H.
  - injection H as <- _. reflexivity.
  - simpl in T. apply andb_true_iff in T. destruct T as [Ts Tr].
    bind_inv H. rename a into next.
    bind_inv H. destruct a as [st1 next1].
    destruct s as [ax nm [preds|]]; cbn [step_predicates] in E0.
    + pose proof E0 as Hv.
      apply apply_predicates_values in Hv; [|exact Ts|exact P].
      pose proof (apply_predicates_keeps ev ev_keeps _ _ _ _ _ E0) as K.
      apply IH in H; [|exact Tr|eapply keeps_prefix; [exact P|exact K]].
      rewrite H. exact Hv.
    + injection E0 as <- <-. apply IH in H; assumption.
Qed.

Lemma eval_locpath_sound (fuel : nat) (steps : list step) (st st' : state) :
  forallb (step_typed pool0) steps = true ->
  pool0 `prefix_of` value_pool st ->
  eval_locpath fuel h ev (Some steps) st = Ok st' ->
  HAS_ERROR st' = false ->
  pushes_typed st st' T_NODESET.
Proof.
  intros T P H He'. unfold eval_locpath, ns_from_locpath in H.
  destruct (HAS_ERROR st) eqn:He.
  { cbn [obind] in H. rewrite He in H. injection H as <-. congruence. }
  destruct (ctx st) as [c|]; [|discriminate H].
  bind_inv H. destruct a as [st1 r].
  bind_inv E. destruct a as [st0 nss]. injection E as <- <-.
  pose proof E0 as Hv. apply ns_steps_values in Hv; [|exact T|exact P].
  match type of H with
  | (if HAS_ERROR ?s then _ else _) = _ => destruct (HAS_ERROR s) eqn:He1
  end; [injection H as <-; congruence|].
  bind_inv H. destruct a as [st2 vind].
  destruct (HAS_ERROR st2) eqn:He2; [injection H as <-; congruence|].
  destruct (last nss) as [final|]; [|discriminate H].
  injection H as <-.
  destruct (make_push_typed T_NODESET (V_nodeset final) _ _ _ E He1 He2)
    as [Hvs Hls].
  exists vind, (V_nodeset final). split.
  - rewrite Hvs. simpl. rewrite Hv. reflexivity.
  - split; [exact Hls|reflexivity].
Qed.

Lemma eval_binary_sound (ty : type) (op : binary_op) (l r : expr)
    (st st' : state) :
  expr_typed pool0 (E_BINARY ty op l r) = true ->
  pool0 `prefix_of` value_pool st ->
  eval_binary h ev op l r st = Ok st' ->
  HAS_ERROR st' = false ->
  pushes_typed st st' ty.
Proof.
  intros T P H He'. simpl in T.
  apply andb_true_iff in T. destruct T as [T Tb].
  apply andb_true_iff in T. destruct T as [Tl Tr].
  apply bool_decide_eq_true_1 in Tb.
  unfold eval_binary in H.
  bind_inv H. rename a into st1. bind_inv H. rename a into st2.
  destruct (HAS_ERROR st2) eqn:He2; [injection H as <-; congruence|].
  destruct (HAS_ERROR st1) eqn:He1.
  { rewrite (ev_sticky _ _ _ E0 He1) in He2. discriminate He2. }
  pose proof (ev_keeps _ _ _ E) as K1.
  pose proof (ev_keeps _ _ _ E0) as K2.
  pose proof (keeps_prefix _ _ P K1) as P1.
  pose proof (keeps_prefix _ _ P1 K2) as P2.
  destruct (ev_sound l st st1 Tl P E He1) as (vl & lv & Hvl & Hll & Htl).
  destruct (ev_sound r st1 st2 Tr P1 E0 He2) as (vr & rv & Hvr & Hlr & Htr).
  rewrite Hvl in Hvr.
  assert (Hres :
    exists (vind : Z) (v : value),
      values st' = vind :: values st
      /\ value_pool st' !! Z.to_nat vind = Some v
      /\ value_tag v
         = match op with OP_EQ | OP_NEQ => T_BOOLEAN | _ => T_NUMBER end).
  { destruct op;
      first
        [ destruct (eval_eq_sound h st2 st' _ _ Hvr He2
                      (prefix_lookup_Some _ _ _ _ pool0_false P2)
                      (prefix_lookup_Some _ _ _ _ pool0_true P2) H)
            as (vind & v & Hv & Hl & Ht)
        | destruct (eval_arith_sound st2 st' _ _ Hvr He2 H He')
            as (vind & v & Hv & Hl & Ht) ];
      exists vind, v; (split; [exact Hv|]); split; assumption. }
  destruct Hres as (vind & v & Hv & Hl & Ht).
  exists vind, v. split; [exact Hv|]. split; [exact Hl|].
  rewrite Ht. unfold binary_type in Tb.
  destruct op;
    match type of Tb with
    | (if ?c then _ else _) = _ => destruct c
    end; congruence.
Qed.

Lemma eval_app_sound (ty : type) (f : func) (args : list expr)
    (st st' : state) :
  expr_typed pool0 (E_APP ty f args) = true ->
  HAS_ERROR st = false ->
  eval_app ev f args st = Ok st' ->
  HAS_ERROR st' = false ->
  pushes_typed st st' ty.
Proof.
  intros T He H He'. simpl in T.
  apply andb_true_iff in T. destruct T as [T _].
  apply andb_true_iff in T. destruct T as [T _].
  apply andb_true_iff in T. destruct T as [Tt Tm].
  apply bool_decide_eq_true_1 in Tt, Tm.
  destruct (builtin_funcs_number f Tm) as [Ha Hf].
  unfold eval_app in H. rewrite Ha in H. cbn [eval_app_from] in H.
  rewrite Tt, Hf. exact (run_impl_sound _ _ _ H He He').
Qed.
End EvalSound.

Lemma eval_expr_keeps (fuel : nat) (h : heap) :
  forall (e : expr) (st st' : state),
    eval_expr fuel h e st = Ok st' -> eval_keeps st st'.
Proof.
  induction fuel as [|f IH]; intros e st st' H; [discriminate H|].
  cbn [eval_expr] in H.
  destruct (HAS_ERROR st) eqn:He.
  { injection H as <-. apply eval_keeps_refl. }
  destruct e as [ty lp|ty op l r|ty vind|ty fn args].
  - exact (proj1 (eval_locpath_keeps h _ IH _ _ _ _ H)).
  - exact (eval_binary_keeps h _ IH _ _ _ _ _ H).
  - injection H as <-. repeat split; reflexivity.
  - exact (eval_app_from_keeps _ IH _ _ _ _ _ He H).
Qed.

Lemma eval_expr_sticky (fuel : nat) (h : heap) (e : expr) (st st' : state) :
  eval_expr fuel h e st = Ok st' ->
  HAS_ERROR st = true -> HAS_ERROR st' = true.
Proof.
  destruct fuel as [|f]; intros H He; [discriminate H|].
  cbn [eval_expr] in H. rewrite He in H. injection H as <-. exact He.
Qed.

Lemma eval_expr_sound (h : heap) (pool0 : list value) :
  pool0 !! 0%nat = Some (V_boolean false) ->
  pool0 !! 1%nat = Some (V_boolean true) ->
  forall (fuel : nat) (e : expr) (st st' : state),
    expr_typed pool0 e = true ->
    pool0 `prefix_of` value_pool st ->
    eval_expr fuel h e st = Ok st' ->
    HAS_ERROR st' = false ->
    pushes_typed st st' (expr_type e).
Proof.
  intros Hf Ht. induction fuel as [|f IH]; intros e st st' T P H He';
    [discriminate H|].
  cbn [eval_expr] in H.
  destruct (HAS_ERROR st) eqn:He; [injection H as <-; congruence|].
  destruct e as [ty lp|ty op l r|ty vind|ty fn args]; cbn [expr_type].
  - simpl in T. apply andb_true_iff in T. destruct T as [Tt Ts].
    apply bool_decide_eq_true_1 in Tt. subst ty.
    destruct lp as [steps|]; [|discriminate Ts].
    exact (eval_locpath_sound h pool0 _ (eval_expr_keeps f h) IH
             f steps st st' Ts P H He').
  - exact (eval_binary_sound h pool0 _ Hf Ht (eval_expr_keeps f h)
             (eval_expr_sticky f h) IH ty op l r st st' T P H He').
  - injection H as <-. simpl in T.
    destruct (pool0 !! Z.to_nat vind) as [v|] eqn:Hl; [|discriminate T].
    apply bool_decide_eq_true_1 in T. subst ty.
    exists vind, v. split; [reflexivity|]. split; [|reflexivity].
    exact (prefix_lookup_Some _ _ _ _ Hl P).
  - exact (eval_app_sound pool0 _ ty fn args st st' T He H He').
Qed.

(** X15: the type checker is sound for the evaluator.  Let [e] be an
    expression as the parser makes it, and [e1] what the type checker
    makes of it without raising an error, over a value pool that has the
    two boolean constants in its first slots.  In every state whose value
    pool extends that pool, an evaluation of [e1] that comes to an end
    without an error has pushed exactly one value on the stack of values,
    and the tag of that value is the type the checker gave [e1]. *)
Theorem checked_expr_evaluates_to_its_type (fc fuel : nat) (h : heap)
    (e e1 : expr) (st0 st1 st st' : state) :
  expr_wf (length (value_pool st0)) e = true ->
  (expr_size e <= fc)%nat ->
  check_expr fc e st0 = Ok (st1, e1) ->
  HAS_ERROR st1 = false ->
  value_pool st0 !! 0%nat = Some (V_boolean false) ->
  value_pool st0 !! 1%nat = Some (V_boolean true) ->
  value_pool st0 `prefix_of` value_pool st ->
  eval_expr fuel h e1 st = Ok st' ->
  HAS_ERROR st' = false ->
  exists (vind : Z) (v : value),
    values st' = vind :: values st
    /\ value_pool st' !! Z.to_nat vind = Some v
    /\ value_tag v = expr_type e1.
Proof.
  intros W Hk Hc He1 Hf Ht P Hev He'.
  destruct (check_expr_total fc e st0 Hk W) as (st1' & e1' & Hc' & _ & T).
  rewrite Hc in Hc'. injection Hc' as <- <-.
  exact (eval_expr_sound h (value_pool st0) Hf Ht fuel e1 st st'
           (T He1) P Hev He').
Qed.

Lemma checked_expr_evaluates_to_its_type_witness :
  expr_wf (length (value_pool (px_state parsed_b))) unchecked_b = true
  /\ (expr_size unchecked_b <= 3)%nat
  /\ check_expr 3 unchecked_b (px_state parsed_b)
     = Ok (px_state parsed_b, expr_b)
  /\ HAS_ERROR (px_state parsed_b) = false
  /\ value_pool (px_state parsed_b) !! 0%nat = Some (V_boolean false)
  /\ value_pool (px_state parsed_b) !! 1%nat = Some (V_boolean true)
  /\ value_pool (px_state parsed_b) `prefix_of` value_pool state_b
  /\ eval_expr 20 scenario expr_b state_b = Ok evaluated_b
  /\ HAS_ERROR evaluated_b = false
  /\ exists (vind : Z) (v : value),
       values evaluated_b = vind :: values state_b
       /\ value_pool evaluated_b !! Z.to_nat vind = Some v
       /\ value_tag v = expr_type expr_b.
Proof.
  assert (W : expr_wf (length (value_pool (px_state parsed_b))) unchecked_b
              = true) by (vm_compute; reflexivity).
  assert (Hk : (expr_size unchecked_b <= 3)%nat) by (vm_compute; lia).
  assert (Hc : check_expr 3 unchecked_b (px_state parsed_b)
               = Ok (px_state parsed_b, expr_b)) by (vm_compute; reflexivity).
  assert (He1 : HAS_ERROR (px_state parsed_b) = false)
    by (vm_compute; reflexivity).
  assert (Hf : value_pool (px_state parsed_b) !! 0%nat
               = Some (V_boolean false)) by (vm_compute; reflexivity).
  assert (Ht : value_pool (px_state parsed_b) !! 1%nat
               = Some (V_boolean true)) by (vm_compute; reflexivity).
  assert (P : value_pool (px_state parsed_b) `prefix_of` value_pool state_b)
    by (exists []; vm_compute; reflexivity).
  assert (Hev : eval_expr 20 scenario expr_b state_b = Ok evaluated_b)
    by (vm_compute; reflexivity).
  assert (He' : HAS_ERROR evaluated_b = false) by (vm_compute; reflexivity).
  repeat (split; [assumption|]).
  exact (checked_expr_evaluates_to_its_type 3 20 scenario unchecked_b expr_b
           (px_state parsed_b) (px_state parsed_b) state_b evaluated_b
           W Hk Hc He1 Hf Ht P Hev He').
Defined.

(** What [pathx_parse] returns with [PATHX_NOERROR]. *)
Lemma pathx_parse_typed (fp : nat) (tree : option node) (text : string)
    (p : pathx) :
  (String.length text < fp)%nat ->
  pathx_parse fp tree text = Ok (PATHX_NOERROR, p) ->
  exists e : expr,
    exprs (px_state p) = [e]
    /\ expr_typed (value_pool (px_state p)) e = true
    /\ expr_type e = T_NODESET
    /\ values (px_state p) = []
    /\ value_pool (px_state p) !! 0%nat = Some (V_boolean false)
    /\ value_pool (px_state p) !! 1%nat = Some (V_boolean true)
    /\ px_nodeset p = None
    /\ px_origin p = tree.
Proof.
  intros Hr H. unfold pathx_parse in H.
  destruct (parse_expr_parses fp (init_state text) Hr) as (st1 & E & A & P).
  rewrite E in H. cbn [obind] in H.
  destruct (HAS_ERROR st1) eqn:He.
  { injection H as Hc _. unfold HAS_ERROR in He. rewrite Hc in He.
    discriminate He. }
  destruct (P eq_refl) as (e & [X W S]).
  simpl in X, W. rewrite X in H. rewrite andb_true_r in W.
  destruct (check_expr_total fp e st1) as (st2 & e1 & Hc & C & T).
  { change (remaining (init_state text)) with (String.length text) in S.
    simpl in S. lia. }
  { exact W. }
  rewrite Hc in H. cbn [obind] in H.
  change (HAS_ERROR (set_exprs [e1] st2)) with (HAS_ERROR st2) in H.
  destruct (HAS_ERROR st2) eqn:He2.
  { injection H as Hcode _. unfold HAS_ERROR in He2. simpl in Hcode.
    rewrite Hcode in He2. discriminate He2. }
  destruct (negb (bool_decide (expr_type e1 = T_NODESET))
            || negb (bool_decide (tag_of e1 = Tag_LOCPATH))) eqn:Hty.
  { injection H as Hcode _. discriminate Hcode. }
  injection H as _ <-. simpl.
  apply orb_false_iff in Hty. destruct Hty as [Hty _].
  apply negb_false_iff, bool_decide_eq_true_1 in Hty.
  pose proof (checked_noerr _ _ C He2) as ->.
  destruct (adv_ctx _ _ A) as (_ & _ & _ & Hv).
  pose proof (adv_prefix _ _ A) as Hp.
  exists e1. split; [reflexivity|]. split; [exact (T eq_refl)|].
  split; [exact Hty|]. split; [exact Hv|].
  split; [apply (prefix_lookup_Some _ _ 0%nat _) with (2 := Hp); reflexivity|].
  split; [apply (prefix_lookup_Some _ _ 1%nat _) with (2 := Hp); reflexivity|].
  split; reflexivity.
Qed.

(** X16: a path that [pathx_parse] accepted evaluates to a node set.  When
    the evaluation of its expression, from the state [pathx_first] sets
    up, comes to an end without an error, the stack of values holds
    exactly one index, and the slot of the value pool at that index is a
    node set [ns]: [pathx_first] does not raise [PATHX_EINTERNAL], and the
    [nodeset] member it reads from the popped value is the member that was
    written.  [pathx_first] returns the first entry of that [ns], or
    absent when [ns] is empty, and keeps [ns] in the path with the cursor
    at 0. *)
Theorem parsed_path_yields_nodeset (fp fuel : nat) (tree : option node)
    (text : string) (p : pathx) (h : heap) (e : expr) (st1 : state) :
  (String.length text < fp)%nat ->
  pathx_parse fp tree text = Ok (PATHX_NOERROR, p) ->
  exprs_bottom (px_state p) = Some e ->
  eval_expr fuel h e
    (set_ctx_len 1 (set_ctx_pos 1 (set_ctx tree (px_state p)))) = Ok st1 ->
  HAS_ERROR st1 = false ->
  exists (vind : Z) (ns : list node),
    values st1 = [vind]
    /\ value_pool st1 !! Z.to_nat vind = Some (V_nodeset ns)
    /\ pathx_first fuel h p
       = Ok (ns !! 0%nat,
             set_px_node 0
               (set_px_nodeset (Some ns)
                  (set_px_state (set_values [] st1) p))).
Proof.
  intros Hr Hp Hb Hev He.
  destruct (pathx_parse_typed fp tree text p Hr Hp)
    as (e' & X & T & Hty & Hv & Hf & Ht & Hns & Ho).
  unfold exprs_bottom in Hb. rewrite X in Hb. simpl in Hb.
  injection Hb as <-.
  assert (Hpre : value_pool (px_state p)
                 `prefix_of`
                 value_pool
                   (set_ctx_len 1 (set_ctx_pos 1 (set_ctx tree (px_state p)))))
    by reflexivity.
  destruct (eval_expr_sound h _ Hf Ht fuel e' _ st1 T Hpre Hev He)
    as (vind & v & Hvs & Hl & Htag).
  simpl in Hvs. rewrite Hv in Hvs. rewrite Hty in Htag.
  destruct v; try discriminate Htag.
  exists vind, ns. split; [exact Hvs|]. split; [exact Hl|].
  unfold pathx_first. rewrite Hns, Ho.
  unfold exprs_bottom. simpl. rewrite X. simpl.
  rewrite Hev. cbn [obind]. rewrite He, Hvs. simpl.
  rewrite (pop_value_top st1 vind [] (V_nodeset ns) Hvs He Hl).
  reflexivity.
Qed.

Lemma parsed_path_yields_nodeset_witness :
  (String.length "/b" < 10)%nat
  /\ pathx_parse 10 (Some 0%nat) "/b" = Ok (PATHX_NOERROR, parsed_b)
  /\ exprs_bottom (px_state parsed_b) = Some expr_b
  /\ eval_expr 20 scenario expr_b
       (set_ctx_len 1 (set_ctx_pos 1 (set_ctx (Some 0%nat) (px_state parsed_b))))
     = Ok evaluated_b
  /\ HAS_ERROR evaluated_b = false
  /\ values evaluated_b = [2]
  /\ value_pool evaluated_b !! Z.to_nat 2 = Some (V_nodeset [2%nat])
  /\ exists (vind : Z) (ns : list node),
       values evaluated_b = [vind]
       /\ value_pool evaluated_b !! Z.to_nat vind = Some (V_nodeset ns)
       /\ pathx_first 20 scenario parsed_b
          = Ok (ns !! 0%nat,
                set_px_node 0
                  (set_px_nodeset (Some ns)
                     (set_px_state (set_values [] evaluated_b) parsed_b))).
Proof.
  assert (Hr : (String.length "/b" < 10)%nat) by (vm_compute; lia).
  assert (Hp : pathx_parse 10 (Some 0%nat) "/b" = Ok (PATHX_NOERROR, parsed_b))
    by (vm_compute; reflexivity).
  assert (Hb : exprs_bottom (px_state parsed_b) = Some expr_b)
    by (vm_compute; reflexivity).
  assert (Hev : eval_expr 20 scenario expr_b
                  (set_ctx_len 1
                     (set_ctx_pos 1 (set_ctx (Some 0%nat) (px_state parsed_b))))
                = Ok evaluated_b) by (vm_compute; reflexivity).
  assert (He : HAS_ERROR evaluated_b = false) by (vm_compute; reflexivity).
  assert (Hvs : values evaluated_b = [2]) by (vm_compute; reflexivity).
  assert (Hl : value_pool evaluated_b !! Z.to_nat 2
               = Some (V_nodeset [2%nat])) by (vm_compute; reflexivity).
  repeat (split; [assumption|]).
  exact (parsed_path_yields_nodeset 10 20 (Some 0%nat) "/b" parsed_b scenario
           expr_b evaluated_b Hr Hp Hb Hev He).
Defined.

(** ** The axes [descendant] and [descendant-or-self] *)

Lemma tree_at_unfold (h : heap) (par : node) (nxt : option node) (n : node)
    (kids : list rtree) :
  tree_at h par nxt (RNode n kids)
  <-> exists tn : tree,
        h !! n = Some tn
        /\ parent tn = par /\ next tn = nxt
        /\ children tn = first_node kids
        /\ forest_at h n kids.
Proof.
  assert (Hf : forall ks,
             (fix forest (ks : list rtree) : Prop :=
                match ks with
                | [] => True
                | k :: rest =>
                    tree_at h n (first_node rest) k /\ forest rest
                end) ks <-> forest_at h n ks).
  { induction ks as [|k rest IH]; simpl; [tauto|]. rewrite IH. tauto. }
  simpl. split; intros (tn & H1 & H2 & H3 & H4 & H5); exists tn;
    repeat split; try assumption; apply Hf; exact H5.
Qed.

Lemma axis_walk_mono (h : heap) (a : axis) (ctx : node) (D D' : nat) :
  (D <= D')%nat ->
  forall (l : list node) (start fin : option node),
    axis_walk h D a ctx l start fin -> axis_walk h D' a ctx l start fin.
Proof.
  intros HD. induction l as [|n l IH]; intros start fin H; simpl in *.
  - exact H.
  - destruct H as (Hs & t & nxt & Ht & Hn & Hw). split; [exact Hs|].
    exists t, nxt. split; [exact Ht|]. split.
    + intros d Hd. apply Hn. lia.
    + apply IH, Hw.
Qed.

Lemma axis_walk_app (h : heap) (a : axis) (ctx : node) (D : nat)
    (l1 l2 : list node) :
  forall start mid fin : option node,
    axis_walk h D a ctx l1 start mid ->
    axis_walk h D a ctx l2 mid fin ->
    axis_walk h D a ctx (l1 ++ l2) start fin.
Proof.
  induction l1 as [|n l1 IH]; intros start mid fin H1 H2; simpl in *.
  - subst mid. exact H2.
  - destruct H1 as (Hs & t & nxt & Ht & Hn & Hw). split; [exact Hs|].
    exists t, nxt. split; [exact Ht|]. split; [exact Hn|].
    apply (IH _ mid); assumption.
Qed.

Lemma step_next_walk (h : heap) (s : step) (ctx : node) (D : nat) :
  forall (fuel : nat) (l : list node) (n : node),
    axis_walk h D (step_axis s) ctx (n :: l) (Some n) None ->
    (D + length l < fuel)%nat ->
    step_next fuel h s ctx (Some n)
    = Ok (head (List.filter (node_matches h s) l)).
Proof.
  induction fuel as [|f IH]; intros l n Hw Hf; [lia|].
  destruct Hw as (_ & t & nxt & Ht & Hn & Hw).
  cbn [step_next]. rewrite (Hn f); [|lia]. cbn [obind].
  destruct l as [|m l'].
  - simpl in Hw. subst nxt. reflexivity.
  - pose proof Hw as Hw'. destruct Hw as (-> & tm & nxt' & Htm & _).
    unfold deref. rewrite Htm. cbn [obind]. simpl List.filter.
    unfold node_matches at 1. rewrite Htm.
    destruct (step_matches s tm); [reflexivity|].
    apply IH; [exact Hw'|simpl in Hf; lia].
Qed.

Lemma step_collect_walk (h : heap) (s : step) (ctx : node) (D fuel : nat) :
  forall (l : list node) (start : option node) (k : nat) (acc : list node),
    axis_walk h D (step_axis s) ctx l start None ->
    (length l <= k)%nat ->
    (D + length l < fuel)%nat ->
    step_collect fuel h k s ctx (head (List.filter (node_matches h s) l)) acc
    = Ok (acc ++ List.filter (node_matches h s) l).
Proof.
  induction l as [|x l IH]; intros start k acc Hw Hk Hf.
  - simpl. destruct k; simpl; rewrite app_nil_r; reflexivity.
  - pose proof Hw as Hw'. destruct Hw as (Hs & t & nxt & Ht & Hn & Hw).
    simpl List.filter. destruct (node_matches h s x) eqn:Hx.
    + simpl head. destruct k as [|k]; [simpl in Hk; lia|].
      simpl step_collect.
      rewrite (step_next_walk h s ctx D fuel l x);
        [|split; [reflexivity|exists t, nxt; repeat split; assumption]
         |simpl in Hf; lia].
      cbn [obind].
      rewrite (IH nxt k (acc ++ [x]) Hw); [|simpl in Hk; lia|simpl in Hf; lia].
      rewrite <- app_assoc. reflexivity.
    + apply (IH nxt k acc Hw); simpl in *; lia.
Qed.

Lemma continues_ctx (h : heap) (ctx : node) (t : tree) :
  h !! ctx = Some t -> continues h 1%nat ctx ctx None.
Proof.
  intros Ht d Hd. destruct d as [|d]; [lia|].
  unfold climb_next. cbn [climb_to_next]. unfold deref. rewrite Ht.
  cbn [obind]. rewrite Nat.eqb_refl.
  destruct (next t); cbn [obind]; rewrite Nat.eqb_refl; reflexivity.
Qed.

Lemma continues_next (h : heap) (ctx n m : node) (t : tree) :
  h !! n = Some t -> next t = Some m -> n <> ctx ->
  continues h 1%nat ctx n (Some m).
Proof.
  intros Ht Hn Hne d Hd. destruct d as [|d]; [lia|].
  unfold climb_next. cbn [climb_to_next]. unfold deref. rewrite Ht.
  cbn [obind]. rewrite Hn. cbn [obind].
  apply Nat.eqb_neq in Hne. rewrite Hne. rewrite Ht. cbn [obind].
  rewrite Hn. reflexivity.
Qed.

Lemma continues_up (h : heap) (D : nat) (ctx n : node) (t : tree)
    (k : option node) :
  h !! n = Some t -> next t = None -> n <> ctx ->
  continues h D ctx (parent t) k ->
  continues h (S D) ctx n k.
Proof.
  intros Ht Hn Hne Hc d Hd. destruct d as [|d]; [lia|].
  unfold climb_next. cbn [climb_to_next]. unfold deref at 1. rewrite Ht.
  cbn [obind]. rewrite Hn.
  apply Nat.eqb_neq in Hne. rewrite Hne.
  apply (Hc d). lia.
Qed.

Lemma continues_mono (h : heap) (D D' : nat) (ctx n : node)
    (k : option node) :
  (D <= D')%nat -> continues h D ctx n k -> continues h D' ctx n k.
Proof. intros HD H d Hd. apply H. lia. Qed.

Lemma descendant_axis_next (h : heap) (a : axis) (ctx n : node) (t : tree)
    (d : nat) :
  a = DESCENDANT \/ a = DESCENDANT_OR_SELF ->
  h !! n = Some t ->
  axis_next d h a ctx n
  = match children t with
    | Some c => Ok (Some c)
    | None => climb_next d h ctx n
    end.
Proof.
  intros [-> | ->] Ht; unfold axis_next, deref; rewrite Ht; reflexivity.
Qed.

(** The walk through the trees of a sibling list below [n], given the
    walk through each of them. *)
Lemma walk_forest (h : heap) (a : axis) (ctx : node) (b : nat) :
  (forall (t : rtree) (par : node) (nxt k : option node) (D : nat),
      (length (preorder t) <= b)%nat ->
      tree_at h par nxt t ->
      ~ In ctx (preorder t) ->
      continues h D ctx (rroot t) k ->
      axis_walk h (D + length (preorder t)) a ctx (preorder t)
        (Some (rroot t)) k) ->
  forall (n : node) (D : nat) (k : option node) (ks : list rtree),
    ks <> [] ->
    (length (flat_map preorder ks) <= b)%nat ->
    forest_at h n ks ->
    ~ In ctx (flat_map preorder ks) ->
    continues h D ctx n k ->
    axis_walk h (S D + length (flat_map preorder ks)) a ctx
      (flat_map preorder ks) (first_node ks) k.
Proof.
  intros IH n D k.
  induction ks as [|k0 ks IHks]; intros Hne0 Hlen Hfo Hno Hk; [congruence|].
  destruct Hfo as [Ht0 Hfo]. simpl in Hlen, Hno.
  rewrite length_app in Hlen. rewrite in_app_iff in Hno.
  cbn [flat_map first_node].
  pose proof Ht0 as Ht0'. destruct k0 as [n0 kids0].
  apply tree_at_unfold in Ht0'.
  destruct Ht0' as (t0 & Hn0 & Hp0 & Hx0 & _).
  assert (Hne1 : n0 <> ctx).
  { intros ->. apply Hno. left. left. reflexivity. }
  destruct ks as [|k2 ks'].
  - simpl. rewrite app_nil_r.
    assert (Hk0 : continues h (S D) ctx (rroot (RNode n0 kids0)) k).
    { simpl. apply (continues_up h D ctx n0 t0 k Hn0 Hx0 Hne1).
      rewrite Hp0. exact Hk. }
    apply (IH (RNode n0 kids0) n None k (S D)); try assumption.
    + simpl in Hlen |- *. lia.
    + tauto.
  - assert (Hk0 : continues h 1%nat ctx (rroot (RNode n0 kids0))
                    (first_node (k2 :: ks'))).
    { simpl. apply (continues_next h ctx n0 (rroot k2) t0 Hn0 Hx0 Hne1). }
    apply (axis_walk_app _ _ _ _ _ _ _ (first_node (k2 :: ks'))).
    + apply (axis_walk_mono h a ctx
               (1 + length (preorder (RNode n0 kids0)))%nat);
        [rewrite length_app; lia|].
      apply (IH (RNode n0 kids0) n (first_node (k2 :: ks'))
               (first_node (k2 :: ks')) 1%nat); try assumption.
      * lia.
      * tauto.
    + apply (axis_walk_mono h a ctx
               (S D + length (flat_map preorder (k2 :: ks'))));
        [rewrite length_app; lia|].
      apply IHks; [discriminate|lia|exact Hfo|tauto|exact Hk].
Qed.

(** The walk through a tree below the context. *)
Lemma walk_tree (h : heap) (a : axis) (ctx : node) :
  a = DESCENDANT \/ a = DESCENDANT_OR_SELF ->
  forall (b : nat) (t : rtree) (par : node) (nxt k : option node) (D : nat),
    (length (preorder t) <= b)%nat ->
    tree_at h par nxt t ->
    ~ In ctx (preorder t) ->
    continues h D ctx (rroot t) k ->
    axis_walk h (D + length (preorder t)) a ctx (preorder t)
      (Some (rroot t)) k.
Proof.
  intros Ha. induction b as [|b IH]; intros t par nxt k D Hb Ht Hnc Hk;
    destruct t as [n kids]; [simpl in Hb; lia|].
  apply tree_at_unfold in Ht.
  destruct Ht as (tn & Hn & Hp & Hx & Hc & Hf).
  simpl in Hb, Hnc, Hk. cbn [preorder rroot length].
  assert (Hne : n <> ctx) by (intros ->; apply Hnc; left; reflexivity).
  assert (Hnk : ~ In ctx (flat_map preorder kids)).
  { intros Hin. apply Hnc. right. exact Hin. }
  split; [reflexivity|].
  exists tn, (match kids with [] => k | _ => first_node kids end).
  split; [exact Hn|]. split.
  { intros d Hd. rewrite (descendant_axis_next h a ctx n tn d Ha Hn), Hc.
    destruct kids as [|k1 rest]; simpl; [apply Hk; lia|reflexivity]. }
  destruct kids as [|k1 rest]; [reflexivity|].
  apply (axis_walk_mono h a ctx
           (S D + length (flat_map preorder (k1 :: rest)))); [lia|].
  apply (walk_forest h a ctx b IH n);
    [discriminate|lia|exact Hf|exact Hnk|exact Hk].
Qed.

Lemma step_first_walk (h : heap) (s : step) (ctx : node) (tctx : tree)
    (D fuel : nat) (l : list node) (start : option node) :
  h !! ctx = Some tctx ->
  (step_axis s = DESCENDANT /\ start = children tctx)
  \/ (step_axis s = DESCENDANT_OR_SELF /\ start = Some ctx) ->
  axis_walk h D (step_axis s) ctx l start None ->
  (D + length l < fuel)%nat ->
  step_first fuel h s ctx = Ok (head (List.filter (node_matches h s) l)).
Proof.
  intros Hc Hax Hw Hf.
  assert (Hcand :
    (do '(ctx', cand) <-
       match step_axis s with
       | SELF | DESCENDANT_OR_SELF => Ok (ctx, Some ctx)
       | CHILD | DESCENDANT => do t <- deref h ctx; Ok (ctx, children t)
       | PARENT | ANCESTOR => do t <- deref h ctx; Ok (ctx, Some (parent t))
       | ROOT => do r <- climb_to_root fuel h ctx; Ok (r, Some r)
       end;
     match cand with
     | None => Ok None
     | Some n =>
         do tn <- deref h n;
         if step_matches s tn then Ok (Some n)
         else step_next fuel h s ctx' (Some n)
     end)
    = match start with
      | None => Ok None
      | Some n =>
          do tn <- deref h n;
          if step_matches s tn then Ok (Some n)
          else step_next fuel h s ctx (Some n)
      end).
  { destruct Hax as [[Ha ->]|[Ha ->]]; rewrite Ha; unfold deref;
      [rewrite Hc|]; reflexivity. }
  unfold step_first. rewrite Hcand.
  destruct l as [|x l'].
  - simpl in Hw. subst start. reflexivity.
  - pose proof Hw as Hw'. destruct Hw as (-> & tx & nxt & Hx & _).
    unfold deref. rewrite Hx. cbn [obind]. simpl List.filter.
    unfold node_matches at 1. rewrite Hx.
    destruct (step_matches s tx); [reflexivity|].
    apply (step_next_walk h s ctx D fuel l' x Hw'). simpl in Hf. lia.
Qed.

(** X17: the axes [descendant] and [descendant-or-self] yield the nodes
    below the context in document order.  For a context node whose
    subtree is the tree [RNode ctx kids] in the heap (every node with its
    parent, first-child and next-sibling links, the context not among its
    own descendants), the step expands the context to its descendants in
    pre-order, a node before its children and the children in sibling
    order, with the context first on [descendant-or-self], and keeps the
    ones that pass the name test: the climb from a node without children
    to the next sibling of the nearest ancestor that has one never leaves
    the subtree of the context. *)
Theorem descendant_axes_yield_preorder (fuel : nat) (h : heap) (s : step)
    (ctx par : node) (nxt : option node) (kids : list rtree) :
  step_axis s = DESCENDANT \/ step_axis s = DESCENDANT_OR_SELF ->
  tree_at h par nxt (RNode ctx kids) ->
  ~ In ctx (flat_map preorder kids) ->
  (2 * length (preorder (RNode ctx kids)) + 2 < fuel)%nat ->
  expand_work fuel h s [ctx] []
  = Ok (List.filter (node_matches h s)
          (match step_axis s with
           | DESCENDANT => flat_map preorder kids
           | _ => preorder (RNode ctx kids)
           end)).
Proof.
  intros Ha Ht Hnc Hf.
  apply tree_at_unfold in Ht.
  destruct Ht as (tctx & Hc & _ & _ & Hch & Hfo).
  cbn [preorder length] in Hf.
  set (flat := flat_map preorder kids) in *.
  pose proof (continues_ctx h ctx tctx Hc) as Hk.
  assert (Hflat : kids <> [] ->
                  axis_walk h (2 + length flat) (step_axis s) ctx flat
                    (first_node kids) None).
  { intros Hne.
    apply (walk_forest h (step_axis s) ctx (length flat)
             (walk_tree h (step_axis s) ctx Ha (length flat)) ctx 1%nat None
             kids Hne (le_n _) Hfo Hnc Hk). }
  assert (Hwalk :
    exists (l : list node) (start : option node),
      l = match step_axis s with
          | DESCENDANT => flat
          | _ => ctx :: flat
          end
      /\ ((step_axis s = DESCENDANT /\ start = children tctx)
          \/ (step_axis s = DESCENDANT_OR_SELF /\ start = Some ctx))
      /\ axis_walk h (2 + length flat) (step_axis s) ctx l start None).
  { destruct Ha as [Ha|Ha]; rewrite Ha in *.
    - exists flat, (children tctx). split; [reflexivity|].
      split; [left; split; reflexivity|]. rewrite Hch.
      destruct kids as [|k1 rest]; [reflexivity|].
      apply Hflat. discriminate.
    - exists (ctx :: flat), (Some ctx). split; [reflexivity|].
      split; [right; split; reflexivity|].
      split; [reflexivity|].
      exists tctx, (match kids with [] => None | _ => first_node kids end).
      split; [exact Hc|]. split.
      + intros d Hd.
        rewrite (descendant_axis_next h DESCENDANT_OR_SELF ctx ctx tctx d);
          [|right; reflexivity|exact Hc].
        rewrite Hch. destruct kids as [|k1 rest]; simpl;
          [apply Hk; lia|reflexivity].
      + destruct kids as [|k1 rest]; [reflexivity|].
        apply Hflat. discriminate. }
  destruct Hwalk as (l & start & Hl & Hax & Hw).
  assert (Hlen : (length l <= S (length flat))%nat).
  { rewrite Hl. destruct (step_axis s); simpl; lia. }
  change (preorder (RNode ctx kids)) with (ctx :: flat). rewrite <- Hl.
  cbn [expand_work].
  rewrite (step_first_walk h s ctx tctx (2 + length flat) fuel l start
             Hc Hax Hw); [|lia].
  cbn [obind].
  rewrite (step_collect_walk h s ctx (2 + length flat) fuel l start fuel []
             Hw); [reflexivity|lia|lia].
Qed.

Lemma descendant_axes_yield_preorder_witness :
  (step_axis (mk_step DESCENDANT (Some "c") None) = DESCENDANT
   \/ step_axis (mk_step DESCENDANT (Some "c") None) = DESCENDANT_OR_SELF)
  /\ tree_at scenario 0%nat None scenario_rtree
  /\ ~ In 0%nat
         (flat_map preorder
            [RNode 1%nat []; RNode 2%nat []; RNode 3%nat [RNode 4%nat []]])
  /\ (2 * length (preorder scenario_rtree) + 2 < 20)%nat
  /\ expand_work 20 scenario (mk_step DESCENDANT (Some "c") None) [0%nat] []
     = Ok (List.filter
             (node_matches scenario (mk_step DESCENDANT (Some "c") None))
             (flat_map preorder
                [RNode 1%nat []; RNode 2%nat [];
                 RNode 3%nat [RNode 4%nat []]])).
Proof.
  assert (Ha : step_axis (mk_step DESCENDANT (Some "c") None) = DESCENDANT
               \/ step_axis (mk_step DESCENDANT (Some "c") None)
                  = DESCENDANT_OR_SELF) by (left; reflexivity).
  assert (Ht : tree_at scenario 0%nat None scenario_rtree).
  { simpl. eexists. split; [reflexivity|]. simpl.
    repeat split; eexists; (split; [reflexivity|]); simpl;
      repeat split; eexists; (split; [reflexivity|]); simpl; repeat split. }
  assert (Hn : ~ In 0%nat
                 (flat_map preorder
                    [RNode 1%nat []; RNode 2%nat [];
                     RNode 3%nat [RNode 4%nat []]])).
  { simpl. intros H. repeat destruct H as [H|H]; try discriminate H.
    exact H. }
  assert (Hf : (2 * length (preorder scenario_rtree) + 2 < 20)%nat)
    by (simpl; lia).
  split; [exact Ha|]. split; [exact Ht|]. split; [exact Hn|].
  split; [exact Hf|].
  exact (descendant_axes_yield_preorder 20 scenario
           (mk_step DESCENDANT (Some "c") None) 0%nat 0%nat None
           [RNode 1%nat []; RNode 2%nat []; RNode 3%nat [RNode 4%nat []]]
           Ha Ht Hn Hf).
Defined.

(** ** Names and literals are read back as they were written *)

Lemma substring_prefix (a b : string) :
  substring 0 (String.length a) (a ++ b) = a.
Proof.
  induction a as [|c a IH]; [destruct b; reflexivity|].
  rewrite str_app_cons. simpl. rewrite IH. reflexivity.
Qed.

Lemma text_between_prefix (a b : string) :
  text_between (a ++ b) b = a.
Proof.
  unfold text_between. rewrite str_length_append.
  replace (String.length a + String.length b - String.length b)%nat
    with (String.length a) by lia.
  apply substring_prefix.
Qed.

Lemma name_stop_backslash : name_stop "\"%char = false.
Proof. reflexivity. Qed.

Lemma name_scan_escape (nm rest : string) :
  str_mem NUL nm = false ->
  name_stop (cur rest) = true ->
  name_scan (escape_name nm ++ rest) = (rest, false).
Proof.
  intros Hn Hr. induction nm as [|c nm IH].
  - simpl. rewrite str_app_nil. destruct rest as [|d r]; [reflexivity|].
    simpl in Hr |- *. rewrite Hr. reflexivity.
  - simpl in Hn. apply orb_false_iff in Hn. destruct Hn as [Hc Hn].
    specialize (IH Hn). cbn [escape_name].
    destruct (name_stop c || ascii_eqb c "\"%char) eqn:He.
    + rewrite !str_app_cons. cbn [name_scan].
      rewrite name_stop_backslash, Ascii.eqb_refl, Hc. exact IH.
    + apply orb_false_iff in He. destruct He as [Hs Hb].
      rewrite str_app_cons. cbn [name_scan]. rewrite Hs, Hb. exact IH.
Qed.

Lemma unescape_escape (nm : string) : unescape (escape_name nm) = nm.
Proof.
  induction nm as [|c nm IH]; [reflexivity|]. cbn [escape_name].
  destruct (name_stop c || ascii_eqb c "\"%char) eqn:He.
  - cbn [unescape]. rewrite Ascii.eqb_refl, IH. reflexivity.
  - apply orb_false_iff in He. destruct He as [_ Hb].
    cbn [unescape]. rewrite Hb, IH. reflexivity.
Qed.

Lemma escape_name_length (nm : string) :
  (String.length nm <= String.length (escape_name nm))%nat.
Proof.
  induction nm as [|c nm IH]; [simpl; lia|]. cbn [escape_name].
  destruct (name_stop c || ascii_eqb c "\"%char); simpl; lia.
Qed.

(** [parse_name] on the escaped text of a name, before what follows it. *)
Lemma parse_name_escaped (nm rest : string) (st : state) :
  nm <> EmptyString ->
  str_mem NUL nm = false ->
  name_stop (cur rest) = true ->
  pos st = (escape_name nm ++ rest)%string ->
  parse_name st = (set_pos rest st, Some nm).
Proof.
  intros Hne Hn Hr Hp. unfold parse_name. rewrite Hp.
  rewrite (name_scan_escape nm rest Hn Hr).
  assert (Hl : Nat.eqb (String.length rest)
                 (String.length (escape_name nm ++ rest)) = false).
  { apply Nat.eqb_neq. rewrite str_length_append.
    pose proof (escape_name_length nm). destruct nm; [congruence|].
    simpl in *. lia. }
  rewrite Hl, text_between_prefix, unescape_escape. reflexivity.
Qed.

(** X18: [parse_name] reads a name back as it was written.  For a name
    that is not empty and has no NUL in it, written with a backslash
    before each of its characters at which a name ends (the brackets, the
    slash, [=], white space) and before each backslash, and followed by
    the end of the text or by a character at which a name ends,
    [parse_name] returns the name, leaves the position at what follows
    the name, and raises no error. *)
Theorem parse_name_round_trip (nm rest : string) (st : state) :
  nm <> EmptyString ->
  str_mem NUL nm = false ->
  name_stop (cur rest) = true ->
  pos st = (escape_name nm ++ rest)%string ->
  parse_name st = (set_pos rest st, Some nm).
Proof.
  intros Hne Hn Hr Hp. unfold parse_name. rewrite Hp.
  rewrite (name_scan_escape nm rest Hn Hr).
  assert (Hl : Nat.eqb (String.length rest)
                 (String.length (escape_name nm ++ rest)) = false).
  { apply Nat.eqb_neq. rewrite str_length_append.
    pose proof (escape_name_length nm). destruct nm; [congruence|].
    simpl in *. lia. }
  rewrite Hl, text_between_prefix, unescape_escape. reflexivity.
Qed.

Lemma parse_name_round_trip_witness :
  "a b/c"%string <> EmptyString
  /\ str_mem NUL "a b/c" = false
  /\ name_stop (cur "[1]") = true
  /\ pos (init_state "a\ b\/c[1]") = (escape_name "a b/c" ++ "[1]")%string
  /\ parse_name (init_state "a\ b\/c[1]")
     = (set_pos "[1]" (init_state "a\ b\/c[1]"), Some "a b/c"%string).
Proof.
  assert (H1 : "a b/c"%string <> EmptyString) by discriminate.
  assert (H2 : str_mem NUL "a b/c" = false) by (vm_compute; reflexivity).
  assert (H3 : name_stop (cur "[1]") = true) by (vm_compute; reflexivity).
  assert (H4 : pos (init_state "a\ b\/c[1]")
               = (escape_name "a b/c" ++ "[1]")%string)
    by (vm_compute; reflexivity).
  split; [exact H1|]. split; [exact H2|]. split; [exact H3|].
  split; [exact H4|].
  exact (parse_name_round_trip "a b/c" "[1]" (init_state "a\ b\/c[1]")
           H1 H2 H3 H4).
Defined.

Lemma literal_scan_body (q : ascii) (body rest : string) :
  str_mem q body = false ->
  str_mem NUL body = false ->
  literal_scan q (body ++ String q rest) = String q rest.
Proof.
  intros Hq Hn. induction body as [|c body IH].
  - rewrite str_app_nil. cbn [literal_scan]. rewrite Ascii.eqb_refl.
    rewrite orb_true_r. reflexivity.
  - simpl in Hq, Hn. apply orb_false_iff in Hq, Hn.
    destruct Hq as [Hq1 Hq2]. destruct Hn as [Hn1 Hn2].
    rewrite str_app_cons. cbn [literal_scan]. rewrite Hq1, Hn1.
    simpl. apply IH; assumption.
Qed.

(** X19: [parse_literal] reads a string literal back as it was written.
    For a text that starts with a quote character (single or double), a
    body that has neither that quote nor a NUL in it, and the same quote
    again, in a state without an error whose value pool has a free slot,
    [parse_literal] makes a string value with the body as its text in the
    next slot of the pool, pushes the expression for that slot, and leaves
    the position after the closing quote. *)
Theorem parse_literal_round_trip (q : ascii) (body rest : string)
    (st : state) :
  q = DQUOTE \/ q = "'"%char ->
  str_mem q body = false ->
  str_mem NUL body = false ->
  pos st = String q (body ++ String q rest) ->
  HAS_ERROR st = false ->
  value_pool_used st < value_pool_size st ->
  exists st' : state,
    parse_literal st = Ok st'
    /\ pos st' = rest
    /\ errcode st' = errcode st
    /\ exprs st' = E_VALUE T_NONE (value_pool_used st) :: exprs st
    /\ value_pool st' = (value_pool st ++ [V_string (Some body)])%list.
Proof.
  intros Hq Hb Hn Hp He Hroom. unfold parse_literal. rewrite Hp.
  cbn [cur advance].
  assert (Hqq : ascii_eqb q DQUOTE || ascii_eqb q "'"%char = true).
  { destruct Hq as [-> | ->]; reflexivity. }
  rewrite Hqq, (literal_scan_body q body rest Hb Hn).
  cbn [cur advance]. rewrite Ascii.eqb_refl. cbn [negb].
  rewrite text_between_prefix.
  unfold make_value.
  change (value_pool_used (set_pos rest st)) with (value_pool_used st).
  change (value_pool_size (set_pos rest st)) with (value_pool_size st).
  destruct (Z.geb_spec (value_pool_used st) (value_pool_size st)) as [Hge|_];
    [lia|].
  cbn [obind].
  match goal with
  | |- context [HAS_ERROR ?s] => change (HAS_ERROR s) with (HAS_ERROR st)
  end.
  rewrite He. eexists. split; [reflexivity|].
  split; [reflexivity|]. split; [reflexivity|]. split; [reflexivity|].
  simpl. unfold value_pool_used. rewrite Nat2Z.id. apply insert_last_slot.
Qed.

Lemma parse_literal_round_trip_witness :
  ("'"%char = DQUOTE \/ "'"%char = "'"%char)
  /\ str_mem "'"%char "a b" = false
  /\ str_mem NUL "a b" = false
  /\ pos (init_state "'a b']") = String "'"%char ("a b" ++ String "'"%char "]")
  /\ HAS_ERROR (init_state "'a b']") = false
  /\ value_pool_used (init_state "'a b']")
     < value_pool_size (init_state "'a b']")
  /\ exists st' : state,
       parse_literal (init_state "'a b']") = Ok st'
       /\ pos st' = "]"%string
       /\ errcode st' = errcode (init_state "'a b']")
       /\ exprs st'
          = E_VALUE T_NONE (value_pool_used (init_state "'a b']"))
            :: exprs (init_state "'a b']")
       /\ value_pool st'
          = (value_pool (init_state "'a b']") ++ [V_string (Some "a b"%string)])%list.
Proof.
  assert (H1 : "'"%char = DQUOTE \/ "'"%char = "'"%char) by (right; reflexivity).
  assert (H2 : str_mem "'"%char "a b" = false) by (vm_compute; reflexivity).
  assert (H3 : str_mem NUL "a b" = false) by (vm_compute; reflexivity).
  assert (H4 : pos (init_state "'a b']")
               = String "'"%char ("a b" ++ String "'"%char "]"))
    by (vm_compute; reflexivity).
  assert (H5 : HAS_ERROR (init_state "'a b']") = false)
    by (vm_compute; reflexivity).
  assert (H6 : value_pool_used (init_state "'a b']")
               < value_pool_size (init_state "'a b']")) by (vm_compute; reflexivity).
  split; [exact H1|]. split; [exact H2|]. split; [exact H3|].
  split; [exact H4|]. split; [exact H5|]. split; [exact H6|].
  exact (parse_literal_round_trip "'"%char "a b" "]" (init_state "'a b']")
           H1 H2 H3 H4 H5 H6).
Defined.

(** ** The path of a list of names *)

Lemma set_pos_same (st : state) : set_pos (pos st) st = st.
Proof. destruct st; reflexivity. Qed.

Lemma skip_spaces_head (p : string) :
  isspace (cur p) = false -> skip_spaces p = p.
Proof. destruct p as [|c r]; simpl; [reflexivity|]. intros ->. reflexivity. Qed.

Lemma match_char_miss (st : state) (m : ascii) :
  isspace (cur (pos st)) = false ->
  ascii_eqb (cur (pos st)) m = false ->
  match_char st m = (st, false).
Proof.
  intros Hs Hm. unfold match_char, skipws.
  rewrite (skip_spaces_head _ Hs), set_pos_same, Hm.
  destruct (ascii_eqb (cur (pos st)) NUL); reflexivity.
Qed.

Lemma match_char_hit (st : state) (m : ascii) (r : string) :
  pos st = String m r ->
  isspace m = false ->
  ascii_eqb m NUL = false ->
  match_char st m = (set_pos r st, true).
Proof.
  intros Hp Hs Hn. unfold match_char, skipws. rewrite Hp.
  rewrite (skip_spaces_head (String m r) Hs).
  cbn [pos set_pos cur advance]. rewrite Hn, Ascii.eqb_refl. reflexivity.
Qed.

Lemma str_mem_append (c : ascii) (a b : string) :
  str_mem c (a ++ b) = str_mem c a || str_mem c b.
Proof.
  induction a as [|d a IH]; [reflexivity|].
  rewrite str_app_cons. simpl. rewrite IH. apply orb_assoc.
Qed.

Lemma str_mem_skip_spaces (c : ascii) (p : string) :
  str_mem c p = false -> str_mem c (skip_spaces p) = false.
Proof.
  induction p as [|d p IH]; [reflexivity|]. intros H. simpl.
  destruct (isspace d); [|exact H].
  simpl in H. apply orb_false_iff in H. apply IH, H.
Qed.

Lemma str_mem_escape (c : ascii) (nm : string) :
  ascii_eqb "\"%char c = false ->
  str_mem c (escape_name nm) = str_mem c nm.
Proof.
  intros Hc. induction nm as [|d nm IH]; [reflexivity|]. cbn [escape_name].
  destruct (name_stop d || ascii_eqb d "\"%char); cbn [str_mem];
    rewrite ?Hc, IH; reflexivity.
Qed.

Lemma looking_at_no_colon (st : state) (tok : string) :
  str_mem ":"%char (pos st) = false ->
  looking_at st tok "::" = (st, false).
Proof.
  intros H. unfold looking_at.
  destruct (strip_prefix tok (pos st)) as [p|] eqn:Hp; [|reflexivity].
  apply str_suffix_strip_prefix in Hp. rewrite Hp, str_mem_append in H.
  apply orb_false_iff in H. destruct H as [_ H].
  apply (str_mem_skip_spaces ":"%char) in H.
  destruct (skip_spaces p) as [|d r]; [reflexivity|].
  cbn [str_mem] in H. apply orb_false_iff in H. destruct H as [H _].
  cbn [strip_prefix].
  assert (E : ascii_eqb ":"%char d = false).
  { unfold ascii_eqb in *. rewrite Ascii.eqb_sym. exact H. }
  rewrite E. reflexivity.
Qed.

Lemma parse_axis_no_colon (names : list (axis * string)) (st : state) :
  str_mem ":"%char (pos st) = false ->
  parse_axis names st = (st, CHILD).
Proof.
  intros H. induction names as [|[a nm] rest IH]; [reflexivity|].
  cbn [parse_axis]. rewrite (looking_at_no_colon st nm H). exact IH.
Qed.

Lemma step_name_ok_spec (nm : string) :
  step_name_ok nm = true ->
  nm <> EmptyString
  /\ str_mem NUL nm = false
  /\ str_mem ":"%char nm = false
  /\ forall rest : string,
       let c := cur (escape_name nm ++ rest) in
       isspace c = false
       /\ ascii_eqb c "."%char = false
       /\ ascii_eqb c "*"%char = false
       /\ ascii_eqb c SEP = false
       /\ ascii_eqb c NUL = false.
Proof.
  unfold step_name_ok. intros H.
  apply andb_true_iff in H. destruct H as [H Hc].
  apply andb_true_iff in H. destruct H as [H Hn].
  apply negb_true_iff in Hc, Hn.
  destruct nm as [|c nm]; [discriminate H|].
  apply andb_true_iff in H. destruct H as [Hd Hs].
  apply negb_true_iff in Hd, Hs.
  split; [discriminate|]. split; [exact Hn|]. split; [exact Hc|].
  intros rest. cbn [escape_name].
  destruct (name_stop c || ascii_eqb c "\"%char) eqn:He.
  - rewrite str_app_cons. simpl. repeat split; reflexivity.
  - rewrite str_app_cons. cbn [cur]. cbv zeta.
    apply orb_false_iff in He. destruct He as [He _].
    unfold name_stop in He.
    repeat (apply orb_false_iff in He; destruct He as [He ?]).
    repeat split; assumption.
Qed.

Lemma path_text_head (names : list string) :
  name_stop (cur (path_text names)) = true
  /\ isspace (cur (path_text names)) = false
  /\ ascii_eqb (cur (path_text names)) L_BRACK = false
  /\ ascii_eqb (cur (path_text names)) "*"%char = false.
Proof. destruct names; repeat split; reflexivity. Qed.

Lemma path_text_no_colon (names : list string) :
  forallb step_name_ok names = true ->
  str_mem ":"%char (path_text names) = false.
Proof.
  induction names as [|nm rest IH]; [reflexivity|]. intros H.
  simpl in H. apply andb_true_iff in H. destruct H as [Hnm Hrest].
  destruct (step_name_ok_spec nm Hnm) as (_ & _ & Hc & _).
  cbn [path_text str_mem]. rewrite str_mem_append, str_mem_escape, Hc, (IH Hrest);
    reflexivity.
Qed.

Section SimplePath.
Variable bound : nat.
Variable rec : state -> outcome state.

(** The step of one name, before the rest of the path. *)
Lemma parse_step_name (nm : string) (names : list string) (st : state) :
  step_name_ok nm = true ->
  forallb step_name_ok names = true ->
  pos st = (escape_name nm ++ path_text names)%string ->
  HAS_ERROR st = false ->
  parse_step bound rec st
  = Ok (set_pos (path_text names) st, Some (mk_step CHILD (Some nm) None)).
Proof.
  intros Hnm Hnames Hp He.
  destruct (step_name_ok_spec nm Hnm) as (Hne & Hnul & Hcol & Hhead).
  destruct (Hhead (path_text names)) as (Hsp & Hdot & Hstar & _ & _).
  destruct (path_text_head names) as (Hstop & Hsp' & Hbr & _).
  unfold parse_step. rewrite <- Hp in Hsp, Hdot, Hstar.
  rewrite Hdot. cbn [andb].
  rewrite (match_char_miss st "."%char Hsp Hdot).
  rewrite (parse_axis_no_colon axis_names st).
  2:{ rewrite Hp, str_mem_append, str_mem_escape, Hcol,
        (path_text_no_colon names Hnames); reflexivity. }
  rewrite (match_char_miss st "*"%char Hsp Hstar).
  rewrite (parse_name_escaped nm (path_text names) st Hne Hnul Hstop Hp).
  cbn [negb andb].
  change (HAS_ERROR (set_pos (path_text names) st)) with (HAS_ERROR st).
  rewrite He.
  unfold parse_predicates.
  assert (Hloop : parse_predicates_loop rec bound
                    (set_pos (path_text names) st) 0
                  = Ok (set_pos (path_text names) st, Some O)).
  { destruct bound; cbn [parse_predicates_loop];
      rewrite (match_char_miss (set_pos (path_text names) st) L_BRACK
                 Hsp' Hbr); reflexivity. }
  rewrite Hloop. cbn [obind].
  change (HAS_ERROR (set_pos (path_text names) st)) with (HAS_ERROR st).
  rewrite He. reflexivity.
Qed.

(** The loop over the steps that follow. *)
Lemma parse_relative_loop_names (names : list string) :
  forall (n : nat) (st : state) (steps : list step),
    forallb step_name_ok names = true ->
    (length names <= n)%nat ->
    pos st = path_text names ->
    HAS_ERROR st = false ->
    parse_relative_loop bound rec n st steps
    = Ok (set_pos EmptyString st, Some (steps ++ name_steps names)%list).
Proof.
  induction names as [|nm rest IH]; intros n st steps Hok Hn Hp He.
  - simpl in Hp.
    assert (Hm : match_char st SEP = (st, false)).
    { apply match_char_miss; rewrite Hp; reflexivity. }
    destruct n; cbn [parse_relative_loop]; rewrite Hm;
      rewrite app_nil_r, <- Hp, set_pos_same; reflexivity.
  - simpl in Hok. apply andb_true_iff in Hok. destruct Hok as [Hnm Hrest].
    destruct n as [|n]; [simpl in Hn; lia|].
    cbn [path_text] in Hp. cbn [parse_relative_loop].
    rewrite (match_char_hit st SEP _ Hp); [|reflexivity|reflexivity].
    destruct (step_name_ok_spec nm Hnm) as (_ & _ & _ & Hhead).
    destruct (Hhead (path_text rest)) as (_ & _ & _ & Hsep & _).
    cbn [pos set_pos]. rewrite Hsep.
    rewrite (parse_step_name nm rest
               (set_pos (escape_name nm ++ path_text rest) st)
               Hnm Hrest eq_refl He).
    cbn [obind].
    change (HAS_ERROR (set_pos (path_text rest)
                         (set_pos (escape_name nm ++ path_text rest) st)))
      with (HAS_ERROR st).
    rewrite He.
    rewrite (IH n (set_pos (path_text rest)
                     (set_pos (escape_name nm ++ path_text rest) st))
               (steps ++ [mk_step CHILD (Some nm) None])%list Hrest);
      [|simpl in Hn; lia|reflexivity|exact He].
    cbn [name_steps List.map]. rewrite <- app_assoc. reflexivity.
Qed.

Lemma parse_location_path_names (names : list string) (st : state) :
  names <> [] ->
  forallb step_name_ok names = true ->
  (length names <= bound)%nat ->
  pos st = path_text names ->
  HAS_ERROR st = false ->
  parse_location_path bound rec st
  = Ok (push_expr
          (E_LOCPATH T_NONE (Some (make_step ROOT :: name_steps names)))
          (set_pos EmptyString st)).
Proof.
  intros Hne Hok Hn Hp He.
  destruct names as [|nm rest]; [congruence|].
  simpl in Hok. apply andb_true_iff in Hok. destruct Hok as [Hnm Hrest].
  cbn [path_text] in Hp. unfold parse_location_path.
  rewrite (match_char_hit st SEP _ Hp); [|reflexivity|reflexivity].
  destruct (step_name_ok_spec nm Hnm) as (_ & _ & _ & Hhead).
  destruct (Hhead (path_text rest)) as (_ & _ & _ & Hsep & Hnul).
  cbn [pos set_pos]. rewrite Hsep, Hnul. cbn [negb].
  unfold parse_relative_location_path.
  rewrite (parse_step_name nm rest
             (set_pos (escape_name nm ++ path_text rest) st)
             Hnm Hrest eq_refl He).
  cbn [obind].
  change (HAS_ERROR (set_pos (path_text rest)
                       (set_pos (escape_name nm ++ path_text rest) st)))
    with (HAS_ERROR st).
  rewrite He.
  rewrite (parse_relative_loop_names rest bound
             (set_pos (path_text rest)
                (set_pos (escape_name nm ++ path_text rest) st))
             [mk_step CHILD (Some nm) None] Hrest);
    [|simpl in Hn; lia|reflexivity|exact He].
  cbn [obind].
  match goal with
  | |- context [HAS_ERROR ?s] => change (HAS_ERROR s) with (HAS_ERROR st)
  end.
  rewrite He. reflexivity.
Qed.

Lemma parse_equality_expr_names (names : list string) (st : state) :
  names <> [] ->
  forallb step_name_ok names = true ->
  (length names <= bound)%nat ->
  pos st = path_text names ->
  HAS_ERROR st = false ->
  parse_equality_expr bound rec st
  = Ok (push_expr
          (E_LOCPATH T_NONE (Some (make_step ROOT :: name_steps names)))
          (set_pos EmptyString st)).
Proof.
  intros Hne Hok Hn Hp He.
  set (st' := push_expr
                (E_LOCPATH T_NONE (Some (make_step ROOT :: name_steps names)))
                (set_pos EmptyString st)).
  assert (Hpath : parse_path_expr bound rec st = Ok st').
  { unfold parse_path_expr.
    assert (Hl : looking_at_primary_expr st = false).
    { unfold looking_at_primary_expr, peek. rewrite Hp.
      destruct names as [|nm rest]; [congruence|]. reflexivity. }
    rewrite Hl. apply parse_location_path_names; assumption. }
  assert (He' : HAS_ERROR st' = false) by exact He.
  assert (Hmul : parse_multiplicative_expr bound rec st = Ok st').
  { unfold parse_multiplicative_expr. rewrite Hpath. cbn [obind].
    rewrite He'.
    assert (Hm : match_char st' "*"%char = (st', false)).
    { apply match_char_miss; reflexivity. }
    destruct bound; cbn [parse_multiplicative_loop]; rewrite Hm; reflexivity. }
  assert (Hadd : parse_additive_expr bound rec st = Ok st').
  { unfold parse_additive_expr. rewrite Hmul. cbn [obind]. rewrite He'.
    destruct bound; reflexivity. }
  unfold parse_equality_expr. rewrite Hadd. cbn [obind]. rewrite He'.
  reflexivity.
Qed.
End SimplePath.


(** The compiled path of the text of a list of names. *)
Lemma pathx_parse_names_exact (fuel : nat) (tree : option node)
    (names : list string) :
  names <> [] ->
  forallb step_name_ok names = true ->
  (length names < fuel)%nat ->
  pathx_parse fuel tree (path_text names)
  = Ok (PATHX_NOERROR,
        mk_pathx
          (set_exprs
             [E_LOCPATH T_NODESET (Some (make_step ROOT :: name_steps names))]
             (set_pos EmptyString (init_state (path_text names))))
          (Some (make_step ROOT :: name_steps names)) None 0 tree).
Proof.
  intros Hne Hok Hf. destruct fuel as [|f]; [lia|].
  unfold pathx_parse. cbn [parse_expr].
  assert (Hsk : skipws (init_state (path_text names))
                = init_state (path_text names)).
  { unfold skipws. rewrite skip_spaces_head; [apply set_pos_same|].
    apply path_text_head. }
  rewrite Hsk.
  rewrite (parse_equality_expr_names f (parse_expr f) names
             (init_state (path_text names)) Hne Hok);
    [|lia|reflexivity|reflexivity].
  cbn [obind]. cbn -[check_expr].
  assert (Hsteps :
    forall (ss : list string) (st : state),
      check_steps (check_expr f) (name_steps ss) st
      = Ok (st, name_steps ss)).
  { induction ss as [|nm ss IH]; intros st; [reflexivity|].
    cbn [name_steps List.map check_steps step_predicates].
    fold (name_steps ss). rewrite IH. reflexivity. }
  cbn [check_expr]. cbn [HAS_ERROR errcode bool_decide].
  unfold check_locpath.
  change (check_steps (check_expr f) (make_step ROOT :: name_steps names))
    with (fun st =>
            do '(st1, rest1) <- check_steps (check_expr f) (name_steps names) st;
            Ok (st1, make_step ROOT :: rest1)).
  cbv beta. rewrite Hsteps. reflexivity.
Qed.

(** X20: the path of a list of names compiles to the steps of these
    names.  For names that can stand as they are (not empty, no dot or
    star in front, no colon, no NUL), the text that has, for each name, a
    slash and the name with its backslashes, is accepted by [pathx_parse]
    with [PATHX_NOERROR]; the whole text is read, and the location path
    is a step on the axis [root] followed by one step on the axis [child]
    for each name, with that name, unescaped, and no predicate. *)
Theorem pathx_parse_names (fuel : nat) (tree : option node)
    (names : list string) :
  names <> [] ->
  forallb step_name_ok names = true ->
  (length names < fuel)%nat ->
  exists p : pathx,
    pathx_parse fuel tree (path_text names) = Ok (PATHX_NOERROR, p)
    /\ px_locpath p = Some (make_step ROOT :: name_steps names)
    /\ pos (px_state p) = EmptyString
    /\ px_origin p = tree.
Proof.
  intros Hne Hok Hf.
  rewrite (pathx_parse_names_exact fuel tree names Hne Hok Hf).
  eexists. split; [reflexivity|]. repeat split.
Qed.

Lemma pathx_parse_names_witness :
  ["a"; "b c"]%string <> []
  /\ forallb step_name_ok ["a"; "b c"]%string = true
  /\ (length ["a"; "b c"]%string < 3)%nat
  /\ exists p : pathx,
       pathx_parse 3 (Some 0%nat) (path_text ["a"; "b c"]%string)
       = Ok (PATHX_NOERROR, p)
       /\ px_locpath p
          = Some (make_step ROOT :: name_steps ["a"; "b c"]%string)
       /\ pos (px_state p) = EmptyString
       /\ px_origin p = Some 0%nat.
Proof.
  assert (H1 : ["a"; "b c"]%string <> []) by discriminate.
  assert (H2 : forallb step_name_ok ["a"; "b c"]%string = true)
    by (vm_compute; reflexivity).
  assert (H3 : (length ["a"; "b c"]%string < 3)%nat) by (simpl; lia).
  split; [exact H1|]. split; [exact H2|]. split; [exact H3|].
  exact (pathx_parse_names 3 (Some 0%nat) ["a"; "b c"]%string H1 H2 H3).
Defined.

(** ** Node sets *)

Lemma step_collect_acc (fuel : nat) (h : heap) (s : step) (w : node)
    (k : nat) :
  forall (cur : option node) (acc : list node),
    step_collect fuel h k s w cur acc
    = do l <- step_collect fuel h k s w cur []; Ok (acc ++ l)%list.
Proof.
  induction k as [|k IH]; intros cur acc; destruct cur as [c|];
    cbn [step_collect obind]; try (rewrite app_nil_r; reflexivity);
    try reflexivity.
  destruct (step_next fuel h s w (Some c)) as [nxt| |]; cbn [obind];
    try reflexivity.
  rewrite (IH nxt (acc ++ [c])%list), (IH nxt ([] ++ [c])%list).
  destruct (step_collect fuel h k s w nxt []) as [l| |]; cbn [obind];
    try reflexivity.
  rewrite <- app_assoc. reflexivity.
Qed.

Lemma expand_work_single (fuel : nat) (h : heap) (s : step) (w : node)
    (acc : list node) :
  expand_work fuel h s [w] acc
  = do l <- expand_work fuel h s [w] []; Ok (acc ++ l)%list.
Proof.
  cbn [expand_work].
  destruct (step_first fuel h s w) as [first| |]; cbn [obind];
    try reflexivity.
  rewrite (step_collect_acc fuel h s w fuel first acc).
  destruct (step_collect fuel h fuel s w first []) as [l| |]; reflexivity.
Qed.

(** X21: a step is taken from the entries of the working set one by one,
    and what they yield is put together in the order of the entries, with
    nothing removed: when each entry [w] of the working set alone yields
    the nodes [f w], the working set yields the nodes of its entries one
    after the other, so that a node that two entries yield is in the
    node set twice. *)
Theorem expand_work_concat (fuel : nat) (h : heap) (s : step)
    (f : node -> list node) (work acc : list node) :
  Forall (fun w => expand_work fuel h s [w] [] = Ok (f w)) work ->
  expand_work fuel h s work acc = Ok (acc ++ flat_map f work)%list.
Proof.
  intros H. revert acc. induction H as [|w rest Hw _ IH]; intros acc.
  - simpl. rewrite app_nil_r. reflexivity.
  - change (expand_work fuel h s (w :: rest) acc)
      with (do first <- step_first fuel h s w;
            do next1 <- step_collect fuel h fuel s w first acc;
            expand_work fuel h s rest next1).
    pose proof (expand_work_single fuel h s w acc) as Hs.
    rewrite Hw in Hs. cbn [expand_work obind] in Hs.
    destruct (step_first fuel h s w) as [first| |]; cbn [obind] in *;
      try discriminate Hs.
    destruct (step_collect fuel h fuel s w first acc) as [next1| |];
      cbn [obind] in *; try discriminate Hs.
    injection Hs as ->. rewrite IH. simpl. rewrite <- app_assoc. reflexivity.
Qed.

Lemma expand_work_concat_witness :
  Forall (fun w => expand_work 5 scenario dotdot [w] []
                   = Ok ((fun _ : node => [0%nat]) w)) [1%nat; 3%nat]
  /\ expand_work 5 scenario dotdot [1%nat; 3%nat] []
     = Ok ([] ++ flat_map (fun _ : node => [0%nat]) [1%nat; 3%nat])%list.
Proof.
  assert (H : Forall (fun w => expand_work 5 scenario dotdot [w] []
                               = Ok ((fun _ : node => [0%nat]) w))
                [1%nat; 3%nat]).
  { repeat constructor; vm_compute; reflexivity. }
  split; [exact H|].
  exact (expand_work_concat 5 scenario dotdot (fun _ => [0%nat])
           [1%nat; 3%nat] [] H).
Defined.

(** ** The longest prefix that matches *)





(** ** The predicates of a step *)

(** X23: the loop of [ns_from_locpath] that removes entries in place is
    the filter of the specification.  For every list of predicates, the
    in-place loop leaves the entries that a filter keeps which visits the
    entries the step produced once each, in order, with [ctx] the entry,
    [ctx_pos] counted from 1 and advanced after every entry, kept or
    removed, and [ctx_len] the number of entries before the removals;
    each predicate is applied to what the predicate before it left. *)
Theorem apply_predicates_filters (ev : expr -> state -> outcome state)
    (preds : list expr) (st : state) (next : list node) :
  apply_predicates ev preds st next = filter_all ev preds st next.
Proof.
  revert st next. induction preds as [|p rest IH]; intros st next;
    [reflexivity|].
  cbn [apply_predicates filter_all].
  rewrite (pred_loop_filter ev p next [] (length next) _ (le_n _)).
  destruct (filter_positions ev p _ next) as [[st1 kept]| |]; cbn [obind];
    try reflexivity.
  apply IH.
Qed.

(** ** What a path of names selects *)

Lemma forest_chain (h : heap) (n : node) (ks : list rtree) :
  forest_at h n ks ->
  sibling_chain h (List.map rroot ks) (first_node ks).
Proof.
  induction ks as [|k rest IH]; intros H; [reflexivity|].
  destruct H as [Hk Hrest]. destruct k as [m kids].
  apply tree_at_unfold in Hk. destruct Hk as (tm & Hm & _ & Hx & _).
  cbn [List.map rroot first_node sibling_chain].
  split; [reflexivity|]. exists tm. split; [exact Hm|].
  rewrite Hx. apply IH, Hrest.
Qed.

Lemma forest_within (fuel : nat) (h : heap) (n : node) (ks : list rtree) :
  forest_at h n ks ->
  (length (flat_map preorder ks) <= fuel)%nat ->
  Forall (tree_within fuel h) ks.
Proof.
  induction ks as [|k rest IH]; intros H Hl; [constructor|].
  destruct H as [Hk Hrest]. simpl in Hl. rewrite length_app in Hl.
  constructor.
  - split; [exists n, (first_node rest); exact Hk|lia].
  - apply IH; [exact Hrest|lia].
Qed.

Lemma forest_length (ks : list rtree) :
  (length ks <= length (flat_map preorder ks))%nat.
Proof.
  induction ks as [|[n kids] rest IH]; [simpl; lia|].
  simpl. rewrite length_app. lia.
Qed.

Lemma filter_map_rroot (f : node -> bool) (ks : list rtree) :
  List.filter f (List.map rroot ks)
  = List.map rroot (List.filter (fun k => f (rroot k)) ks).
Proof.
  induction ks as [|k rest IH]; [reflexivity|]. simpl.
  destruct (f (rroot k)); simpl; rewrite IH; reflexivity.
Qed.

(** The children of one node that pass the name test. *)
Lemma expand_children (fuel : nat) (h : heap) (s : step) (t : rtree) :
  step_axis s = CHILD ->
  tree_within fuel h t ->
  expand_work fuel h s [rroot t] []
  = Ok (List.map rroot
          (List.filter (fun k => node_matches h s (rroot k)) (kids_of t))).
Proof.
  intros Ha [(par & nxt & Ht) Hlen]. destruct t as [c ks].
  apply tree_at_unfold in Ht. destruct Ht as (tc & Hc & _ & _ & Hch & Hf).
  pose proof (forest_chain h c ks Hf) as Hchain. rewrite <- Hch in Hchain.
  assert (Hl : (length (List.map rroot ks) <= fuel)%nat).
  { rewrite length_map. pose proof (forest_length ks). simpl in Hlen. lia. }
  cbn [rroot kids_of]. rewrite <- filter_map_rroot.
  set (l := List.map rroot ks) in *.
  assert (Hfirst : step_first fuel h s c
                   = Ok (head (List.filter (node_matches h s) l))).
  { unfold step_first. rewrite Ha. unfold deref. rewrite Hc. cbn [obind].
    destruct l as [|x l'].
    - simpl in Hchain. rewrite Hchain. reflexivity.
    - pose proof Hchain as Hchain'. destruct Hchain as [Hx [tx [Htx Hrest]]].
      rewrite Hx, Htx. cbn [obind]. simpl List.filter.
      unfold node_matches at 1. rewrite Htx.
      destruct (step_matches s tx); [reflexivity|].
      apply (step_next_child h s c fuel Ha l' x); [|simpl in Hl; lia].
      split; [reflexivity|]. exists tx. split; assumption. }
  simpl expand_work. rewrite Hfirst. cbn [obind].
  rewrite (step_collect_chain h s c fuel Ha l (children tc) fuel [] Hchain
             Hl Hl).
  reflexivity.
Qed.

(** The children of the nodes of a working set. *)
Lemma expand_children_all (fuel : nat) (h : heap) (s : step)
    (ts : list rtree) :
  step_axis s = CHILD ->
  Forall (tree_within fuel h) ts ->
  forall acc : list node,
    expand_work fuel h s (List.map rroot ts) acc
    = Ok (acc
          ++ List.map rroot
               (flat_map
                  (fun t =>
                     List.filter (fun k => node_matches h s (rroot k))
                       (kids_of t))
                  ts))%list.
Proof.
  intros Ha H. induction H as [|t rest Ht _ IH]; intros acc.
  - simpl. rewrite app_nil_r. reflexivity.
  - cbn [List.map flat_map].
    change (expand_work fuel h s (rroot t :: List.map rroot rest) acc)
      with (do first <- step_first fuel h s (rroot t);
            do next1 <- step_collect fuel h fuel s (rroot t) first acc;
            expand_work fuel h s (List.map rroot rest) next1).
    pose proof (expand_work_single fuel h s (rroot t) acc) as Hs.
    rewrite (expand_children fuel h s t Ha Ht) in Hs.
    cbn [expand_work obind] in Hs.
    destruct (step_first fuel h s (rroot t)) as [first| |]; cbn [obind] in *;
      try discriminate Hs.
    destruct (step_collect fuel h fuel s (rroot t) first acc) as [next1| |];
      cbn [obind] in *; try discriminate Hs.
    injection Hs as ->. rewrite IH, List.map_app, <- app_assoc. reflexivity.
Qed.

Lemma select_within (fuel : nat) (h : heap) (nm : string) (ts : list rtree) :
  Forall (tree_within fuel h) ts ->
  Forall (tree_within fuel h)
    (flat_map
       (fun t =>
          List.filter
            (fun k => node_matches h (mk_step CHILD (Some nm) None) (rroot k))
            (kids_of t))
       ts).
Proof.
  intros H. rewrite List.Forall_forall in *. intros k Hk.
  apply in_flat_map in Hk. destruct Hk as (t & Ht & Hk).
  apply filter_In in Hk. destruct Hk as [Hk _].
  destruct (H t Ht) as [(par & nxt & Hat) Hlen]. destruct t as [n ks].
  apply tree_at_unfold in Hat. destruct Hat as (_ & _ & _ & _ & _ & Hf).
  simpl in Hlen, Hk.
  pose proof (forest_within fuel h n ks Hf) as Hw.
  rewrite List.Forall_forall in Hw. apply Hw; [lia|exact Hk].
Qed.

(** The node sets of the steps of a list of names. *)
Lemma ns_steps_names (fuel : nat) (h : heap)
    (ev : expr -> state -> outcome state) (names : list string) :
  forall (ts : list rtree) (st : state) (nss : list (list node)),
    Forall (tree_within fuel h) ts ->
    last nss = Some (List.map rroot ts) ->
    exists nss' : list (list node),
      ns_steps fuel h ev (name_steps names) st (List.map rroot ts) nss
      = Ok (st, nss')
      /\ last nss' = Some (List.map rroot (select h names ts)).
Proof.
  induction names as [|nm rest IH]; intros ts st nss Hts Hlast.
  - exists nss. split; [reflexivity|exact Hlast].
  - cbn [name_steps List.map ns_steps step_predicates].
    rewrite (expand_children_all fuel h (mk_step CHILD (Some nm) None) ts
               eq_refl Hts []).
    cbn [obind app].
    set (ts' := flat_map
                  (fun t =>
                     List.filter
                       (fun k =>
                          node_matches h (mk_step CHILD (Some nm) None)
                            (rroot k))
                       (kids_of t))
                  ts).
    destruct (IH ts' st (nss ++ [List.map rroot ts'])%list) as (nss' & Hn & Hl).
    + apply select_within, Hts.
    + apply last_snoc.
    + exists nss'. split; [exact Hn|exact Hl].
Qed.

Lemma expand_root (fuel : nat) (h : heap) (root : node) (tr : tree) :
  h !! root = Some tr -> parent tr = root -> (2 <= fuel)%nat ->
  expand_work fuel h (make_step ROOT) [root] [] = Ok [root].
Proof.
  intros Hr Hp Hf. destruct fuel as [|[|f]]; [lia|lia|].
  cbn [expand_work]. unfold step_first. cbn [make_step step_axis].
  cbn [climb_to_root]. unfold deref. rewrite Hr. cbn [obind].
  rewrite Hp, Nat.eqb_refl. cbn [obind]. rewrite Hr. cbn [obind].
  cbn [step_matches make_step step_name obind].
  cbn [step_collect step_next axis_next step_axis make_step obind].
  reflexivity.
Qed.

Lemma eval_locpath_names (f : nat) (h : heap)
    (ev : expr -> state -> outcome state) (names : list string) (t : rtree)
    (nxt : option node) (st : state) :
  tree_at h (rroot t) nxt t ->
  (length (preorder t) <= f)%nat ->
  (2 <= f)%nat ->
  HAS_ERROR st = false ->
  ctx st = Some (rroot t) ->
  value_pool_used st < value_pool_size st ->
  exists st' : state,
    eval_locpath f h ev (Some (make_step ROOT :: name_steps names)) st = Ok st'
    /\ HAS_ERROR st' = false
    /\ values st' = value_pool_used st :: values st
    /\ value_pool st' !! Z.to_nat (value_pool_used st)
       = Some (V_nodeset (List.map rroot (select h names [t]))).
Proof.
  intros Ht Hlen Hf He Hctx Hroom.
  assert (Hw : Forall (tree_within f h) [t]).
  { constructor; [|constructor]. split; [|exact Hlen].
    exists (rroot t), nxt. exact Ht. }
  pose proof Ht as Ht'. destruct t as [root ks]. cbn [rroot] in *.
  apply tree_at_unfold in Ht'. destruct Ht' as (tr & Hr & Hp & _).
  unfold eval_locpath, ns_from_locpath. rewrite He, Hctx.
  cbn [ns_steps]. rewrite (expand_root f h root tr Hr Hp Hf).
  cbn [obind make_step step_predicates].
  destruct (ns_steps_names f h ev names [RNode root ks] st
              ([[root]] ++ [[root]])%list Hw eq_refl) as (nss' & Hn & Hl).
  cbn [List.map rroot] in Hn. rewrite Hn. cbn [obind].
  set (st1 := set_ctx_len (ctx_len st)
                (set_ctx_pos (ctx_pos st) (set_ctx (Some root) st))).
  assert (He1 : HAS_ERROR st1 = false) by exact He.
  rewrite He1.
  assert (Hmk : make_value T_NODESET st1
                = Ok (set_value_pool (value_pool st ++ [V_nodeset []])
                        (value_pool_size st) st1, value_pool_used st)).
  { unfold make_value.
    change (value_pool_used st1) with (value_pool_used st).
    change (value_pool_size st1) with (value_pool_size st).
    destruct (Z.geb_spec (value_pool_used st) (value_pool_size st)); [lia|].
    reflexivity. }
  rewrite Hmk. cbn [obind].
  match goal with
  | |- context [HAS_ERROR ?s] => change (HAS_ERROR s) with (HAS_ERROR st)
  end.
  rewrite He, Hl.
  eexists. split; [reflexivity|].
  destruct (make_push_typed T_NODESET
              (V_nodeset (List.map rroot (select h names [RNode root ks])))
              st1 _ _ Hmk He1 He) as [Hv Hlk].
  split; [exact He|]. split; [exact Hv|exact Hlk].
Qed.

(** X24: what a path of names selects.  For a tree in the heap whose root
    is its own parent, and names that can stand as they are, the text of
    the path of these names is compiled by [pathx_parse], and
    [pathx_first] on the compiled path, from the root, evaluates it to the
    node set of the nodes that the path denotes: the children of the root
    with the first name, their children with the second name, and so on,
    in the order of the sibling lists; it returns the first of them, and
    keeps the set for [pathx_next]. *)
Theorem name_path_selects (fuel : nat) (h : heap) (t : rtree)
    (nxt : option node) (names : list string) :
  names <> [] ->
  forallb step_name_ok names = true ->
  tree_at h (rroot t) nxt t ->
  (length names + length (preorder t) + 2 < fuel)%nat ->
  exists p p' : pathx,
    pathx_parse fuel (Some (rroot t)) (path_text names)
    = Ok (PATHX_NOERROR, p)
    /\ pathx_first fuel h p
       = Ok (List.map rroot (select h names [t]) !! 0%nat, p')
    /\ px_nodeset p' = Some (List.map rroot (select h names [t])).
Proof.
  intros Hne Hok Ht Hf.
  destruct fuel as [|f]; [lia|].
  set (e := E_LOCPATH T_NODESET (Some (make_step ROOT :: name_steps names))).
  set (st := set_ctx_len 1
               (set_ctx_pos 1
                  (set_ctx (Some (rroot t))
                     (set_exprs [e]
                        (set_pos EmptyString (init_state (path_text names))))))).
  destruct (eval_locpath_names f h (eval_expr f h) names t nxt st Ht)
    as (st1 & Hev & He1 & Hv & Hl);
    [lia|lia|reflexivity|reflexivity|reflexivity|].
  eexists. eexists.
  split; [apply (pathx_parse_names_exact (S f) _ names Hne Hok); lia|].
  unfold pathx_first. cbn [px_nodeset px_origin px_state].
  fold e. fold st.
  change (exprs_bottom st) with (Some e).
  cbn [eval_expr]. change (HAS_ERROR st) with false. cbv iota.
  unfold e at 1. rewrite Hev. cbn [obind]. rewrite He1, Hv.
  change (values st) with (@nil Z). cbn [length Nat.eqb negb].
  rewrite (pop_value_top st1 _ [] _ Hv He1 Hl).
  cbn [obind]. split; reflexivity.
Qed.

Lemma name_path_selects_witness :
  ["a"]%string <> []
  /\ forallb step_name_ok ["a"]%string = true
  /\ tree_at scenario (rroot scenario_rtree) None scenario_rtree
  /\ (length ["a"]%string + length (preorder scenario_rtree) + 2 < 20)%nat
  /\ exists p p' : pathx,
       pathx_parse 20 (Some (rroot scenario_rtree)) (path_text ["a"]%string)
       = Ok (PATHX_NOERROR, p)
       /\ pathx_first 20 scenario p
          = Ok (List.map rroot (select scenario ["a"]%string [scenario_rtree])
                  !! 0%nat, p')
       /\ px_nodeset p'
          = Some (List.map rroot
                    (select scenario ["a"]%string [scenario_rtree])).
Proof.
  assert (H1 : ["a"]%string <> []) by discriminate.
  assert (H2 : forallb step_name_ok ["a"]%string = true)
    by (vm_compute; reflexivity).
  assert (H3 : tree_at scenario (rroot scenario_rtree) None scenario_rtree).
  { simpl. eexists. split; [reflexivity|]. simpl.
    repeat split; eexists; (split; [reflexivity|]); simpl;
      repeat split; eexists; (split; [reflexivity|]); simpl; repeat split. }
  assert (H4 : (length ["a"]%string + length (preorder scenario_rtree) + 2
                < 20)%nat) by (simpl; lia).
  split; [exact H1|]. split; [exact H2|]. split; [exact H3|].
  split; [exact H4|].
  exact (name_path_selects 20 scenario scenario_rtree None ["a"]%string
           H1 H2 H3 H4).
Defined.

(** ** The type checker accepts what is typed *)

Lemma expr_typed_unfold_locpath (pool : list value) (ty : type)
    (lp : option (list step)) :
  expr_typed pool (E_LOCPATH ty lp)
  = bool_decide (ty = T_NODESET)
    && match lp with
       | None => false
       | Some ss => forallb (step_typed pool) ss
       end.
Proof. reflexivity. Qed.

Lemma step_typed_unfold (pool : list value) (a : axis) (nm : option string)
    (ps : option (list expr)) :
  step_typed pool (mk_step a nm ps)
  = match ps with
    | None => true
    | Some es => forallb (pred_typed pool) es
    end.
Proof. reflexivity. Qed.

Lemma expr_typed_unfold_app (pool : list value) (ty : type) (f : func)
    (args : list expr) :
  expr_typed pool (E_APP ty f args)
  = bool_decide (ty = ftype f)
    && bool_decide (elem_of f builtin_funcs)
    && Nat.eqb (length args) (arity f)
    && forallb (expr_typed pool) args.
Proof. reflexivity. Qed.

Section CheckAccepts.
Variable k : nat.
Variable rec : expr -> state -> outcome (state * expr).
Hypothesis rec_accepts :
  forall (e : expr) (st : state),
    (expr_size e <= k)%nat ->
    expr_typed (value_pool st) e = true ->
    HAS_ERROR st = false ->
    rec e st = Ok (st, e).

Lemma check_preds_accepts (ps : list expr) (st : state) :
  (list_sum (List.map expr_size ps) <= k)%nat ->
  forallb (pred_typed (value_pool st)) ps = true ->
  HAS_ERROR st = false ->
  check_preds rec ps st = Ok (st, ps).
Proof.
  intros Hk Ht He. induction ps as [|e rest IH]; [reflexivity|].
  simpl in Hk, Ht. apply andb_true_iff in Ht. destruct Ht as [Te Tr].
  apply andb_true_iff in Te. destruct Te as [Te Tp].
  cbn [check_preds]. rewrite (rec_accepts e st); [|lia|exact Te|exact He].
  cbn [obind]. rewrite He, Tp. cbn [negb].
  rewrite IH; [reflexivity|lia|exact Tr].
Qed.

Lemma check_steps_accepts (ss : list step) (st : state) :
  (list_sum (List.map step_size ss) <= k)%nat ->
  forallb (step_typed (value_pool st)) ss = true ->
  HAS_ERROR st = false ->
  check_steps rec ss st = Ok (st, ss).
Proof.
  intros Hk Ht He. induction ss as [|s rest IH]; [reflexivity|].
  simpl in Hk, Ht. apply andb_true_iff in Ht. destruct Ht as [Ts Tr].
  destruct s as [a nm [ps|]]; cbn [check_steps step_predicates].
  - rewrite step_typed_unfold in Ts. simpl in Hk.
    rewrite (check_preds_accepts ps st); [|lia|exact Ts|exact He].
    cbn [obind step_axis step_name]. rewrite He.
    rewrite IH; [reflexivity|lia|exact Tr].
  - rewrite IH; [reflexivity|simpl in Hk; lia|exact Tr].
Qed.
End CheckAccepts.

(** X25: the type checker accepts every typed expression and leaves it as
    it is.  An expression that has, in its [type] fields, the types that
    the type system of path expressions gives it over the value pool of
    the state, is returned unchanged by [check_expr], with no error and
    the state as it was; so the checker, which leaves only typed
    expressions without an error, accepts exactly the typed ones, and
    checking a second time changes nothing. *)
Theorem check_expr_accepts_typed (fuel : nat) :
  forall (e : expr) (st : state),
    (expr_size e <= fuel)%nat ->
    expr_typed (value_pool st) e = true ->
    HAS_ERROR st = false ->
    check_expr fuel e st = Ok (st, e).
Proof.
  induction fuel as [|f IH]; intros e st Hk Ht He.
  - pose proof (expr_size_pos e). lia.
  - cbn [check_expr]. rewrite He.
    destruct e as [ty lp|ty op l r|ty vind|ty fn args].
    + rewrite expr_typed_unfold_locpath in Ht.
      apply andb_true_iff in Ht. destruct Ht as [Tt Ts].
      apply bool_decide_eq_true_1 in Tt. subst ty.
      destruct lp as [ss|]; [|discriminate Ts].
      simpl in Hk. unfold check_locpath.
      rewrite (check_steps_accepts f (check_expr f) IH ss st);
        [|lia|exact Ts|exact He].
      cbn [obind]. rewrite He. reflexivity.
    + simpl in Hk, Ht.
      apply andb_true_iff in Ht. destruct Ht as [Ht Tb].
      apply andb_true_iff in Ht. destruct Ht as [Tl Tr].
      apply bool_decide_eq_true_1 in Tb.
      unfold check_binary.
      rewrite (IH l st); [|lia|exact Tl|exact He]. cbn [obind].
      rewrite (IH r st); [|lia|exact Tr|exact He]. cbn [obind].
      rewrite He. cbv zeta. rewrite binary_type_checked, Tb. reflexivity.
    + simpl in Ht. unfold expr_value.
      destruct (value_pool st !! Z.to_nat vind) as [v|]; [|discriminate Ht].
      apply bool_decide_eq_true_1 in Ht. subst ty. reflexivity.
    + rewrite expr_typed_unfold_app in Ht.
      apply andb_true_iff in Ht. destruct Ht as [Ht _].
      apply andb_true_iff in Ht. destruct Ht as [Ht Ha].
      apply andb_true_iff in Ht. destruct Ht as [Tt Tm].
      apply bool_decide_eq_true_1 in Tt, Tm. apply Nat.eqb_eq in Ha.
      destruct (builtin_funcs_number fn Tm) as [H0 _].
      unfold check_app. rewrite H0. cbn [check_args obind].
      rewrite Tt. reflexivity.
Qed.

Lemma check_expr_accepts_typed_witness :
  (expr_size expr_b <= 3)%nat
  /\ expr_typed (value_pool (px_state parsed_b)) expr_b = true
  /\ HAS_ERROR (px_state parsed_b) = false
  /\ check_expr 3 expr_b (px_state parsed_b) = Ok (px_state parsed_b, expr_b).
Proof.
  assert (H1 : (expr_size expr_b <= 3)%nat) by (vm_compute; lia).
  assert (H2 : expr_typed (value_pool (px_state parsed_b)) expr_b = true)
    by (vm_compute; reflexivity).
  assert (H3 : HAS_ERROR (px_state parsed_b) = false)
    by (vm_compute; reflexivity).
  split; [exact H1|]. split; [exact H2|]. split; [exact H3|].
  exact (check_expr_accepts_typed 3 expr_b (px_state parsed_b) H1 H2 H3).
Defined.

(** ** The errors of the evaluation *)

Lemma only_enomem_refl (st : state) : only_enomem st st.
Proof. left. reflexivity. Qed.

Lemma only_enomem_trans (a b c : state) :
  only_enomem a b -> only_enomem b c -> only_enomem a c.
Proof.
  unfold only_enomem. intros [H1|H1] [H2|H2];
    [left; congruence|right; exact H2|right; congruence|right; exact H2].
Qed.

Lemma make_value_enomem (tag : type) (st st1 : state) (vind : Z) :
  make_value tag st = Ok (st1, vind) -> only_enomem st st1.
Proof.
  intros H. destruct (make_value_cases tag st st1 vind H)
    as [[-> _]|[sz [-> _]]]; [right|left]; reflexivity.
Qed.

Lemma pop_value_enomem (st st' : state) (v : option value) :
  pop_value st = Ok (st', v) -> only_enomem st st'.
Proof.
  intros H. apply pop_value_inv in H.
  destruct H as (vind & rest & _ & -> & _). left. reflexivity.
Qed.

Lemma eval_eq_enomem (h : heap) (st st' : state) (neq : bool) :
  eval_eq h st neq = Ok st' -> only_enomem st st'.
Proof.
  unfold eval_eq. intros H.
  bind_inv H. destruct a as [st1 r]. apply pop_value_enomem in E.
  bind_inv H. destruct a as [st2 l]. apply pop_value_enomem in E0.
  destruct l as [lv|]; [|discriminate H].
  destruct r as [rv|]; [|discriminate H].
  bind_inv H.
  apply (only_enomem_trans _ st1); [exact E|].
  apply (only_enomem_trans _ st2); [exact E0|].
  destruct (HAS_ERROR st2); injection H as <-; left; reflexivity.
Qed.

Lemma eval_arith_enomem (st st' : state) (op : binary_op) :
  eval_arith st op = Ok st' -> only_enomem st st'.
Proof.
  unfold eval_arith. intros H.
  bind_inv H. destruct a as [st1 r]. apply pop_value_enomem in E.
  bind_inv H. destruct a as [st2 l]. apply pop_value_enomem in E0.
  destruct l as [[| a | |]|]; try discriminate H.
  destruct r as [[| b | |]|]; try discriminate H.
  bind_inv H. destruct a0 as [st3 vind]. apply make_value_enomem in E1.
  apply (only_enomem_trans _ st1); [exact E|].
  apply (only_enomem_trans _ st2); [exact E0|].
  apply (only_enomem_trans _ st3); [exact E1|].
  destruct (HAS_ERROR st3).
  - injection H as <-. apply only_enomem_refl.
  - destruct (negb _); [discriminate H|].
    bind_inv H. injection H as <-. left. reflexivity.
Qed.

Lemma run_impl_enomem (i : func_impl) (st st' : state) :
  run_impl i st = Ok st' -> only_enomem st st'.
Proof.
  destruct i; unfold run_impl, func_last, func_position; intros H;
    bind_inv H; destruct a as [st1 vind]; apply make_value_enomem in E;
    (apply (only_enomem_trans _ st1); [exact E|]);
    destruct (HAS_ERROR st1); injection H as <-; left; reflexivity.
Qed.

Section EvalErrors.
Variable h : heap.
Variable ev : expr -> state -> outcome state.
Hypothesis ev_enomem :
  forall (e : expr) (st st' : state), ev e st = Ok st' -> only_enomem st st'.

Lemma eval_binary_enomem (op : binary_op) (l r : expr) (st st' : state) :
  eval_binary h ev op l r st = Ok st' -> only_enomem st st'.
Proof.
  unfold eval_binary. intros H.
  bind_inv H. apply ev_enomem in E.
  bind_inv H. apply ev_enomem in E0.
  apply (only_enomem_trans _ a); [exact E|].
  apply (only_enomem_trans _ a0); [exact E0|].
  destruct (HAS_ERROR a0).
  - injection H as <-. apply only_enomem_refl.
  - destruct op;
      first [exact (eval_eq_enomem _ _ _ _ H)|exact (eval_arith_enomem _ _ _ H)].
Qed.

Lemma eval_app_from_enomem (f : func) (n : nat) :
  forall (args : list expr) (st st' : state),
    eval_app_from ev n args f st = Ok st' -> only_enomem st st'.
Proof.
  induction n as [|n IH]; intros args st st' H; simpl in H.
  - exact (run_impl_enomem _ _ _ H).
  - destruct args as [|a rest]; [discriminate H|].
    bind_inv H. apply ev_enomem in E.
    apply (only_enomem_trans _ a0); [exact E|].
    destruct (HAS_ERROR a0).
    + injection H as <-. apply only_enomem_refl.
    + exact (IH _ _ _ H).
Qed.

Lemma eval_pred_enomem (e : expr) (st st' : state) (b : bool) :
  eval_pred ev e st = Ok (st', b) -> only_enomem st st'.
Proof.
  unfold eval_pred. intros H.
  bind_inv H. apply ev_enomem in E.
  bind_inv H. destruct a0 as [st2 v]. apply pop_value_enomem in E0.
  apply (only_enomem_trans _ a); [exact E|].
  apply (only_enomem_trans _ st2); [exact E0|].
  destruct v as [[| | |]|]; try discriminate H;
    injection H as <- _; apply only_enomem_refl.
Qed.

Lemma pred_loop_enomem (e : expr) (n : nat) :
  forall (st : state) (next : list node) (i : nat) (st' : state)
         (next' : list node),
    pred_loop ev n e st next i = Ok (st', next') -> only_enomem st st'.
Proof.
  induction n as [|n IH]; intros st next i st' next' H; simpl in H.
  - destruct (next !! i); [discriminate H|]. injection H as <- _.
    apply only_enomem_refl.
  - destruct (next !! i) as [c|];
      [|injection H as <- _; apply only_enomem_refl].
    bind_inv H. destruct a as [st1 keep]. apply eval_pred_enomem in E.
    apply (only_enomem_trans _ st1); [exact E|].
    destruct keep; apply IH in H; exact H.
Qed.

Lemma apply_predicates_enomem (preds : list expr) :
  forall (st : state) (next : list node) (st' : state) (next' : list node),
    apply_predicates ev preds st next = Ok (st', next') ->
    only_enomem st st'.
Proof.
  induction preds as [|p rest IH]; intros st next st' next' H; simpl in H.
  - injection H as <- _. apply only_enomem_refl.
  - bind_inv H. destruct a as [st2 next1]. apply pred_loop_enomem in E.
    apply IH in H. apply (only_enomem_trans _ st2); [exact E|exact H].
Qed.

Lemma ns_steps_enomem (fuel : nat) (steps : list step) :
  forall (st : state) (work : list node) (nss : list (list node))
         (st' : state) (nss' : list (list node)),
    ns_steps fuel h ev steps st work nss = Ok (st', nss') ->
    only_enomem st st'.
Proof.
  induction steps as [|s rest IH]; intros st work nss st' nss' H; simpl in H.
  - injection H as <- _. apply only_enomem_refl.
  - bind_inv H. bind_inv H. destruct a0 as [st1 next1].
    apply IH in H.
    destruct (step_predicates s) as [preds|].
    + apply apply_predicates_enomem in E0.
      apply (only_enomem_trans _ st1); assumption.
    + injection E0 as <- _. exact H.
Qed.

Lemma eval_locpath_enomem (fuel : nat) (lp : option (list step))
    (st st' : state) :
  eval_locpath fuel h ev lp st = Ok st' -> only_enomem st st'.
Proof.
  unfold eval_locpath, ns_from_locpath. intros H.
  destruct lp as [steps|]; [|discriminate H].
  bind_inv H. destruct a as [st1 ns].
  assert (K : only_enomem st st1).
  { destruct (HAS_ERROR st); [injection E as <- _; apply only_enomem_refl|].
    destruct (ctx st); [|discriminate E].
    bind_inv E. destruct a as [st0 nss]. apply ns_steps_enomem in E0.
    injection E as <- _. exact E0. }
  apply (only_enomem_trans _ st1); [exact K|].
  destruct (HAS_ERROR st1); [injection H as <-; apply only_enomem_refl|].
  destruct ns as [nss|]; [|discriminate H].
  bind_inv H. destruct a as [st2 vind]. apply make_value_enomem in E0.
  apply (only_enomem_trans _ st2); [exact E0|].
  destruct (HAS_ERROR st2); [injection H as <-; apply only_enomem_refl|].
  destruct (last nss); [|discriminate H].
  injection H as <-. left. reflexivity.
Qed.
End EvalErrors.

(** X26: the one error that the evaluation of an expression raises is
    [PATHX_ENOMEM].  The error code of the state that [eval_expr] returns
    is the one it was given, or [PATHX_ENOMEM] from the guard of
    [make_value] on the size of the value pool; the evaluator raises no
    other error, and a state that comes with an error is returned as it
    is. *)
Theorem eval_expr_only_enomem (fuel : nat) (h : heap) (e : expr)
    (st st' : state) :
  eval_expr fuel h e st = Ok st' ->
  (errcode st' = errcode st \/ errcode st' = PATHX_ENOMEM)
  /\ (HAS_ERROR st = true -> st' = st).
Proof.
  intros H. split.
  - revert e st st' H. induction fuel as [|f IH]; intros e st st' H;
      [discriminate H|].
    cbn [eval_expr] in H.
    destruct (HAS_ERROR st); [injection H as <-; left; reflexivity|].
    destruct e as [ty lp|ty op l r|ty vind|ty fn args].
    + exact (eval_locpath_enomem h _ IH _ _ _ _ H).
    + exact (eval_binary_enomem h _ IH _ _ _ _ _ H).
    + injection H as <-. left. reflexivity.
    + exact (eval_app_from_enomem _ IH _ _ _ _ _ H).
  - intros He. destruct fuel as [|f]; [discriminate H|].
    cbn [eval_expr] in H. rewrite He in H. injection H as <-. reflexivity.
Qed.

Lemma eval_expr_only_enomem_witness :
  eval_expr 20 scenario expr_b state_b = Ok evaluated_b
  /\ (errcode evaluated_b = errcode state_b
      \/ errcode evaluated_b = PATHX_ENOMEM)
  /\ (HAS_ERROR state_b = true -> evaluated_b = state_b).
Proof.
  assert (H : eval_expr 20 scenario expr_b state_b = Ok evaluated_b)
    by (vm_compute; reflexivity).
  split; [exact H|].
  exact (eval_expr_only_enomem 20 scenario expr_b state_b evaluated_b H).
Defined.
(** ** Expanding the tree *)

Lemma link_kept_refl (h : heap) (a : option node) : link_kept h a a.
Proof. left. reflexivity. Qed.

Lemma link_kept_trans (h1 h2 : heap) (a b c : option node) :
  (forall n : node, h2 !! n = None -> h1 !! n = None) ->
  link_kept h1 a b -> link_kept h2 b c -> link_kept h1 a c.
Proof.
  intros Hd [->|[-> (x & -> & Hx)]] [->|[Hb (y & -> & Hy)]].
  - left. reflexivity.
  - right. split; [exact Hb|]. exists y. split; [reflexivity|auto].
  - right. split; [reflexivity|]. exists x. split; [reflexivity|exact Hx].
  - discriminate Hb.
Qed.

Lemma heap_keeps_refl (h : heap) : heap_keeps h h.
Proof.
  intros n t H. exists t. split; [exact H|].
  repeat split; apply link_kept_refl.
Qed.

Lemma heap_keeps_dom (a b : heap) :
  heap_keeps a b -> forall n : node, b !! n = None -> a !! n = None.
Proof.
  intros H n Hb. destruct (a !! n) as [t|] eqn:Ha; [|reflexivity].
  destruct (H n t Ha) as (t' & Hn & _). congruence.
Qed.

Lemma heap_keeps_trans (a b c : heap) :
  heap_keeps a b -> heap_keeps b c -> heap_keeps a c.
Proof.
  intros H1 H2 n t H.
  destruct (H1 n t H) as (t1 & Hb & L1 & V1 & P1 & C1 & N1).
  destruct (H2 n t1 Hb) as (t2 & Hc & L2 & V2 & P2 & C2 & N2).
  pose proof (heap_keeps_dom a b H1) as Hd.
  exists t2. split; [exact Hc|].
  split; [congruence|]. split; [congruence|]. split; [congruence|].
  split; [exact (link_kept_trans a b _ _ _ Hd C1 C2)
         |exact (link_kept_trans a b _ _ _ Hd N1 N2)].
Qed.

(** The last element of a sibling list has no next sibling. *)
Lemma list_last_spec (fuel : nat) (h : heap) :
  forall n l : node,
    list_last fuel h n = Ok l ->
    exists tl : tree, h !! l = Some tl /\ next tl = None.
Proof.
  induction fuel as [|f IH]; intros n l H; [discriminate H|].
  cbn [list_last] in H. unfold deref in H.
  destruct (h !! n) as [t|] eqn:Hn; [|discriminate H]. cbn [obind] in H.
  destruct (next t) as [m|] eqn:Hm.
  - exact (IH m l H).
  - injection H as <-. exists t. split; assumption.
Qed.

(** A new node, appended to the children of [par]: of the nodes that were
    there, one link changes, from [NULL] to the new node. *)
Lemma make_append_keeps (fuel : nat) (h h2 : heap) (par t : node)
    (nt : tree) :
  h !! t = None ->
  list_append_children fuel (<[t := nt]> h) par t = Ok h2 ->
  heap_keeps h h2.
Proof.
  intros Ht H. unfold list_append_children, deref in H.
  destruct (<[t := nt]> h !! par) as [tp|] eqn:Hp; [|discriminate H].
  cbn [obind] in H.
  assert (Hold : forall (n : node) (tn : tree),
             h !! n = Some tn -> <[t := nt]> h !! n = Some tn).
  { intros n tn Hn. rewrite lookup_insert_ne; [exact Hn|].
    intros ->. congruence. }
  destruct (children tp) as [c|] eqn:Hc.
  - bind_inv H. rename a into l.
    destruct (list_last_spec _ _ _ _ E) as (tl0 & Hl0 & Hnx).
    rewrite Hl0 in H. cbn [obind] in H. injection H as <-.
    intros n tn Hn. destruct (Nat.eq_dec n l) as [->|Hne].
    + rewrite (Hold _ _ Hn) in Hl0. injection Hl0 as <-.
      eexists. rewrite lookup_insert_eq. split; [reflexivity|]. simpl.
      repeat split; [apply link_kept_refl|].
      right. split; [exact Hnx|]. exists t. split; [reflexivity|exact Ht].
    + exists tn. rewrite lookup_insert_ne; [|congruence].
      split; [exact (Hold _ _ Hn)|].
      repeat split; apply link_kept_refl.
  - injection H as <-.
    intros n tn Hn. destruct (Nat.eq_dec n par) as [->|Hne].
    + rewrite (Hold _ _ Hn) in Hp. injection Hp as <-.
      eexists. rewrite lookup_insert_eq. split; [reflexivity|]. simpl.
      repeat split; [|apply link_kept_refl].
      right. split; [exact Hc|]. exists t. split; [reflexivity|exact Ht].
    + exists tn. rewrite lookup_insert_ne; [|congruence].
      split; [exact (Hold _ _ Hn)|].
      repeat split; apply link_kept_refl.
Qed.

Lemma expand_steps_keeps (fuel : nat) (ss : list step) :
  forall (h : heap) (par : node) (fc : option node) (h' : heap)
         (fc' : option node) (fin : bool),
    expand_steps fuel ss h par fc = Ok (h', fc', fin) ->
    heap_keeps h h'.
Proof.
  induction ss as [|s rest IH]; intros h par fc h' fc' fin H;
    cbn [expand_steps] in H.
  - injection H as <- _ _. apply heap_keeps_refl.
  - destruct (step_name s) as [nm|];
      [|injection H as <- _ _; apply heap_keeps_refl].
    destruct (step_axis s);
      try (injection H as <- _ _; apply heap_keeps_refl).
    unfold make_tree in H. cbv zeta in H.
    bind_inv H. rename a into h2.
    apply make_append_keeps in E;
      [|apply not_elem_of_dom; apply is_fresh].
    apply IH in H.
    exact (heap_keeps_trans _ h2 _ E H).
Qed.

(** X27: [pathx_expand_tree] only adds to the tree.  When it returns 0,
    every node that was in the tree is still there, with the label, the
    value and the parent it had.  Its link to its first child and its link
    to its next sibling are what they were, but for a link that was
    [NULL]: this may now be a node that was not in the tree before, which
    is how the new nodes are attached.  No link that was set is changed,
    so no child and no sibling that was there is cut off. *)
Theorem expand_tree_keeps_nodes (fuel : nat) (h h' : heap) (path p' : pathx)
    (tr : option node) :
  pathx_expand_tree fuel h path = Ok (0, h', p', tr) ->
  forall (n : node) (t : tree),
    h !! n = Some t ->
    exists t' : tree,
      h' !! n = Some t'
      /\ label t' = label t /\ tvalue t' = tvalue t /\ parent t' = parent t
      /\ (children t' = children t
          \/ (children t = None
              /\ exists c : node, children t' = Some c /\ h !! c = None))
      /\ (next t' = next t
          \/ (next t = None
              /\ exists c : node, next t' = Some c /\ h !! c = None)).
Proof.
  intros H. change (heap_keeps h h').
  unfold pathx_expand_tree in H.
  bind_inv H. destruct a as [[[r st1] tree] step].
  destruct (r =? -1); [discriminate H|].
  destruct step as [|s rest]; [injection H as <- _ _; apply heap_keeps_refl|].
  destruct (match tree with
            | Some _ => tree
            | None => px_origin path
            end) as [par|]; [|discriminate H].
  bind_inv H. destruct a as [[h1 fc] fin].
  apply expand_steps_keeps in E0.
  destruct fin.
  - destruct fc as [c|]; [|discriminate H].
    bind_inv H. injection H as <- _ _. exact E0.
  - destruct fc as [c|]; [|discriminate H].
    bind_inv H. bind_inv H. discriminate H.
Qed.

Lemma expand_tree_keeps_nodes_witness :
  pathx_expand_tree 20 scenario parsed_b_x_y
  = Ok (0, scenario_b_x_y,
        set_px_state (set_ctx (Some 0%nat) (px_state parsed_b_x_y))
          parsed_b_x_y,
        Some 6%nat)
  /\ scenario !! 2%nat
     = Some (mk_tree (Some "b"%string) (Some "2"%string) 0%nat None
               (Some 3%nat))
  /\ scenario_b_x_y !! 2%nat
     = Some (mk_tree (Some "b"%string) (Some "2"%string) 0%nat (Some 5%nat)
               (Some 3%nat))
  /\ exists t' : tree,
       scenario_b_x_y !! 2%nat = Some t'
       /\ label t' = Some "b"%string /\ tvalue t' = Some "2"%string
       /\ parent t' = 0%nat
       /\ (children t' = None
           \/ ((None : option node) = None
               /\ exists c : node,
                    children t' = Some c /\ scenario !! c = None))
       /\ (next t' = Some 3%nat
           \/ (Some 3%nat = None
               /\ exists c : node,
                    next t' = Some c /\ scenario !! c = None)).
Proof.
  assert (H : pathx_expand_tree 20 scenario parsed_b_x_y
              = Ok (0, scenario_b_x_y,
                    set_px_state (set_ctx (Some 0%nat) (px_state parsed_b_x_y))
                      parsed_b_x_y,
                    Some 6%nat)) by (vm_compute; reflexivity).
  assert (H2 : scenario !! 2%nat
               = Some (mk_tree (Some "b"%string) (Some "2"%string) 0%nat None
                         (Some 3%nat))) by (vm_compute; reflexivity).
  assert (H3 : scenario_b_x_y !! 2%nat
               = Some (mk_tree (Some "b"%string) (Some "2"%string) 0%nat
                         (Some 5%nat) (Some 3%nat)))
    by (vm_compute; reflexivity).
  split; [exact H|]. split; [exact H2|]. split; [exact H3|].
  exact (expand_tree_keeps_nodes 20 scenario scenario_b_x_y parsed_b_x_y _ _ H
           2%nat _ H2).
Defined.
(** ** The value pool stays within its allocated size *)

Lemma pool_kept_refl (st : state) : pool_kept st st.
Proof. intros F. exact F. Qed.

Lemma pool_kept_trans (a b c : state) :
  pool_kept a b -> pool_kept b c -> pool_kept a c.
Proof. unfold pool_kept. auto. Qed.

Lemma make_value_kept (tag : type) (st st1 : state) (vind : Z) :
  make_value tag st = Ok (st1, vind) -> pool_kept st st1.
Proof. exact (make_value_fits tag st st1 vind). Qed.

Lemma pop_value_kept (st st' : state) (v : option value) :
  pop_value st = Ok (st', v) -> pool_kept st st'.
Proof.
  intros H. apply pop_value_inv in H.
  destruct H as (vind & rest & _ & -> & _). pool_same.
Qed.

Lemma eval_eq_kept (h : heap) (st st' : state) (neq : bool) :
  eval_eq h st neq = Ok st' -> pool_kept st st'.
Proof.
  unfold eval_eq. intros H.
  bind_inv H. destruct a as [st1 r]. apply pop_value_kept in E.
  bind_inv H. destruct a as [st2 l]. apply pop_value_kept in E0.
  destruct l as [lv|]; [|discriminate H].
  destruct r as [rv|]; [|discriminate H].
  bind_inv H.
  apply (pool_kept_trans _ st1); [exact E|].
  apply (pool_kept_trans _ st2); [exact E0|].
  destruct (HAS_ERROR st2); injection H as <-; pool_same.
Qed.

Lemma eval_arith_kept (st st' : state) (op : binary_op) :
  eval_arith st op = Ok st' -> pool_kept st st'.
Proof.
  unfold eval_arith. intros H.
  bind_inv H. destruct a as [st1 r]. apply pop_value_kept in E.
  bind_inv H. destruct a as [st2 l]. apply pop_value_kept in E0.
  destruct l as [[| a | |]|]; try discriminate H.
  destruct r as [[| b | |]|]; try discriminate H.
  bind_inv H. destruct a0 as [st3 vind]. apply make_value_kept in E1.
  apply (pool_kept_trans _ st1); [exact E|].
  apply (pool_kept_trans _ st2); [exact E0|].
  apply (pool_kept_trans _ st3); [exact E1|].
  destruct (HAS_ERROR st3).
  - injection H as <-. apply pool_kept_refl.
  - destruct (negb _); [discriminate H|].
    bind_inv H. injection H as <-. pool_same.
Qed.

Lemma run_impl_kept (i : func_impl) (st st' : state) :
  run_impl i st = Ok st' -> pool_kept st st'.
Proof.
  destruct i; unfold run_impl, func_last, func_position; intros H;
    bind_inv H; destruct a as [st1 vind]; apply make_value_kept in E;
    (apply (pool_kept_trans _ st1); [exact E|]);
    destruct (HAS_ERROR st1); injection H as <-; pool_same.
Qed.

Section EvalPool.
Variable h : heap.
Variable ev : expr -> state -> outcome state.
Hypothesis ev_kept :
  forall (e : expr) (st st' : state), ev e st = Ok st' -> pool_kept st st'.

Lemma eval_binary_kept (op : binary_op) (l r : expr) (st st' : state) :
  eval_binary h ev op l r st = Ok st' -> pool_kept st st'.
Proof.
  unfold eval_binary. intros H.
  bind_inv H. apply ev_kept in E.
  bind_inv H. apply ev_kept in E0.
  apply (pool_kept_trans _ a); [exact E|].
  apply (pool_kept_trans _ a0); [exact E0|].
  destruct (HAS_ERROR a0).
  - injection H as <-. apply pool_kept_refl.
  - destruct op;
      first [exact (eval_eq_kept _ _ _ _ H)|exact (eval_arith_kept _ _ _ H)].
Qed.

Lemma eval_app_from_kept (f : func) (n : nat) :
  forall (args : list expr) (st st' : state),
    eval_app_from ev n args f st = Ok st' -> pool_kept st st'.
Proof.
  induction n as [|n IH]; intros args st st' H; simpl in H.
  - exact (run_impl_kept _ _ _ H).
  - destruct args as [|a rest]; [discriminate H|].
    bind_inv H. apply ev_kept in E.
    apply (pool_kept_trans _ a0); [exact E|].
    destruct (HAS_ERROR a0).
    + injection H as <-. apply pool_kept_refl.
    + exact (IH _ _ _ H).
Qed.

Lemma eval_pred_kept (e : expr) (st st' : state) (b : bool) :
  eval_pred ev e st = Ok (st', b) -> pool_kept st st'.
Proof.
  unfold eval_pred. intros H.
  bind_inv H. apply ev_kept in E.
  bind_inv H. destruct a0 as [st2 v]. apply pop_value_kept in E0.
  apply (pool_kept_trans _ a); [exact E|].
  apply (pool_kept_trans _ st2); [exact E0|].
  destruct v as [[| | |]|]; try discriminate H;
    injection H as <- _; apply pool_kept_refl.
Qed.

Lemma pred_loop_kept (e : expr) (n : nat) :
  forall (st : state) (next : list node) (i : nat) (st' : state)
         (next' : list node),
    pred_loop ev n e st next i = Ok (st', next') -> pool_kept st st'.
Proof.
  induction n as [|n IH]; intros st next i st' next' H; simpl in H.
  - destruct (next !! i); [discriminate H|]. injection H as <- _.
    apply pool_kept_refl.
  - destruct (next !! i) as [c|];
      [|injection H as <- _; apply pool_kept_refl].
    bind_inv H. destruct a as [st1 keep]. apply eval_pred_kept in E.
    apply (pool_kept_trans _ st1); [exact E|].
    destruct keep; apply IH in H; exact H.
Qed.

Lemma apply_predicates_kept (preds : list expr) :
  forall (st : state) (next : list node) (st' : state) (next' : list node),
    apply_predicates ev preds st next = Ok (st', next') ->
    pool_kept st st'.
Proof.
  induction preds as [|p rest IH]; intros st next st' next' H; simpl in H.
  - injection H as <- _. apply pool_kept_refl.
  - bind_inv H. destruct a as [st2 next1]. apply pred_loop_kept in E.
    apply IH in H. apply (pool_kept_trans _ st2); [exact E|exact H].
Qed.

Lemma ns_steps_kept (fuel : nat) (steps : list step) :
  forall (st : state) (work : list node) (nss : list (list node))
         (st' : state) (nss' : list (list node)),
    ns_steps fuel h ev steps st work nss = Ok (st', nss') ->
    pool_kept st st'.
Proof.
  induction steps as [|s rest IH]; intros st work nss st' nss' H; simpl in H.
  - injection H as <- _. apply pool_kept_refl.
  - bind_inv H. bind_inv H. destruct a0 as [st1 next1].
    apply IH in H.
    destruct (step_predicates s) as [preds|].
    + apply apply_predicates_kept in E0.
      apply (pool_kept_trans _ st1); assumption.
    + injection E0 as <- _. exact H.
Qed.

Lemma eval_locpath_kept (fuel : nat) (lp : option (list step))
    (st st' : state) :
  eval_locpath fuel h ev lp st = Ok st' -> pool_kept st st'.
Proof.
  unfold eval_locpath, ns_from_locpath. intros H.
  destruct lp as [steps|]; [|discriminate H].
  bind_inv H. destruct a as [st1 ns].
  assert (K : pool_kept st st1).
  { destruct (HAS_ERROR st); [injection E as <- _; apply pool_kept_refl|].
    destruct (ctx st); [|discriminate E].
    bind_inv E. destruct a as [st0 nss]. apply ns_steps_kept in E0.
    injection E as <- _. exact E0. }
  apply (pool_kept_trans _ st1); [exact K|].
  destruct (HAS_ERROR st1); [injection H as <-; apply pool_kept_refl|].
  destruct ns as [nss|]; [|discriminate H].
  bind_inv H. destruct a as [st2 vind]. apply make_value_kept in E0.
  apply (pool_kept_trans _ st2); [exact E0|].
  destruct (HAS_ERROR st2); [injection H as <-; apply pool_kept_refl|].
  destruct (last nss); [|discriminate H].
  injection H as <-. pool_same.
Qed.
End EvalPool.
Lemma eval_expr_kept (h : heap) (fuel : nat) :
  forall (e : expr) (st st' : state),
    eval_expr fuel h e st = Ok st' -> pool_kept st st'.
Proof.
  induction fuel as [|f IH]; intros e st st' H; [discriminate H|].
  cbn [eval_expr] in H.
  destruct (HAS_ERROR st); [injection H as <-; apply pool_kept_refl|].
  destruct e as [ty lp|ty op l r|ty vind|ty fn args].
  - exact (eval_locpath_kept h _ IH _ _ _ _ H).
  - exact (eval_binary_kept h _ IH _ _ _ _ _ H).
  - injection H as <-. pool_same.
  - exact (eval_app_from_kept _ IH _ _ _ _ _ H).
Qed.

(** X28: the values in use never outgrow the allocated value pool.  The
    state of a path returned by [pathx_parse], whatever its error code,
    has [value_pool_used <= value_pool_size], and so has the state of the
    path that [pathx_first] returns for it: [make_value] takes a slot only
    below the size, doubles the pool when it is full, and refuses a
    doubling that wraps around, so the slot it writes is inside the
    array. *)
Theorem value_pool_within_size (fp fuel : nat) (tree : option node)
    (text : string) (r : pathx_errcode) (p : pathx) (h : heap) :
  (String.length text < fp)%nat ->
  pathx_parse fp tree text = Ok (r, p) ->
  value_pool_used (px_state p) <= value_pool_size (px_state p)
  /\ forall (o : option node) (p' : pathx),
       pathx_first fuel h p = Ok (o, p') ->
       value_pool_used (px_state p') <= value_pool_size (px_state p').
Proof.
  intros Hr H.
  assert (Fp : pool_fits (px_state p)).
  { unfold pathx_parse in H.
    destruct (parse_expr_parses fp (init_state text) Hr) as (st1 & E & A & P).
    rewrite E in H. cbn [obind] in H.
    assert (F1 : pool_fits st1).
    { apply (adv_fits _ _ A). unfold pool_fits, value_pool_used. simpl. lia. }
    destruct (HAS_ERROR st1) eqn:He; [injection H as _ <-; exact F1|].
    destruct (P eq_refl) as (e & [X W S]).
    simpl in X, W. rewrite X in H. rewrite andb_true_r in W.
    destruct (check_expr_total fp e st1) as (st2 & e1 & Hc & C & T).
    { change (remaining (init_state text)) with (String.length text) in S.
      simpl in S. lia. }
    { exact W. }
    rewrite Hc in H. cbn [obind] in H.
    assert (F2 : pool_fits st2) by (destruct C as [->| ->]; exact F1).
    change (HAS_ERROR (set_exprs [e1] st2)) with (HAS_ERROR st2) in H.
    destruct (HAS_ERROR st2); [injection H as _ <-; exact F2|].
    destruct (negb (bool_decide (expr_type e1 = T_NODESET))
              || negb (bool_decide (tag_of e1 = Tag_LOCPATH)));
      injection H as _ <-; exact F2. }
  split; [exact Fp|].
  intros o p' H1. unfold pathx_first in H1.
  destruct (px_nodeset p) as [ns|]; [injection H1 as _ <-; exact Fp|].
  destruct (exprs_bottom _) as [e|]; [|discriminate H1].
  bind_inv H1. apply eval_expr_kept in E.
  assert (F1 : pool_fits a) by (apply E; exact Fp).
  destruct (HAS_ERROR a); [injection H1 as _ <-; exact F1|].
  destruct (negb _); [injection H1 as _ <-; exact F1|].
  bind_inv H1. destruct a0 as [st2 v]. apply pop_value_kept in E0.
  destruct v as [[| | |ns]|]; try discriminate H1.
  injection H1 as _ <-. exact (E0 F1).
Qed.

Lemma value_pool_within_size_witness :
  (String.length text_full < 50)%nat
  /\ pathx_parse 50 (Some 0%nat) text_full = Ok (PATHX_NOERROR, parsed_full)
  /\ pathx_first 50 scenario parsed_full = Ok first_full
  /\ value_pool_size (px_state parsed_full) = 16
  /\ value_pool_size (px_state (snd first_full)) = 32
  /\ value_pool_used (px_state parsed_full)
     <= value_pool_size (px_state parsed_full)
  /\ value_pool_used (px_state (snd first_full))
     <= value_pool_size (px_state (snd first_full)).
Proof.
  assert (Hr : (String.length text_full < 50)%nat) by (vm_compute; lia).
  assert (Hp : pathx_parse 50 (Some 0%nat) text_full
               = Ok (PATHX_NOERROR, parsed_full)) by (vm_compute; reflexivity).
  assert (Hf : pathx_first 50 scenario parsed_full = Ok first_full)
    by (vm_compute; reflexivity).
  assert (Hs : value_pool_size (px_state parsed_full) = 16)
    by (vm_compute; reflexivity).
  assert (Hs' : value_pool_size (px_state (snd first_full)) = 32)
    by (vm_compute; reflexivity).
  repeat (split; [assumption|]).
  destruct (value_pool_within_size 50 50 (Some 0%nat) text_full PATHX_NOERROR
              parsed_full scenario Hr Hp) as [F1 F2].
  split; [exact F1|].
  exact (F2 (fst first_full) (snd first_full) Hf).
Defined.
(** ** Calling [pathx_first] again *)

(** C9: the first call of [pathx_first] computes the node set and keeps it
    in the compiled path, and a later call does not evaluate again.  On a
    path that holds no node set yet, whose expression evaluates without
    error to one value, the node set [ns], the call stores [ns] in the
    path, sets the cursor to 0 and returns the first entry of [ns], absent
    when [ns] is empty.  Every later call on that path, wherever the
    cursor stands by then, returns the same and leaves the path as the
    first call left it, with the cursor at 0 again; it does so with any
    fuel, none included, and on any tree, so it does not evaluate the
    expression. *)
Theorem pathx_first_again (fuel : nat) (h : heap) (p : pathx) (e : expr)
    (st1 : state) (vind : Z) (ns : list node) :
  px_nodeset p = None ->
  exprs_bottom (px_state p) = Some e ->
  eval_expr fuel h e
    (set_ctx_len 1 (set_ctx_pos 1 (set_ctx (px_origin p) (px_state p))))
  = Ok st1 ->
  HAS_ERROR st1 = false ->
  values st1 = [vind] ->
  value_pool st1 !! Z.to_nat vind = Some (V_nodeset ns) ->
  pathx_first fuel h p
  = Ok (ns !! 0%nat,
        set_px_node 0
          (set_px_nodeset (Some ns) (set_px_state (set_values [] st1) p)))
  /\ forall (fuel' : nat) (h' : heap) (k : Z),
       pathx_first fuel' h'
         (set_px_node k
            (set_px_node 0
               (set_px_nodeset (Some ns)
                  (set_px_state (set_values [] st1) p))))
       = Ok (ns !! 0%nat,
             set_px_node 0
               (set_px_nodeset (Some ns)
                  (set_px_state (set_values [] st1) p))).
Proof.
  intros Hn Hb Hev He Hvs Hl. split.
  - unfold pathx_first. rewrite Hn.
    change (exprs_bottom
              (set_ctx_len 1 (set_ctx_pos 1
                 (set_ctx (px_origin p) (px_state p)))))
      with (exprs_bottom (px_state p)).
    rewrite Hb, Hev. cbn [obind].
    rewrite He, Hvs. simpl.
    rewrite (pop_value_top st1 vind [] (V_nodeset ns) Hvs He Hl).
    reflexivity.
  - intros fuel' h' k. reflexivity.
Qed.

Lemma pathx_first_again_witness :
  px_nodeset parsed_a_up = None
  /\ exprs_bottom (px_state parsed_a_up) = Some expr_a_up
  /\ eval_expr 20 scenario expr_a_up
       (set_ctx_len 1 (set_ctx_pos 1
          (set_ctx (px_origin parsed_a_up) (px_state parsed_a_up))))
     = Ok evaluated_a_up
  /\ HAS_ERROR evaluated_a_up = false
  /\ values evaluated_a_up = [2]
  /\ value_pool evaluated_a_up !! Z.to_nat 2
     = Some (V_nodeset [0%nat; 0%nat])
  /\ pathx_first 20 scenario parsed_a_up
     = Ok ([0%nat; 0%nat] !! 0%nat,
           set_px_node 0
             (set_px_nodeset (Some [0%nat; 0%nat])
                (set_px_state (set_values [] evaluated_a_up) parsed_a_up)))
  /\ forall (fuel' : nat) (h' : heap) (k : Z),
       pathx_first fuel' h'
         (set_px_node k
            (set_px_node 0
               (set_px_nodeset (Some [0%nat; 0%nat])
                  (set_px_state (set_values [] evaluated_a_up)
                     parsed_a_up))))
       = Ok ([0%nat; 0%nat] !! 0%nat,
             set_px_node 0
               (set_px_nodeset (Some [0%nat; 0%nat])
                  (set_px_state (set_values [] evaluated_a_up)
                     parsed_a_up))).
Proof.
  assert (Hn : px_nodeset parsed_a_up = None) by reflexivity.
  assert (Hb : exprs_bottom (px_state parsed_a_up) = Some expr_a_up)
    by (vm_compute; reflexivity).
  assert (Hev : eval_expr 20 scenario expr_a_up
                  (set_ctx_len 1 (set_ctx_pos 1
                     (set_ctx (px_origin parsed_a_up)
                        (px_state parsed_a_up))))
                = Ok evaluated_a_up) by (vm_compute; reflexivity).
  assert (He : HAS_ERROR evaluated_a_up = false) by reflexivity.
  assert (Hvs : values evaluated_a_up = [2]) by reflexivity.
  assert (Hl : value_pool evaluated_a_up !! Z.to_nat 2
               = Some (V_nodeset [0%nat; 0%nat]))
    by (vm_compute; reflexivity).
  repeat (split; [assumption|]).
  exact (pathx_first_again 20 scenario parsed_a_up expr_a_up evaluated_a_up 2
           [0%nat; 0%nat] Hn Hb Hev He Hvs Hl).
Defined.

(** ** A predicate that is not closed *)






(** *** The names before the predicates *)






Section NamesThenTail.
Variable bound : nat.
Variable rec : state -> outcome state.


End NamesThenTail.


Section UnclosedPath.
Variable bound : nat.
Variable rec : state -> outcome state.
Variable r : string.
Variable st0 s : state.
Hypothesis Hpreds :
  parse_predicates bound rec (set_pos (String L_BRACK r) st0) = Ok (s, None).
Hypothesis Hs : HAS_ERROR s = true.




End UnclosedPath.



(** The first error is the one that [pathx_parse] returns: in the text
    [a[]/b[1] the empty predicate fails with [PATHX_ENAME] before the
    predicate that is not closed is read.  White space before the
    character that should be the closing bracket is skipped. *)
Example first_error_example :
  (do '(code, p) <- pathx_parse 12 None "a[]/b[1";
   Ok (code, pos (px_state p)))
  = Ok (PATHX_ENAME, "]/b[1")
  /\ (do '(code, p) <- pathx_parse 12 None "/a[1] [ 2 x";
      Ok (code, pos (px_state p)))
     = Ok (PATHX_EPRED, "x").
Proof. split; vm_compute; reflexivity. Qed.
